(** * Pinetree: the polymer engine of [src/pinetree/polymer.cpp]

    A shallow embedding of the polymer substrate (class [Polymer] and its
    specialisations [Transcript] and [Genome]) together with the signal class
    of [src/event_signal.hpp], and the properties of the engine that the
    specification states.

    Conventions of the embedding.
    - C++ [int] is [Z]; signed overflow is undefined behaviour in C++ and lies
      outside the model.  A comparison of an [int] with a [size_t] converts
      the [int] first ([to_size_t]).
    - C++ [double] is the carrier [num] of a [Platform]; [ieee_platform]
      instantiates it with binary64 floats.
    - Objects held through [std::shared_ptr] live in stores (lists) and a
      pointer is an index into its store.
    - A member function is a state transformer over the [World] whose result
      is an [outcome]: a normal return, a C++ exception together with the
      state at the [throw], or undefined behaviour. *)

From Stdlib Require Import ZArith Floats.PrimFloat Floats.SpecFloat Floats.FloatOps.
From stdpp Require Import gmap strings list.

Local Open Scope Z_scope.

(** ** What the translation unit takes from its environment *)

(** [double] arithmetic, and two facts about headers that are not part of the
    sources: whether the out-parameter of [IntervalTree::findOverlapping]
    keeps what it already holds, and how a terminator compares reading
    frames. *)
Class Platform := {
  num : Type;
  num_zero : num;
  num_one : num;
  num_add : num -> num -> num;
  num_sub : num -> num -> num;
  num_mul : num -> num -> num;
  num_leb : num -> num -> bool;
  num_eqb : num -> num -> bool;
  (** [results_append = true]: a query pushes its hits onto the vector it is
      given; [false]: the vector is emptied first. *)
  results_append : bool;
  (** [frame_admits site_frame pol_frame]: the reading-frame part of
      [Terminator::CheckInteraction(name, reading_frame)]. *)
  frame_admits : Z -> Z -> bool;
  (** The reading frame of a terminator on which [set_reading_frame] was
      never called. *)
  no_reading_frame : Z
}.

(** Conversion of an [int] to the 64-bit [size_t] it is compared with. *)
Definition to_size_t (i : Z) : Z := i mod 2 ^ 64.

(** ** Outcomes *)

(** The [std::runtime_error]s of polymer.cpp, named as the specification
    names them. *)
Inductive exn : Type :=
  | NoFreePromoter      (* "could not find free promoter ... to bind" *)
  | NoInteraction       (* "does not interact with promoter" *)
  | MaskOverlap         (* "will overlap with mask upon promoter binding" *)
  | NoPropensity        (* "Attempting to execute polymer with reaction propensity of 0." *)
  | NoActivePolymerase  (* "There are no active polymerases on polymer" *)
  | UnboundPolymerase   (* "Attempting to move unbound polymerase with index" *)
  | InvalidIndex        (* "Prop list vector index is invalid" *)
  | PropListSize        (* "Prop list not correct size." *)
  | NegativeUncovered   (* "Cached count of uncovered element ... cannot be a negative value" *)
  | MissingWeight       (* "Weight is missing for this position." *)
  | InvalidOverlap      (* "is overlapping ... by more than one position" *)
  | LengthError         (* std::length_error *)
  | EmptyOrZeroSum.     (* the sampler was given nothing to choose from *)

Inductive outcome (W A : Type) : Type :=
  | Ok (a : A) (w : W)
  | Throw (e : exn) (w : W)
  | Undefined.
Arguments Ok {W A} a w.
Arguments Throw {W A} e w.
Arguments Undefined {W A}.

Definition M (W A : Type) : Type := W -> outcome W A.

Definition ret {W A} (a : A) : M W A := fun w => Ok a w.

Definition bind {W A B} (m : M W A) (k : A -> M W B) : M W B :=
  fun w => match m w with
           | Ok a w' => k a w'
           | Throw e w' => Throw e w'
           | Undefined => Undefined
           end.

Definition throw {W A} (e : exn) : M W A := fun w => Throw e w.
Definition undefined {W A} : M W A := fun _ => Undefined.
Definition get {W} : M W W := fun w => Ok w w.
Definition modify {W} (f : W -> W) : M W unit := fun w => Ok tt (f w).

(** Dereference of a pointer or of a vector index: undefined when it does not
    designate an object. *)
Definition deref {W A} (o : option A) : M W A :=
  match o with Some a => ret a | None => undefined end.

Notation "'let*' x ':=' m 'in' k" := (bind m (fun x => k))
  (at level 10, x pattern, m at level 100, k at level 200).
Notation "m ';;' k" := (bind m (fun _ => k))
  (at level 100, k at level 200, right associativity).

(** [for (auto &x : xs) body(x);] *)
Fixpoint for_each {W A} (xs : list A) (body : A -> M W unit) : M W unit :=
  match xs with
  | [] => ret tt
  | x :: xs' => body x ;; for_each xs' body
  end.

(** [for (int i = 0; i < n; i++) body;] with a body that does not read [i]:
    the body runs [n] times, and not at all when [n <= 0]. *)
Fixpoint times {W} (n : nat) (body : M W unit) : M W unit :=
  match n with
  | O => ret tt
  | S n' => body ;; times n' body
  end.

Definition for_upto {W} (n : Z) (body : M W unit) : M W unit :=
  times (Z.to_nat n) body.

(** ** event_signal.hpp *)

Module Signal.
(** [slots_] is a [std::map<int, std::function<void(Args...)>>]: kept here
    as the list of its entries in increasing key order, which is the order
    in which a range-for visits them.  [S] is the type of the callables: a
    closure is kept as the data that determines it. *)
Record t (S : Type) : Type := mk { slots_ : list (Z * S); current_id_ : Z }.
Arguments mk {S} _ _.
Arguments slots_ {S} _.
Arguments current_id_ {S} _.

Section Methods.
Context {S : Type}.

(** [Signal() : current_id_(0) {}] *)
Definition new : t S := mk [] 0.

(** [Signal(Signal const &other) : current_id_(0) {}] *)
Definition copy (other : t S) : t S := mk [] 0.

(** [std::map::insert]: an entry whose key is present is left alone. *)
Fixpoint map_insert (k : Z) (v : S) (m : list (Z * S)) : list (Z * S) :=
  match m with
  | [] => [(k, v)]
  | (k', v') :: m' =>
      if k <? k' then (k, v) :: (k', v') :: m'
      else if k =? k' then (k', v') :: m'
      else (k', v') :: map_insert k v m'
  end.

(** [slots_.insert(std::make_pair(++current_id_, slot)); return current_id_;] *)
Definition connect (slot : S) (s : t S) : Z * t S :=
  let id := current_id_ s + 1 in
  (id, mk (map_insert id slot (slots_ s)) id).

(** [connect_member(inst, func)]: [connect] of the closure
    [[=](Args... args) { (inst->*func)(args...); }], given as [closure]. *)
Definition connect_member (closure : S) (s : t S) : Z * t S :=
  connect closure s.

(** [slots_.erase(id);] *)
Definition disconnect (id : Z) (s : t S) : t S :=
  mk (filter (fun kv => kv.1 ≠ id) (slots_ s)) (current_id_ s).

(** [slots_.clear();] *)
Definition disconnect_all (s : t S) : t S := mk [] (current_id_ s).

(** [operator=]: [disconnect_all();] *)
Definition assign (s other : t S) : t S := disconnect_all s.

(** [for (auto it : slots_) it.second(p...);] where [call] runs a
    callable on the state. *)
Definition emit {W} (call : S -> M W unit) (s : t S) : M W unit :=
  for_each (slots_ s) (fun it => call it.2).
End Methods.
End Signal.

(** The callables connected in polymer.cpp: [ConnectMember(transcript,
    &Transcript::ShiftMask)] stores the closure that calls [ShiftMask] on the
    transcript it captured. *)
Inductive Slot : Type :=
  | Call_ShiftMask (transcript : nat).

(** ** Sites and polymerases *)

Module Promoter.
Section Class.
Context `{Platform}.

(** Modelled from the spec: the class [Promoter] (its header is not part
    of the sources), section 3 and 4.3. *)
Record t : Type := mk {
  name : string;
  start : Z;
  stop : Z;
  interactions : gmap string num;
  type : string;
  gene : string;
  covered : bool;
  previously_covered : bool
}.

Definition new (n : string) (a b : Z) (i : gmap string num) : t :=
  mk n a b i "promoter" "" false false.

Definition Cover (s : t) : t :=
  mk (name s) (start s) (stop s) (interactions s) (type s) (gene s)
     true (previously_covered s).
Definition Uncover (s : t) : t :=
  mk (name s) (start s) (stop s) (interactions s) (type s) (gene s)
     false (previously_covered s).
Definition SaveState (s : t) : t :=
  mk (name s) (start s) (stop s) (interactions s) (type s) (gene s)
     (covered s) (covered s).
Definition set_gene (g : string) (s : t) : t :=
  mk (name s) (start s) (stop s) (interactions s) (type s) g
     (covered s) (previously_covered s).
Definition IsCovered (s : t) : bool := covered s.
Definition WasCovered (s : t) : bool := covered s && negb (previously_covered s).
Definition WasUncovered (s : t) : bool := negb (covered s) && previously_covered s.
Definition CheckInteraction (species : string) (s : t) : bool :=
  bool_decide (is_Some (interactions s !! species)).
(** A copy whose state is reset to uncovered. *)
Definition Clone (s : t) : t :=
  mk (name s) (start s) (stop s) (interactions s) (type s) (gene s)
     false false.
End Class.
End Promoter.

Module Terminator.
Section Class.
Context `{Platform}.

(** Modelled from the spec: the class [Terminator] (its header is not
    part of the sources), section 3 and 4.3.  [interactions] maps a
    species to its termination efficiency. *)
Record t : Type := mk {
  name : string;
  start : Z;
  stop : Z;
  interactions : gmap string num;
  reading_frame : Z;
  gene : string;
  readthrough : bool;
  covered : bool;
  previously_covered : bool
}.

Definition new (n : string) (a b : Z) (i : gmap string num) : t :=
  mk n a b i no_reading_frame "" false false false.

Definition set_reading_frame (f : Z) (s : t) : t :=
  mk (name s) (start s) (stop s) (interactions s) f (gene s)
     (readthrough s) (covered s) (previously_covered s).
Definition set_gene (g : string) (s : t) : t :=
  mk (name s) (start s) (stop s) (interactions s) (reading_frame s) g
     (readthrough s) (covered s) (previously_covered s).
Definition set_readthrough (b : bool) (s : t) : t :=
  mk (name s) (start s) (stop s) (interactions s) (reading_frame s) (gene s)
     b (covered s) (previously_covered s).
(** [CheckInteraction(name, reading_frame)] *)
Definition CheckInteraction (species : string) (frame : Z) (s : t) : bool :=
  bool_decide (is_Some (interactions s !! species))
  && frame_admits (reading_frame s) frame.
(** The per-species efficiency, 0 if absent. *)
Definition efficiency (species : string) (s : t) : num :=
  default num_zero (interactions s !! species).
Definition Clone (s : t) : t :=
  mk (name s) (start s) (stop s) (interactions s) (reading_frame s) (gene s)
     false false false.
End Class.
End Terminator.

Module Mask.
Section Class.
Context `{Platform}.

(** Modelled from the spec: the class [Mask] (its header is not part of
    the sources), section 3.  The mask spans [start .. stop]. *)
Record t : Type := mk {
  name : string;
  start : Z;
  stop : Z;
  interactions : gmap string num
}.

Definition Recede (m : t) : t :=
  mk (name m) (start m + 1) (stop m) (interactions m).
Definition CheckInteraction (species : string) (m : t) : bool :=
  bool_decide (is_Some (interactions m !! species)).
End Class.
End Mask.

Module Polymerase.
Section Class.
Context `{Platform}.

(** Modelled from the spec: the data members of the class [Polymerase]
    (its header is not part of the sources), section 3. *)
Record t : Type := mk {
  name : string;
  footprint : Z;
  speed : num;
  start : Z;
  stop : Z;
  reading_frame : Z;
  move_signal_ : Signal.t Slot
}.

Definition set_start (a : Z) (p : t) : t :=
  mk (name p) (footprint p) (speed p) a (stop p) (reading_frame p)
     (move_signal_ p).
Definition set_stop (b : Z) (p : t) : t :=
  mk (name p) (footprint p) (speed p) (start p) b (reading_frame p)
     (move_signal_ p).
Definition set_reading_frame (f : Z) (p : t) : t :=
  mk (name p) (footprint p) (speed p) (start p) (stop p) f
     (move_signal_ p).
Definition set_move_signal (s : Signal.t Slot) (p : t) : t :=
  mk (name p) (footprint p) (speed p) (start p) (stop p) (reading_frame p) s.
End Class.
End Polymerase.

(** ** IntervalTree.h *)

Module Interval.
(** [Interval<T::Ptr>]: the bounds and the pointer, an index into the store
  of the polymer that owns the tree. *)
Record t : Type := mk { start : Z; stop : Z; value : nat }.
End Interval.

Module IntervalTree.
Section Class.
Context `{Platform}.

(** Modelled from the spec: the interval index (IntervalTree.h is not
    part of the sources), section 4.1.  The tree is kept as the list it
    was built from; hits come in that order. *)
Definition t : Type := list Interval.t.

Definition build (intervals : list Interval.t) : t := intervals.

Definition overlaps (q_start q_stop : Z) (i : Interval.t) : bool :=
  (Interval.start i <=? q_stop) && (q_start <=? Interval.stop i).

Definition contained (q_start q_stop : Z) (i : Interval.t) : bool :=
  (q_start <=? Interval.start i) && (Interval.stop i <=? q_stop).

(** [tree.findOverlapping(q_start, q_stop, results)]: the new value of
    the out-parameter [results]. *)
Definition findOverlapping (tree : t) (q_start q_stop : Z)
    (results : list Interval.t) : list Interval.t :=
  (if results_append then results else [])
    ++ filter (fun i => overlaps q_start q_stop i = true) tree.

Definition findContained (tree : t) (q_start q_stop : Z)
    (results : list Interval.t) : list Interval.t :=
  (if results_append then results else [])
    ++ filter (fun i => contained q_start q_stop i = true) tree.
End Class.
End IntervalTree.

(** ** The classes of polymer.hpp *)

Module Polymer.
Section Class.
Context `{Platform}.

(** The members that [Genome] adds to [Polymer]. *)
Record genome_members : Type := mk_genome {
  transcript_rbs_intervals_ : list Interval.t;
  transcript_stop_site_intervals_ : list Interval.t;
  transcript_rbs_ : IntervalTree.t;
  transcript_stop_sites_ : IntervalTree.t;
  transcript_weights_ : list num;
  bindings_ : gmap string (gmap string num)
}.

Definition set_transcript_rbs_intervals_ (x : list Interval.t) (P : genome_members) : genome_members :=
  mk_genome x (transcript_stop_site_intervals_ P) (transcript_rbs_ P)
     (transcript_stop_sites_ P) (transcript_weights_ P) (bindings_ P).
Definition set_transcript_stop_site_intervals_ (x : list Interval.t) (P : genome_members) : genome_members :=
  mk_genome (transcript_rbs_intervals_ P) x (transcript_rbs_ P)
     (transcript_stop_sites_ P) (transcript_weights_ P) (bindings_ P).
Definition set_transcript_rbs_ (x : IntervalTree.t) (P : genome_members) : genome_members :=
  mk_genome (transcript_rbs_intervals_ P) (transcript_stop_site_intervals_ P) x
     (transcript_stop_sites_ P) (transcript_weights_ P) (bindings_ P).
Definition set_transcript_stop_sites_ (x : IntervalTree.t) (P : genome_members) : genome_members :=
  mk_genome (transcript_rbs_intervals_ P) (transcript_stop_site_intervals_ P)
     (transcript_rbs_ P) x (transcript_weights_ P) (bindings_ P).
Definition set_transcript_weights_ (x : list num) (P : genome_members) : genome_members :=
  mk_genome (transcript_rbs_intervals_ P) (transcript_stop_site_intervals_ P)
     (transcript_rbs_ P) (transcript_stop_sites_ P) x (bindings_ P).
Definition set_bindings_ (x : gmap string (gmap string num)) (P : genome_members) : genome_members :=
  mk_genome (transcript_rbs_intervals_ P) (transcript_stop_site_intervals_ P)
     (transcript_rbs_ P) (transcript_stop_sites_ P) (transcript_weights_ P)
     x.

(** The dynamic type of a polymer object. *)
Inductive subclass : Type :=
  | Base
  | Transcript
  | Genome (g : genome_members).

(** The data members of [Polymer] that polymer.cpp uses.  [promoters] and
    [terminators] are the stores of the site objects that the
    [Promoter::Ptr] and [Terminator::Ptr] of this polymer's intervals point
    to: polymer.cpp never shares a site between two polymers (a transcript
    receives clones). *)
Record t : Type := mk {
  name_ : string;
  index_ : Z;
  start_ : Z;
  stop_ : Z;
  promoters : list Promoter.t;
  terminators : list Terminator.t;
  binding_intervals_ : list Interval.t;
  release_intervals_ : list Interval.t;
  binding_sites_ : IntervalTree.t;
  release_sites_ : IntervalTree.t;
  weights_ : list num;
  mask_ : Mask.t;
  polymerases_ : list nat;
  prop_list_ : list num;
  prop_sum_ : num;
  uncovered_ : gmap string Z;
  species_log_ : gmap string Z;
  derived : subclass
}.

Definition set_index_ (x : Z) (P : t) : t :=
  mk (name_ P) x (start_ P) (stop_ P) (promoters P) (terminators P)
     (binding_intervals_ P) (release_intervals_ P) (binding_sites_ P)
     (release_sites_ P) (weights_ P) (mask_ P) (polymerases_ P)
     (prop_list_ P) (prop_sum_ P) (uncovered_ P) (species_log_ P) (derived P)
    .
Definition set_promoters (x : list Promoter.t) (P : t) : t :=
  mk (name_ P) (index_ P) (start_ P) (stop_ P) x (terminators P)
     (binding_intervals_ P) (release_intervals_ P) (binding_sites_ P)
     (release_sites_ P) (weights_ P) (mask_ P) (polymerases_ P)
     (prop_list_ P) (prop_sum_ P) (uncovered_ P) (species_log_ P) (derived P)
    .
Definition set_terminators (x : list Terminator.t) (P : t) : t :=
  mk (name_ P) (index_ P) (start_ P) (stop_ P) (promoters P) x
     (binding_intervals_ P) (release_intervals_ P) (binding_sites_ P)
     (release_sites_ P) (weights_ P) (mask_ P) (polymerases_ P)
     (prop_list_ P) (prop_sum_ P) (uncovered_ P) (species_log_ P) (derived P)
    .
Definition set_binding_intervals_ (x : list Interval.t) (P : t) : t :=
  mk (name_ P) (index_ P) (start_ P) (stop_ P) (promoters P) (terminators P)
     x (release_intervals_ P) (binding_sites_ P) (release_sites_ P)
     (weights_ P) (mask_ P) (polymerases_ P) (prop_list_ P) (prop_sum_ P)
     (uncovered_ P) (species_log_ P) (derived P).
Definition set_release_intervals_ (x : list Interval.t) (P : t) : t :=
  mk (name_ P) (index_ P) (start_ P) (stop_ P) (promoters P) (terminators P)
     (binding_intervals_ P) x (binding_sites_ P) (release_sites_ P)
     (weights_ P) (mask_ P) (polymerases_ P) (prop_list_ P) (prop_sum_ P)
     (uncovered_ P) (species_log_ P) (derived P).
Definition set_binding_sites_ (x : IntervalTree.t) (P : t) : t :=
  mk (name_ P) (index_ P) (start_ P) (stop_ P) (promoters P) (terminators P)
     (binding_intervals_ P) (release_intervals_ P) x (release_sites_ P)
     (weights_ P) (mask_ P) (polymerases_ P) (prop_list_ P) (prop_sum_ P)
     (uncovered_ P) (species_log_ P) (derived P).
Definition set_release_sites_ (x : IntervalTree.t) (P : t) : t :=
  mk (name_ P) (index_ P) (start_ P) (stop_ P) (promoters P) (terminators P)
     (binding_intervals_ P) (release_intervals_ P) (binding_sites_ P) x
     (weights_ P) (mask_ P) (polymerases_ P) (prop_list_ P) (prop_sum_ P)
     (uncovered_ P) (species_log_ P) (derived P).
Definition set_weights_ (x : list num) (P : t) : t :=
  mk (name_ P) (index_ P) (start_ P) (stop_ P) (promoters P) (terminators P)
     (binding_intervals_ P) (release_intervals_ P) (binding_sites_ P)
     (release_sites_ P) x (mask_ P) (polymerases_ P) (prop_list_ P)
     (prop_sum_ P) (uncovered_ P) (species_log_ P) (derived P).
Definition set_mask_ (x : Mask.t) (P : t) : t :=
  mk (name_ P) (index_ P) (start_ P) (stop_ P) (promoters P) (terminators P)
     (binding_intervals_ P) (release_intervals_ P) (binding_sites_ P)
     (release_sites_ P) (weights_ P) x (polymerases_ P) (prop_list_ P)
     (prop_sum_ P) (uncovered_ P) (species_log_ P) (derived P).
Definition set_polymerases_ (x : list nat) (P : t) : t :=
  mk (name_ P) (index_ P) (start_ P) (stop_ P) (promoters P) (terminators P)
     (binding_intervals_ P) (release_intervals_ P) (binding_sites_ P)
     (release_sites_ P) (weights_ P) (mask_ P) x (prop_list_ P) (prop_sum_ P)
     (uncovered_ P) (species_log_ P) (derived P).
Definition set_prop_list_ (x : list num) (P : t) : t :=
  mk (name_ P) (index_ P) (start_ P) (stop_ P) (promoters P) (terminators P)
     (binding_intervals_ P) (release_intervals_ P) (binding_sites_ P)
     (release_sites_ P) (weights_ P) (mask_ P) (polymerases_ P) x
     (prop_sum_ P) (uncovered_ P) (species_log_ P) (derived P).
Definition set_prop_sum_ (x : num) (P : t) : t :=
  mk (name_ P) (index_ P) (start_ P) (stop_ P) (promoters P) (terminators P)
     (binding_intervals_ P) (release_intervals_ P) (binding_sites_ P)
     (release_sites_ P) (weights_ P) (mask_ P) (polymerases_ P)
     (prop_list_ P) x (uncovered_ P) (species_log_ P) (derived P).
Definition set_uncovered_ (x : gmap string Z) (P : t) : t :=
  mk (name_ P) (index_ P) (start_ P) (stop_ P) (promoters P) (terminators P)
     (binding_intervals_ P) (release_intervals_ P) (binding_sites_ P)
     (release_sites_ P) (weights_ P) (mask_ P) (polymerases_ P)
     (prop_list_ P) (prop_sum_ P) x (species_log_ P) (derived P).
Definition set_species_log_ (x : gmap string Z) (P : t) : t :=
  mk (name_ P) (index_ P) (start_ P) (stop_ P) (promoters P) (terminators P)
     (binding_intervals_ P) (release_intervals_ P) (binding_sites_ P)
     (release_sites_ P) (weights_ P) (mask_ P) (polymerases_ P)
     (prop_list_ P) (prop_sum_ P) (uncovered_ P) x (derived P).
Definition set_derived (x : subclass) (P : t) : t :=
  mk (name_ P) (index_ P) (start_ P) (stop_ P) (promoters P) (terminators P)
     (binding_intervals_ P) (release_intervals_ P) (binding_sites_ P)
     (release_sites_ P) (weights_ P) (mask_ P) (polymerases_ P)
     (prop_list_ P) (prop_sum_ P) (uncovered_ P) (species_log_ P) x.
End Class.
End Polymer.

(** ** The world: every object of a simulation *)

(** What leaves the modelled code: signals whose subscribers live in the
    simulation, and calls to the species tracker.  [Ev_move_signal] records
    an [Emit] of a polymerase's [move_signal_], whose slots are run by the
    model itself. *)
Inductive Event : Type :=
  | Ev_move_signal (pol : nat)
  | Ev_termination_signal (index : Z) (pol_name gene : string)
  | Ev_transcript_signal (transcript : nat)
  | Ev_IncrementRibo (gene : string) (n : Z).

Module World.
Section Class.
Context `{Platform}.

(** [polymerases] and [polymers] are the stores behind [Polymerase::Ptr] and
    [Polymer::Ptr]; [random_reals], [random_choices] and [random_pos] are the
    state of the random number generator: the draws to come and how many were
    consumed. *)
Record t : Type := mk {
  polymerases : list Polymerase.t;
  polymers : list Polymer.t;
  trace : list Event;
  random_reals : nat -> num;
  random_choices : nat -> nat;
  random_pos : nat
}.

Definition set_polymerases (x : list Polymerase.t) (P : t) : t :=
  mk x (polymers P) (trace P) (random_reals P) (random_choices P)
     (random_pos P).
Definition set_polymers (x : list Polymer.t) (P : t) : t :=
  mk (polymerases P) x (trace P) (random_reals P) (random_choices P)
     (random_pos P).
Definition set_trace (x : list Event) (P : t) : t :=
  mk (polymerases P) (polymers P) x (random_reals P) (random_choices P)
     (random_pos P).
Definition set_random_reals (x : nat -> num) (P : t) : t :=
  mk (polymerases P) (polymers P) (trace P) x (random_choices P)
     (random_pos P).
Definition set_random_choices (x : nat -> nat) (P : t) : t :=
  mk (polymerases P) (polymers P) (trace P) (random_reals P) x (random_pos P)
    .
Definition set_random_pos (x : nat) (P : t) : t :=
  mk (polymerases P) (polymers P) (trace P) (random_reals P)
     (random_choices P) x.
End Class.
End World.

(** ** polymer.cpp *)

Section Engine.
Context `{Platform}.

(** *** Access to the objects of the world *)

(** Run a member function on the polymer that [this] points to. *)
Definition on_polymer {A} (this : nat) (m : M Polymer.t A) : M World.t A :=
  fun w =>
    match World.polymers w !! this with
    | None => Undefined
    | Some P =>
        match m P with
        | Ok a P' => Ok a (World.set_polymers (<[this := P']> (World.polymers w)) w)
        | Throw e P' => Throw e (World.set_polymers (<[this := P']> (World.polymers w)) w)
        | Undefined => Undefined
        end
    end.

Definition get_polymer (this : nat) : M World.t Polymer.t :=
  on_polymer this get.

Definition get_polymerase (pol : nat) : M World.t Polymerase.t :=
  fun w => deref (World.polymerases w !! pol) w.

Definition update_polymerase (pol : nat) (f : Polymerase.t -> Polymerase.t)
    : M World.t unit :=
  let* p := get_polymerase pol in
  modify (fun w => World.set_polymerases (<[pol := f p]> (World.polymerases w)) w).

Definition get_promoter (site : nat) : M Polymer.t Promoter.t :=
  fun P => deref (Polymer.promoters P !! site) P.

Definition update_promoter (site : nat) (f : Promoter.t -> Promoter.t)
    : M Polymer.t unit :=
  let* s := get_promoter site in
  modify (fun P => Polymer.set_promoters (<[site := f s]> (Polymer.promoters P)) P).

Definition get_terminator (site : nat) : M Polymer.t Terminator.t :=
  fun P => deref (Polymer.terminators P !! site) P.

Definition update_terminator (site : nat) (f : Terminator.t -> Terminator.t)
    : M Polymer.t unit :=
  let* s := get_terminator site in
  modify (fun P => Polymer.set_terminators (<[site := f s]> (Polymer.terminators P)) P).

Definition log (e : Event) : M World.t unit :=
  modify (fun w => World.set_trace (World.trace w ++ [e]) w).

(** [v[i]] for a [std::vector] and an [int] index. *)
Definition vector_at {A} (v : list A) (i : Z) : option A :=
  if i <? 0 then None else v !! Z.to_nat i.

(** [v.insert(v.begin() + i, x)] for [i <= v.size()]. *)
Definition vector_insert {A} (i : nat) (x : A) (v : list A) : list A :=
  take i v ++ x :: drop i v.

(** *** choices.hpp *)

(** Modelled from the spec: [Random::random()] (choices.hpp is not part of
    the sources), section 6: the next uniform draw. *)
Definition Random_random : M World.t num :=
  fun w => Ok (World.random_reals w (World.random_pos w))
              (World.set_random_pos (S (World.random_pos w)) w).

(** Modelled from the spec: [Random::WeightedChoice(items)] (choices.hpp is
    not part of the sources), section 4.2: one of the items, here the one the
    generator's next choice designates. *)
Definition Random_WeightedChoice {A} (items : list A) : M World.t A :=
  fun w =>
    match items !! (World.random_choices w (World.random_pos w) `mod` length items)%nat with
    | Some x => Ok x (World.set_random_pos (S (World.random_pos w)) w)
    | None => Undefined
    end.

(** *** The cache of uncovered sites *)

Definition Polymer_CoverBindingSite (species_name : string) : M Polymer.t unit :=
  modify (fun P =>
    match Polymer.uncovered_ P !! species_name with
    | None => Polymer.set_uncovered_ (<[species_name := 0]> (Polymer.uncovered_ P)) P
    | Some c => Polymer.set_uncovered_ (<[species_name := c - 1]> (Polymer.uncovered_ P)) P
    end) ;;
  let* P := get in
  (if default 0 (Polymer.uncovered_ P !! species_name) <? 0
   then throw NegativeUncovered else ret tt) ;;
  modify (fun P =>
    match Polymer.species_log_ P !! species_name with
    | None => Polymer.set_species_log_ (<[species_name := -1]> (Polymer.species_log_ P)) P
    | Some c => Polymer.set_species_log_ (<[species_name := c - 1]> (Polymer.species_log_ P)) P
    end).

Definition Polymer_UncoverBindingSite (species_name : string) : M Polymer.t unit :=
  modify (fun P =>
    match Polymer.uncovered_ P !! species_name with
    | None => Polymer.set_uncovered_ (<[species_name := 1]> (Polymer.uncovered_ P)) P
    | Some c => Polymer.set_uncovered_ (<[species_name := c + 1]> (Polymer.uncovered_ P)) P
    end) ;;
  modify (fun P =>
    match Polymer.species_log_ P !! species_name with
    | None => Polymer.set_species_log_ (<[species_name := 1]> (Polymer.species_log_ P)) P
    | Some c => Polymer.set_species_log_ (<[species_name := c + 1]> (Polymer.species_log_ P)) P
    end).

(** *** Initialize *)

Definition Polymer_Initialize : M Polymer.t unit :=
  modify (fun P => Polymer.set_binding_sites_
                     (IntervalTree.build (Polymer.binding_intervals_ P)) P) ;;
  modify (fun P => Polymer.set_release_sites_
                     (IntervalTree.build (Polymer.release_intervals_ P)) P) ;;
  let results := [] in
  (* Cover all masked sites *)
  let* P := get in
  let mask_start := Mask.start (Polymer.mask_ P) in
  let mask_stop := Mask.stop (Polymer.mask_ P) in
  let results :=
    IntervalTree.findOverlapping (Polymer.binding_sites_ P) mask_start mask_stop results in
  for_each results (fun interval =>
    let* site := get_promoter (Interval.value interval) in
    Polymer_CoverBindingSite (Promoter.name site) ;;
    update_promoter (Interval.value interval) Promoter.Cover ;;
    update_promoter (Interval.value interval) Promoter.SaveState) ;;
  (* Make sure all unmasked sites are uncovered *)
  let* P := get in
  let results :=
    IntervalTree.findOverlapping (Polymer.binding_sites_ P) (Polymer.start_ P) mask_stop results in
  for_each results (fun interval =>
    let* site := get_promoter (Interval.value interval) in
    Polymer_UncoverBindingSite (Promoter.name site) ;;
    update_promoter (Interval.value interval) Promoter.Uncover ;;
    update_promoter (Interval.value interval) Promoter.SaveState).

(** *** Covering and uncovering sites around a moving object *)

Definition Polymer_CheckAhead (old_stop new_stop : Z) : M Polymer.t unit :=
  let* P := get in
  let results :=
    IntervalTree.findOverlapping (Polymer.binding_sites_ P) old_stop new_stop [] in
  for_each results (fun interval =>
    let* site := get_promoter (Interval.value interval) in
    if Promoter.start site <? new_stop then
      update_promoter (Interval.value interval) Promoter.Cover
      (* [if (interval.value->WasCovered()) { }]: an empty body *)
    else ret tt).

Definition Polymer_CheckBehind (old_start new_start : Z) : M Polymer.t unit :=
  let* P := get in
  let results :=
    IntervalTree.findOverlapping (Polymer.binding_sites_ P) old_start new_start [] in
  for_each results (fun interval =>
    let* site := get_promoter (Interval.value interval) in
    if Promoter.stop site <? new_start then
      update_promoter (Interval.value interval) Promoter.Uncover
      (* [if (interval.value->WasUncovered()) { }]: an empty body *)
    else ret tt).

Definition Polymer_ShiftMask : M Polymer.t unit :=
  let* P := get in
  if Mask.start (Polymer.mask_ P) <=? Mask.stop (Polymer.mask_ P) then
    let old_start := Mask.start (Polymer.mask_ P) in
    modify (fun P => Polymer.set_mask_ (Mask.Recede (Polymer.mask_ P)) P) ;;
    let* P := get in
    Polymer_CheckBehind old_start (Mask.start (Polymer.mask_ P))
  else ret tt.

(** *** The polymerase and its signal *)

(** The closure stored by [ConnectMember(transcript, &Transcript::ShiftMask)]. *)
Definition call_slot (s : Slot) : M World.t unit :=
  match s with
  | Call_ShiftMask transcript => on_polymer transcript Polymer_ShiftMask
  end.

(** [pol->move_signal_.Emit()] *)
Definition emit_move_signal (pol : nat) : M World.t unit :=
  log (Ev_move_signal pol) ;;
  let* p := get_polymerase pol in
  Signal.emit call_slot (Polymerase.move_signal_ p).

(** Modelled from the spec: [Polymerase::Move] (its definition is not part
    of the sources), section 4.4: [start] and [stop] advance by one and
    [move_signal] is emitted. *)
Definition Polymerase_Move (pol : nat) : M World.t unit :=
  update_polymerase pol (fun p =>
    Polymerase.set_stop (Polymerase.stop p + 1)
      (Polymerase.set_start (Polymerase.start p + 1) p)) ;;
  emit_move_signal pol.

(** Modelled from the spec: [Polymerase::MoveBack] (its definition is not
    part of the sources), section 4.4: [start] and [stop] go back by one and
    nothing is emitted. *)
Definition Polymerase_MoveBack (pol : nat) : M World.t unit :=
  update_polymerase pol (fun p =>
    Polymerase.set_stop (Polymerase.stop p - 1)
      (Polymerase.set_start (Polymerase.start p - 1) p)).

(** *** Terminate and Insert *)

(** [std::find(v.begin(), v.end(), x) - v.begin()]: the first index that
    holds [x], [v.size()] when there is none. *)
Fixpoint find_index (x : nat) (v : list nat) : nat :=
  match v with
  | [] => O
  | y :: v' => if decide (y = x) then O else S (find_index x v')
  end.

(** [Terminate], with what [termination_signal_.Emit] does as a parameter:
    the slots of that signal are connected by the simulation, outside these
    sources. *)
Definition Polymer_Terminate_with
    (emit_termination : Z -> string -> string -> M World.t unit)
    (this pol : nat) (last_gene : string) : M World.t unit :=
  let* P := get_polymer this in
  let index := find_index pol (Polymer.polymerases_ P) in
  let* prop := deref (Polymer.prop_list_ P !! index) in
  on_polymer this (modify (fun P =>
    Polymer.set_prop_sum_ (num_sub (Polymer.prop_sum_ P) prop) P)) ;;
  let* p := get_polymerase pol in
  emit_termination (Polymer.index_ P) (Polymerase.name p) last_gene ;;
  (* erasing [end()] is undefined *)
  (if decide (index < length (Polymer.polymerases_ P))%nat then ret tt else undefined) ;;
  on_polymer this (modify (fun P =>
    Polymer.set_polymerases_ (delete index (Polymer.polymerases_ P)) P)) ;;
  on_polymer this (modify (fun P =>
    Polymer.set_prop_list_ (delete index (Polymer.prop_list_ P)) P)) ;;
  let* P := get_polymer this in
  if decide (length (Polymer.prop_list_ P) ≠ length (Polymer.polymerases_ P))
  then throw PropListSize else ret tt.

(** [Terminate] where the emission is recorded in the trace, as every
    emission of a signal without known slots is. *)
Definition Polymer_Terminate (this pol : nat) (last_gene : string) : M World.t unit :=
  Polymer_Terminate_with
    (fun index name gene => log (Ev_termination_signal index name gene))
    this pol last_gene.

(** [for_each] that collects a result per element. *)
Fixpoint map_each {W A B} (xs : list A) (body : A -> M W B) : M W (list B) :=
  match xs with
  | [] => ret []
  | x :: xs' => let* y := body x in let* ys := map_each xs' body in ret (y :: ys)
  end.

(** A range-for that updates a local variable. *)
Fixpoint fold_each {W A B} (xs : list A) (acc : B) (body : B -> A -> M W B) : M W B :=
  match xs with
  | [] => ret acc
  | x :: xs' => let* acc' := body acc x in fold_each xs' acc' body
  end.

(** [std::upper_bound] over starts with [a->start() < b->start()]: the index
    of the first element whose start exceeds [x], the length when there is
    none (the range is taken to be ordered by start, as the algorithm
    requires). *)
Fixpoint upper_bound (x : Z) (starts : list Z) : nat :=
  match starts with
  | [] => O
  | s :: starts' => if x <? s then O else S (upper_bound x starts')
  end.

Definition Polymer_Insert (this pol : nat) : M World.t unit :=
  let* P := get_polymer this in
  let* p := get_polymerase pol in
  let* starts := map_each (Polymer.polymerases_ P) (fun q =>
                   let* o := get_polymerase q in ret (Polymerase.start o)) in
  let it := upper_bound (Polymerase.start p) starts in
  (* Record position for prop_list_ *)
  let prop_it := it in
  (* Add polymerase to this polymer *)
  on_polymer this (modify (fun P =>
    Polymer.set_polymerases_ (vector_insert it pol (Polymer.polymerases_ P)) P)) ;;
  (* Cache polymerase speed *)
  let* weight :=
    deref (vector_at (Polymer.weights_ P) (Polymerase.stop p - Polymer.start_ P - 1)) in
  (* Update total move propensity of this polymer *)
  on_polymer this (modify (fun P =>
    Polymer.set_prop_sum_
      (num_add (Polymer.prop_sum_ P) (num_mul weight (Polymerase.speed p))) P)) ;;
  (if decide (prop_it ≤ length (Polymer.prop_list_ P))%nat then ret tt else undefined) ;;
  on_polymer this (modify (fun P =>
    Polymer.set_prop_list_
      (vector_insert prop_it (num_mul weight (Polymerase.speed p)) (Polymer.prop_list_ P)) P)) ;;
  let* P := get_polymer this in
  if decide (length (Polymer.prop_list_ P) ≠ length (Polymer.polymerases_ P))
  then throw PropListSize else ret tt.

(** *** Bind *)

Definition Polymer_Bind (this pol : nat) (promoter_name : string) : M World.t unit :=
  (* Make a list of free promoters that pol can bind *)
  let* P := get_polymer this in
  let results :=
    IntervalTree.findOverlapping (Polymer.binding_sites_ P)
      (Polymer.start_ P) (Mask.start (Polymer.mask_ P)) [] in
  let* promoter_choices :=
    on_polymer this (fold_each results [] (fun choices interval =>
      let* site := get_promoter (Interval.value interval) in
      if bool_decide (Promoter.name site = promoter_name)
         && negb (Promoter.IsCovered site)
      then ret (choices ++ [Interval.value interval])
      else ret choices)) in
  (* [found] is set exactly when a choice is pushed *)
  let found := bool_decide (promoter_choices ≠ []) in
  (* Error checking *)
  let* p := get_polymerase pol in
  (if negb found then throw NoFreePromoter else ret tt) ;;
  (* Randomly select promoter. *)
  let* elem := Random_WeightedChoice promoter_choices in
  (* More error checking. *)
  let* site := on_polymer this (get_promoter elem) in
  (if negb (Promoter.CheckInteraction (Polymerase.name p) site)
   then throw NoInteraction else ret tt) ;;
  (* Update polymerase coordinates *)
  update_polymerase pol (Polymerase.set_start (Promoter.start site)) ;;
  update_polymerase pol (fun p =>
    Polymerase.set_stop (Promoter.start site + Polymerase.footprint p - 1) p) ;;
  (* More error checking. *)
  let* p := get_polymerase pol in
  let* P := get_polymer this in
  (if Mask.start (Polymer.mask_ P) <=? Polymerase.stop p
   then throw MaskOverlap else ret tt) ;;
  on_polymer this (update_promoter elem Promoter.Cover) ;;
  on_polymer this (update_promoter elem Promoter.SaveState) ;;
  (* Cover promoter in cache *)
  let* site := on_polymer this (get_promoter elem) in
  on_polymer this (Polymer_CoverBindingSite (Promoter.name site)) ;;
  (* Add polymerase to this polymer *)
  Polymer_Insert this pol ;;
  (* Report some data to tracker *)
  let* site := on_polymer this (get_promoter elem) in
  if bool_decide (is_Some (Promoter.interactions site !! "ribosome"))
     && bool_decide (Promoter.type site = "promoter")
  then log (Ev_IncrementRibo (Promoter.gene site) 1)
  else ret tt.

(** *** Collisions *)

Definition Polymer_CheckPolCollisions (this : nat) (pol_index : Z) : M World.t bool :=
  let* P := get_polymer this in
  (* Are there any polymerases ahead of this one? *)
  if Z.of_nat (length (Polymer.polymerases_ P)) <=? to_size_t (pol_index + 1)
  then ret false
  else
    let* pol := deref (vector_at (Polymer.polymerases_ P) pol_index) in
    let* next := deref (vector_at (Polymer.polymerases_ P) (pol_index + 1)) in
    let* a := get_polymerase pol in
    let* b := get_polymerase next in
    if (Polymerase.start b <=? Polymerase.stop a)
       && (Polymerase.start a <=? Polymerase.stop b)
    then
      if Polymerase.start b <? Polymerase.stop a
      then throw InvalidOverlap
      else ret true
    else ret false.

Definition Polymer_CheckMaskCollisions (this pol : nat) : M World.t bool :=
  let* P := get_polymer this in
  let* p := get_polymerase pol in
  (* Is there still a mask, and does it overlap polymerase? *)
  if (Mask.start (Polymer.mask_ P) <=? Polymer.stop_ P)
     && (Mask.start (Polymer.mask_ P) <=? Polymerase.stop p)
  then
    if 0 <? Polymerase.stop p - Mask.start (Polymer.mask_ P)
    then throw InvalidOverlap
    else if Mask.CheckInteraction (Polymerase.name p) (Polymer.mask_ P)
    then on_polymer this Polymer_ShiftMask ;; ret false
    else ret true
  else ret false.

(** *** Termination *)

(** The body of the range-for of [CheckTermination], over the hits that are
    still to be visited. *)
Fixpoint CheckTermination_loop (this pol : nat) (results : list Interval.t)
    : M World.t bool :=
  match results with
  | [] => ret false
  | interval :: rest =>
      let* p := get_polymerase pol in
      let* site := on_polymer this (get_terminator (Interval.value interval)) in
      if Terminator.CheckInteraction (Polymerase.name p) (Polymerase.reading_frame p) site
         && negb (Terminator.readthrough site)
      then
        let* random_num := Random_random in
        if num_leb random_num (Terminator.efficiency (Polymerase.name p) site)
        then
          (* Fire Emit signal until entire terminator is uncovered *)
          let dist := Terminator.stop site - Polymerase.stop p + 1 in
          for_upto dist (emit_move_signal pol) ;;
          let* site := on_polymer this (get_terminator (Interval.value interval)) in
          Polymer_Terminate this pol (Terminator.gene site) ;;
          ret true
        else
          on_polymer this (update_terminator (Interval.value interval)
                             (Terminator.set_readthrough true)) ;;
          CheckTermination_loop this pol rest
      else CheckTermination_loop this pol rest
  end.

Definition Polymer_CheckTermination (this pol : nat) : M World.t bool :=
  let* P := get_polymer this in
  let* p := get_polymerase pol in
  let results :=
    IntervalTree.findOverlapping (Polymer.release_sites_ P)
      (Polymerase.start p) (Polymerase.stop p) [] in
  CheckTermination_loop this pol results.

(** *** Move *)

Definition Polymer_Move (this : nat) (pol_index : Z) : M World.t unit :=
  let* P := get_polymer this in
  (if Z.of_nat (length (Polymer.prop_list_ P)) <=? to_size_t pol_index
   then throw InvalidIndex else ret tt) ;;
  let* pol := deref (vector_at (Polymer.polymerases_ P) pol_index) in
  (* Record old positions *)
  let* p := get_polymerase pol in
  let old_start := Polymerase.start p in
  let old_stop := Polymerase.stop p in
  (* Move polymerase *)
  Polymerase_Move pol ;;
  (* Check for upstream polymerase collision *)
  let* pol_collision := Polymer_CheckPolCollisions this pol_index in
  if pol_collision then Polymerase_MoveBack pol
  else
    (* Check for collisions with mask *)
    let* mask_collision := Polymer_CheckMaskCollisions this pol in
    if mask_collision then Polymerase_MoveBack pol
    else
      (* Check if polymerase has run into a terminator *)
      let* terminating := Polymer_CheckTermination this pol in
      if terminating then ret tt
      else
        (* Check for new covered and uncovered elements *)
        let* p := get_polymerase pol in
        on_polymer this (Polymer_CheckBehind old_start (Polymerase.start p)) ;;
        let* p := get_polymerase pol in
        on_polymer this (Polymer_CheckAhead old_stop (Polymerase.stop p)) ;;
        (* Update propensity for new codon *)
        let* p := get_polymerase pol in
        let* P := get_polymer this in
        (if Z.of_nat (length (Polymer.weights_ P))
              <=? to_size_t (Polymerase.stop p - Polymer.start_ P - 1)
         then throw MissingWeight else ret tt) ;;
        let* weight :=
          deref (vector_at (Polymer.weights_ P) (Polymerase.stop p - Polymer.start_ P - 1)) in
        let new_speed := num_mul weight (Polymerase.speed p) in
        let* old_speed := deref (vector_at (Polymer.prop_list_ P) pol_index) in
        let diff := num_sub new_speed old_speed in
        on_polymer this (modify (fun P =>
          Polymer.set_prop_sum_ (num_add (Polymer.prop_sum_ P) diff) P)) ;;
        on_polymer this (modify (fun P =>
          Polymer.set_prop_list_
            (<[Z.to_nat pol_index := new_speed]> (Polymer.prop_list_ P)) P)).

(** *** Execute *)

(** Modelled from the spec: [Random::WeightedChoiceIndex(items, weights)]
    (choices.hpp is not part of the sources), section 4.2: an index, here the
    one the generator's next choice designates; it fails when there is no
    item. *)
Definition Random_WeightedChoiceIndex {A} (items : list A) (weights : list num)
    : M World.t Z :=
  fun w =>
    if decide (length items = O) then Throw EmptyOrZeroSum w
    else Ok (Z.of_nat (World.random_choices w (World.random_pos w) `mod` length items))
            (World.set_random_pos (S (World.random_pos w)) w).

Definition Polymer_Choose (this : nat) : M World.t Z :=
  let* P := get_polymer this in
  (if decide (length (Polymer.prop_list_ P) = O)
   then throw NoActivePolymerase else ret tt) ;;
  let* pol_index :=
    Random_WeightedChoiceIndex (Polymer.polymerases_ P) (Polymer.prop_list_ P) in
  (* Error checking to make sure that pol is in vector *)
  (if Z.of_nat (length (Polymer.polymerases_ P)) <=? to_size_t pol_index
   then throw UnboundPolymerase else ret tt) ;;
  (if Z.of_nat (length (Polymer.prop_list_ P)) <=? to_size_t pol_index
   then throw InvalidIndex else ret tt) ;;
  ret pol_index.

Definition Polymer_Execute (this : nat) : M World.t unit :=
  let* P := get_polymer this in
  (if num_eqb (Polymer.prop_sum_ P) num_zero
   then throw NoPropensity else ret tt) ;;
  let* pol_index := Polymer_Choose this in
  on_polymer this (modify (Polymer.set_species_log_ ∅)) ;;
  Polymer_Move this pol_index.

(** *** Transcript *)

(** [Polymer::Polymer(name, start, stop)].  A negative element count makes
    the [std::vector] constructor throw.  The trees start empty; polymer.hpp
    is not part of the sources, and [prop_sum_] and [index_] are taken to
    start at zero. *)
Definition Polymer_new (name : string) (start stop : Z) : M World.t Polymer.t :=
  if stop - start + 1 <? 0 then throw LengthError
  else ret (Polymer.mk name 0 start stop [] [] [] [] [] []
              (replicate (Z.to_nat (stop - start + 1)) num_one)
              (Mask.mk "mask" (stop + 1) stop ∅)
              [] [] num_zero ∅ ∅ Polymer.Base).

(** [Transcript::Transcript(name, start, stop, rbs_intervals,
    stop_site_intervals, mask, weights)]; [rbs] and [stop_sites] are the
    objects that the pointers of the two interval vectors refer to. *)
Definition Transcript_new (name : string) (start stop : Z)
    (rbs : list Promoter.t) (rbs_intervals : list Interval.t)
    (stop_sites : list Terminator.t) (stop_site_intervals : list Interval.t)
    (mask : Mask.t) (weights : list num) : M World.t Polymer.t :=
  let* P := Polymer_new name start stop in
  ret (Polymer.set_derived Polymer.Transcript
        (Polymer.set_terminators stop_sites
          (Polymer.set_promoters rbs
            (Polymer.set_release_intervals_ stop_site_intervals
              (Polymer.set_binding_intervals_ rbs_intervals
                (Polymer.set_weights_ weights
                  (Polymer.set_mask_ mask P))))))).

(** [std::make_shared]: the new object goes to the end of the store. *)
Definition make_shared_polymer (P : Polymer.t) : M World.t nat :=
  fun w => Ok (length (World.polymers w))
              (World.set_polymers (World.polymers w ++ [P]) w).

Definition Transcript_Bind (this pol : nat) (promoter_name : string) : M World.t unit :=
  (* Bind polymerase just like in parent Polymer *)
  Polymer_Bind this pol promoter_name ;;
  (* Set the reading frame of the polymerase *)
  update_polymerase pol (fun p =>
    Polymerase.set_reading_frame (Z.rem (Polymerase.start p) 3) p).

(** *** Genome *)

Definition get_genome : M Polymer.t Polymer.genome_members :=
  fun P => match Polymer.derived P with
           | Polymer.Genome g => Ok g P
           | _ => Undefined
           end.

Definition update_genome (f : Polymer.genome_members -> Polymer.genome_members)
    : M Polymer.t unit :=
  let* g := get_genome in
  modify (Polymer.set_derived (Polymer.Genome (f g))).

Definition Genome_new (name : string) (length : Z) : M World.t Polymer.t :=
  let* P := Polymer_new name 1 length in
  ret (Polymer.set_derived
         (Polymer.Genome (Polymer.mk_genome [] [] [] []
                            (replicate (Z.to_nat length) num_one) ∅)) P).

Definition Genome_Initialize : M Polymer.t unit :=
  Polymer_Initialize ;;
  update_genome (fun g => Polymer.set_transcript_rbs_
                   (IntervalTree.build (Polymer.transcript_rbs_intervals_ g)) g) ;;
  update_genome (fun g => Polymer.set_transcript_stop_sites_
                   (IntervalTree.build (Polymer.transcript_stop_site_intervals_ g)) g).

Definition Genome_AddMask (start : Z) (interactions : list string) : M Polymer.t unit :=
  let interaction_map :=
    foldl (fun m name => <[name := num_one]> m) (∅ : gmap string num) interactions in
  modify (fun P => Polymer.set_mask_ (Mask.mk "mask" start (Polymer.stop_ P) interaction_map) P).

Definition Genome_AddPromoter (name : string) (start stop : Z)
    (interactions : gmap string num) : M Polymer.t unit :=
  let promoter := Promoter.new name start stop interactions in
  let* P := get in
  let ptr := length (Polymer.promoters P) in
  modify (fun P => Polymer.set_promoters (Polymer.promoters P ++ [promoter]) P) ;;
  modify (fun P => Polymer.set_binding_intervals_
                     (Polymer.binding_intervals_ P ++ [Interval.mk start stop ptr]) P) ;;
  update_genome (fun g => Polymer.set_bindings_ (<[name := interactions]> (Polymer.bindings_ g)) g).

Definition Genome_AddTerminator (name : string) (start stop : Z)
    (efficiency : gmap string num) : M Polymer.t unit :=
  let terminator := Terminator.new name start stop efficiency in
  let* P := get in
  let ptr := length (Polymer.terminators P) in
  modify (fun P => Polymer.set_terminators (Polymer.terminators P ++ [terminator]) P) ;;
  modify (fun P => Polymer.set_release_intervals_
                     (Polymer.release_intervals_ P ++ [Interval.mk start stop ptr]) P).

Definition Genome_AddGene (name : string) (start stop rbs_start rbs_stop : Z)
    (rbs_strength : num) : M Polymer.t unit :=
  let binding : gmap string num := {[ "ribosome" := rbs_strength ]} in
  let term : gmap string num := {[ "ribosome" := num_one ]} in
  let rbs := Promoter.set_gene name
               (Promoter.new (name +:+ "_rbs") rbs_start rbs_stop binding) in
  let* P := get in
  let rbs_ptr := length (Polymer.promoters P) in
  modify (fun P => Polymer.set_promoters (Polymer.promoters P ++ [rbs]) P) ;;
  update_genome (fun g => Polymer.set_transcript_rbs_intervals_
    (Polymer.transcript_rbs_intervals_ g
       ++ [Interval.mk (Promoter.start rbs) (Promoter.stop rbs) rbs_ptr]) g) ;;
  update_genome (fun g => Polymer.set_bindings_
    (<[name +:+ "_rbs" := binding]> (Polymer.bindings_ g)) g) ;;
  let stop_codon :=
    Terminator.set_gene name
      (Terminator.set_reading_frame (Z.rem start 3)
         (Terminator.new "stop_codon" (stop - 1) stop term)) in
  let* P := get in
  let stop_ptr := length (Polymer.terminators P) in
  modify (fun P => Polymer.set_terminators (Polymer.terminators P ++ [stop_codon]) P) ;;
  update_genome (fun g => Polymer.set_transcript_stop_site_intervals_
    (Polymer.transcript_stop_site_intervals_ g
       ++ [Interval.mk (Terminator.start stop_codon) (Terminator.stop stop_codon) stop_ptr]) g).

Definition Genome_AddWeights (transcript_weights : list num) : M Polymer.t unit :=
  let* P := get in
  (if decide (Z.of_nat (length transcript_weights)
              ≠ to_size_t (Polymer.stop_ P - Polymer.start_ P + 1))
   then throw LengthError else ret tt) ;;
  update_genome (Polymer.set_transcript_weights_ transcript_weights).

(** The two range-fors of [BuildTranscript]: every hit is copied with its
    bounds and a pointer to a clone of its site, which is a new object. *)
Definition clone_promoters (G : Polymer.t) (prom_results : list Interval.t)
    : M World.t (list Promoter.t * list Interval.t) :=
  fold_each prom_results ([], []) (fun acc interval =>
    let '(objs, rbs_intervals) := acc in
    let start := Interval.start interval in
    let stop := Interval.stop interval in
    let* elem := deref (Polymer.promoters G !! Interval.value interval) in
    ret (objs ++ [Promoter.Clone elem],
         rbs_intervals ++ [Interval.mk start stop (length objs)])).

Definition clone_terminators (G : Polymer.t) (term_results : list Interval.t)
    : M World.t (list Terminator.t * list Interval.t) :=
  fold_each term_results ([], []) (fun acc interval =>
    let '(objs, stop_site_intervals) := acc in
    let start := Interval.start interval in
    let stop := Interval.stop interval in
    let* elem := deref (Polymer.terminators G !! Interval.value interval) in
    ret (objs ++ [Terminator.Clone elem],
         stop_site_intervals ++ [Interval.mk start stop (length objs)])).

Definition Genome_BuildTranscript (this : nat) (start stop : Z) : M World.t nat :=
  let* G := get_polymer this in
  let* g := on_polymer this get_genome in
  let prom_results :=
    IntervalTree.findContained (Polymer.transcript_rbs_ g) start stop [] in
  let* (rbs, rbs_intervals) := clone_promoters G prom_results in
  let term_results :=
    IntervalTree.findContained (Polymer.transcript_stop_sites_ g) start stop [] in
  let* (stop_sites, stop_site_intervals) := clone_terminators G term_results in
  let mask := Mask.mk "mask" start stop ∅ in
  let* transcript :=
    Transcript_new "rna" (Polymer.start_ G) (Polymer.stop_ G) rbs rbs_intervals
      stop_sites stop_site_intervals mask (Polymer.transcript_weights_ g) in
  make_shared_polymer transcript.

Definition Genome_Bind (this pol : nat) (promoter_name : string) : M World.t unit :=
  (* Bind polymerase *)
  Polymer_Bind this pol promoter_name ;;
  (* Construct a transcript starting from *end* of polymerase *)
  let* p := get_polymerase pol in
  let* G := get_polymer this in
  let* transcript := Genome_BuildTranscript this (Polymerase.stop p) (Polymer.stop_ G) in
  (* Connect polymerase movement signal to transcript *)
  update_polymerase pol (fun p =>
    Polymerase.set_move_signal
      (Signal.connect_member (Call_ShiftMask transcript)
         (Polymerase.move_signal_ p)).2 p) ;;
  (* Fire new transcript signal (adds transcript to Simulation) *)
  log (Ev_transcript_signal transcript).

End Engine.

(** * Specification-level definitions *)

Section Invariants.
Context `{Platform}.

(** The sum of a propensity list, in the arithmetic of the platform. *)
Definition sum_list (l : list num) : num := foldr num_add num_zero l.

(** The bookkeeping of a polymer is consistent: the occupants are distinct
    objects, [polymerases_] and [prop_list_] have the same length, and the
    propensity cached for an occupant is the weight found one position
    before its stop, times its speed. *)
Definition Consistent (w : World.t) (this : nat) : Prop :=
  ∃ P, World.polymers w !! this = Some P ∧
    NoDup (Polymer.polymerases_ P) ∧
    length (Polymer.polymerases_ P) = length (Polymer.prop_list_ P) ∧
    ∀ (i : nat) (pol : nat), Polymer.polymerases_ P !! i = Some pol →
      ∃ p weight,
        World.polymerases w !! pol = Some p ∧
        vector_at (Polymer.weights_ P)
          (Polymerase.stop p - Polymer.start_ P - 1) = Some weight ∧
        Polymer.prop_list_ P !! i = Some (num_mul weight (Polymerase.speed p)).

(** [prop_sum_] is the sum of [prop_list_]. *)
Definition SumCached (w : World.t) (this : nat) : Prop :=
  ∃ P, World.polymers w !! this = Some P ∧
    Polymer.prop_sum_ P = sum_list (Polymer.prop_list_ P).

(** What a call does to [prop_list_] and [prop_sum_]: nothing; or one
    propensity is inserted and added to the sum; or one is erased and
    subtracted from the sum; or one is replaced and the difference of the
    new and the old one is added to the sum. *)
Inductive update : Type :=
  | Kept
  | Inserted (it : nat) (new : num)
  | Erased (index : nat) (old : num)
  | Replaced (index : nat) (old new : num).

(** [P'] has the propensities and the sum of [P] after the update, the sum
    computed as the code computes it. *)
Definition updated (u : update) (P P' : Polymer.t) : Prop :=
  match u with
  | Kept =>
      Polymer.prop_list_ P' = Polymer.prop_list_ P ∧
      Polymer.prop_sum_ P' = Polymer.prop_sum_ P
  | Inserted it new =>
      Polymer.prop_list_ P' = vector_insert it new (Polymer.prop_list_ P) ∧
      Polymer.prop_sum_ P' = num_add (Polymer.prop_sum_ P) new
  | Erased index old =>
      Polymer.prop_list_ P !! index = Some old ∧
      Polymer.prop_list_ P' = delete index (Polymer.prop_list_ P) ∧
      Polymer.prop_sum_ P' = num_sub (Polymer.prop_sum_ P) old
  | Replaced index old new =>
      Polymer.prop_list_ P !! index = Some old ∧
      Polymer.prop_list_ P' = <[index := new]> (Polymer.prop_list_ P) ∧
      Polymer.prop_sum_ P' = num_add (Polymer.prop_sum_ P) (num_sub new old)
  end.

(** The polymer [this] is updated between two states of the world. *)
Definition Updated (this : nat) (w w' : World.t) : Prop :=
  ∃ P P' u, World.polymers w !! this = Some P ∧
            World.polymers w' !! this = Some P' ∧
            updated u P P'.

(** ** Sums without rounding *)

Section Values.
(** [val x] is the number that [x] stands for, as an integer multiple of a
    fixed unit; it is undefined for what is not a number. *)
Context (val : num → option Z).

(** The addition [a + b] of the platform is exact: the operands and the
    result are numbers and the result stands for the sum. *)
Definition exact_add (a b : num) : bool :=
  match val a, val b, val (num_add a b) with
  | Some x, Some y, Some z => z =? x + y
  | _, _, _ => false
  end.

Definition exact_sub (a b : num) : bool :=
  match val a, val b, val (num_sub a b) with
  | Some x, Some y, Some z => z =? x - y
  | _, _, _ => false
  end.

(** The operations that the update performs on the sum [sum] are exact. *)
Definition exact_update (sum : num) (u : update) : bool :=
  match u with
  | Kept => true
  | Inserted _ new => exact_add sum new
  | Erased _ old => exact_sub sum old
  | Replaced _ old new => exact_sub new old && exact_add sum (num_sub new old)
  end.

(** The sum of the numbers of a list, if all of them are numbers. *)
Fixpoint val_sum (l : list num) : option Z :=
  match l with
  | [] => Some 0
  | x :: l' =>
      match val x, val_sum l' with
      | Some a, Some b => Some (a + b)
      | _, _ => None
      end
  end.

(** [prop_sum_] stands for the sum of the numbers in [prop_list_]. *)
Definition SumExact (P : Polymer.t) : Prop :=
  ∃ s, val (Polymer.prop_sum_ P) = Some s ∧ val_sum (Polymer.prop_list_ P) = Some s.

(** Every operation that an update from [P] to [P'] can perform is exact:
    the subtraction of an old propensity from the sum, the addition of a
    new one to it, and the subtraction of an old from a new one followed by
    the addition of the difference. *)
Definition exact_between (P P' : Polymer.t) : bool :=
  forallb (λ old, exact_sub (Polymer.prop_sum_ P) old) (Polymer.prop_list_ P)
  && forallb
       (λ new,
          exact_add (Polymer.prop_sum_ P) new
          && forallb (λ old, exact_sub new old
                             && exact_add (Polymer.prop_sum_ P) (num_sub new old))
               (Polymer.prop_list_ P))
       (Polymer.prop_list_ P').

End Values.

(** The calls of member functions on a polymer: the three that change its
    occupancy, and the entry points of the class and of its
    specialisations. *)
Inductive polymer_call : Type :=
  | Call_Insert (pol : nat)
  | Call_Move (pol_index : Z)
  | Call_Terminate (pol : nat) (last_gene : string)
  | Call_Bind (pol : nat) (promoter_name : string)
  | Call_Transcript_Bind (pol : nat) (promoter_name : string)
  | Call_Genome_Bind (pol : nat) (promoter_name : string)
  | Call_Execute
  | Call_Shift
  | Call_Initialize
  | Call_Genome_Initialize.

Definition run_call (this : nat) (c : polymer_call) : M World.t unit :=
  match c with
  | Call_Insert pol => Polymer_Insert this pol
  | Call_Move pol_index => Polymer_Move this pol_index
  | Call_Terminate pol last_gene => Polymer_Terminate this pol last_gene
  | Call_Bind pol promoter_name => Polymer_Bind this pol promoter_name
  | Call_Transcript_Bind pol promoter_name => Transcript_Bind this pol promoter_name
  | Call_Genome_Bind pol promoter_name => Genome_Bind this pol promoter_name
  | Call_Execute => Polymer_Execute this
  | Call_Shift => on_polymer this Polymer_ShiftMask
  | Call_Initialize => on_polymer this Polymer_Initialize
  | Call_Genome_Initialize => on_polymer this Genome_Initialize
  end.

(** A polymerase that is inserted or bound is not yet on the polymer. *)
Definition call_fresh (w : World.t) (this : nat) (c : polymer_call) : Prop :=
  match c with
  | Call_Insert pol
  | Call_Bind pol _
  | Call_Transcript_Bind pol _
  | Call_Genome_Bind pol _ =>
      ∀ P, World.polymers w !! this = Some P → pol ∉ Polymer.polymerases_ P
  | _ => True
  end.

(** The polymer a slot acts on. *)
Definition slot_target (s : Slot) : nat :=
  match s with Call_ShiftMask transcript => transcript end.

(** The states of the world that a polymer without occupants reaches through
    such calls. *)
Inductive reachable (this : nat) : World.t → Prop :=
  | reachable_new (w : World.t) (P : Polymer.t) :
      World.polymers w !! this = Some P →
      Polymer.polymerases_ P = [] →
      Polymer.prop_list_ P = [] →
      Polymer.prop_sum_ P = num_zero →
      reachable this w
  | reachable_call (w : World.t) (c : polymer_call) (w' : World.t) :
      reachable this w →
      call_fresh w this c →
      run_call this c w = Ok tt w' →
      reachable this w'.

(** No slot of the signal calls back into the polymer [this]. *)
Definition slots_avoid (this : nat) (s : Signal.t Slot) : Prop :=
  Forall (λ it, slot_target it.2 ≠ this) (Signal.slots_ s).

(** The keys of a signal were all handed out by [connect]. *)
Definition signal_wf (s : Signal.t Slot) : Prop :=
  Forall (λ it, it.1 ≤ Signal.current_id_ s) (Signal.slots_ s).

(** The values of a C++ [int]. *)
Definition is_int (z : Z) : Prop := -2 ^ 31 ≤ z < 2 ^ 31.

(** What [ShiftMask] may change in a polymer: the state of its promoters and
    the position of its mask. *)
Definition mask_step (P P' : Polymer.t) : Prop :=
  ∃ promoters mask, P' = Polymer.set_mask_ mask (Polymer.set_promoters promoters P).

End Invariants.

(** ** Platforms *)

(** IEEE 754 binary64, the [double] of the program. *)
Definition ieee_platform (append : bool) : Platform := {|
  num := float;
  num_zero := 0%float;
  num_one := 1%float;
  num_add := PrimFloat.add;
  num_sub := PrimFloat.sub;
  num_mul := PrimFloat.mul;
  num_leb := PrimFloat.leb;
  num_eqb := PrimFloat.eqb;
  results_append := append;
  frame_admits := fun site_frame pol_frame =>
    (site_frame =? -1) || (site_frame =? pol_frame);
  no_reading_frame := -1
|}.

(** The number a binary64 value stands for, in units of [2^-1074], of which
    every finite binary64 value is an integer multiple; infinities and NaN
    stand for no number. *)
Definition double_value (x : float) : option Z :=
  match Prim2SF x with
  | S754_zero _ => Some 0
  | S754_finite s m e =>
      if e <? -1074 then None
      else Some ((if s then -1 else 1) * Z.pos m * 2 ^ (e + 1074))
  | _ => None
  end.

Section Frames.
Context `{Platform}.

(** What running the slots of a [move_signal_] may change in the world: the
    promoters and the masks of polymers. *)
Definition slots_step (w w' : World.t) : Prop :=
  World.polymerases w' = World.polymerases w ∧
  World.trace w' = World.trace w ∧
  World.random_reals w' = World.random_reals w ∧
  World.random_choices w' = World.random_choices w ∧
  World.random_pos w' = World.random_pos w ∧
  Forall2 mask_step (World.polymers w) (World.polymers w').

(** The propensity [prop] is the one the code caches for the occupant [pol]
    of [P]. *)
Definition cached (w : World.t) (P : Polymer.t) (pol : nat) (prop : num) : Prop :=
  ∃ p weight,
    World.polymerases w !! pol = Some p ∧
    vector_at (Polymer.weights_ P)
      (Polymerase.stop p - Polymer.start_ P - 1) = Some weight ∧
    prop = num_mul weight (Polymerase.speed p).

(** Two states of a polymer with the same occupancy bookkeeping. *)
Definition occ_same (P P' : Polymer.t) : Prop :=
  Polymer.polymerases_ P' = Polymer.polymerases_ P ∧
  Polymer.prop_list_ P' = Polymer.prop_list_ P ∧
  Polymer.prop_sum_ P' = Polymer.prop_sum_ P ∧
  Polymer.weights_ P' = Polymer.weights_ P ∧
  Polymer.start_ P' = Polymer.start_ P ∧
  Polymer.index_ P' = Polymer.index_ P.

(** A step of the world that moves no polymerase and keeps the occupancy
    bookkeeping of [this]. *)
Definition occ_frame (this : nat) (w w' : World.t) : Prop :=
  World.polymerases w' = World.polymerases w ∧
  ∃ P P', World.polymers w !! this = Some P ∧
          World.polymers w' !! this = Some P' ∧
          occ_same P P'.

(** A step of the world that keeps the occupancy bookkeeping of [this] and,
    of its occupants outside [skip], the stop and the speed. *)
Definition quiet (this : nat) (skip : list nat) (w w' : World.t) : Prop :=
  ∀ P, World.polymers w !! this = Some P →
    ∃ P', World.polymers w' !! this = Some P' ∧ occ_same P P' ∧
      ∀ q p, q ∈ Polymer.polymerases_ P → q ∉ skip →
        World.polymerases w !! q = Some p →
        ∃ p', World.polymerases w' !! q = Some p' ∧
              Polymerase.stop p' = Polymerase.stop p ∧
              Polymerase.speed p' = Polymerase.speed p.

(** A member function that keeps the occupancy bookkeeping of its polymer. *)
Definition local_quiet {A} (m : M Polymer.t A) : Prop :=
  ∀ P a P', m P = Ok a P' → occ_same P P'.

(** A function that takes only quiet steps. *)
Definition world_quiet {A} (this : nat) (skip : list nat) (m : M World.t A) : Prop :=
  ∀ w a w', m w = Ok a w' → quiet this skip w w'.

(** After a step from [w] the bookkeeping of [this] is consistent and its
    propensities are those of [w] after one update. *)
Definition Bookkeeping (this : nat) (w w' : World.t) : Prop :=
  Consistent w' this ∧ Updated this w w'.

(** What a failed termination attempt may change in a terminator. *)
Definition raise_step (s s' : Terminator.t) : Prop :=
  s' = s ∨ s' = Terminator.set_readthrough true s.

(** What the iterations of [CheckTermination] that do not terminate may
    change in the world: draws are consumed and readthrough flags of the
    terminators of [this] are raised. *)
Definition readthrough_step (this : nat) (w w' : World.t) : Prop :=
  World.polymerases w' = World.polymerases w ∧
  World.trace w' = World.trace w ∧
  World.random_reals w' = World.random_reals w ∧
  ∃ P ts,
    World.polymers w !! this = Some P ∧
    Forall2 raise_step (Polymer.terminators P) ts ∧
    World.polymers w' = <[this := Polymer.set_terminators ts P]> (World.polymers w).

(** A polymerase after the position change of [Polymerase::Move]. *)
Definition advanced (p : Polymerase.t) : Polymerase.t :=
  Polymerase.set_stop (Polymerase.stop p + 1)
    (Polymerase.set_start (Polymerase.start p + 1) p).

End Frames.

(** ** Concrete simulations *)

Section Scenarios.
Context `{Platform}.

(** A world without objects whose generator yields the given draws. *)
Definition empty_world (reals : nat → num) : World.t :=
  World.mk [] [] [] reals (λ _, O) O.

(** [std::make_shared<Polymerase>], done by the simulation. *)
Definition make_shared_polymerase (p : Polymerase.t) : M World.t nat :=
  fun w => Ok (length (World.polymerases w))
              (World.set_polymerases (World.polymerases w ++ [p]) w).

(** The world an outcome leaves behind. *)
Definition world_of {A} (o : outcome World.t A) : World.t :=
  match o with
  | Ok _ w => w
  | Throw _ w => w
  | Undefined => empty_world (λ _, num_zero)
  end.

Definition polymer_at (w : World.t) (this : nat) : Polymer.t :=
  default (Polymer.mk "" 0 0 0 [] [] [] [] [] [] [] (Mask.mk "" 0 0 ∅)
             [] [] num_zero ∅ ∅ Polymer.Base)
          (World.polymers w !! this).

Definition polymerase_at (w : World.t) (pol : nat) : Polymerase.t :=
  default (Polymerase.mk "" 0 num_zero 0 0 0 Signal.new)
          (World.polymerases w !! pol).

(** An RNA polymerase of footprint 10 with the given speed, not yet bound. *)
Definition rnapol (speed : num) : Polymerase.t :=
  Polymerase.mk "rnapol" 10 speed 0 9 0 Signal.new.

(** A genome of length 100 is built, initialized and becomes object 0. *)
Definition new_genome (build : M Polymer.t unit) : M World.t unit :=
  let* G := Genome_new "genome" 100 in
  let* g := make_shared_polymer G in
  on_polymer g build ;;
  on_polymer g Genome_Initialize.

(** One gene: promoter [P] at 10..19, a terminator at 21..22 that stops
    [rnapol] with efficiency 0, and a gene at 30..60 with its RBS at 25..29.
    One RNA polymerase is created. *)
Definition one_gene : M World.t unit :=
  new_genome
    (Genome_AddPromoter "P" 10 19 {[ "rnapol" := num_one ]} ;;
     Genome_AddTerminator "T" 21 22 {[ "rnapol" := num_zero ]} ;;
     Genome_AddGene "g" 30 60 25 29 num_one) ;;
  make_shared_polymerase (rnapol num_one) ;;
  ret tt.

(** The polymerase is bound at [P]: it sits at 10..19 and a transcript was
    spawned as object 1. *)
Definition one_gene_bound : M World.t unit :=
  one_gene ;; Genome_Bind 0 0 "P".

(** Two promoters next to each other, each with a polymerase bound: the
    polymerases sit at 10..19 and 20..29. *)
Definition two_neighbours : M World.t unit :=
  new_genome
    (Genome_AddPromoter "P" 10 19 {[ "rnapol" := num_one ]} ;;
     Genome_AddPromoter "Q" 20 29 {[ "rnapol" := num_one ]}) ;;
  make_shared_polymerase (rnapol num_one) ;;
  make_shared_polymerase (rnapol num_one) ;;
  Genome_Bind 0 0 "P" ;;
  Genome_Bind 0 1 "Q".

(** A genome masked from [mask_start] on, the mask admitting nobody, with
    a promoter at [a .. b] and one polymerase created. *)
Definition masked_genome (mask_start a b : Z) : M World.t unit :=
  new_genome
    (Genome_AddMask mask_start [] ;;
     Genome_AddPromoter "P" a b {[ "rnapol" := num_one ]}) ;;
  make_shared_polymerase (rnapol num_one) ;;
  ret tt.

(** The same genome with a mask that admits [rnapol]. *)
Definition open_masked_genome (mask_start a b : Z) : M World.t unit :=
  new_genome
    (Genome_AddMask mask_start ["rnapol"] ;;
     Genome_AddPromoter "P" a b {[ "rnapol" := num_one ]}) ;;
  make_shared_polymerase (rnapol num_one) ;;
  ret tt.

(** Two polymerases placed at 10..19 and 30..39 by hand, on a genome
    without sites. *)
Definition two_unbound (speed_a speed_b : num) : M World.t unit :=
  new_genome (ret tt) ;;
  make_shared_polymerase
    (Polymerase.set_stop 19 (Polymerase.set_start 10 (rnapol speed_a))) ;;
  make_shared_polymerase
    (Polymerase.set_stop 39 (Polymerase.set_start 30 (rnapol speed_b))) ;;
  ret tt.

End Scenarios.

(** The platform of the program: binary64 arithmetic, and an interval tree
    whose queries push onto the vector they are given. *)
Definition ieee : Platform := ieee_platform true.

Section Runs.
#[local] Existing Instance ieee.

(** Every draw is 1: no termination attempt succeeds. *)
Definition draws_high : World.t := empty_world (λ _, num_one).

(** Every draw is 0: every termination attempt succeeds. *)
Definition draws_low : World.t := empty_world (λ _, num_zero).

(** One polymerase at 10..19 on the genome, its transcript spawned. *)
Definition w_bound : World.t := world_of (one_gene_bound draws_low).

(** The same with draws that make termination attempts fail. *)
Definition w_readthrough : World.t := world_of (one_gene_bound draws_high).

(** The genome with one gene and an unbound polymerase. *)
Definition w_unbound : World.t := world_of (one_gene draws_low).


(** Polymerases at 10..19 and 20..29. *)
Definition w_neighbours : World.t := world_of (two_neighbours draws_low).

(** ... after the speculative step of the first one, to 11..20. *)
Definition w_neighbours_stepped : World.t :=
  world_of (Polymerase_Move 0 w_neighbours).

(** A polymerase at 11..20 in front of a mask that starts at 20 and admits
    nobody. *)
Definition w_at_mask : World.t :=
  world_of ((masked_genome 20 10 19 ;; Polymer_Bind 0 0 "P" ;; Polymerase_Move 0)
              draws_low).

(** A polymerase bound at 10..19 in front of a mask that starts at 20 and
    admits it; and the same after the step of the polymerase to 11..20. *)
Definition w_before_open_mask : World.t :=
  world_of ((open_masked_genome 20 10 19 ;; Polymer_Bind 0 0 "P") draws_low).
Definition w_at_open_mask : World.t :=
  world_of (Polymerase_Move 0 w_before_open_mask).

(** A promoter at 10..19 under a mask that starts at 15, and a polymerase
    that is not bound. *)
Definition w_masked_promoter : World.t :=
  world_of (masked_genome 15 10 19 draws_low).

(** Two occupants with propensities 1e16 and 1 are inserted one after the
    other; then the first one terminates. *)
Definition w_two_unbound : World.t :=
  world_of (two_unbound 1e16%float 1%float draws_low).
Definition w_huge : World.t := world_of (Polymer_Insert 0 0 w_two_unbound).
Definition w_huge_and_one : World.t := world_of (Polymer_Insert 0 1 w_huge).
Definition w_one_left : World.t := world_of (Polymer_Terminate 0 0 "" w_huge_and_one).

(** The polymerase on the terminator, with draws that make the attempt
    fail; and eleven steps later, at 23..32, past the terminator. *)
Definition w_at_terminator_high : World.t :=
  world_of ((Polymerase_Move 0 ;; Polymerase_Move 0) w_readthrough).
Definition w_past_terminator : World.t :=
  world_of (times 13 (Polymer_Move 0 0) w_readthrough).

End Runs.

(** ** Further notions *)

Section Accessors.
Context `{Platform}.

(** [const std::map<...> &Genome::bindings() { return bindings_; }] *)
Definition Genome_bindings : M Polymer.t (gmap string (gmap string num)) :=
  let* g := get_genome in
  ret (Polymer.bindings_ g).

End Accessors.

Section Sites.
Context `{Platform}.

(** Some interval of the tree points to the promoter [i]. *)
Definition registered (tree : IntervalTree.t) (i : nat) : bool :=
  existsb (λ iv, bool_decide (Interval.value iv = i)) tree.

(** Every interval of the binding tree points to a promoter of the polymer
    that has the bounds of the interval and is not empty. *)
Definition sites_aligned (P : Polymer.t) : Prop :=
  Forall (λ iv, ∃ s, Polymer.promoters P !! Interval.value iv = Some s ∧
                     Promoter.start s = Interval.start iv ∧
                     Promoter.stop s = Interval.stop iv ∧
                     Promoter.start s ≤ Promoter.stop s)
         (Polymer.binding_sites_ P).

End Sites.

Section Order.
Context `{Platform}.

(** [R] holds between every element of the list and every later one. *)
Fixpoint pairwise {A} (R : A → A → Prop) (l : list A) : Prop :=
  match l with
  | [] => True
  | x :: l' => Forall (R x) l' ∧ pairwise R l'
  end.

(** The polymerase objects behind the occupants of [P], in their order. *)
Definition occupants_are (w : World.t) (P : Polymer.t) (ps : list Polymerase.t) : Prop :=
  Forall2 (λ q p, World.polymerases w !! q = Some p) (Polymer.polymerases_ P) ps.

(** The occupants of [this] are in the order of their start positions,
    which is what [std::upper_bound] in [Insert] requires. *)
Definition Ordered (w : World.t) (this : nat) : Prop :=
  ∃ P ps, World.polymers w !! this = Some P ∧ occupants_are w P ps ∧
          pairwise (λ a b, Polymerase.start a ≤ Polymerase.start b) ps.

(** The occupants of [this] are not empty and lie one after the other
    without overlap. *)
Definition Separated (w : World.t) (this : nat) : Prop :=
  ∃ P ps, World.polymers w !! this = Some P ∧ occupants_are w P ps ∧
          Forall (λ p, Polymerase.start p ≤ Polymerase.stop p) ps ∧
          pairwise (λ a b, Polymerase.stop a < Polymerase.start b) ps.

End Order.

(** [m] relates the state it is run on to the state it leaves: on a normal
    return and, if [throws] is set, also at a [throw]. *)
Definition keeps {W A} (throws : bool) (R : W → W → Prop) (m : M W A) : Prop :=
  ∀ w, match m w with
       | Ok _ w' => R w w'
       | Throw _ w' => throws = true → R w w'
       | Undefined => True
       end.

Section Frame.
Context `{Platform}.

(** What identifies a polymerase. *)
Definition same_polymerase (p p' : Polymerase.t) : Prop :=
  Polymerase.name p' = Polymerase.name p ∧
  Polymerase.footprint p' = Polymerase.footprint p ∧
  Polymerase.speed p' = Polymerase.speed p.

(** A step of the world that keeps every polymer in relation [L] to its
    earlier state, every polymerase what it is, and that neither creates
    nor destroys a polymerase, only extends the trace and only consumes
    random draws. *)
Definition frame (L : Polymer.t → Polymer.t → Prop) (w w' : World.t) : Prop :=
  (∀ t P, World.polymers w !! t = Some P →
          ∃ P', World.polymers w' !! t = Some P' ∧ L P P') ∧
  length (World.polymerases w') = length (World.polymerases w) ∧
  (∀ q p, World.polymerases w !! q = Some p →
          ∃ p', World.polymerases w' !! q = Some p' ∧ same_polymerase p p') ∧
  World.trace w `prefix_of` World.trace w' ∧
  World.random_reals w' = World.random_reals w ∧
  World.random_choices w' = World.random_choices w ∧
  (World.random_pos w ≤ World.random_pos w')%nat.

(** The three state changes of a promoter in polymer.cpp. *)
Definition promoter_change (f : Promoter.t → Promoter.t) : Prop :=
  f = Promoter.Cover ∨ f = Promoter.Uncover ∨ f = Promoter.SaveState.

(** [L] holds across each write that [Insert], [Move], [Terminate] and
    [ShiftMask] make to a polymer. *)
Record LocalFrame (L : Polymer.t → Polymer.t → Prop) : Prop := {
  lf_refl : ∀ P, L P P;
  lf_trans : ∀ P1 P2 P3, L P1 P2 → L P2 P3 → L P1 P3;
  lf_promoter : ∀ P i s f,
    Polymer.promoters P !! i = Some s → promoter_change f →
    L P (Polymer.set_promoters (<[i := f s]> (Polymer.promoters P)) P);
  lf_terminator : ∀ P i s,
    Polymer.terminators P !! i = Some s →
    L P (Polymer.set_terminators
           (<[i := Terminator.set_readthrough true s]> (Polymer.terminators P)) P);
  lf_recede : ∀ P,
    Mask.start (Polymer.mask_ P) ≤ Mask.stop (Polymer.mask_ P) →
    L P (Polymer.set_mask_ (Mask.Recede (Polymer.mask_ P)) P);
  lf_polymerases : ∀ P x, L P (Polymer.set_polymerases_ x P);
  lf_prop_list : ∀ P x, L P (Polymer.set_prop_list_ x P);
  lf_prop_sum : ∀ P x, L P (Polymer.set_prop_sum_ x P)
}.

(** [L] holds across the writes of [Initialize], [Genome::Initialize],
    [Bind] and [Execute] to the cache, the log and the trees. *)
Record CacheFrame (throws : bool) (L : Polymer.t → Polymer.t → Prop) : Prop := {
  cf_cover : ∀ n, keeps throws L (Polymer_CoverBindingSite n);
  cf_uncover : ∀ n, keeps throws L (Polymer_UncoverBindingSite n);
  cf_log_clear : ∀ P, L P (Polymer.set_species_log_ ∅ P);
  cf_binding_sites : ∀ P,
    L P (Polymer.set_binding_sites_
           (IntervalTree.build (Polymer.binding_intervals_ P)) P);
  cf_release_sites : ∀ P,
    L P (Polymer.set_release_sites_
           (IntervalTree.build (Polymer.release_intervals_ P)) P);
  cf_rbs : ∀ P g,
    Polymer.derived P = Polymer.Genome g →
    L P (Polymer.set_derived
           (Polymer.Genome
              (Polymer.set_transcript_rbs_
                 (IntervalTree.build (Polymer.transcript_rbs_intervals_ g)) g)) P);
  cf_stop_sites : ∀ P g,
    Polymer.derived P = Polymer.Genome g →
    L P (Polymer.set_derived
           (Polymer.Genome
              (Polymer.set_transcript_stop_sites_
                 (IntervalTree.build (Polymer.transcript_stop_site_intervals_ g)) g)) P)
}.

(** What identifies a site. *)
Definition same_promoter (s s' : Promoter.t) : Prop :=
  Promoter.name s' = Promoter.name s ∧
  Promoter.start s' = Promoter.start s ∧
  Promoter.stop s' = Promoter.stop s ∧
  Promoter.interactions s' = Promoter.interactions s ∧
  Promoter.type s' = Promoter.type s ∧
  Promoter.gene s' = Promoter.gene s.

Definition same_terminator (s s' : Terminator.t) : Prop :=
  Terminator.name s' = Terminator.name s ∧
  Terminator.start s' = Terminator.start s ∧
  Terminator.stop s' = Terminator.stop s ∧
  Terminator.interactions s' = Terminator.interactions s ∧
  Terminator.reading_frame s' = Terminator.reading_frame s ∧
  Terminator.gene s' = Terminator.gene s.

(** The dynamic type of a polymer and, for a genome, what its transcripts
    are built from. *)
Definition same_kind (d d' : Polymer.subclass) : Prop :=
  match d, d' with
  | Polymer.Base, Polymer.Base => True
  | Polymer.Transcript, Polymer.Transcript => True
  | Polymer.Genome g, Polymer.Genome g' =>
      Polymer.transcript_rbs_intervals_ g' = Polymer.transcript_rbs_intervals_ g ∧
      Polymer.transcript_stop_site_intervals_ g'
        = Polymer.transcript_stop_site_intervals_ g ∧
      Polymer.transcript_weights_ g' = Polymer.transcript_weights_ g ∧
      Polymer.bindings_ g' = Polymer.bindings_ g
  | _, _ => False
  end.

(** The layout of a polymer: its name, index and bounds, its weights, its
    interval vectors, and the identity of each of its sites. *)
Definition same_layout (P P' : Polymer.t) : Prop :=
  Polymer.name_ P' = Polymer.name_ P ∧
  Polymer.index_ P' = Polymer.index_ P ∧
  Polymer.start_ P' = Polymer.start_ P ∧
  Polymer.stop_ P' = Polymer.stop_ P ∧
  Polymer.weights_ P' = Polymer.weights_ P ∧
  Polymer.binding_intervals_ P' = Polymer.binding_intervals_ P ∧
  Polymer.release_intervals_ P' = Polymer.release_intervals_ P ∧
  Forall2 same_promoter (Polymer.promoters P) (Polymer.promoters P') ∧
  Forall2 same_terminator (Polymer.terminators P) (Polymer.terminators P') ∧
  same_kind (Polymer.derived P) (Polymer.derived P').

(** The mask keeps its end, its name and its interactions; its start does
    not go down, and goes up no further than one past the end. *)
Definition mask_recedes (P P' : Polymer.t) : Prop :=
  Mask.name (Polymer.mask_ P') = Mask.name (Polymer.mask_ P) ∧
  Mask.stop (Polymer.mask_ P') = Mask.stop (Polymer.mask_ P) ∧
  Mask.interactions (Polymer.mask_ P') = Mask.interactions (Polymer.mask_ P) ∧
  Mask.start (Polymer.mask_ P) ≤ Mask.start (Polymer.mask_ P') ∧
  Mask.start (Polymer.mask_ P')
    ≤ Z.max (Mask.start (Polymer.mask_ P)) (Mask.stop (Polymer.mask_ P) + 1).

(** No count of the cache is negative. *)
Definition counts_nonneg (P : Polymer.t) : Prop :=
  ∀ n c, Polymer.uncovered_ P !! n = Some c → 0 ≤ c.

Definition keeps_counts_nonneg (P P' : Polymer.t) : Prop :=
  counts_nonneg P → counts_nonneg P'.

(** The cache and the log are as they were. *)
Definition same_cache (P P' : Polymer.t) : Prop :=
  Polymer.uncovered_ P' = Polymer.uncovered_ P ∧
  Polymer.species_log_ P' = Polymer.species_log_ P.

End Frame.

Section Counting.
Context `{Platform}.

(** The interval points to a promoter of the species [n]. *)
Definition names_species (P : Polymer.t) (n : string) (iv : Interval.t) : bool :=
  bool_decide (Promoter.name <$> Polymer.promoters P !! Interval.value iv = Some n).

(** A genome of length 100 with two promoters of the same name, at 10..19
    and 40..49, that has not been initialized. *)
Definition two_promoters : M World.t unit :=
  let* G := Genome_new "genome" 100 in
  let* g := make_shared_polymer G in
  on_polymer g
    (Genome_AddPromoter "P" 10 19 {[ "rnapol" := num_one ]} ;;
     Genome_AddPromoter "P" 40 49 {[ "rnapol" := num_one ]}).

End Counting.

Section MoreRuns.
#[local] Existing Instance ieee.

(** A ribosome of footprint 10, not yet bound. *)
Definition ribosome : Polymerase.t :=
  Polymerase.mk "ribosome" 10 num_one 0 9 0 Signal.new.

(** The transcript of [w_readthrough] is initialized, as the simulation
    does when it receives it; the polymerase then takes 20 steps, to
    30..39, so that the mask of the transcript has receded to 39 and its
    ribosome binding site at 25..29 is free; a ribosome is created. *)
Definition w_translating : World.t :=
  world_of ((on_polymer 1 Polymer_Initialize ;;
             times 20 (Polymer_Move 0 0) ;;
             make_shared_polymerase ribosome ;;
             ret tt) w_readthrough).

(** The genome with two promoters named [P], before [Initialize]. *)
Definition w_two_promoters : World.t := world_of (two_promoters draws_low).

End MoreRuns.

(** * Reasoning about outcomes *)

Lemma Some_eq_inv {A} (x y : A) : Some x = Some y → x = y.
Proof. congruence. Qed.

Section Monad.
Context {W : Type}.

Lemma bind_Ok {A B} (m : M W A) (k : A -> M W B) w b w'' :
  bind m k w = Ok b w'' ↔ ∃ a w', m w = Ok a w' ∧ k a w' = Ok b w''.
Proof.
  unfold bind. split.
  - destruct (m w) as [a w'| |]; try discriminate. eauto.
  - intros (a & w' & -> & Hk). exact Hk.
Qed.

Lemma bind_Throw {A B} (m : M W A) (k : A -> M W B) w e w'' :
  bind m k w = Throw e w'' ↔
  m w = Throw e w'' ∨ ∃ a w', m w = Ok a w' ∧ k a w' = Throw e w''.
Proof.
  unfold bind. split.
  - destruct (m w) as [a w'|e' w'|]; try discriminate.
    + intros Hk. right. exists a, w'. split; [reflexivity | exact Hk].
    + intros [= -> ->]. left. reflexivity.
  - intros [-> | (a & w' & -> & Hk)]; [reflexivity | exact Hk].
Qed.

Lemma bind_run {A B} (m : M W A) (k : A -> M W B) w a w' :
  m w = Ok a w' → bind m k w = k a w'.
Proof. unfold bind. intros ->. reflexivity. Qed.

Lemma deref_Ok {A} (o : option A) (w : W) a w' :
  deref o w = Ok a w' ↔ o = Some a ∧ w' = w.
Proof.
  destruct o; unfold deref, ret, undefined; split;
    try (intros [= <- <-]; done); try (intros [[= <-] ->]; done);
    try discriminate; intros [? _]; discriminate.
Qed.

Lemma deref_not_Throw {A} (o : option A) (w : W) e w' : deref o w ≠ Throw e w'.
Proof. destruct o; discriminate. Qed.

Lemma guard_Ok (b : bool) e (w : W) (u : unit) w' :
  (if b then throw e else ret tt) w = Ok u w' ↔ b = false ∧ w' = w.
Proof.
  destruct b, u; unfold throw, ret; split; try discriminate;
    try (intros [= <-]; done); try (intros [? _]; discriminate);
    intros [_ ->]; done.
Qed.

Lemma guard_Throw (b : bool) e (w : W) e' w' :
  (if b then throw e else ret tt) w = Throw e' w' ↔ b = true ∧ e' = e ∧ w' = w.
Proof.
  destruct b; unfold throw, ret; split; try discriminate;
    try (intros [= <- <-]; done); try (intros (? & _); discriminate).
  intros (_ & -> & ->); done.
Qed.

Lemma for_each_app {A} (xs ys : list A) (body : A -> M W unit) w :
  for_each (xs ++ ys) body w = (for_each xs body ;; for_each ys body) w.
Proof.
  revert w; induction xs as [|x xs IH]; intros w; simpl.
  - reflexivity.
  - unfold bind in *. destruct (body x w); try reflexivity. apply IH.
Qed.

(** A loop keeps what each of its iterations keeps. *)
Lemma for_each_invariant {A} (R : W -> W -> Prop) (xs : list A)
    (body : A -> M W unit) :
  (∀ w, R w w) → (∀ w1 w2 w3, R w1 w2 → R w2 w3 → R w1 w3) →
  (∀ x w u w', x ∈ xs → body x w = Ok u w' → R w w') →
  ∀ w u w', for_each xs body w = Ok u w' → R w w'.
Proof.
  intros Hrefl Htrans. induction xs as [|x xs IH]; intros Hbody w u w' Hrun; simpl in Hrun.
  - injection Hrun as _ <-. apply Hrefl.
  - apply bind_Ok in Hrun as (u1 & w1 & H1 & H2).
    eapply Htrans.
    + eapply Hbody; [left | exact H1].
    + eapply IH; [|exact H2]. intros; eapply Hbody; [right|]; eassumption.
Qed.

Lemma times_invariant (R : W -> W -> Prop) (n : nat) (body : M W unit) :
  (∀ w, R w w) → (∀ w1 w2 w3, R w1 w2 → R w2 w3 → R w1 w3) →
  (∀ w u w', body w = Ok u w' → R w w') →
  ∀ w u w', times n body w = Ok u w' → R w w'.
Proof.
  intros Hrefl Htrans Hbody. induction n as [|n IH]; intros w u w' Hrun; simpl in Hrun.
  - injection Hrun as _ <-. apply Hrefl.
  - apply bind_Ok in Hrun as (u1 & w1 & H1 & H2).
    eapply Htrans; [eapply Hbody; exact H1 | eapply IH; exact H2].
Qed.

End Monad.

(** Take the hypotheses about the run of a sequence apart. *)
Ltac run_base :=
  match goal with
  | H : bind _ _ _ = Ok _ _ |- _ => apply bind_Ok in H as (? & ? & ? & ?)
  | H : deref _ _ = Ok _ _ |- _ => apply deref_Ok in H as [? ?]
  | H : (if _ then throw _ else ret tt) _ = Ok _ _ |- _ => apply guard_Ok in H as [? ?]
  | H : ret _ _ = Ok _ _ |- _ => unfold ret in H; injection H as ? ?
  | H : get _ = Ok _ _ |- _ => unfold get in H; injection H as ? ?
  | H : modify _ _ = Ok _ _ |- _ => unfold modify in H; injection H as ?
  | H : throw _ _ = Ok _ _ |- _ => discriminate H
  | H : undefined _ = Ok _ _ |- _ => discriminate H
  end.

(** * The objects of the world *)

Section Objects.
Context `{Platform}.

Lemma World_eta_polymers (w : World.t) :
  World.set_polymers (World.polymers w) w = w.
Proof. destruct w; reflexivity. Qed.

Lemma World_eta_polymerases (w : World.t) :
  World.set_polymerases (World.polymerases w) w = w.
Proof. destruct w; reflexivity. Qed.

Lemma Polymer_eta_promoters (P : Polymer.t) :
  Polymer.set_promoters (Polymer.promoters P) P = P.
Proof. destruct P; reflexivity. Qed.

Lemma Polymer_eta_mask (P : Polymer.t) :
  Polymer.set_mask_ (Polymer.mask_ P) P = P.
Proof. destruct P; reflexivity. Qed.

Lemma Polymer_eta_terminators (P : Polymer.t) :
  Polymer.set_terminators (Polymer.terminators P) P = P.
Proof. destruct P; reflexivity. Qed.

Lemma on_polymer_Ok {A} this (m : M Polymer.t A) w a w' :
  on_polymer this m w = Ok a w' ↔
  ∃ P P', World.polymers w !! this = Some P ∧ m P = Ok a P' ∧
          w' = World.set_polymers (<[this := P']> (World.polymers w)) w.
Proof.
  unfold on_polymer. split.
  - destruct (World.polymers w !! this) as [P|]; [|discriminate].
    destruct (m P) as [a' P'| |] eqn:Hm; try discriminate.
    intros [= <- <-]. eauto.
  - intros (P & P' & -> & -> & ->). reflexivity.
Qed.

Lemma on_polymer_Throw {A} this (m : M Polymer.t A) w e w' :
  on_polymer this m w = Throw e w' ↔
  ∃ P P', World.polymers w !! this = Some P ∧ m P = Throw e P' ∧
          w' = World.set_polymers (<[this := P']> (World.polymers w)) w.
Proof.
  unfold on_polymer. split.
  - destruct (World.polymers w !! this) as [P|]; [|discriminate].
    destruct (m P) as [a' P'|e' P'|] eqn:Hm; try discriminate.
    intros [= <- <-]. eauto.
  - intros (P & P' & -> & -> & ->). reflexivity.
Qed.

Lemma get_polymer_Ok this w P w' :
  get_polymer this w = Ok P w' ↔ World.polymers w !! this = Some P ∧ w' = w.
Proof.
  unfold get_polymer. rewrite on_polymer_Ok. unfold get. split.
  - intros (P0 & P' & Hl & [= <- <-] & ->). split; [done|].
    rewrite list_insert_id by done. apply World_eta_polymers.
  - intros [Hl ->]. exists P, P. split_and!; [done..|].
    rewrite list_insert_id by done. symmetry; apply World_eta_polymers.
Qed.

Lemma get_polymer_not_Throw this w e w' : get_polymer this w ≠ Throw e w'.
Proof.
  unfold get_polymer. rewrite on_polymer_Throw. unfold get.
  intros (? & ? & _ & ? & _). discriminate.
Qed.

Lemma get_polymerase_Ok pol w p w' :
  get_polymerase pol w = Ok p w' ↔ World.polymerases w !! pol = Some p ∧ w' = w.
Proof. unfold get_polymerase. apply deref_Ok. Qed.

Lemma get_polymerase_not_Throw pol w e w' : get_polymerase pol w ≠ Throw e w'.
Proof. unfold get_polymerase. apply deref_not_Throw. Qed.

Lemma update_polymerase_Ok pol f w u w' :
  update_polymerase pol f w = Ok u w' ↔
  ∃ p, World.polymerases w !! pol = Some p ∧
       w' = World.set_polymerases (<[pol := f p]> (World.polymerases w)) w.
Proof.
  unfold update_polymerase. rewrite bind_Ok. split.
  - intros (p & w1 & Hg & Hm). apply get_polymerase_Ok in Hg as [Hl ->].
    unfold modify in Hm. injection Hm as <-. eauto.
  - intros (p & Hl & ->). exists p, w. split; [by apply get_polymerase_Ok|].
    destruct u. reflexivity.
Qed.

Lemma update_polymerase_not_Throw pol f w e w' :
  update_polymerase pol f w ≠ Throw e w'.
Proof.
  unfold update_polymerase. rewrite bind_Throw.
  intros [Hg | (p & w1 & _ & Hm)]; [by apply get_polymerase_not_Throw in Hg|].
  discriminate.
Qed.

Lemma log_Ok ev w u w' :
  log ev w = Ok u w' ↔ w' = World.set_trace (World.trace w ++ [ev]) w.
Proof.
  unfold log, modify. destruct u. split; [intros [= <-]; done | intros ->; done].
Qed.

Lemma get_promoter_Ok site P s P' :
  get_promoter site P = Ok s P' ↔ Polymer.promoters P !! site = Some s ∧ P' = P.
Proof. unfold get_promoter. apply deref_Ok. Qed.

Lemma update_promoter_Ok site f P u P' :
  update_promoter site f P = Ok u P' ↔
  ∃ s, Polymer.promoters P !! site = Some s ∧
       P' = Polymer.set_promoters (<[site := f s]> (Polymer.promoters P)) P.
Proof.
  unfold update_promoter. rewrite bind_Ok. split.
  - intros (s & P1 & Hg & Hm). apply get_promoter_Ok in Hg as [Hl ->].
    unfold modify in Hm. injection Hm as <-. eauto.
  - intros (s & Hl & ->). exists s, P. split; [by apply get_promoter_Ok|].
    destruct u. reflexivity.
Qed.

Lemma get_terminator_Ok site P s P' :
  get_terminator site P = Ok s P' ↔ Polymer.terminators P !! site = Some s ∧ P' = P.
Proof. unfold get_terminator. apply deref_Ok. Qed.

Lemma update_terminator_Ok site f P u P' :
  update_terminator site f P = Ok u P' ↔
  ∃ s, Polymer.terminators P !! site = Some s ∧
       P' = Polymer.set_terminators (<[site := f s]> (Polymer.terminators P)) P.
Proof.
  unfold update_terminator. rewrite bind_Ok. split.
  - intros (s & P1 & Hg & Hm). apply get_terminator_Ok in Hg as [Hl ->].
    unfold modify in Hm. injection Hm as <-. eauto.
  - intros (s & Hl & ->). exists s, P. split; [by apply get_terminator_Ok|].
    destruct u. reflexivity.
Qed.

End Objects.

Ltac run_step :=
  first
  [ run_base
  | match goal with
    | H : get_polymer _ _ = Ok _ _ |- _ => apply get_polymer_Ok in H as [? ?]
    | H : get_polymerase _ _ = Ok _ _ |- _ => apply get_polymerase_Ok in H as [? ?]
    | H : update_polymerase _ _ _ = Ok _ _ |- _ =>
        apply update_polymerase_Ok in H as (? & ? & ?)
    | H : log _ _ = Ok _ _ |- _ => apply log_Ok in H
    | H : get_promoter _ _ = Ok _ _ |- _ => apply get_promoter_Ok in H as [? ?]
    | H : update_promoter _ _ _ = Ok _ _ |- _ =>
        apply update_promoter_Ok in H as (? & ? & ?)
    | H : get_terminator _ _ = Ok _ _ |- _ => apply get_terminator_Ok in H as [? ?]
    | H : update_terminator _ _ _ = Ok _ _ |- _ =>
        apply update_terminator_Ok in H as (? & ? & ?)
    | H : on_polymer _ _ _ = Ok _ _ |- _ => apply on_polymer_Ok in H as (? & ? & ? & ? & ?)
    end ].

Ltac run_all := repeat (run_step; subst).

Section Steps.
Context `{Platform}.

(** ** Steps that only touch promoters and the mask *)

Lemma mask_step_refl (P : Polymer.t) : mask_step P P.
Proof.
  exists (Polymer.promoters P), (Polymer.mask_ P). destruct P; reflexivity.
Qed.

Lemma mask_step_trans (P1 P2 P3 : Polymer.t) :
  mask_step P1 P2 → mask_step P2 P3 → mask_step P1 P3.
Proof. intros (ps & m & ->) (ps' & m' & ->). exists ps', m'. reflexivity. Qed.

Lemma promoters_step_mask (P : Polymer.t) ps :
  mask_step P (Polymer.set_promoters ps P).
Proof. exists ps, (Polymer.mask_ P). destruct P; reflexivity. Qed.

Lemma promoters_loop_step {A} (xs : list A) (body : A → M Polymer.t unit) :
  (∀ x P u P', body x P = Ok u P' → ∃ ps, P' = Polymer.set_promoters ps P) →
  ∀ P u P', for_each xs body P = Ok u P' → ∃ ps, P' = Polymer.set_promoters ps P.
Proof.
  intros Hbody.
  apply (for_each_invariant (λ P P', ∃ ps, P' = Polymer.set_promoters ps P)).
  - intros Q. exists (Polymer.promoters Q). symmetry. apply Polymer_eta_promoters.
  - intros Q1 Q2 Q3 [ps ->] [ps' ->]. exists ps'. reflexivity.
  - intros x Q v Q' _. apply Hbody.
Qed.

Lemma CheckBehind_step old_start new_start P u P' :
  Polymer_CheckBehind old_start new_start P = Ok u P' →
  ∃ ps, P' = Polymer.set_promoters ps P.
Proof.
  unfold Polymer_CheckBehind. intros Hrun. run_all.
  revert H1. apply promoters_loop_step. clear.
  intros interval Q v Q' Hbody. run_all.
  destruct (Promoter.stop _ <? new_start); run_all; eauto.
  exists (Polymer.promoters Q'). symmetry. apply Polymer_eta_promoters.
Qed.

Lemma CheckAhead_step old_stop new_stop P u P' :
  Polymer_CheckAhead old_stop new_stop P = Ok u P' →
  ∃ ps, P' = Polymer.set_promoters ps P.
Proof.
  unfold Polymer_CheckAhead. intros Hrun. run_all.
  revert H1. apply promoters_loop_step. clear.
  intros interval Q v Q' Hbody. run_all.
  destruct (Promoter.start _ <? new_stop); run_all; eauto.
  exists (Polymer.promoters Q'). symmetry. apply Polymer_eta_promoters.
Qed.

(** [ShiftMask] recedes a mask that is not exhausted by one position, and
    does nothing to an exhausted one. *)
Lemma ShiftMask_Ok P u P' :
  Polymer_ShiftMask P = Ok u P' →
  ∃ ps, P' = Polymer.set_promoters ps
               (Polymer.set_mask_
                  (if Mask.start (Polymer.mask_ P) <=? Mask.stop (Polymer.mask_ P)
                   then Mask.Recede (Polymer.mask_ P) else Polymer.mask_ P) P).
Proof.
  unfold Polymer_ShiftMask. intros Hrun. run_all.
  destruct (Mask.start (Polymer.mask_ _) <=? Mask.stop (Polymer.mask_ _)); run_all.
  - match goal with Hc : Polymer_CheckBehind _ _ _ = Ok _ _ |- _ =>
      apply CheckBehind_step in Hc as [ps ->] end. eauto.
  - exists (Polymer.promoters P').
    rewrite Polymer_eta_mask. symmetry. apply Polymer_eta_promoters.
Qed.

Lemma ShiftMask_step P u P' : Polymer_ShiftMask P = Ok u P' → mask_step P P'.
Proof.
  intros Hrun. apply ShiftMask_Ok in Hrun as [ps ->].
  eexists _, _. destruct P; reflexivity.
Qed.

End Steps.

(** * Signals and the polymerase *)

Section Signals.
Context `{Platform}.

Lemma slots_step_refl (w : World.t) : slots_step w w.
Proof.
  repeat split. apply Forall_Forall2_diag, Forall_forall.
  intros P _. apply mask_step_refl.
Qed.

Lemma slots_step_trans (w1 w2 w3 : World.t) :
  slots_step w1 w2 → slots_step w2 w3 → slots_step w1 w3.
Proof.
  intros (A1 & A2 & A3 & A4 & A5 & A6) (B1 & B2 & B3 & B4 & B5 & B6).
  repeat split; try congruence.
  eapply Forall2_trans; [| exact A6 | exact B6].
  intros ? ? ?. apply mask_step_trans.
Qed.

Lemma Forall2_insert_related {A} (R : A → A → Prop) (l : list A) i x y :
  (∀ z, R z z) → l !! i = Some x → R x y → Forall2 R l (<[i := y]> l).
Proof.
  intros Hrefl Hl Hxy. apply Forall2_same_length_lookup_2.
  - by rewrite length_insert.
  - intros j a b Ha Hb. destruct (decide (i = j)) as [->|Hne].
    + rewrite list_lookup_insert_eq in Hb by (eapply lookup_lt_Some; eauto).
      congruence.
    + rewrite list_lookup_insert_ne in Hb by done.
      assert (a = b) as -> by congruence. apply Hrefl.
Qed.

Lemma on_polymer_mask_step this (m : M Polymer.t unit) w u w' :
  (∀ P v P', m P = Ok v P' → mask_step P P') →
  on_polymer this m w = Ok u w' → slots_step w w'.
Proof.
  intros Hm Hrun. apply on_polymer_Ok in Hrun as (P & P' & Hl & Hrun & ->).
  repeat split. simpl.
  eapply Forall2_insert_related; eauto using mask_step_refl.
Qed.

Lemma call_slot_step s w u w' : call_slot s w = Ok u w' → slots_step w w'.
Proof.
  destruct s as [t]. simpl. apply on_polymer_mask_step.
  intros P v P'. apply ShiftMask_step.
Qed.

(** A slot leaves every polymer but its target alone. *)
Lemma call_slot_other t w u w' this :
  call_slot (Call_ShiftMask t) w = Ok u w' → this ≠ t →
  World.polymers w' !! this = World.polymers w !! this.
Proof.
  simpl. intros Hrun Hne. apply on_polymer_Ok in Hrun as (P & P' & _ & _ & ->).
  simpl. by rewrite list_lookup_insert_ne.
Qed.

Lemma Signal_emit_step (s : Signal.t Slot) w u w' :
  Signal.emit call_slot s w = Ok u w' → slots_step w w'.
Proof.
  unfold Signal.emit.
  apply (for_each_invariant slots_step).
  - apply slots_step_refl.
  - apply slots_step_trans.
  - intros it w1 v w2 _. apply call_slot_step.
Qed.

Lemma Signal_emit_avoid (s : Signal.t Slot) this w u w' :
  slots_avoid this s →
  Signal.emit call_slot s w = Ok u w' →
  World.polymers w' !! this = World.polymers w !! this.
Proof.
  unfold Signal.emit, slots_avoid. intros Havoid.
  apply (for_each_invariant
           (λ w w', World.polymers w' !! this = World.polymers w !! this)).
  - done.
  - intros w1 w2 w3 E1 E2. congruence.
  - intros [id [t]] w1 v w2 Hin Hrun. simpl in Hrun.
    eapply call_slot_other; [exact Hrun|].
    intros ->. rewrite Forall_forall in Havoid. by apply (Havoid _ Hin).
Qed.

(** One [Emit] of a polymerase's signal: one entry in the trace, and the
    effect of the slots. *)
Lemma emit_move_signal_Ok pol w u w' :
  emit_move_signal pol w = Ok u w' →
  ∃ p, World.polymerases w !! pol = Some p ∧
       Signal.emit call_slot (Polymerase.move_signal_ p)
         (World.set_trace (World.trace w ++ [Ev_move_signal pol]) w) = Ok u w'.
Proof.
  unfold emit_move_signal. intros Hrun. run_all. eauto.
Qed.

Lemma emit_move_signal_step pol w u w' :
  emit_move_signal pol w = Ok u w' →
  World.polymerases w' = World.polymerases w ∧
  World.trace w' = World.trace w ++ [Ev_move_signal pol] ∧
  World.random_reals w' = World.random_reals w ∧
  World.random_choices w' = World.random_choices w ∧
  World.random_pos w' = World.random_pos w ∧
  Forall2 mask_step (World.polymers w) (World.polymers w').
Proof.
  intros Hrun. apply emit_move_signal_Ok in Hrun as (p & _ & Hrun).
  apply Signal_emit_step in Hrun as (A1 & A2 & A3 & A4 & A5 & A6). done.
Qed.

Lemma Polymerase_Move_Ok pol w u w' :
  Polymerase_Move pol w = Ok u w' →
  ∃ p, World.polymerases w !! pol = Some p ∧
       emit_move_signal pol
         (World.set_polymerases (<[pol := advanced p]> (World.polymerases w)) w)
       = Ok u w'.
Proof.
  unfold Polymerase_Move. intros Hrun. run_all. eauto.
Qed.

Lemma Polymerase_MoveBack_advanced pol w p :
  World.polymerases w !! pol = Some (advanced p) →
  Polymerase_MoveBack pol w
  = Ok tt (World.set_polymerases (<[pol := p]> (World.polymerases w)) w).
Proof.
  intros Hl. unfold Polymerase_MoveBack, update_polymerase, bind, get_polymerase.
  rewrite Hl. simpl. unfold modify. do 3 f_equal.
  destruct p; unfold advanced, Polymerase.set_stop, Polymerase.set_start; simpl.
  f_equal; lia.
Qed.

End Signals.

(** * Running member functions forward *)

Section Forward.
Context `{Platform}.

Lemma get_polymer_run this w P :
  World.polymers w !! this = Some P → get_polymer this w = Ok P w.
Proof. intros Hl. by apply get_polymer_Ok. Qed.

Lemma get_polymerase_run pol w p :
  World.polymerases w !! pol = Some p → get_polymerase pol w = Ok p w.
Proof. intros Hl. by apply get_polymerase_Ok. Qed.

Lemma on_polymer_run {A} this (m : M Polymer.t A) w P a P' :
  World.polymers w !! this = Some P → m P = Ok a P' →
  on_polymer this m w
  = Ok a (World.set_polymers (<[this := P']> (World.polymers w)) w).
Proof. intros Hl Hm. apply on_polymer_Ok. eauto. Qed.

Lemma lookup_set_polymers this (P' : Polymer.t) w :
  is_Some (World.polymers w !! this) →
  World.polymers (World.set_polymers (<[this := P']> (World.polymers w)) w) !! this
  = Some P'.
Proof.
  intros Hs. simpl. apply list_lookup_insert_eq. by apply lookup_lt_is_Some.
Qed.

Lemma set_polymers_twice this (P1 P2 : Polymer.t) w :
  World.set_polymers
    (<[this := P2]> (World.polymers
       (World.set_polymers (<[this := P1]> (World.polymers w)) w)))
    (World.set_polymers (<[this := P1]> (World.polymers w)) w)
  = World.set_polymers (<[this := P2]> (World.polymers w)) w.
Proof. destruct w; simpl. unfold World.set_polymers; simpl. by rewrite list_insert_insert_eq. Qed.

Lemma find_index_elem (x : nat) (v : list nat) :
  x ∈ v → v !! find_index x v = Some x.
Proof.
  induction v as [|y v IH]; intros Hin.
  - by apply elem_of_nil in Hin.
  - simpl. destruct (decide (y = x)) as [->|Hne]; [done|].
    apply elem_of_cons in Hin as [->|Hin]; [done|]. by apply IH.
Qed.

Lemma find_index_first (x : nat) (v : list nat) (i : nat) :
  NoDup v → v !! i = Some x → find_index x v = i.
Proof.
  intros Hnd. revert i. induction Hnd as [|y v Hy Hnd IH]; intros i Hi.
  - done.
  - simpl. destruct (decide (y = x)) as [->|Hne].
    + destruct i; [done|]. simpl in Hi. apply list_elem_of_lookup_2 in Hi. done.
    + destruct i; simpl in Hi; [congruence|]. f_equal. by apply IH.
Qed.

(** What [Terminate] computes for an occupant. *)
Lemma Terminate_run w this pol last_gene P p index prop :
  World.polymers w !! this = Some P →
  World.polymerases w !! pol = Some p →
  find_index pol (Polymer.polymerases_ P) = index →
  (index < length (Polymer.polymerases_ P))%nat →
  Polymer.prop_list_ P !! index = Some prop →
  length (Polymer.polymerases_ P) = length (Polymer.prop_list_ P) →
  Polymer_Terminate this pol last_gene w
  = Ok tt
      (World.set_polymers
         (<[this := Polymer.set_prop_list_ (delete index (Polymer.prop_list_ P))
                      (Polymer.set_polymerases_ (delete index (Polymer.polymerases_ P))
                         (Polymer.set_prop_sum_ (num_sub (Polymer.prop_sum_ P) prop) P))]>
            (World.polymers w))
         (World.set_trace
            (World.trace w ++
               [Ev_termination_signal (Polymer.index_ P) (Polymerase.name p) last_gene])
            w)).
Proof.
  intros HP Hp Hidx Hlt Hprop Hlen.
  assert (is_Some (World.polymers w !! this)) as Hsome by eauto.
  unfold Polymer_Terminate, Polymer_Terminate_with.
  rewrite (bind_run _ _ _ _ _ (get_polymer_run _ _ _ HP)).
  rewrite Hidx, Hprop.
  rewrite (bind_run _ _ w prop w) by reflexivity.
  erewrite bind_run by (eapply on_polymer_run; [exact HP | reflexivity]).
  erewrite bind_run by (by apply get_polymerase_run).
  erewrite bind_run by reflexivity.
  destruct (decide (index < length (Polymer.polymerases_ P))%nat); [|done].
  erewrite bind_run by reflexivity.
  erewrite bind_run.
  2:{ eapply on_polymer_run; [|reflexivity]. simpl.
      apply list_lookup_insert_eq. by apply lookup_lt_is_Some. }
  erewrite bind_run.
  2:{ eapply on_polymer_run; [|reflexivity]. simpl.
      apply list_lookup_insert_eq. rewrite length_insert. by apply lookup_lt_is_Some. }
  erewrite bind_run.
  2:{ apply get_polymer_run. simpl.
      apply list_lookup_insert_eq. rewrite !length_insert. by apply lookup_lt_is_Some. }
  simpl.
  destruct (decide _) as [Hne|_].
  - exfalso. apply Hne. rewrite !length_delete; [lia| |]; [|by eexists].
    apply lookup_lt_is_Some. lia.
  - unfold ret. f_equal. destruct w; unfold World.set_polymers, World.set_trace; simpl.
    by rewrite !list_insert_insert_eq.
Qed.

End Forward.

(** * Terminate *)

Section Terminate.
Context `{Platform}.

(** [Terminate] up to the emission, for an occupant: the propensity is
    subtracted and the slots are called in that state. *)
Lemma Terminate_with_emits emit w this pol last_gene P p index prop :
  World.polymers w !! this = Some P →
  World.polymerases w !! pol = Some p →
  find_index pol (Polymer.polymerases_ P) = index →
  Polymer.prop_list_ P !! index = Some prop →
  Polymer_Terminate_with emit this pol last_gene w
  = (emit (Polymer.index_ P) (Polymerase.name p) last_gene ;;
     (if decide (index < length (Polymer.polymerases_ P))%nat
      then ret tt else undefined) ;;
     on_polymer this (modify (fun P =>
       Polymer.set_polymerases_ (delete index (Polymer.polymerases_ P)) P)) ;;
     on_polymer this (modify (fun P =>
       Polymer.set_prop_list_ (delete index (Polymer.prop_list_ P)) P)) ;;
     let* P := get_polymer this in
     if decide (length (Polymer.prop_list_ P) ≠ length (Polymer.polymerases_ P))
     then throw PropListSize else ret tt)
      (World.set_polymers
         (<[this := Polymer.set_prop_sum_ (num_sub (Polymer.prop_sum_ P) prop) P]>
            (World.polymers w)) w).
Proof.
  intros HP Hp Hidx Hprop. unfold Polymer_Terminate_with.
  rewrite (bind_run _ _ _ _ _ (get_polymer_run _ _ _ HP)).
  rewrite Hidx, Hprop.
  rewrite (bind_run _ _ w prop w) by reflexivity.
  erewrite bind_run by (eapply on_polymer_run; [exact HP | reflexivity]).
  erewrite bind_run by (by apply get_polymerase_run).
  reflexivity.
Qed.

(** C8. [Terminate(pol, last_gene)] for an occupant [pol], found at [index]
    with cached propensity [prop].  The propensity is subtracted from
    [prop_sum_], which gives the state [w1], in which [pol] is still an
    occupant; [termination_signal_] is emitted in [w1] with the polymer's
    index, the name of [pol] and [last_gene]: whatever the slots of the
    signal do, they are run on [w1], an exception of theirs leaves
    [Terminate] at once, and when they return and have left the polymer as
    it is, the entries at [index] are erased from [polymerases_] and from
    [prop_list_] of the state they return.  With the emission recorded in
    the trace, [Terminate] returns normally, and the two vectors have the
    same length on exit. *)
Theorem Terminate_removes_occupant (w : World.t) (this pol : nat)
    (last_gene : string) (P : Polymer.t) (p : Polymerase.t) :
  World.polymers w !! this = Some P →
  World.polymerases w !! pol = Some p →
  pol ∈ Polymer.polymerases_ P →
  length (Polymer.polymerases_ P) = length (Polymer.prop_list_ P) →
  ∃ index prop,
    Polymer.polymerases_ P !! index = Some pol ∧
    Polymer.prop_list_ P !! index = Some prop ∧
    let P1 := Polymer.set_prop_sum_ (num_sub (Polymer.prop_sum_ P) prop) P in
    let w1 := World.set_polymers (<[this := P1]> (World.polymers w)) w in
    let P2 :=
      Polymer.set_prop_list_ (delete index (Polymer.prop_list_ P1))
        (Polymer.set_polymerases_ (delete index (Polymer.polymerases_ P1)) P1) in
    let w2 :=
      World.set_trace
        (World.trace w ++
           [Ev_termination_signal (Polymer.index_ P) (Polymerase.name p) last_gene])
        w1 in
    World.polymers w1 !! this = Some P1 ∧
    pol ∈ Polymer.polymerases_ P1 ∧
    (∀ emit e w',
       emit (Polymer.index_ P) (Polymerase.name p) last_gene w1 = Throw e w' →
       Polymer_Terminate_with emit this pol last_gene w = Throw e w') ∧
    (∀ emit w',
       emit (Polymer.index_ P) (Polymerase.name p) last_gene w1 = Ok tt w' →
       World.polymers w' !! this = Some P1 →
       Polymer_Terminate_with emit this pol last_gene w
       = Ok tt (World.set_polymers (<[this := P2]> (World.polymers w')) w')) ∧
    Polymer_Terminate this pol last_gene w
      = Ok tt (World.set_polymers (<[this := P2]> (World.polymers w2)) w2) ∧
    Polymer.prop_sum_ P2 = num_sub (Polymer.prop_sum_ P) prop ∧
    length (Polymer.polymerases_ P2) = length (Polymer.prop_list_ P2) ∧
    length (Polymer.polymerases_ P2) = pred (length (Polymer.polymerases_ P)).
Proof.
  intros HP Hp Hin Hlen.
  pose proof (find_index_elem _ _ Hin) as Hidx.
  set (index := find_index pol (Polymer.polymerases_ P)) in *.
  assert (index < length (Polymer.polymerases_ P))%nat as Hlt
    by (eapply lookup_lt_Some; eauto).
  destruct (lookup_lt_is_Some_2 (Polymer.prop_list_ P) index) as [prop Hprop]; [lia|].
  exists index, prop. split; [done|]. split; [done|]. cbv zeta.
  assert (this < length (World.polymers w))%nat as Hthis
    by (eapply lookup_lt_Some; eauto).
  set (P1 := Polymer.set_prop_sum_ (num_sub (Polymer.prop_sum_ P) prop) P).
  set (w1 := World.set_polymers (<[this := P1]> (World.polymers w)) w).
  assert (∀ emit w',
       emit (Polymer.index_ P) (Polymerase.name p) last_gene w1 = Ok tt w' →
       World.polymers w' !! this = Some P1 →
       Polymer_Terminate_with emit this pol last_gene w
       = Ok tt (World.set_polymers
                  (<[this := Polymer.set_prop_list_ (delete index (Polymer.prop_list_ P1))
                       (Polymer.set_polymerases_
                          (delete index (Polymer.polymerases_ P1)) P1)]>
                     (World.polymers w')) w')) as Hreturn.
  { intros emit w' Hemit HP1.
    rewrite (Terminate_with_emits emit w this pol last_gene P p index prop HP Hp eq_refl Hprop).
    fold P1. fold w1. rewrite (bind_run _ _ _ _ _ Hemit).
    destruct (decide (index < length (Polymer.polymerases_ P))%nat); [|done].
    erewrite bind_run by reflexivity.
    assert (this < length (World.polymers w'))%nat as Hthis'
      by (eapply lookup_lt_Some; eauto).
    erewrite bind_run by (eapply on_polymer_run; [exact HP1 | reflexivity]).
    erewrite bind_run.
    2:{ eapply on_polymer_run; [|reflexivity]. simpl.
        by apply list_lookup_insert_eq. }
    erewrite bind_run.
    2:{ apply get_polymer_run. simpl.
        apply list_lookup_insert_eq. by rewrite length_insert. }
    simpl.
    destruct (decide _) as [Hne|_].
    - exfalso. apply Hne. rewrite !length_delete; [lia| |]; [|by eexists].
      apply lookup_lt_is_Some. lia.
    - unfold ret. f_equal. destruct w'; unfold World.set_polymers; simpl.
      by rewrite !list_insert_insert_eq. }
  split_and!.
  - by apply list_lookup_insert_eq.
  - done.
  - intros emit e w' Hemit.
    rewrite (Terminate_with_emits emit w this pol last_gene P p index prop HP Hp eq_refl Hprop).
    fold P1. fold w1. apply bind_Throw. by left.
  - exact Hreturn.
  - unfold Polymer_Terminate. apply Hreturn; [reflexivity|].
    simpl. by apply list_lookup_insert_eq.
  - done.
  - simpl. rewrite !length_delete; [lia| |]; [by eexists|by eexists].
  - simpl. rewrite length_delete by (by eexists). lia.
Qed.

End Terminate.

(** * Collisions *)

Section Collisions.
Context `{Platform}.

Lemma for_each_not_Throw {W A} (xs : list A) (body : A → M W unit) :
  (∀ x w e w', body x w ≠ Throw e w') →
  ∀ w e w', for_each xs body w ≠ Throw e w'.
Proof.
  intros Hbody. induction xs as [|x xs IH]; intros w e w' Hrun; simpl in Hrun.
  - discriminate.
  - apply bind_Throw in Hrun as [Hrun | (u & w1 & _ & Hrun)].
    + by apply Hbody in Hrun.
    + by apply IH in Hrun.
Qed.

Lemma update_promoter_not_Throw site f P e P' :
  update_promoter site f P ≠ Throw e P'.
Proof.
  unfold update_promoter, get_promoter. rewrite bind_Throw.
  intros [Hg | (s & P1 & _ & Hm)]; [by apply deref_not_Throw in Hg | discriminate].
Qed.

Lemma CheckBehind_not_Throw old_start new_start P e P' :
  Polymer_CheckBehind old_start new_start P ≠ Throw e P'.
Proof.
  unfold Polymer_CheckBehind. rewrite bind_Throw.
  intros [Hg | (Q & P1 & Hg & Hrun)]; [discriminate|].
  revert Hrun. apply for_each_not_Throw. clear.
  intros interval P e P'. rewrite bind_Throw.
  intros [Hg | (s & P1 & _ & Hrun)].
  - unfold get_promoter in Hg. by apply deref_not_Throw in Hg.
  - destruct (Promoter.stop s <? new_start); [|discriminate].
    by apply update_promoter_not_Throw in Hrun.
Qed.

Lemma ShiftMask_not_Throw P e P' : Polymer_ShiftMask P ≠ Throw e P'.
Proof.
  unfold Polymer_ShiftMask. rewrite bind_Throw.
  intros [Hg | (Q & P1 & Hg & Hrun)]; [discriminate|].
  destruct (Mask.start (Polymer.mask_ Q) <=? Mask.stop (Polymer.mask_ Q)); [|discriminate].
  apply bind_Throw in Hrun as [Hrun | (u & P2 & _ & Hrun)]; [discriminate|].
  apply bind_Throw in Hrun as [Hrun | (Q' & P3 & _ & Hrun)]; [discriminate|].
  by apply CheckBehind_not_Throw in Hrun.
Qed.

(** The collision check between neighbours reads the state only. *)
Lemma CheckPolCollisions_Ok this pol_index w b w' :
  Polymer_CheckPolCollisions this pol_index w = Ok b w' → w' = w.
Proof.
  unfold Polymer_CheckPolCollisions. intros Hrun. run_all.
  destruct (_ <=? to_size_t _); run_all; [done|].
  destruct (_ && _); run_all; [|done].
  destruct (_ <? _); run_all; done.
Qed.

(** The three outcomes of the mask check, read off the code. *)
Lemma CheckMaskCollisions_run this pol w P p :
  World.polymers w !! this = Some P →
  World.polymerases w !! pol = Some p →
  Polymer_CheckMaskCollisions this pol w =
    if (Mask.start (Polymer.mask_ P) <=? Polymer.stop_ P)
       && (Mask.start (Polymer.mask_ P) <=? Polymerase.stop p)
    then
      if 0 <? Polymerase.stop p - Mask.start (Polymer.mask_ P)
      then Throw InvalidOverlap w
      else if Mask.CheckInteraction (Polymerase.name p) (Polymer.mask_ P)
      then (on_polymer this Polymer_ShiftMask ;; ret false) w
      else Ok true w
    else Ok false w.
Proof.
  intros HP Hp. unfold Polymer_CheckMaskCollisions.
  rewrite (bind_run _ _ _ _ _ (get_polymer_run _ _ _ HP)).
  rewrite (bind_run _ _ _ _ _ (get_polymerase_run _ _ _ Hp)).
  destruct (_ && _); [|done].
  destruct (0 <? _); [done|].
  destruct (Mask.CheckInteraction _ _); done.
Qed.

(** The start of [Move]: the index guard, the occupant, the step. *)
Lemma Move_run this pol_index w P pol p :
  World.polymers w !! this = Some P →
  to_size_t pol_index < Z.of_nat (length (Polymer.prop_list_ P)) →
  vector_at (Polymer.polymerases_ P) pol_index = Some pol →
  World.polymerases w !! pol = Some p →
  Polymer_Move this pol_index w =
  (Polymerase_Move pol ;;
   let* pol_collision := Polymer_CheckPolCollisions this pol_index in
   if pol_collision then Polymerase_MoveBack pol
   else
     let* mask_collision := Polymer_CheckMaskCollisions this pol in
     if mask_collision then Polymerase_MoveBack pol
     else
       let* terminating := Polymer_CheckTermination this pol in
       if terminating then ret tt
       else
         let* p' := get_polymerase pol in
         on_polymer this (Polymer_CheckBehind (Polymerase.start p) (Polymerase.start p')) ;;
         let* p' := get_polymerase pol in
         on_polymer this (Polymer_CheckAhead (Polymerase.stop p) (Polymerase.stop p')) ;;
         let* p' := get_polymerase pol in
         let* P' := get_polymer this in
         (if Z.of_nat (length (Polymer.weights_ P'))
               <=? to_size_t (Polymerase.stop p' - Polymer.start_ P' - 1)
          then throw MissingWeight else ret tt) ;;
         let* weight :=
           deref (vector_at (Polymer.weights_ P')
                    (Polymerase.stop p' - Polymer.start_ P' - 1)) in
         let new_speed := num_mul weight (Polymerase.speed p') in
         let* old_speed := deref (vector_at (Polymer.prop_list_ P') pol_index) in
         let diff := num_sub new_speed old_speed in
         on_polymer this (modify (fun P =>
           Polymer.set_prop_sum_ (num_add (Polymer.prop_sum_ P) diff) P)) ;;
         on_polymer this (modify (fun P =>
           Polymer.set_prop_list_
             (<[Z.to_nat pol_index := new_speed]> (Polymer.prop_list_ P)) P))) w.
Proof.
  intros HP Hidx Hpol Hp. unfold Polymer_Move.
  rewrite (bind_run _ _ _ _ _ (get_polymer_run _ _ _ HP)).
  replace (Z.of_nat (length (Polymer.prop_list_ P)) <=? to_size_t pol_index)
    with false by (symmetry; apply Z.leb_gt; lia).
  rewrite (bind_run _ _ w tt w) by reflexivity.
  rewrite Hpol.
  rewrite (bind_run _ _ w pol w) by reflexivity.
  rewrite (bind_run _ _ _ _ _ (get_polymerase_run _ _ _ Hp)).
  reflexivity.
Qed.

End Collisions.

(** * Move: collisions and rollback *)

Section Rollback.
Context `{Platform}.

Lemma to_size_t_small (z : Z) : 0 ≤ z → is_int z → to_size_t z = z.
Proof. unfold is_int, to_size_t. intros ? ?. apply Z.mod_small. lia. Qed.

Lemma vector_at_Some {A} (v : list A) (i : Z) (x : A) :
  vector_at v i = Some x ↔ 0 ≤ i ∧ v !! Z.to_nat i = Some x.
Proof.
  unfold vector_at. destruct (i <? 0) eqn:E.
  - apply Z.ltb_lt in E. split; [discriminate | intros [? _]; lia].
  - apply Z.ltb_ge in E. tauto.
Qed.

Lemma vector_at_lt {A} (v : list A) (i : Z) (x : A) :
  vector_at v i = Some x → 0 ≤ i < Z.of_nat (length v).
Proof.
  intros [? Hl]%vector_at_Some. apply lookup_lt_Some in Hl. lia.
Qed.

(** The neighbour check, read off the code. *)
Lemma CheckPolCollisions_run this pol_index w P pol next a b :
  World.polymers w !! this = Some P →
  is_int (pol_index + 1) →
  vector_at (Polymer.polymerases_ P) pol_index = Some pol →
  vector_at (Polymer.polymerases_ P) (pol_index + 1) = Some next →
  World.polymerases w !! pol = Some a →
  World.polymerases w !! next = Some b →
  Polymer_CheckPolCollisions this pol_index w =
    if (Polymerase.start b <=? Polymerase.stop a)
       && (Polymerase.start a <=? Polymerase.stop b)
    then if Polymerase.start b <? Polymerase.stop a
         then Throw InvalidOverlap w else Ok true w
    else Ok false w.
Proof.
  intros HP Hint Hpol Hnext Ha Hb. unfold Polymer_CheckPolCollisions.
  rewrite (bind_run _ _ _ _ _ (get_polymer_run _ _ _ HP)).
  pose proof (vector_at_lt _ _ _ Hnext) as Hlt.
  rewrite to_size_t_small by (done || lia).
  replace (Z.of_nat (length (Polymer.polymerases_ P)) <=? pol_index + 1)
    with false by (symmetry; apply Z.leb_gt; lia).
  rewrite Hpol, Hnext.
  rewrite (bind_run _ _ w pol w) by reflexivity.
  rewrite (bind_run _ _ w next w) by reflexivity.
  rewrite (bind_run _ _ _ _ _ (get_polymerase_run _ _ _ Ha)).
  rewrite (bind_run _ _ _ _ _ (get_polymerase_run _ _ _ Hb)).
  destruct (_ && _); [|done]. destruct (_ <? _); done.
Qed.

(** What the speculative step of [Move] does to the world. *)
Lemma Polymerase_Move_effect pol w u w1 p :
  World.polymerases w !! pol = Some p →
  Polymerase_Move pol w = Ok u w1 →
  World.polymerases w1 = <[pol := advanced p]> (World.polymerases w) ∧
  World.trace w1 = World.trace w ++ [Ev_move_signal pol] ∧
  Signal.emit call_slot (Polymerase.move_signal_ p)
    (World.set_trace (World.trace w ++ [Ev_move_signal pol])
       (World.set_polymerases (<[pol := advanced p]> (World.polymerases w)) w))
  = Ok u w1.
Proof.
  intros Hp Hrun. apply Polymerase_Move_Ok in Hrun as (p' & Hp' & Hrun).
  assert (p' = p) as -> by congruence.
  pose proof (emit_move_signal_step _ _ _ _ Hrun) as (E1 & E2 & _).
  apply emit_move_signal_Ok in Hrun as (p2 & Hp2 & Hrun).
  simpl in Hp2. rewrite list_lookup_insert_eq in Hp2
    by (eapply lookup_lt_Some; eauto).
  injection Hp2 as <-. simpl in *. done.
Qed.

Lemma rollback_restores pol w1 (l : list Polymerase.t) p :
  l !! pol = Some p →
  World.polymerases w1 = <[pol := advanced p]> l →
  ∃ w', Polymerase_MoveBack pol w1 = Ok tt w' ∧
        World.polymerases w' = l ∧
        World.polymers w' = World.polymers w1 ∧
        World.trace w' = World.trace w1.
Proof.
  intros Hl E. eexists. split.
  - apply Polymerase_MoveBack_advanced. rewrite E.
    apply list_lookup_insert_eq. eapply lookup_lt_Some; eauto.
  - simpl. rewrite E, list_insert_insert_eq. split; [|done].
    by apply list_insert_id.
Qed.

(** C5. A [Move] whose speculative step makes occupant [pol_index] overlap
    the next occupant by exactly one coordinate is rolled back: when it
    returns, every polymerase has the start and stop it had before, and the
    polymer (occupants, propensities, [prop_sum_], uncovered counts, site
    states) is unchanged. *)
Theorem Move_collision_rolls_back (w : World.t) (this : nat) (pol_index : Z)
    (P : Polymer.t) (pol next : nat) (p q : Polymerase.t) (w' : World.t) :
  World.polymers w !! this = Some P →
  is_int (pol_index + 1) →
  vector_at (Polymer.polymerases_ P) pol_index = Some pol →
  vector_at (Polymer.polymerases_ P) (pol_index + 1) = Some next →
  pol ≠ next →
  World.polymerases w !! pol = Some p →
  World.polymerases w !! next = Some q →
  slots_avoid this (Polymerase.move_signal_ p) →
  Polymerase.stop p + 1 = Polymerase.start q →
  Polymerase.start p + 1 ≤ Polymerase.stop q →
  Polymer_Move this pol_index w = Ok tt w' →
  World.polymerases w' = World.polymerases w ∧
  World.polymers w' !! this = Some P.
Proof.
  intros HP Hint Hpol Hnext Hne Hp Hq Havoid Htouch Hspan Hrun.
  unfold Polymer_Move in Hrun.
  apply bind_Ok in Hrun as (P0 & w0 & HP0 & Hrun).
  apply get_polymer_Ok in HP0 as [HP0 ->].
  assert (P0 = P) as -> by congruence.
  apply bind_Ok in Hrun as (? & ? & Hguard & Hrun).
  apply guard_Ok in Hguard as [_ ->].
  rewrite Hpol in Hrun.
  rewrite (bind_run _ _ w pol w) in Hrun by reflexivity.
  rewrite (bind_run _ _ _ _ _ (get_polymerase_run _ _ _ Hp)) in Hrun.
  apply bind_Ok in Hrun as (u & w1 & Hmove & Hrun).
  destruct (Polymerase_Move_effect _ _ _ _ _ Hp Hmove) as (E1 & E2 & Hemit).
  assert (World.polymers w1 !! this = Some P) as HP1.
  { rewrite <- HP. eapply Signal_emit_avoid in Hemit; [|exact Havoid]. exact Hemit. }
  assert (World.polymerases w1 !! pol = Some (advanced p)) as Hp1.
  { rewrite E1. apply list_lookup_insert_eq. eapply lookup_lt_Some; eauto. }
  assert (World.polymerases w1 !! next = Some q) as Hq1.
  { rewrite E1. by rewrite list_lookup_insert_ne. }
  apply bind_Ok in Hrun as (b & w2 & Hcheck & Hrun).
  rewrite (CheckPolCollisions_run _ _ _ _ _ _ _ _ HP1 Hint Hpol Hnext Hp1 Hq1) in Hcheck.
  replace (Polymerase.stop (advanced p)) with (Polymerase.stop p + 1) in Hcheck
    by (destruct p; reflexivity).
  replace (Polymerase.start (advanced p)) with (Polymerase.start p + 1) in Hcheck
    by (destruct p; reflexivity).
  replace (Polymerase.start q <=? Polymerase.stop p + 1) with true in Hcheck
    by (symmetry; apply Z.leb_le; lia).
  replace (Polymerase.start p + 1 <=? Polymerase.stop q) with true in Hcheck
    by (symmetry; apply Z.leb_le; lia).
  replace (Polymerase.start q <? Polymerase.stop p + 1) with false in Hcheck
    by (symmetry; apply Z.ltb_ge; lia).
  simpl in Hcheck. injection Hcheck as <- <-.
  destruct (rollback_restores pol w1 _ p Hp E1) as (w2 & Hback & F1 & F2 & F3).
  rewrite Hback in Hrun. injection Hrun as <-.
  split; [done|]. by rewrite F2.
Qed.

End Rollback.

Section Emission.
Context `{Platform}.

(** A signal with a single slot that shifts the mask of [t]: an emission
    recedes a mask of [t] that is not exhausted by one position. *)
Lemma single_slot_recedes (sig : Signal.t Slot) id t w u w1 T :
  Signal.slots_ sig = [(id, Call_ShiftMask t)] →
  Signal.emit call_slot sig w = Ok u w1 →
  World.polymers w !! t = Some T →
  Mask.start (Polymer.mask_ T) ≤ Mask.stop (Polymer.mask_ T) →
  ∃ T', World.polymers w1 !! t = Some T' ∧
        Mask.start (Polymer.mask_ T') = Mask.start (Polymer.mask_ T) + 1.
Proof.
  unfold Signal.emit. intros -> Hrun HT Hmask. simpl in Hrun.
  apply bind_Ok in Hrun as (v & w2 & Hslot & Hret).
  unfold ret in Hret. injection Hret as _ <-.
  apply on_polymer_Ok in Hslot as (T0 & T' & HT0 & Hshift & ->).
  assert (T0 = T) as -> by congruence.
  exists T'. split.
  - simpl. apply list_lookup_insert_eq. eapply lookup_lt_Some; eauto.
  - apply ShiftMask_Ok in Hshift as [ps ->].
    replace (Mask.start (Polymer.mask_ T) <=? Mask.stop (Polymer.mask_ T))
      with true by (symmetry; apply Z.leb_le; lia).
    reflexivity.
Qed.

(** C10. A [Move] whose speculative step is rolled back, because the check
    against the next polymerase or the check against the mask reports a
    collision, has emitted the [move_signal_] of the moved polymerase exactly
    once: the trace grows by that one emission, every polymerase is where it
    was, and the polymers are as the slots of the signal left them; a slot
    that shifts the mask of a transcript has receded that mask. *)
Theorem Move_rollback_keeps_emission (w : World.t) (this : nat) (pol_index : Z)
    (P : Polymer.t) (pol : nat) (p : Polymerase.t) (w1 : World.t) :
  World.polymers w !! this = Some P →
  to_size_t pol_index < Z.of_nat (length (Polymer.prop_list_ P)) →
  vector_at (Polymer.polymerases_ P) pol_index = Some pol →
  World.polymerases w !! pol = Some p →
  Polymerase_Move pol w = Ok tt w1 →
  Polymer_CheckPolCollisions this pol_index w1 = Ok true w1
  ∨ (Polymer_CheckPolCollisions this pol_index w1 = Ok false w1
     ∧ Polymer_CheckMaskCollisions this pol w1 = Ok true w1) →
  ∃ w',
    Polymer_Move this pol_index w = Ok tt w' ∧
    World.trace w' = World.trace w ++ [Ev_move_signal pol] ∧
    World.polymerases w' = World.polymerases w ∧
    Signal.emit call_slot (Polymerase.move_signal_ p)
      (World.set_trace (World.trace w ++ [Ev_move_signal pol])
         (World.set_polymerases (<[pol := advanced p]> (World.polymerases w)) w))
      = Ok tt w1 ∧
    World.polymers w' = World.polymers w1 ∧
    ∀ id t T,
      Signal.slots_ (Polymerase.move_signal_ p) = [(id, Call_ShiftMask t)] →
      World.polymers w !! t = Some T →
      Mask.start (Polymer.mask_ T) ≤ Mask.stop (Polymer.mask_ T) →
      ∃ T', World.polymers w' !! t = Some T' ∧
            Mask.start (Polymer.mask_ T') = Mask.start (Polymer.mask_ T) + 1.
Proof.
  intros HP Hidx Hpol Hp Hmove Hcoll.
  destruct (Polymerase_Move_effect _ _ _ _ _ Hp Hmove) as (E1 & E2 & Hemit).
  destruct (rollback_restores pol w1 _ p Hp E1) as (w' & Hback & F1 & F2 & F3).
  exists w'. split_and!.
  - rewrite (Move_run _ _ _ _ _ _ HP Hidx Hpol Hp).
    rewrite (bind_run _ _ _ _ _ Hmove).
    destruct Hcoll as [Hc | [Hc Hm]].
    + rewrite (bind_run _ _ _ _ _ Hc). exact Hback.
    + rewrite (bind_run _ _ _ _ _ Hc).
      rewrite (bind_run _ _ _ _ _ Hm). exact Hback.
  - congruence.
  - exact F1.
  - exact Hemit.
  - exact F2.
  - intros id t T Hslots HT Hmask. rewrite F2.
    eapply single_slot_recedes; eauto.
Qed.

End Emission.

(** * Termination *)

Section Termination.
Context `{Platform}.

Lemma raise_step_refl s : raise_step s s.
Proof. by left. Qed.

Lemma raise_step_trans s1 s2 s3 :
  raise_step s1 s2 → raise_step s2 s3 → raise_step s1 s3.
Proof.
  intros [->| ->] [->| ->]; unfold raise_step; auto.
Qed.

Lemma raise_step_data s s' :
  raise_step s s' →
  Terminator.stop s' = Terminator.stop s ∧
  Terminator.gene s' = Terminator.gene s ∧
  Terminator.interactions s' = Terminator.interactions s ∧
  Terminator.reading_frame s' = Terminator.reading_frame s ∧
  (Terminator.readthrough s = true → Terminator.readthrough s' = true).
Proof. intros [->| ->]; done. Qed.

Lemma raise_step_admits s s' species frame :
  raise_step s s' →
  Terminator.CheckInteraction species frame s'
  = Terminator.CheckInteraction species frame s.
Proof. intros [->| ->]; done. Qed.

Lemma raise_step_flagged s s' :
  raise_step s s' → Terminator.readthrough s' = true →
  s' = Terminator.set_readthrough true s.
Proof.
  intros [->| ->] Hr; [|done]. destruct s; simpl in *. by subst.
Qed.

Lemma readthrough_step_refl this w P :
  World.polymers w !! this = Some P → readthrough_step this w w.
Proof.
  intros HP. repeat split. exists P, (Polymer.terminators P). split_and!.
  - done.
  - apply Forall_Forall2_diag, Forall_forall. intros ? _. apply raise_step_refl.
  - rewrite Polymer_eta_terminators. by rewrite list_insert_id.
Qed.

Lemma readthrough_step_trans this w1 w2 w3 :
  readthrough_step this w1 w2 → readthrough_step this w2 w3 →
  readthrough_step this w1 w3.
Proof.
  intros (A1 & A2 & A3 & P & ts & HP & Hts & EP)
         (B1 & B2 & B3 & P' & ts' & HP' & Hts' & EP').
  repeat split; try congruence.
  assert (this < length (World.polymers w1))%nat by (eapply lookup_lt_Some; eauto).
  rewrite EP in HP'. rewrite list_lookup_insert_eq in HP' by done.
  injection HP' as <-.
  exists P, ts'. split_and!; [done| |].
  - eapply Forall2_trans; [|exact Hts|exact Hts'].
    intros ? ? ?. apply raise_step_trans.
  - rewrite EP', EP, list_insert_insert_eq. reflexivity.
Qed.

(** A failed termination attempt raises the readthrough flag of the
    terminator and goes on with the remaining hits. *)
Lemma CheckTermination_loop_failed this pol interval rest w P p site :
  World.polymers w !! this = Some P →
  World.polymerases w !! pol = Some p →
  Polymer.terminators P !! Interval.value interval = Some site →
  Terminator.CheckInteraction (Polymerase.name p) (Polymerase.reading_frame p) site = true →
  Terminator.readthrough site = false →
  num_leb (World.random_reals w (World.random_pos w))
          (Terminator.efficiency (Polymerase.name p) site) = false →
  CheckTermination_loop this pol (interval :: rest) w
  = CheckTermination_loop this pol rest
      (World.set_polymers
         (<[this := Polymer.set_terminators
                      (<[Interval.value interval := Terminator.set_readthrough true site]>
                         (Polymer.terminators P)) P]> (World.polymers w))
         (World.set_random_pos (S (World.random_pos w)) w)).
Proof.
  intros HP Hp Hsite Hadmit Hflag Hdraw. simpl.
  rewrite (bind_run _ _ _ _ _ (get_polymerase_run _ _ _ Hp)).
  erewrite bind_run.
  2:{ eapply on_polymer_run; [exact HP|]. by apply get_terminator_Ok. }
  rewrite list_insert_id by done. rewrite World_eta_polymers.
  rewrite Hadmit, Hflag. simpl.
  rewrite (bind_run _ _ w (World.random_reals w (World.random_pos w))
             (World.set_random_pos (S (World.random_pos w)) w)) by reflexivity.
  rewrite Hdraw.
  rewrite (bind_run _ _ _ tt
             (World.set_polymers
                (<[this := Polymer.set_terminators
                      (<[Interval.value interval := Terminator.set_readthrough true site]>
                         (Polymer.terminators P)) P]> (World.polymers w))
                (World.set_random_pos (S (World.random_pos w)) w))).
  - reflexivity.
  - apply on_polymer_Ok. eexists _, _. split_and!; [exact HP | | reflexivity].
    apply update_terminator_Ok. eauto.
Qed.

Lemma times_emit_trace pol n w u w' :
  times n (emit_move_signal pol) w = Ok u w' →
  World.polymerases w' = World.polymerases w ∧
  World.trace w' = World.trace w ++ replicate n (Ev_move_signal pol) ∧
  Forall2 mask_step (World.polymers w) (World.polymers w').
Proof.
  revert w. induction n as [|n IH]; intros w Hrun; simpl in Hrun.
  - unfold ret in Hrun. injection Hrun as _ <-. split_and!; [done| |].
    + simpl. by rewrite app_nil_r.
    + apply Forall_Forall2_diag, Forall_forall. intros ? _. apply mask_step_refl.
  - apply bind_Ok in Hrun as (v & w1 & Hemit & Hrun).
    apply emit_move_signal_step in Hemit as (A1 & A2 & _ & _ & _ & A6).
    apply IH in Hrun as (B1 & B2 & B6). split_and!.
    + congruence.
    + rewrite B2, A2. rewrite <- app_assoc. reflexivity.
    + eapply Forall2_trans; [|exact A6|exact B6].
      intros ? ? ?. apply mask_step_trans.
Qed.


(** The result of the loop of [CheckTermination]. *)
Lemma CheckTermination_loop_Ok this pol results :
  ∀ w b w' P p,
  World.polymers w !! this = Some P →
  World.polymerases w !! pol = Some p →
  CheckTermination_loop this pol results w = Ok b w' →
  if b then
    ∃ wa Pa interval site n wb sb,
      readthrough_step this w wa ∧
      World.polymers wa !! this = Some Pa ∧
      interval ∈ results ∧
      Polymer.terminators Pa !! Interval.value interval = Some site ∧
      Terminator.CheckInteraction (Polymerase.name p) (Polymerase.reading_frame p) site = true ∧
      num_leb (World.random_reals w n)
              (Terminator.efficiency (Polymerase.name p) site) = true ∧
      times (Z.to_nat (Terminator.stop site - Polymerase.stop p + 1))
            (emit_move_signal pol)
            (World.set_random_pos (S (World.random_pos wa)) wa) = Ok tt wb ∧
      (∃ Pb, World.polymers wb !! this = Some Pb ∧
             Polymer.terminators Pb !! Interval.value interval = Some sb) ∧
      Polymer_Terminate this pol (Terminator.gene sb) wb = Ok tt w'
  else
    readthrough_step this w w' ∧
    ∀ interval site,
      interval ∈ results →
      Polymer.terminators P !! Interval.value interval = Some site →
      Terminator.CheckInteraction (Polymerase.name p) (Polymerase.reading_frame p) site = true →
      ∃ P' site', World.polymers w' !! this = Some P' ∧
                  Polymer.terminators P' !! Interval.value interval = Some site' ∧
                  site' = Terminator.set_readthrough true site.
Proof.
  induction results as [|interval rest IH]; intros w b w' P p HP Hp Hrun.
  - simpl in Hrun. unfold ret in Hrun. injection Hrun as <- <-.
    split; [by eapply readthrough_step_refl|].
    intros ? ? Hin. by apply elem_of_nil in Hin.
  - simpl in Hrun.
    apply bind_Ok in Hrun as (p0 & w0 & Hp0 & Hrun).
    apply get_polymerase_Ok in Hp0 as [Hp0 ->].
    assert (p0 = p) as -> by congruence.
    apply bind_Ok in Hrun as (site & w0 & Hsite & Hrun).
    apply on_polymer_Ok in Hsite as (P0 & P0' & HP0 & Hsite & ->).
    apply get_terminator_Ok in Hsite as [Hsite ->].
    assert (P0 = P) as -> by congruence.
    rewrite list_insert_id in Hrun by done. rewrite World_eta_polymers in Hrun.
    destruct (Terminator.CheckInteraction _ _ site) eqn:Hadmit; simpl in Hrun.
    2:{ (* the terminator does not admit the polymerase *)
        specialize (IH _ _ _ _ _ HP Hp Hrun). destruct b.
        - destruct IH as (wa & Pa & i & s & n & wb & sb & ? & ? & ? & ?).
          exists wa, Pa, i, s, n, wb, sb. split_and!; try tauto. by right.
        - destruct IH as [Hstep Hall]. split; [done|].
          intros i s Hin Hs Had. apply elem_of_cons in Hin as [->|Hin].
          + congruence.
          + by apply Hall. }
    destruct (Terminator.readthrough site) eqn:Hflag; simpl in Hrun.
    { (* already in readthrough *)
      specialize (IH _ _ _ _ _ HP Hp Hrun). destruct b.
      - destruct IH as (wa & Pa & i & s & n & wb & sb & ? & ? & ? & ?).
        exists wa, Pa, i, s, n, wb, sb. split_and!; try tauto. by right.
      - destruct IH as [Hstep Hall]. split; [done|].
        intros i s Hin Hs Had. apply elem_of_cons in Hin as [->|Hin].
        + assert (s = site) as -> by congruence.
          destruct Hstep as (_ & _ & _ & P1 & ts & HP1 & Hts & EP).
          assert (P1 = P) as -> by congruence.
          destruct (Forall2_lookup_l _ _ _ _ _ Hts Hsite) as (site' & Hs' & Hraise).
          exists (Polymer.set_terminators ts P), site'. split_and!.
          * rewrite EP. apply list_lookup_insert_eq. eapply lookup_lt_Some; eauto.
          * done.
          * apply raise_step_flagged; [done|].
            by apply (raise_step_data _ _ Hraise).
        + by apply Hall. }
    apply bind_Ok in Hrun as (u & w1 & Hdraw & Hrun).
    unfold Random_random in Hdraw. injection Hdraw as <- <-.
    destruct (num_leb _ _) eqn:Hleb.
    + (* the attempt succeeds *)
      apply bind_Ok in Hrun as (v & wb & Hemits & Hrun).
      apply bind_Ok in Hrun as (sb & wb' & Hsb & Hrun).
      apply on_polymer_Ok in Hsb as (Pb & Pb' & HPb & Hsb & ->).
      apply get_terminator_Ok in Hsb as [Hsb ->].
      rewrite list_insert_id in Hrun by done. rewrite World_eta_polymers in Hrun.
      apply bind_Ok in Hrun as (v' & w2 & Hterm & Hrun).
      unfold ret in Hrun. injection Hrun as <- <-.
      exists w, P, interval, site, (World.random_pos w), wb, sb.
      destruct v, v'. split_and!; eauto.
      * by eapply readthrough_step_refl.
      * by left.
    + (* the attempt fails *)
      apply bind_Ok in Hrun as (v & w1 & Hset & Hrun).
      apply on_polymer_Ok in Hset as (P1 & P1' & HP1 & Hset & ->).
      simpl in HP1. assert (P1 = P) as -> by congruence.
      apply update_terminator_Ok in Hset as (s1 & Hs1 & ->).
      assert (s1 = site) as -> by congruence.
      set (P2 := Polymer.set_terminators _ P) in *.
      set (w2 := World.set_polymers _ _) in *.
      assert (this < length (World.polymers w))%nat as Hthis
        by (eapply lookup_lt_Some; eauto).
      assert (World.polymers w2 !! this = Some P2) as HP2
        by (simpl; by apply list_lookup_insert_eq).
      assert (readthrough_step this w w2) as Hstep2.
      { repeat split. exists P, (Polymer.terminators P2). split_and!; [done| |done].
        simpl. eapply Forall2_insert_related; eauto using raise_step_refl.
        by right. }
      specialize (IH w2 b w' P2 p HP2 Hp Hrun). destruct b.
      * destruct IH as (wa & Pa & i & s & n & wb & sb & Hst & ? & ? & ? & ? & ? & ?).
        exists wa, Pa, i, s, n, wb, sb. split_and!; try tauto.
        -- eapply readthrough_step_trans; eauto.
        -- by right.
      * destruct IH as [Hstep Hall]. split.
        { eapply readthrough_step_trans; eauto. }
        intros i s Hin Hs Had.
        assert (∃ s2, Polymer.terminators P2 !! Interval.value i = Some s2
                      ∧ raise_step s s2) as (s2 & Hs2 & Hraise2).
        { simpl. destruct (decide (Interval.value interval = Interval.value i)) as [E|E].
          - rewrite <- E. rewrite list_lookup_insert_eq by (eapply lookup_lt_Some; eauto).
            eexists. split; [done|]. right. congruence.
          - rewrite list_lookup_insert_ne by done. eexists. split; [done|]. by left. }
        destruct Hstep as (_ & _ & _ & P3 & ts & HP3 & Hts & EP).
        assert (P3 = P2) as -> by congruence.
        destruct (Forall2_lookup_l _ _ _ _ _ Hts Hs2) as (site' & Hs' & Hraise).
        exists (Polymer.set_terminators ts P2), site'. split_and!.
        -- rewrite EP. apply list_lookup_insert_eq. eapply lookup_lt_Some; eauto.
        -- done.
        -- apply raise_step_flagged; [eapply raise_step_trans; eauto|].
           assert (Terminator.readthrough s2 = true ∨ i ∈ rest) as [Hr|Hr].
           { apply elem_of_cons in Hin as [->|Hin]; [|by right]. left.
             simpl in Hs2. rewrite list_lookup_insert_eq in Hs2
               by (eapply lookup_lt_Some; eauto). by injection Hs2 as <-. }
           ++ by apply (raise_step_data _ _ Hraise).
           ++ rewrite <- (raise_step_admits _ _ _ _ Hraise2) in Had.
              destruct (Hall i s2 Hr Hs2 Had) as (P4 & s4 & HP4 & Hs4 & ->).
              rewrite EP in HP4. rewrite list_lookup_insert_eq in HP4
                by (eapply lookup_lt_Some; eauto).
              injection HP4 as <-. simpl in Hs4, Hs'.
              rewrite Hs' in Hs4. by injection Hs4 as ->.
Qed.

End Termination.

Section TerminationClaims.
Context `{Platform}.



(** C4, as the code has it.  A failed termination attempt (the draw exceeds
    the efficiency) at a terminator that admits the polymerase and is not in
    readthrough sets its readthrough flag and goes on with the remaining
    hits; when [CheckTermination] reports no termination, every hit that
    admits the polymerase is in readthrough; and [CheckBehind] leaves every
    terminator as it is, so the flag is not cleared when the occupant has
    passed the terminator. *)
Theorem readthrough_set_never_cleared (w : World.t) (this pol : nat)
    (P : Polymer.t) (p : Polymerase.t) :
  World.polymers w !! this = Some P →
  World.polymerases w !! pol = Some p →
  (∀ interval rest site,
     Polymer.terminators P !! Interval.value interval = Some site →
     Terminator.CheckInteraction (Polymerase.name p) (Polymerase.reading_frame p) site = true →
     Terminator.readthrough site = false →
     num_leb (World.random_reals w (World.random_pos w))
             (Terminator.efficiency (Polymerase.name p) site) = false →
     CheckTermination_loop this pol (interval :: rest) w
     = CheckTermination_loop this pol rest
         (World.set_polymers
            (<[this := Polymer.set_terminators
                         (<[Interval.value interval := Terminator.set_readthrough true site]>
                            (Polymer.terminators P)) P]> (World.polymers w))
            (World.set_random_pos (S (World.random_pos w)) w)))
  ∧ (∀ w' interval site,
       Polymer_CheckTermination this pol w = Ok false w' →
       interval ∈ IntervalTree.findOverlapping (Polymer.release_sites_ P)
                    (Polymerase.start p) (Polymerase.stop p) [] →
       Polymer.terminators P !! Interval.value interval = Some site →
       Terminator.CheckInteraction (Polymerase.name p) (Polymerase.reading_frame p) site = true →
       ∃ P', World.polymers w' !! this = Some P' ∧
             Polymer.terminators P' !! Interval.value interval
             = Some (Terminator.set_readthrough true site))
  ∧ (∀ old_start new_start Q u Q',
       Polymer_CheckBehind old_start new_start Q = Ok u Q' →
       Polymer.terminators Q' = Polymer.terminators Q).
Proof.
  intros HP Hp. split_and!.
  - intros interval rest site Hsite Hadmit Hflag Hdraw.
    by eapply CheckTermination_loop_failed.
  - intros w' interval site Hrun Hin Hsite Hadmit.
    unfold Polymer_CheckTermination in Hrun.
    rewrite (bind_run _ _ _ _ _ (get_polymer_run _ _ _ HP)) in Hrun.
    rewrite (bind_run _ _ _ _ _ (get_polymerase_run _ _ _ Hp)) in Hrun.
    pose proof (CheckTermination_loop_Ok _ _ _ _ _ _ _ _ HP Hp Hrun) as [_ Hall].
    destruct (Hall _ _ Hin Hsite Hadmit) as (P' & site' & HP' & Hs' & ->). eauto.
  - intros old_start new_start Q u Q' Hrun.
    apply CheckBehind_step in Hrun as [ps ->]. reflexivity.
Qed.

End TerminationClaims.

(** * Bind *)

Section BindErrors.
Context `{Platform}.

Lemma fold_each_readonly {W A B} (xs : list A) (body : B → A → M W B) :
  (∀ acc x w r w', body acc x w = Ok r w' → w' = w) →
  ∀ acc w r w', fold_each xs acc body w = Ok r w' → w' = w.
Proof.
  intros Hbody. induction xs as [|x xs IH]; intros acc w r w' Hrun; simpl in Hrun.
  - unfold ret in Hrun. by injection Hrun as _ <-.
  - apply bind_Ok in Hrun as (acc' & w1 & H1 & H2).
    apply Hbody in H1 as ->. by apply IH in H2.
Qed.

Lemma fold_each_not_Throw {W A B} (xs : list A) (body : B → A → M W B) :
  (∀ acc x w e w', body acc x w ≠ Throw e w') →
  ∀ acc w e w', fold_each xs acc body w ≠ Throw e w'.
Proof.
  intros Hbody. induction xs as [|x xs IH]; intros acc w e w' Hrun; simpl in Hrun.
  - discriminate.
  - apply bind_Throw in Hrun as [Hrun | (acc' & w1 & _ & Hrun)].
    + by apply Hbody in Hrun.
    + by apply IH in Hrun.
Qed.

Lemma map_each_readonly {W A B} (xs : list A) (body : A → M W B) :
  (∀ x w r w', body x w = Ok r w' → w' = w) →
  ∀ w r w', map_each xs body w = Ok r w' → w' = w.
Proof.
  intros Hbody. induction xs as [|x xs IH]; intros w r w' Hrun; simpl in Hrun.
  - unfold ret in Hrun. by injection Hrun as _ <-.
  - apply bind_Ok in Hrun as (y & w1 & H1 & H2).
    apply Hbody in H1 as ->.
    apply bind_Ok in H2 as (ys & w2 & H2 & H3).
    apply IH in H2 as ->. unfold ret in H3. by injection H3 as _ <-.
Qed.

Lemma map_each_not_Throw {W A B} (xs : list A) (body : A → M W B) :
  (∀ x w e w', body x w ≠ Throw e w') →
  ∀ w e w', map_each xs body w ≠ Throw e w'.
Proof.
  intros Hbody. induction xs as [|x xs IH]; intros w e w' Hrun; simpl in Hrun.
  - discriminate.
  - apply bind_Throw in Hrun as [Hrun | (y & w1 & _ & Hrun)].
    + by apply Hbody in Hrun.
    + apply bind_Throw in Hrun as [Hrun | (ys & w2 & _ & Hrun)].
      * by apply IH in Hrun.
      * discriminate.
Qed.

Lemma on_polymer_modify_not_Throw this f w e w' :
  on_polymer this (modify f) w ≠ Throw e w'.
Proof. rewrite on_polymer_Throw. intros (? & ? & _ & ? & _). discriminate. Qed.

Lemma on_polymer_get_promoter this site w s w' :
  on_polymer this (get_promoter site) w = Ok s w' →
  w' = w ∧ ∃ P, World.polymers w !! this = Some P ∧
                Polymer.promoters P !! site = Some s.
Proof.
  intros Hrun. apply on_polymer_Ok in Hrun as (P & P' & HP & Hg & ->).
  apply get_promoter_Ok in Hg as [Hs ->]. split; [|eauto].
  rewrite list_insert_id by done. apply World_eta_polymers.
Qed.

Lemma on_polymer_get_promoter_not_Throw this site w e w' :
  on_polymer this (get_promoter site) w ≠ Throw e w'.
Proof.
  rewrite on_polymer_Throw. intros (? & ? & _ & Hg & _).
  unfold get_promoter in Hg. by apply deref_not_Throw in Hg.
Qed.

Lemma Random_WeightedChoice_not_Throw {A} (items : list A) w e w' :
  Random_WeightedChoice items w ≠ Throw e w'.
Proof. unfold Random_WeightedChoice. destruct (_ !! _); discriminate. Qed.

Lemma Random_WeightedChoice_Ok {A} (items : list A) w x w' :
  Random_WeightedChoice items w = Ok x w' →
  x ∈ items ∧ w' = World.set_random_pos (S (World.random_pos w)) w.
Proof.
  unfold Random_WeightedChoice. destruct (_ !! _) eqn:E; [|discriminate].
  intros [= <- <-]. split; [|done]. by eapply list_elem_of_lookup_2.
Qed.

(** [Insert] only ever throws its size check. *)
Lemma Insert_Throw this pol w e w' :
  Polymer_Insert this pol w = Throw e w' → e = PropListSize.
Proof.
  unfold Polymer_Insert. intros Hrun.
  apply bind_Throw in Hrun as [Hrun | (P & w1 & _ & Hrun)];
    [by apply get_polymer_not_Throw in Hrun|].
  apply bind_Throw in Hrun as [Hrun | (p & w2 & _ & Hrun)];
    [by apply get_polymerase_not_Throw in Hrun|].
  apply bind_Throw in Hrun as [Hrun | (starts & w3 & _ & Hrun)].
  { exfalso. revert Hrun. apply map_each_not_Throw. clear.
    intros q w e w'. rewrite bind_Throw.
    intros [Hg | (o & w1 & _ & Hr)]; [by apply get_polymerase_not_Throw in Hg|].
    discriminate. }
  apply bind_Throw in Hrun as [Hrun | (u1 & w4 & _ & Hrun)];
    [by apply on_polymer_modify_not_Throw in Hrun|].
  apply bind_Throw in Hrun as [Hrun | (weight & w5 & _ & Hrun)];
    [by apply deref_not_Throw in Hrun|].
  apply bind_Throw in Hrun as [Hrun | (u2 & w6 & _ & Hrun)];
    [by apply on_polymer_modify_not_Throw in Hrun|].
  apply bind_Throw in Hrun as [Hrun | (u3 & w7 & _ & Hrun)].
  { destruct (decide _); discriminate. }
  apply bind_Throw in Hrun as [Hrun | (u4 & w8 & _ & Hrun)];
    [by apply on_polymer_modify_not_Throw in Hrun|].
  apply bind_Throw in Hrun as [Hrun | (P' & w9 & _ & Hrun)];
    [by apply get_polymer_not_Throw in Hrun|].
  destruct (decide _); [|discriminate].
  unfold throw in Hrun. by injection Hrun as <- _.
Qed.

(** [CoverBindingSite] only ever throws its sign check. *)
Lemma CoverBindingSite_Throw species_name P e P' :
  Polymer_CoverBindingSite species_name P = Throw e P' → e = NegativeUncovered.
Proof.
  unfold Polymer_CoverBindingSite. intros Hrun.
  apply bind_Throw in Hrun as [Hrun | (u1 & P1 & _ & Hrun)]; [discriminate|].
  apply bind_Throw in Hrun as [Hrun | (Q & P2 & _ & Hrun)]; [discriminate|].
  apply bind_Throw in Hrun as [Hrun | (u2 & P3 & _ & Hrun)]; [|discriminate].
  apply guard_Throw in Hrun as (_ & -> & _). reflexivity.
Qed.

(** C3, as the code has it.  When [Bind] throws [NoFreePromoter] or
    [NoInteraction], no polymer and no polymerase has been changed, and
    nothing was emitted.  When it throws [MaskOverlap], no polymer has been
    changed (occupants, propensities, [prop_sum_], uncovered counts and site
    states are as before) and nothing was emitted, but the polymerase [pol]
    has already been given the coordinates of the chosen promoter:
    [start = site.start] and [stop = site.start + footprint - 1]. *)
Theorem Bind_error_state (w : World.t) (this pol : nat) (promoter_name : string)
    (e : exn) (w' : World.t) :
  Polymer_Bind this pol promoter_name w = Throw e w' →
  e = NoFreePromoter ∨ e = NoInteraction ∨ e = MaskOverlap →
  World.polymers w' = World.polymers w ∧
  World.trace w' = World.trace w ∧
  (e ≠ MaskOverlap → World.polymerases w' = World.polymerases w) ∧
  (e = MaskOverlap →
     ∃ P elem site p,
       World.polymers w !! this = Some P ∧
       Polymer.promoters P !! elem = Some site ∧
       World.polymerases w !! pol = Some p ∧
       Mask.start (Polymer.mask_ P)
         ≤ Promoter.start site + Polymerase.footprint p - 1 ∧
       World.polymerases w' =
         <[pol := Polymerase.set_stop
                    (Promoter.start site + Polymerase.footprint p - 1)
                    (Polymerase.set_start (Promoter.start site) p)]>
           (World.polymerases w)).
Proof.
  unfold Polymer_Bind. intros Hrun He.
  apply bind_Throw in Hrun as [Hrun | (P & w1 & HP & Hrun)];
    [by apply get_polymer_not_Throw in Hrun|].
  apply get_polymer_Ok in HP as [HP ->].
  apply bind_Throw in Hrun as [Hrun | (choices & w1 & Hfold & Hrun)].
  { exfalso. apply on_polymer_Throw in Hrun as (? & ? & _ & Hrun & _).
    revert Hrun. apply fold_each_not_Throw. clear.
    intros acc x P e P'. rewrite bind_Throw.
    intros [Hg | (s & P1 & _ & Hr)].
    - unfold get_promoter in Hg. by apply deref_not_Throw in Hg.
    - destruct (_ && _); discriminate. }
  assert (w1 = w) as ->.
  { apply on_polymer_Ok in Hfold as (P0 & P0' & HP0 & Hfold & ->).
    apply fold_each_readonly in Hfold as ->.
    - rewrite list_insert_id by done. apply World_eta_polymers.
    - clear. intros acc x P r P' Hrun. run_all.
      destruct (_ && _); by run_all. }
  apply bind_Throw in Hrun as [Hrun | (p & w1 & Hp & Hrun)];
    [by apply get_polymerase_not_Throw in Hrun|].
  apply get_polymerase_Ok in Hp as [Hp ->].
  apply bind_Throw in Hrun as [Hrun | (u1 & w1 & Hg1 & Hrun)].
  { (* NoFreePromoter *)
    apply guard_Throw in Hrun as (_ & -> & ->).
    split_and!; [done | done | done | discriminate]. }
  apply guard_Ok in Hg1 as [_ ->].
  apply bind_Throw in Hrun as [Hrun | (elem & w1 & Hchoice & Hrun)].
  { by apply Random_WeightedChoice_not_Throw in Hrun. }
  apply Random_WeightedChoice_Ok in Hchoice as [_ ->].
  apply bind_Throw in Hrun as [Hrun | (site & w1 & Hsite & Hrun)];
    [by apply on_polymer_get_promoter_not_Throw in Hrun|].
  apply on_polymer_get_promoter in Hsite as (-> & P0 & HP0 & Hsite).
  simpl in HP0. assert (P0 = P) as -> by congruence.
  apply bind_Throw in Hrun as [Hrun | (u2 & w1 & Hg2 & Hrun)].
  { (* NoInteraction *)
    apply guard_Throw in Hrun as (_ & -> & ->).
    split_and!; [done | done | done | discriminate]. }
  apply guard_Ok in Hg2 as [_ ->].
  apply bind_Throw in Hrun as [Hrun | (u3 & w1 & Hset1 & Hrun)];
    [by apply update_polymerase_not_Throw in Hrun|].
  apply update_polymerase_Ok in Hset1 as (p1 & Hp1 & ->).
  simpl in Hp1. assert (p1 = p) as -> by congruence.
  apply bind_Throw in Hrun as [Hrun | (u4 & w1 & Hset2 & Hrun)];
    [by apply update_polymerase_not_Throw in Hrun|].
  apply update_polymerase_Ok in Hset2 as (p2 & Hp2 & ->).
  simpl in Hp2.
  rewrite list_lookup_insert_eq in Hp2 by (eapply lookup_lt_Some; eauto).
  injection Hp2 as <-.
  apply bind_Throw in Hrun as [Hrun | (p3 & w1 & Hp3 & Hrun)];
    [by apply get_polymerase_not_Throw in Hrun|].
  apply get_polymerase_Ok in Hp3 as [Hp3 ->].
  simpl in Hp3. rewrite list_insert_insert_eq in Hp3.
  rewrite list_lookup_insert_eq in Hp3 by (eapply lookup_lt_Some; eauto).
  injection Hp3 as <-.
  apply bind_Throw in Hrun as [Hrun | (P3 & w1 & HP3 & Hrun)];
    [by apply get_polymer_not_Throw in Hrun|].
  apply get_polymer_Ok in HP3 as [HP3 ->].
  simpl in HP3. assert (P3 = P) as -> by congruence.
  apply bind_Throw in Hrun as [Hrun | (u5 & w1 & Hg3 & Hrun)].
  { (* MaskOverlap *)
    apply guard_Throw in Hrun as (Hover & -> & ->).
    split_and!; [done | done | done |]. intros _.
    exists P, elem, site, p. split_and!; try done.
    - apply Z.leb_le in Hover. exact Hover.
    - simpl. by rewrite list_insert_insert_eq. }
  (* past the three checks: the later throws are other errors *)
  exfalso.
  apply guard_Ok in Hg3 as [_ ->].
  apply bind_Throw in Hrun as [Hrun | (u6 & w1 & _ & Hrun)].
  { apply on_polymer_Throw in Hrun as (? & ? & _ & Hrun & _).
    by apply update_promoter_not_Throw in Hrun. }
  apply bind_Throw in Hrun as [Hrun | (u7 & w2 & _ & Hrun)].
  { apply on_polymer_Throw in Hrun as (? & ? & _ & Hrun & _).
    by apply update_promoter_not_Throw in Hrun. }
  apply bind_Throw in Hrun as [Hrun | (s2 & w3 & _ & Hrun)];
    [by apply on_polymer_get_promoter_not_Throw in Hrun|].
  apply bind_Throw in Hrun as [Hrun | (u8 & w4 & _ & Hrun)].
  { apply on_polymer_Throw in Hrun as (? & ? & _ & Hrun & _).
    apply CoverBindingSite_Throw in Hrun. subst e.
    destruct He as [?|[?|?]]; discriminate. }
  apply bind_Throw in Hrun as [Hrun | (u9 & w5 & _ & Hrun)].
  { apply Insert_Throw in Hrun. subst e.
    destruct He as [?|[?|?]]; discriminate. }
  apply bind_Throw in Hrun as [Hrun | (s3 & w6 & _ & Hrun)];
    [by apply on_polymer_get_promoter_not_Throw in Hrun|].
  destruct (_ && _); discriminate.
Qed.

End BindErrors.

(** * Genome: spawning a transcript *)

Section Spawn.
Context `{Platform}.

Lemma map_insert_fresh {S} (k : Z) (v : S) (m : list (Z * S)) :
  Forall (λ it, it.1 ≠ k) m →
  ∃ m1 m2, m = m1 ++ m2 ∧ Signal.map_insert k v m = m1 ++ (k, v) :: m2.
Proof.
  induction m as [|[k' v'] m IH]; intros Hfresh; simpl.
  - exists [], []. done.
  - apply Forall_cons in Hfresh as [Hk Hfresh]. simpl in Hk.
    destruct (k <? k') eqn:E1.
    + exists [], ((k', v') :: m). done.
    + destruct (k =? k') eqn:E2; [apply Z.eqb_eq in E2; congruence|].
      destruct (IH Hfresh) as (m1 & m2 & -> & ->).
      exists ((k', v') :: m1), m2. done.
Qed.

(** An emission over slots of which exactly one shifts the mask of [t]. *)
Lemma emit_one_target (m1 m2 : list (Z * Slot)) k t w u w' T :
  Forall (λ it, slot_target it.2 ≠ t) m1 →
  Forall (λ it, slot_target it.2 ≠ t) m2 →
  World.polymers w !! t = Some T →
  Mask.start (Polymer.mask_ T) ≤ Mask.stop (Polymer.mask_ T) →
  for_each (m1 ++ (k, Call_ShiftMask t) :: m2) (λ it, call_slot it.2) w = Ok u w' →
  ∃ T', World.polymers w' !! t = Some T' ∧
        Mask.start (Polymer.mask_ T') = Mask.start (Polymer.mask_ T) + 1.
Proof.
  intros H1 H2 HT Hmask Hrun. rewrite for_each_app in Hrun.
  apply bind_Ok in Hrun as (u1 & w1 & Hrun1 & Hrun).
  assert (World.polymers w1 !! t = Some T) as HT1.
  { rewrite <- HT.
    apply (Signal_emit_avoid (Signal.mk m1 0) t w u1 w1); [exact H1 | exact Hrun1]. }
  simpl in Hrun.
  apply bind_Ok in Hrun as (u2 & w2 & Hslot & Hrun2).
  apply on_polymer_Ok in Hslot as (T0 & T' & HT0 & Hshift & ->).
  assert (T0 = T) as -> by congruence.
  exists T'. split.
  - rewrite (Signal_emit_avoid (Signal.mk m2 0) t _ u w' H2 Hrun2). simpl.
    apply list_lookup_insert_eq. eapply lookup_lt_Some; eauto.
  - apply ShiftMask_Ok in Hshift as [ps ->].
    replace (Mask.start (Polymer.mask_ T) <=? Mask.stop (Polymer.mask_ T))
      with true by (symmetry; apply Z.leb_le; lia).
    reflexivity.
Qed.

Lemma clone_promoters_loop G hits :
  ∀ objs0 ivs0 w objs ivs w',
  fold_each (W := World.t) hits (objs0, ivs0)
    (λ (acc : list Promoter.t * list Interval.t) interval,
    let '(objs, rbs_intervals) := acc in
    let start := Interval.start interval in
    let stop := Interval.stop interval in
    let* elem := deref (Polymer.promoters G !! Interval.value interval) in
    ret (objs ++ [Promoter.Clone elem],
         rbs_intervals ++ [Interval.mk start stop (length objs)])) w
  = Ok (objs, ivs) w' →
  w' = w ∧
  ∃ objs1,
    objs = objs0 ++ objs1 ∧
    Forall2 (λ hit obj, ∃ elem, Polymer.promoters G !! Interval.value hit = Some elem
                                ∧ obj = Promoter.Clone elem) hits objs1 ∧
    ivs = ivs0 ++ imap (λ k hit, Interval.mk (Interval.start hit) (Interval.stop hit)
                                   (length objs0 + k)) hits.
Proof.
  induction hits as [|hit hits IH]; intros objs0 ivs0 w objs ivs w' Hrun; simpl in Hrun.
  - unfold ret in Hrun. injection Hrun as <- <- <-. split; [done|].
    exists []. rewrite !app_nil_r. done.
  - apply bind_Ok in Hrun as ([objs1 ivs1] & w1 & Hbody & Hrun).
    apply bind_Ok in Hbody as (elem & w2 & Helem & Hret).
    apply deref_Ok in Helem as [Helem ->].
    unfold ret in Hret. injection Hret as <- <- <-.
    apply IH in Hrun as (-> & objs2 & -> & Hclones & ->). split; [done|].
    exists (Promoter.Clone elem :: objs2). split_and!.
    + by rewrite <- app_assoc.
    + constructor; eauto.
    + rewrite <- app_assoc. simpl. do 2 f_equal.
      * f_equal. lia.
      * apply imap_ext. intros k x _. simpl. f_equal. rewrite length_app. simpl. lia.
Qed.

Lemma clone_terminators_loop G hits :
  ∀ objs0 ivs0 w objs ivs w',
  fold_each (W := World.t) hits (objs0, ivs0)
    (λ (acc : list Terminator.t * list Interval.t) interval,
    let '(objs, stop_site_intervals) := acc in
    let start := Interval.start interval in
    let stop := Interval.stop interval in
    let* elem := deref (Polymer.terminators G !! Interval.value interval) in
    ret (objs ++ [Terminator.Clone elem],
         stop_site_intervals ++ [Interval.mk start stop (length objs)])) w
  = Ok (objs, ivs) w' →
  w' = w ∧
  ∃ objs1,
    objs = objs0 ++ objs1 ∧
    Forall2 (λ hit obj, ∃ elem, Polymer.terminators G !! Interval.value hit = Some elem
                                ∧ obj = Terminator.Clone elem) hits objs1 ∧
    ivs = ivs0 ++ imap (λ k hit, Interval.mk (Interval.start hit) (Interval.stop hit)
                                   (length objs0 + k)) hits.
Proof.
  induction hits as [|hit hits IH]; intros objs0 ivs0 w objs ivs w' Hrun; simpl in Hrun.
  - unfold ret in Hrun. injection Hrun as <- <- <-. split; [done|].
    exists []. rewrite !app_nil_r. done.
  - apply bind_Ok in Hrun as ([objs1 ivs1] & w1 & Hbody & Hrun).
    apply bind_Ok in Hbody as (elem & w2 & Helem & Hret).
    apply deref_Ok in Helem as [Helem ->].
    unfold ret in Hret. injection Hret as <- <- <-.
    apply IH in Hrun as (-> & objs2 & -> & Hclones & ->). split; [done|].
    exists (Terminator.Clone elem :: objs2). split_and!.
    + by rewrite <- app_assoc.
    + constructor; eauto.
    + rewrite <- app_assoc. simpl. do 2 f_equal.
      * f_equal. lia.
      * apply imap_ext. intros k x _. simpl. f_equal. rewrite length_app. simpl. lia.
Qed.

End Spawn.

Section SpawnClaim.
Context `{Platform}.

Lemma findContained_nil (tree : IntervalTree.t) (q_start q_stop : Z) :
  IntervalTree.findContained tree q_start q_stop []
  = filter (λ i, IntervalTree.contained q_start q_stop i = true) tree.
Proof. unfold IntervalTree.findContained. by destruct results_append. Qed.

Lemma findOverlapping_nil (tree : IntervalTree.t) (q_start q_stop : Z) :
  IntervalTree.findOverlapping tree q_start q_stop []
  = filter (λ i, IntervalTree.overlaps q_start q_stop i = true) tree.
Proof. unfold IntervalTree.findOverlapping. by destruct results_append. Qed.

Lemma on_polymer_get_genome this w g w' :
  on_polymer this get_genome w = Ok g w' →
  w' = w ∧ ∃ G, World.polymers w !! this = Some G ∧
                Polymer.derived G = Polymer.Genome g.
Proof.
  intros Hrun. apply on_polymer_Ok in Hrun as (G & G' & HG & Hg & ->).
  unfold get_genome in Hg. destruct (Polymer.derived G) eqn:E; try discriminate.
  injection Hg as <- <-. split; [|eauto].
  rewrite list_insert_id by done. apply World_eta_polymers.
Qed.

(** C9. A successful [Genome::Bind] of [pol]: after the base [Bind], a
    transcript is built for [pol.stop .. stop_].  Its promoters are the
    clones of exactly the template RBS intervals contained in that range and
    its terminators the clones of exactly the contained template stop
    codons, each under the bounds of its template interval; its mask spans
    [pol.stop .. stop_]; it is constructed with the genome's own [start_]
    and [stop_], not with the bounds of the range.  The transcript becomes a
    new object of the world, a slot that calls its [ShiftMask] is connected
    to the [move_signal_] of [pol], and [transcript_signal_] is emitted with
    it.  From then on every emission of that signal recedes the mask of the
    transcript by one position, as long as the mask is not exhausted. *)
Theorem Genome_Bind_spawns_transcript (w : World.t) (this pol : nat)
    (promoter_name : string) (w' : World.t) :
  Genome_Bind this pol promoter_name w = Ok tt w' →
  ∃ w1 p G g T,
    Polymer_Bind this pol promoter_name w = Ok tt w1 ∧
    World.polymerases w1 !! pol = Some p ∧
    World.polymers w1 !! this = Some G ∧
    Polymer.derived G = Polymer.Genome g ∧
    let transcript := length (World.polymers w1) in
    let rbs_hits :=
      filter (λ i, IntervalTree.contained (Polymerase.stop p) (Polymer.stop_ G) i = true)
             (Polymer.transcript_rbs_ g) in
    let stop_hits :=
      filter (λ i, IntervalTree.contained (Polymerase.stop p) (Polymer.stop_ G) i = true)
             (Polymer.transcript_stop_sites_ g) in
    let signal :=
      (Signal.connect_member (Call_ShiftMask transcript)
         (Polymerase.move_signal_ p)).2 in
    World.polymers w' = World.polymers w1 ++ [T] ∧
    Polymer.name_ T = "rna" ∧
    Polymer.start_ T = Polymer.start_ G ∧
    Polymer.stop_ T = Polymer.stop_ G ∧
    Polymer.mask_ T = Mask.mk "mask" (Polymerase.stop p) (Polymer.stop_ G) ∅ ∧
    Polymer.weights_ T = Polymer.transcript_weights_ g ∧
    Forall2 (λ hit obj, ∃ elem, Polymer.promoters G !! Interval.value hit = Some elem
                                ∧ obj = Promoter.Clone elem)
            rbs_hits (Polymer.promoters T) ∧
    Polymer.binding_intervals_ T
      = imap (λ k hit, Interval.mk (Interval.start hit) (Interval.stop hit) k) rbs_hits ∧
    Forall2 (λ hit obj, ∃ elem, Polymer.terminators G !! Interval.value hit = Some elem
                                ∧ obj = Terminator.Clone elem)
            stop_hits (Polymer.terminators T) ∧
    Polymer.release_intervals_ T
      = imap (λ k hit, Interval.mk (Interval.start hit) (Interval.stop hit) k) stop_hits ∧
    Polymer.polymerases_ T = [] ∧
    Polymer.derived T = Polymer.Transcript ∧
    World.polymerases w'
      = <[pol := Polymerase.set_move_signal signal p]> (World.polymerases w1) ∧
    World.trace w' = World.trace w1 ++ [Ev_transcript_signal transcript] ∧
    (signal_wf (Polymerase.move_signal_ p) →
     slots_avoid transcript (Polymerase.move_signal_ p) →
     ∀ w2 p2 T2 u w3,
       World.polymerases w2 !! pol = Some p2 →
       Polymerase.move_signal_ p2 = signal →
       World.polymers w2 !! transcript = Some T2 →
       Mask.start (Polymer.mask_ T2) ≤ Mask.stop (Polymer.mask_ T2) →
       emit_move_signal pol w2 = Ok u w3 →
       ∃ T3, World.polymers w3 !! transcript = Some T3 ∧
             Mask.start (Polymer.mask_ T3) = Mask.start (Polymer.mask_ T2) + 1).
Proof.
  unfold Genome_Bind. intros Hrun.
  apply bind_Ok in Hrun as ([] & w1 & Hbind & Hrun).
  apply bind_Ok in Hrun as (p & w0 & Hp & Hrun).
  apply get_polymerase_Ok in Hp as [Hp ->].
  apply bind_Ok in Hrun as (G & w0 & HG & Hrun).
  apply get_polymer_Ok in HG as [HG ->].
  apply bind_Ok in Hrun as (transcript & w2 & Hbuild & Hrun).
  apply bind_Ok in Hrun as (u & w3 & Hconnect & Hlog).
  apply update_polymerase_Ok in Hconnect as (p' & Hp' & ->).
  apply log_Ok in Hlog as ->.
  (* BuildTranscript *)
  unfold Genome_BuildTranscript in Hbuild.
  apply bind_Ok in Hbuild as (G0 & w0 & HG0 & Hbuild).
  apply get_polymer_Ok in HG0 as [HG0 ->].
  assert (G0 = G) as -> by congruence.
  apply bind_Ok in Hbuild as (g & w0 & Hg & Hbuild).
  apply on_polymer_get_genome in Hg as (-> & G0 & HG0' & Hg).
  assert (G0 = G) as -> by congruence.
  apply bind_Ok in Hbuild as ([rbs rbs_intervals] & w0 & Hrbs & Hbuild).
  unfold clone_promoters in Hrbs.
  pose proof (clone_promoters_loop G _ [] [] _ _ _ _ Hrbs) as (-> & rbs1 & -> & Hrbs' & ->).
  apply bind_Ok in Hbuild as ([stop_sites stop_site_intervals] & w0 & Hstop & Hbuild).
  unfold clone_terminators in Hstop.
  pose proof (clone_terminators_loop G _ [] [] _ _ _ _ Hstop) as (-> & stop1 & -> & Hstop' & ->).
  apply bind_Ok in Hbuild as (T & w0 & Hnew & Hshared).
  unfold Transcript_new in Hnew.
  apply bind_Ok in Hnew as (B & w4 & Hbase & Hret).
  unfold Polymer_new in Hbase.
  destruct (_ <? 0); [discriminate|].
  unfold ret in Hbase, Hret. injection Hbase as <- <-. injection Hret as <- <-.
  unfold make_shared_polymer in Hshared. injection Hshared as <- <-.
  rewrite !findContained_nil in *.
  simpl in Hp'.
  eexists w1, p, G, g, _. split; [exact Hbind|].
  split; [exact Hp|]. split; [exact HG|]. split; [exact Hg|].
  cbv zeta. split; [reflexivity|].
  split_and!; try reflexivity.
  - exact Hrbs'.
  - exact Hstop'.
  - simpl. assert (p' = p) as -> by congruence. reflexivity.
  - intros Hwf Havoid w2 p2 T2 v w5 Hp2 Hsig HT2 Hmask Hemit.
    apply emit_move_signal_Ok in Hemit as (p3 & Hp3 & Hemit).
    assert (p3 = p2) as -> by congruence.
    rewrite Hsig in Hemit. unfold Signal.emit, Signal.connect_member, Signal.connect in Hemit. simpl in Hemit.
    destruct (map_insert_fresh (Signal.current_id_ (Polymerase.move_signal_ p) + 1)
                (Call_ShiftMask (length (World.polymers w1)))
                (Signal.slots_ (Polymerase.move_signal_ p)))
      as (m1 & m2 & Hsplit & Hins).
    { eapply Forall_impl; [exact Hwf|]. intros it Hle. simpl in Hle. lia. }
    rewrite Hins in Hemit.
    unfold slots_avoid in Havoid. rewrite Hsplit in Havoid.
    apply Forall_app in Havoid as [Hm1 Hm2].
    eapply emit_one_target; [exact Hm1 | exact Hm2 | | exact Hmask | exact Hemit].
    exact HT2.
Qed.

End SpawnClaim.

(** * The occupancy bookkeeping *)

Section Bookkeeping.
Context `{Platform}.

Lemma Consistent_alt w this :
  Consistent w this ↔
  ∃ P, World.polymers w !! this = Some P ∧
       NoDup (Polymer.polymerases_ P) ∧
       Forall2 (cached w P) (Polymer.polymerases_ P) (Polymer.prop_list_ P).
Proof.
  unfold Consistent. split.
  - intros (P & HP & Hnd & Hlen & Hall). exists P. split_and!; [done..|].
    apply Forall2_same_length_lookup_2; [done|].
    intros i pol prop Hpol Hprop.
    destruct (Hall i pol Hpol) as (p & weight & Hp & Hw & Hprop').
    exists p, weight. split_and!; [done..|]. congruence.
  - intros (P & HP & Hnd & Hall). exists P.
    split_and!; [done | done | by eapply Forall2_length |].
    intros i pol Hpol.
    destruct (Forall2_lookup_l _ _ _ _ _ Hall Hpol)
      as (prop & Hprop & p & weight & Hp & Hw & ->).
    exists p, weight. done.
Qed.

Lemma cached_ext w w' P P' pol prop :
  World.polymerases w' !! pol = World.polymerases w !! pol →
  Polymer.weights_ P' = Polymer.weights_ P →
  Polymer.start_ P' = Polymer.start_ P →
  cached w P pol prop → cached w' P' pol prop.
Proof.
  intros Hh Hw Hs (p & weight & Hp & Hweight & ->).
  exists p, weight. rewrite Hh, Hw, Hs. done.
Qed.

Lemma occ_same_refl P : occ_same P P.
Proof. by repeat split. Qed.

Lemma occ_same_trans P1 P2 P3 : occ_same P1 P2 → occ_same P2 P3 → occ_same P1 P3.
Proof.
  intros (A1 & A2 & A3 & A4 & A5 & A6) (B1 & B2 & B3 & B4 & B5 & B6).
  repeat split; congruence.
Qed.

Lemma mask_step_occ P P' : mask_step P P' → occ_same P P'.
Proof. intros (ps & m & ->). by repeat split. Qed.

Lemma occ_frame_refl this w P :
  World.polymers w !! this = Some P → occ_frame this w w.
Proof. intros HP. split; [done|]. exists P, P. eauto using occ_same_refl. Qed.

Lemma occ_frame_trans this w1 w2 w3 :
  occ_frame this w1 w2 → occ_frame this w2 w3 → occ_frame this w1 w3.
Proof.
  intros (A1 & P1 & P2 & HP1 & HP2 & A2) (B1 & P2' & P3 & HP2' & HP3 & B2).
  split; [congruence|]. exists P1, P3. split_and!; [done..|].
  assert (P2' = P2) as -> by congruence. by eapply occ_same_trans.
Qed.

Lemma slots_step_occ this w w' P :
  World.polymers w !! this = Some P → slots_step w w' → occ_frame this w w'.
Proof.
  intros HP (A1 & _ & _ & _ & _ & A6). split; [done|].
  destruct (Forall2_lookup_l _ _ _ _ _ A6 HP) as (P' & HP' & Hstep).
  exists P, P'. eauto using mask_step_occ.
Qed.

Lemma readthrough_step_occ this w w' :
  readthrough_step this w w' → occ_frame this w w'.
Proof.
  intros (A1 & _ & _ & P & ts & HP & _ & EP). split; [done|].
  exists P, (Polymer.set_terminators ts P). split_and!; [done| |by repeat split].
  rewrite EP. apply list_lookup_insert_eq. eapply lookup_lt_Some; eauto.
Qed.

Lemma on_polymer_occ this (m : M Polymer.t unit) w u w' :
  (∀ P v P', m P = Ok v P' → occ_same P P') →
  on_polymer this m w = Ok u w' → occ_frame this w w'.
Proof.
  intros Hm Hrun. apply on_polymer_Ok in Hrun as (P & P' & HP & Hrun & ->).
  split; [done|]. exists P, P'. split_and!; [done| |eauto].
  simpl. apply list_lookup_insert_eq. eapply lookup_lt_Some; eauto.
Qed.

Lemma emit_move_signal_occ this pol w u w' P :
  World.polymers w !! this = Some P →
  emit_move_signal pol w = Ok u w' → occ_frame this w w'.
Proof.
  intros HP Hrun. apply emit_move_signal_step in Hrun as (A1 & _ & _ & _ & _ & A6).
  split; [done|].
  destruct (Forall2_lookup_l _ _ _ _ _ A6 HP) as (P' & HP' & Hstep).
  exists P, P'. eauto using mask_step_occ.
Qed.

Lemma CheckMaskCollisions_occ this pol w b w' :
  Polymer_CheckMaskCollisions this pol w = Ok b w' → occ_frame this w w'.
Proof.
  unfold Polymer_CheckMaskCollisions. intros Hrun.
  apply bind_Ok in Hrun as (P & w0 & HP & Hrun).
  apply get_polymer_Ok in HP as [HP ->].
  apply bind_Ok in Hrun as (p & w0 & Hp & Hrun).
  apply get_polymerase_Ok in Hp as [Hp ->].
  destruct (_ && _).
  - destruct (0 <? _); [discriminate|].
    destruct (Mask.CheckInteraction _ _).
    + apply bind_Ok in Hrun as (u & w1 & Hshift & Hret).
      unfold ret in Hret. injection Hret as _ <-.
      eapply on_polymer_occ; [|exact Hshift].
      intros Q v Q' HQ. apply ShiftMask_step in HQ. by apply mask_step_occ.
    + unfold ret in Hrun. injection Hrun as _ <-. by eapply occ_frame_refl.
  - unfold ret in Hrun. injection Hrun as _ <-. by eapply occ_frame_refl.
Qed.

Lemma times_emit_occ this pol n w u w' P :
  World.polymers w !! this = Some P →
  times n (emit_move_signal pol) w = Ok u w' → occ_frame this w w'.
Proof.
  intros HP Hrun. apply times_emit_trace in Hrun as (A1 & _ & A6).
  split; [done|].
  destruct (Forall2_lookup_l _ _ _ _ _ A6 HP) as (P' & HP' & Hstep).
  exists P, P'. eauto using mask_step_occ.
Qed.

(** ** Updates *)

Lemma updated_occ_same_l u P0 P1 P2 :
  occ_same P0 P1 → updated u P1 P2 → updated u P0 P2.
Proof.
  intros (_ & O2 & O3 & _). destruct u; simpl; rewrite O2, O3; done.
Qed.

Lemma updated_occ_same_r u P0 P1 P2 :
  updated u P0 P1 → occ_same P1 P2 → updated u P0 P2.
Proof.
  intros Hu (_ & O2 & O3 & _). destruct u; simpl in *; rewrite O2, O3; done.
Qed.

Lemma occ_same_updated P P' : occ_same P P' → updated Kept P P'.
Proof. intros (_ & O2 & O3 & _). done. Qed.

(** ** Sums without rounding *)

Section Sums.
Context (val : num → option Z).

Lemma val_sum_cons_inv x l s :
  val_sum val (x :: l) = Some s →
  ∃ a b, val x = Some a ∧ val_sum val l = Some b ∧ s = a + b.
Proof.
  simpl. destruct (val x) as [a|], (val_sum val l) as [b|]; try discriminate.
  intros [= <-]. eauto.
Qed.

Lemma val_sum_app l1 l2 s1 s2 :
  val_sum val l1 = Some s1 → val_sum val l2 = Some s2 →
  val_sum val (l1 ++ l2) = Some (s1 + s2).
Proof.
  revert s1. induction l1 as [|x l1 IH]; intros s1 H1 H2.
  - injection H1 as <-. simpl. by rewrite H2.
  - apply val_sum_cons_inv in H1 as (a & b & Ha & Hb & ->).
    simpl. rewrite Ha, (IH b Hb H2). f_equal. lia.
Qed.

Lemma val_sum_app_inv l1 l2 s :
  val_sum val (l1 ++ l2) = Some s →
  ∃ s1 s2, val_sum val l1 = Some s1 ∧ val_sum val l2 = Some s2 ∧ s = s1 + s2.
Proof.
  revert s. induction l1 as [|x l1 IH]; intros s Hs.
  - exists 0, s. simpl in *. done.
  - apply val_sum_cons_inv in Hs as (a & b & Ha & Hb & ->).
    destruct (IH b Hb) as (s1 & s2 & H1 & H2 & ->).
    exists (a + s1), s2. simpl. rewrite Ha, H1. split_and!; [done | done | lia].
Qed.

Lemma val_sum_vector_insert i x l s a :
  val_sum val l = Some s → val x = Some a →
  val_sum val (vector_insert i x l) = Some (s + a).
Proof.
  intros Hs Ha. rewrite <- (take_drop i l) in Hs.
  apply val_sum_app_inv in Hs as (s1 & s2 & H1 & H2 & ->).
  unfold vector_insert.
  rewrite (val_sum_app _ (x :: drop i l) s1 (a + s2) H1)
    by (simpl; by rewrite Ha, H2).
  f_equal. lia.
Qed.

Lemma val_sum_middle_inv l1 x l2 s :
  val_sum val (l1 ++ x :: l2) = Some s →
  ∃ a r, val x = Some a ∧ val_sum val (l1 ++ l2) = Some r ∧ s = r + a.
Proof.
  intros Hs. apply val_sum_app_inv in Hs as (s1 & s2 & H1 & H2 & ->).
  apply val_sum_cons_inv in H2 as (a & b & Ha & Hb & ->).
  exists a, (s1 + b). rewrite (val_sum_app _ _ _ _ H1 Hb).
  split_and!; [done | done | lia].
Qed.

Lemma val_sum_delete i x l s :
  l !! i = Some x → val_sum val l = Some s →
  ∃ a, val x = Some a ∧ val_sum val (delete i l) = Some (s - a).
Proof.
  intros Hl Hs. rewrite <- (take_drop_middle l i x Hl) in Hs.
  apply val_sum_middle_inv in Hs as (a & r & Ha & Hr & ->).
  exists a. split; [done|]. rewrite delete_take_drop, Hr. f_equal. lia.
Qed.

Lemma val_sum_replace i x y l s b :
  l !! i = Some x → val_sum val l = Some s → val y = Some b →
  ∃ a, val x = Some a ∧ val_sum val (<[i := y]> l) = Some (s + (b - a)).
Proof.
  intros Hl Hs Hb. pose proof (lookup_lt_Some _ _ _ Hl) as Hlt.
  destruct (val_sum_delete i x l s Hl Hs) as (a & Ha & Hd).
  exists a. split; [done|].
  rewrite insert_take_drop by done. rewrite delete_take_drop in Hd.
  apply val_sum_app_inv in Hd as (s1 & s2 & H1 & H2 & E).
  rewrite (val_sum_app _ (y :: drop (S i) l) s1 (b + s2) H1)
    by (simpl; by rewrite Hb, H2).
  f_equal. lia.
Qed.

Lemma exact_add_spec a b :
  exact_add val a b = true →
  ∃ x y, val a = Some x ∧ val b = Some y ∧ val (num_add a b) = Some (x + y).
Proof.
  unfold exact_add.
  destruct (val a) as [x|], (val b) as [y|], (val (num_add a b)) as [z|];
    try discriminate.
  intros ->%Z.eqb_eq. eauto.
Qed.

Lemma exact_sub_spec a b :
  exact_sub val a b = true →
  ∃ x y, val a = Some x ∧ val b = Some y ∧ val (num_sub a b) = Some (x - y).
Proof.
  unfold exact_sub.
  destruct (val a) as [x|], (val b) as [y|], (val (num_sub a b)) as [z|];
    try discriminate.
  intros ->%Z.eqb_eq. eauto.
Qed.

(** An update whose operations are exact keeps the sum. *)
Lemma exact_update_keeps_sum u P P' :
  updated u P P' →
  exact_update val (Polymer.prop_sum_ P) u = true →
  SumExact val P → SumExact val P'.
Proof.
  intros Hu Hexact (s & Hsum & Hlist). unfold SumExact.
  destruct u as [|it new|index old|index old new]; simpl in Hu, Hexact.
  - destruct Hu as [-> ->]. eauto.
  - destruct Hu as [-> ->].
    apply exact_add_spec in Hexact as (x & y & Hx & Hy & Hz).
    assert (x = s) as -> by congruence.
    exists (s + y). split; [done|]. by apply val_sum_vector_insert.
  - destruct Hu as (Hold & -> & ->).
    apply exact_sub_spec in Hexact as (x & y & Hx & Hy & Hz).
    assert (x = s) as -> by congruence.
    destruct (val_sum_delete _ _ _ _ Hold Hlist) as (a & Ha & Hd).
    assert (a = y) as -> by congruence.
    exists (s - y). done.
  - destruct Hu as (Hold & -> & ->).
    apply andb_true_iff in Hexact as [Hsub Hadd].
    apply exact_sub_spec in Hsub as (b & a & Hb & Ha & Hdiff).
    apply exact_add_spec in Hadd as (x & d & Hx & Hd & Hz).
    assert (x = s) as -> by congruence.
    assert (d = b - a) as -> by congruence.
    destruct (val_sum_replace _ _ new _ _ b Hold Hlist Hb) as (a' & Ha' & Hr).
    assert (a' = a) as -> by congruence.
    exists (s + (b - a)). done.
Qed.

(** The operations of an update from [P] to [P'] are among those that
    [exact_between] checks. *)
Lemma updated_exact_between u P P' :
  updated u P P' →
  exact_between val P P' = true →
  exact_update val (Polymer.prop_sum_ P) u = true.
Proof.
  intros Hu [Holds Hnews]%andb_true_iff.
  rewrite forallb_forall in Holds. rewrite forallb_forall in Hnews.
  destruct u as [|it new|index old|index old new]; simpl in *.
  - done.
  - destruct Hu as [Hl _].
    assert (In new (Polymer.prop_list_ P')) as Hin.
    { rewrite Hl. unfold vector_insert. apply in_or_app. right. by left. }
    by apply Hnews, andb_true_iff in Hin as [? _].
  - destruct Hu as (Hold & _). apply Holds.
    apply list_elem_of_In. by eapply list_elem_of_lookup_2.
  - destruct Hu as (Hold & Hl & _).
    assert (In new (Polymer.prop_list_ P')) as Hin.
    { rewrite Hl. apply list_elem_of_In. eapply list_elem_of_lookup_2.
      apply list_lookup_insert_eq. by eapply lookup_lt_Some. }
    apply Hnews, andb_true_iff in Hin as [_ Hall].
    rewrite forallb_forall in Hall. apply Hall.
    apply list_elem_of_In. by eapply list_elem_of_lookup_2.
Qed.

End Sums.

End Bookkeeping.

Section Preservation.
Context `{Platform}.

Lemma Forall2_impl_elem {A B} (R R' : A → B → Prop) l k :
  Forall2 R l k → (∀ x y, x ∈ l → R x y → R' x y) → Forall2 R' l k.
Proof.
  induction 1 as [|x y l k Hxy Hlk IH]; intros Himpl; constructor.
  - apply Himpl; [left | done].
  - apply IH. intros x' y' Hin. apply Himpl. by right.
Qed.

Lemma find_index_notin (x : nat) (v : list nat) :
  x ∉ v → find_index x v = length v.
Proof.
  induction v as [|y v IH]; intros Hnot; simpl; [done|].
  apply not_elem_of_cons in Hnot as [Hne Hnot].
  destruct (decide (y = x)); [congruence|]. f_equal. by apply IH.
Qed.

Lemma NoDup_delete_notin (l : list nat) k x :
  NoDup l → l !! k = Some x → x ∉ delete k l.
Proof.
  intros Hnd Hl. rewrite delete_take_drop.
  rewrite <- (take_drop_middle l k x Hl) in Hnd.
  apply NoDup_app in Hnd as (_ & Hdisj & Hnd2).
  apply NoDup_cons in Hnd2 as [Hnot _].
  intros [Hin|Hin]%elem_of_app; [|done].
  apply (Hdisj x Hin). left.
Qed.

Lemma NoDup_delete_list (l : list nat) k : NoDup l → NoDup (delete k l).
Proof. intros Hnd. eapply sublist_NoDup; [exact Hnd | apply sublist_delete]. Qed.

(** What [Terminate] does when it returns. *)
Lemma Terminate_Ok_inv w this pol last_gene u w' P :
  World.polymers w !! this = Some P →
  length (Polymer.polymerases_ P) = length (Polymer.prop_list_ P) →
  Polymer_Terminate this pol last_gene w = Ok u w' →
  ∃ index prop,
    Polymer.polymerases_ P !! index = Some pol ∧
    index = find_index pol (Polymer.polymerases_ P) ∧
    Polymer.prop_list_ P !! index = Some prop ∧
    World.polymerases w' = World.polymerases w ∧
    World.polymers w' =
      <[this := Polymer.set_prop_list_ (delete index (Polymer.prop_list_ P))
                  (Polymer.set_polymerases_ (delete index (Polymer.polymerases_ P))
                     (Polymer.set_prop_sum_ (num_sub (Polymer.prop_sum_ P) prop) P))]>
        (World.polymers w).
Proof.
  intros HP Hlen Hrun.
  destruct (decide (pol ∈ Polymer.polymerases_ P)) as [Hin|Hnot].
  - pose proof (find_index_elem _ _ Hin) as Hidx.
    set (index := find_index pol (Polymer.polymerases_ P)) in *.
    assert (index < length (Polymer.polymerases_ P))%nat as Hlt
      by (eapply lookup_lt_Some; eauto).
    destruct (lookup_lt_is_Some_2 (Polymer.prop_list_ P) index) as [prop Hprop]; [lia|].
    assert (∃ p, World.polymerases w !! pol = Some p) as [p Hp].
    { unfold Polymer_Terminate, Polymer_Terminate_with in Hrun.
      rewrite (bind_run _ _ _ _ _ (get_polymer_run _ _ _ HP)) in Hrun.
      fold index in Hrun. rewrite Hprop in Hrun.
      rewrite (bind_run _ _ w prop w) in Hrun by reflexivity.
      apply bind_Ok in Hrun as (v1 & w1 & Hm & Hrun).
      apply on_polymer_Ok in Hm as (? & ? & _ & _ & ->).
      apply bind_Ok in Hrun as (p & w2 & Hp & _).
      apply get_polymerase_Ok in Hp as [Hp _].
      exists p. exact Hp. }
    rewrite (Terminate_run _ _ _ _ _ _ _ _ HP Hp eq_refl Hlt Hprop Hlen) in Hrun.
    injection Hrun as _ <-. exists index, prop. done.
  - exfalso. apply find_index_notin in Hnot.
    unfold Polymer_Terminate, Polymer_Terminate_with in Hrun.
    rewrite (bind_run _ _ _ _ _ (get_polymer_run _ _ _ HP)) in Hrun.
    rewrite Hnot, Hlen in Hrun.
    rewrite (lookup_ge_None_2 (Polymer.prop_list_ P)) in Hrun by lia.
    discriminate.
Qed.

Lemma deleted_consistent w w' P P' k pol :
  NoDup (Polymer.polymerases_ P) →
  Forall2 (cached w P) (Polymer.polymerases_ P) (Polymer.prop_list_ P) →
  Polymer.polymerases_ P !! k = Some pol →
  (∀ q, q ≠ pol → World.polymerases w' !! q = World.polymerases w !! q) →
  Polymer.weights_ P' = Polymer.weights_ P →
  Polymer.start_ P' = Polymer.start_ P →
  Polymer.polymerases_ P' = delete k (Polymer.polymerases_ P) →
  Polymer.prop_list_ P' = delete k (Polymer.prop_list_ P) →
  NoDup (Polymer.polymerases_ P') ∧
  Forall2 (cached w' P') (Polymer.polymerases_ P') (Polymer.prop_list_ P').
Proof.
  intros Hnd Hall Hk Hheap Hw Hs -> ->. split; [by apply NoDup_delete_list|].
  eapply Forall2_impl_elem; [by apply Forall2_delete|].
  intros q prop Hin Hc. eapply cached_ext; [|exact Hw|exact Hs|exact Hc].
  apply Hheap. intros ->. by eapply NoDup_delete_notin.
Qed.

Lemma Terminate_preserves w this pol last_gene w' :
  Consistent w this →
  Polymer_Terminate this pol last_gene w = Ok tt w' →
  Bookkeeping this w w'.
Proof.
  intros HC Hrun. pose proof HC as (P & HP & Hnd & Hall)%Consistent_alt.
  pose proof (Forall2_length _ _ _ Hall) as Hlen.
  destruct (Terminate_Ok_inv _ _ _ _ _ _ _ HP Hlen Hrun)
    as (index & prop & Hidx & _ & Hprop & Eh & Ep).
  set (P' := Polymer.set_prop_list_ _ _) in Ep.
  assert (World.polymers w' !! this = Some P') as HP'.
  { rewrite Ep. apply list_lookup_insert_eq. eapply lookup_lt_Some; eauto. }
  split.
  - apply Consistent_alt. exists P'. split; [done|].
    eapply (deleted_consistent w w' P P' index pol); try done.
    intros q _. by rewrite Eh.
  - exists P, P', (Erased index prop). done.
Qed.

Lemma map_each_length {W A B} (xs : list A) (body : A → M W B) :
  ∀ w ys w', map_each xs body w = Ok ys w' → length ys = length xs.
Proof.
  induction xs as [|x xs IH]; intros w ys w' Hrun; simpl in Hrun.
  - unfold ret in Hrun. by injection Hrun as <- _.
  - apply bind_Ok in Hrun as (y & w1 & _ & Hrun).
    apply bind_Ok in Hrun as (ys' & w2 & Hrec & Hret).
    unfold ret in Hret. injection Hret as <- _. simpl. f_equal. by eapply IH.
Qed.

Lemma upper_bound_le x starts : (upper_bound x starts ≤ length starts)%nat.
Proof. induction starts as [|s starts IH]; simpl; [lia|]. destruct (x <? s); simpl; lia. Qed.

(** What [Insert] does when it returns. *)
Lemma Insert_Ok_inv w this pol u w' :
  Polymer_Insert this pol w = Ok u w' →
  ∃ P p it weight,
    World.polymers w !! this = Some P ∧
    World.polymerases w !! pol = Some p ∧
    (it ≤ length (Polymer.polymerases_ P))%nat ∧
    (it ≤ length (Polymer.prop_list_ P))%nat ∧
    vector_at (Polymer.weights_ P)
      (Polymerase.stop p - Polymer.start_ P - 1) = Some weight ∧
    World.polymerases w' = World.polymerases w ∧
    World.polymers w' =
      <[this := Polymer.set_prop_list_
                  (vector_insert it (num_mul weight (Polymerase.speed p))
                     (Polymer.prop_list_ P))
                  (Polymer.set_prop_sum_
                     (num_add (Polymer.prop_sum_ P)
                        (num_mul weight (Polymerase.speed p)))
                     (Polymer.set_polymerases_
                        (vector_insert it pol (Polymer.polymerases_ P)) P))]>
        (World.polymers w).
Proof.
  unfold Polymer_Insert. intros Hrun.
  apply bind_Ok in Hrun as (P & w0 & HP & Hrun).
  apply get_polymer_Ok in HP as [HP ->].
  apply bind_Ok in Hrun as (p & w0 & Hp & Hrun).
  apply get_polymerase_Ok in Hp as [Hp ->].
  apply bind_Ok in Hrun as (starts & w0 & Hstarts & Hrun).
  pose proof (map_each_length _ _ _ _ _ Hstarts) as Hlen.
  apply map_each_readonly in Hstarts as ->.
  2:{ clear. intros q w r w' Hrun. run_all. done. }
  pose proof (upper_bound_le (Polymerase.start p) starts) as Hit.
  set (it := upper_bound (Polymerase.start p) starts) in *.
  assert (this < length (World.polymers w))%nat as Hthis
    by (eapply lookup_lt_Some; eauto).
  erewrite bind_run in Hrun by (eapply on_polymer_run; [exact HP | reflexivity]).
  apply bind_Ok in Hrun as (weight & w0 & Hweight & Hrun).
  apply deref_Ok in Hweight as [Hweight ->].
  erewrite bind_run in Hrun.
  2:{ eapply on_polymer_run; [|reflexivity]. simpl. by apply list_lookup_insert_eq. }
  apply bind_Ok in Hrun as (v & w0 & Hguard & Hrun).
  destruct (decide (it ≤ length (Polymer.prop_list_ P))%nat) as [Hle|]; [|discriminate].
  unfold ret in Hguard. injection Hguard as _ <-.
  erewrite bind_run in Hrun.
  2:{ eapply on_polymer_run; [|reflexivity]. simpl.
      apply list_lookup_insert_eq. by rewrite length_insert. }
  apply bind_Ok in Hrun as (P' & w0 & HP' & Hrun).
  apply get_polymer_Ok in HP' as [HP' ->].
  destruct (decide _); [discriminate|].
  unfold ret in Hrun. injection Hrun as _ <-.
  exists P, p, it, weight. split_and!; try done.
  - lia.
  - simpl. by rewrite !list_insert_insert_eq.
Qed.

Lemma Insert_preserves w this pol w' :
  Consistent w this →
  (∀ P, World.polymers w !! this = Some P → pol ∉ Polymer.polymerases_ P) →
  Polymer_Insert this pol w = Ok tt w' →
  Bookkeeping this w w'.
Proof.
  intros HC Hfresh Hrun. pose proof HC as (P & HP & Hnd & Hall)%Consistent_alt.
  destruct (Insert_Ok_inv _ _ _ _ _ Hrun)
    as (P0 & p & it & weight & HP0 & Hp & Hit & Hit' & Hweight & Eh & Ep).
  assert (P0 = P) as -> by congruence.
  set (P' := Polymer.set_prop_list_ _ _) in Ep.
  assert (World.polymers w' !! this = Some P') as HP'.
  { rewrite Ep. apply list_lookup_insert_eq. eapply lookup_lt_Some; eauto. }
  specialize (Hfresh P HP).
  split.
  - apply Consistent_alt. exists P'. split; [done|]. simpl. split.
    + unfold vector_insert.
      rewrite <- (take_drop it (Polymer.polymerases_ P)) in Hnd, Hfresh.
      apply NoDup_app in Hnd as (Hnd1 & Hdisj & Hnd2).
      apply not_elem_of_app in Hfresh as [Hf1 Hf2].
      apply NoDup_app. split_and!; [done| |].
      * intros x Hx [->|Hx']%elem_of_cons; [done|]. by apply (Hdisj x).
      * by apply NoDup_cons.
    + assert (Forall2 (cached w' P') (Polymer.polymerases_ P) (Polymer.prop_list_ P))
        as Hall'.
      { eapply Forall2_impl; [exact Hall|]. intros q prop Hc.
        eapply cached_ext; [|reflexivity|reflexivity|exact Hc]. by rewrite Eh. }
      unfold vector_insert. apply Forall2_app; [by apply Forall2_take|].
      constructor; [|by apply Forall2_drop].
      exists p, weight. rewrite Eh. done.
  - exists P, P', (Inserted it (num_mul weight (Polymerase.speed p))). done.
Qed.

End Preservation.

Section MovePreservation.
Context `{Platform}.

Lemma restored_consistent w w' this P P' :
  NoDup (Polymer.polymerases_ P) →
  Forall2 (cached w P) (Polymer.polymerases_ P) (Polymer.prop_list_ P) →
  World.polymerases w' = World.polymerases w →
  World.polymers w' !! this = Some P' →
  occ_same P P' →
  Consistent w' this.
Proof.
  intros Hnd Hall Eh HP' (O1 & O2 & O3 & O4 & O5 & _).
  apply Consistent_alt. exists P'. rewrite O1, O2. split_and!; [done..|].
  eapply Forall2_impl; [exact Hall|]. intros q prop Hc.
  eapply cached_ext; [|exact O4|exact O5|exact Hc]. by rewrite Eh.
Qed.

Lemma MoveBack_Ok_inv pol w1 (l : list Polymerase.t) p u w' :
  l !! pol = Some p →
  World.polymerases w1 = <[pol := advanced p]> l →
  Polymerase_MoveBack pol w1 = Ok u w' →
  World.polymerases w' = l ∧ World.polymers w' = World.polymers w1.
Proof.
  intros Hl E Hrun.
  destruct (rollback_restores pol w1 l p Hl E) as (w2 & Hback & F1 & F2 & _).
  rewrite Hback in Hrun. injection Hrun as _ <-. done.
Qed.

Lemma Move_preserves w this pol_index w' :
  Consistent w this →
  Polymer_Move this pol_index w = Ok tt w' →
  Bookkeeping this w w'.
Proof.
  intros HC Hrun. pose proof HC as (P & HP & Hnd & Hall)%Consistent_alt.
  pose proof (Forall2_length _ _ _ Hall) as Hlen.
  assert (∀ w2 P2, World.polymerases w2 = World.polymerases w →
            World.polymers w2 !! this = Some P2 → occ_same P P2 →
            Bookkeeping this w w2)
    as Hrestored.
  { intros w2 P2 Eh HP2 Hocc. split.
    - exact (restored_consistent w w2 this P P2 Hnd Hall Eh HP2 Hocc).
    - exists P, P2, Kept. split_and!; [done | done |]. by apply occ_same_updated. }
  unfold Polymer_Move in Hrun.
  rewrite (bind_run _ _ _ _ _ (get_polymer_run _ _ _ HP)) in Hrun.
  apply bind_Ok in Hrun as (v0 & w0 & Hguard & Hrun).
  apply guard_Ok in Hguard as [_ ->].
  apply bind_Ok in Hrun as (pol & w0 & Hpol & Hrun).
  apply deref_Ok in Hpol as [Hpol ->].
  pose proof Hpol as [Hnonneg Hpol']%vector_at_Some.
  set (i := Z.to_nat pol_index) in *.
  destruct (Forall2_lookup_l _ _ _ _ _ Hall Hpol')
    as (old & Hold & p & weight0 & Hp & Hweight0 & Eold).
  rewrite (bind_run _ _ _ _ _ (get_polymerase_run _ _ _ Hp)) in Hrun.
  apply bind_Ok in Hrun as (v1 & w1 & Hmove & Hrun).
  destruct (Polymerase_Move_effect _ _ _ _ _ Hp Hmove) as (E1 & _ & Hemit).
  assert (occ_frame this
            (World.set_trace (World.trace w ++ [Ev_move_signal pol])
               (World.set_polymerases (<[pol := advanced p]> (World.polymerases w)) w))
            w1) as F1.
  { eapply slots_step_occ; [exact HP|]. by eapply Signal_emit_step. }
  destruct F1 as (_ & P0 & P1 & HP0 & HP1 & O1). simpl in HP0.
  assert (P0 = P) as -> by congruence.
  apply bind_Ok in Hrun as (b1 & w2 & Hcheck & Hrun).
  pose proof (CheckPolCollisions_Ok _ _ _ _ _ Hcheck) as ->.
  destruct b1.
  { (* rolled back by the next polymerase *)
    destruct (MoveBack_Ok_inv _ _ _ _ _ _ Hp E1 Hrun) as [Eh Ep].
    apply (Hrestored w' P1); [done | by rewrite Ep | done]. }
  apply bind_Ok in Hrun as (b2 & w3 & Hmask & Hrun).
  destruct (CheckMaskCollisions_occ _ _ _ _ _ Hmask)
    as (E3 & P1' & P3 & HP1' & HP3 & O3).
  assert (P1' = P1) as -> by congruence.
  pose proof (occ_same_trans _ _ _ O1 O3) as O13.
  rewrite E1 in E3.
  destruct b2.
  { (* rolled back by the mask *)
    destruct (MoveBack_Ok_inv _ _ _ _ _ _ Hp E3 Hrun) as [Eh Ep].
    apply (Hrestored w' P3); [done | by rewrite Ep | done]. }
  assert (World.polymerases w3 !! pol = Some (advanced p)) as Hp3.
  { rewrite E3. apply list_lookup_insert_eq. eapply lookup_lt_Some; eauto. }
  assert (∀ q, q ≠ pol →
            <[pol := advanced p]> (World.polymerases w) !! q = World.polymerases w !! q)
    as Hheap by (intros q Hq; by apply list_lookup_insert_ne).
  apply bind_Ok in Hrun as (b3 & w4 & Hterm & Hrun).
  unfold Polymer_CheckTermination in Hterm.
  rewrite (bind_run _ _ _ _ _ (get_polymer_run _ _ _ HP3)) in Hterm.
  rewrite (bind_run _ _ _ _ _ (get_polymerase_run _ _ _ Hp3)) in Hterm.
  pose proof (CheckTermination_loop_Ok _ _ _ _ _ _ _ _ HP3 Hp3 Hterm) as Hloop.
  destruct b3.
  { (* terminated *)
    unfold ret in Hrun. injection Hrun as <-.
    destruct Hloop as (wa & Pa & interval & sa & n & wb & sb & Hstep & HPa & _
                       & _ & _ & _ & Hemits & _ & Hterminate).
    apply readthrough_step_occ in Hstep as (Ea & P3' & Pa' & HP3' & HPa' & Oa).
    assert (P3' = P3) as -> by congruence. assert (Pa' = Pa) as -> by congruence.
    assert (occ_frame this (World.set_random_pos (S (World.random_pos wa)) wa) wb)
      as (Eb & Pa' & Pb & HPa'' & HPb & Ob)
      by (eapply times_emit_occ; [exact HPa | exact Hemits]).
    simpl in HPa'', Eb. assert (Pa' = Pa) as -> by congruence.
    pose proof (occ_same_trans _ _ _ O13 (occ_same_trans _ _ _ Oa Ob))
      as (Q1 & Q2 & Q3 & Q4 & Q5 & _).
    assert (length (Polymer.polymerases_ Pb) = length (Polymer.prop_list_ Pb)) as Hlenb
      by (by rewrite Q1, Q2).
    destruct (Terminate_Ok_inv _ _ _ _ _ _ _ HPb Hlenb Hterminate)
      as (index & prop & Hidx & _ & Hprop & Eh & Ep).
    set (P' := Polymer.set_prop_list_ _ _) in Ep.
    assert (World.polymers w4 !! this = Some P') as HP'.
    { rewrite Ep. apply list_lookup_insert_eq. eapply lookup_lt_Some; eauto. }
    rewrite Q1 in Hidx. rewrite Q2 in Hprop.
    split.
    - apply Consistent_alt. exists P'. split; [done|].
      eapply (deleted_consistent w w4 P P' index pol); try done.
      + intros q Hq. rewrite Eh, Eb, Ea, E3. by apply Hheap.
      + simpl. by rewrite Q1.
      + simpl. by rewrite Q2.
    - exists P, P', (Erased index prop). split_and!; [done | done |].
      simpl. by rewrite Q2, Q3. }
  (* the step stands *)
  destruct Hloop as [Hstep _].
  apply readthrough_step_occ in Hstep as (E4 & P3' & P4 & HP3' & HP4 & O4).
  assert (P3' = P3) as -> by congruence.
  apply bind_Ok in Hrun as (p4 & w0 & Hp4 & Hrun).
  apply get_polymerase_Ok in Hp4 as [Hp4 ->].
  apply bind_Ok in Hrun as (v5 & w5 & Hbehind & Hrun).
  assert (occ_frame this w4 w5) as (E5 & P4' & P5 & HP4' & HP5 & O5).
  { eapply on_polymer_occ; [|exact Hbehind]. intros Q v Q' HQ.
    apply CheckBehind_step in HQ as [ps ->]. by repeat split. }
  assert (P4' = P4) as -> by congruence.
  apply bind_Ok in Hrun as (p5 & w0 & Hp5 & Hrun).
  apply get_polymerase_Ok in Hp5 as [Hp5 ->].
  apply bind_Ok in Hrun as (v6 & w6 & Hahead & Hrun).
  assert (occ_frame this w5 w6) as (E6 & P5' & P6 & HP5' & HP6 & O6).
  { eapply on_polymer_occ; [|exact Hahead]. intros Q v Q' HQ.
    apply CheckAhead_step in HQ as [ps ->]. by repeat split. }
  assert (P5' = P5) as -> by congruence.
  apply bind_Ok in Hrun as (p6 & w0 & Hp6 & Hrun).
  apply get_polymerase_Ok in Hp6 as [Hp6 ->].
  assert (World.polymerases w6 = <[pol := advanced p]> (World.polymerases w)) as Eh6
    by (rewrite E6, E5, E4; exact E3).
  assert (p6 = advanced p) as ->.
  { rewrite Eh6 in Hp6. rewrite list_lookup_insert_eq in Hp6
      by (eapply lookup_lt_Some; eauto). congruence. }
  rewrite (bind_run _ _ _ _ _ (get_polymer_run _ _ _ HP6)) in Hrun.
  apply bind_Ok in Hrun as (v7 & w0 & Hguard & Hrun).
  apply guard_Ok in Hguard as [_ ->].
  apply bind_Ok in Hrun as (weight & w0 & Hweight & Hrun).
  apply deref_Ok in Hweight as [Hweight ->].
  apply bind_Ok in Hrun as (old' & w0 & Hold' & Hrun).
  apply deref_Ok in Hold' as [Hold' ->].
  pose proof (occ_same_trans _ _ _ O13
                (occ_same_trans _ _ _ O4 (occ_same_trans _ _ _ O5 O6)))
    as (Q1 & Q2 & Q3 & Q4 & Q5 & _).
  apply vector_at_Some in Hold' as [_ Hold']. fold i in Hold'.
  rewrite Q2 in Hold'. assert (old' = old) as -> by congruence.
  assert (this < length (World.polymers w6))%nat as Hthis
    by (eapply lookup_lt_Some; eauto).
  erewrite bind_run in Hrun by (eapply on_polymer_run; [exact HP6 | reflexivity]).
  erewrite on_polymer_run in Hrun.
  2:{ simpl. by apply list_lookup_insert_eq. }
  2:{ reflexivity. }
  injection Hrun as <-.
  set (new := num_mul weight (Polymerase.speed (advanced p))) in *.
  set (P' := Polymer.set_prop_list_ _ _).
  assert (World.polymers
            (World.set_polymers
               (<[this := P']> (World.polymers
                  (World.set_polymers
                     (<[this := Polymer.set_prop_sum_
                                  (num_add (Polymer.prop_sum_ P6) (num_sub new old)) P6]>
                        (World.polymers w6)) w6)))
               (World.set_polymers
                  (<[this := Polymer.set_prop_sum_
                               (num_add (Polymer.prop_sum_ P6) (num_sub new old)) P6]>
                     (World.polymers w6)) w6)) !! this = Some P') as HP'.
  { simpl. apply list_lookup_insert_eq. by rewrite length_insert. }
  split.
  - apply Consistent_alt. exists P'. split; [exact HP'|]. simpl.
    rewrite Q1, Q2. split; [done|].
    apply Forall2_same_length_lookup_2; [by rewrite length_insert|].
    intros j q prop Hq Hprop.
    destruct (decide (j = i)) as [->|Hne].
    + rewrite list_lookup_insert_eq in Hprop by (eapply lookup_lt_Some; eauto).
      injection Hprop as <-. assert (q = pol) as -> by congruence.
      exists (advanced p), weight. split_and!; [|exact Hweight|done].
      simpl. rewrite Eh6. apply list_lookup_insert_eq. eapply lookup_lt_Some; eauto.
    + rewrite list_lookup_insert_ne in Hprop by done.
      pose proof (Forall2_lookup_lr _ _ _ _ _ _ Hall Hq Hprop) as Hc.
      eapply cached_ext; [|exact Q4|exact Q5|exact Hc].
      simpl. rewrite Eh6. apply Hheap. intros ->.
      apply Hne. by eapply NoDup_lookup.
  - exists P, P', (Replaced i old new). split_and!; [done | exact HP' |].
    simpl. by rewrite Q2, Q3.
Qed.

End MovePreservation.

(** * Calls that keep the occupancy *)

Section Quiet.
Context `{Platform}.

Lemma quiet_refl this skip w : quiet this skip w w.
Proof.
  intros P HP. exists P. split_and!; [done | apply occ_same_refl |]. eauto.
Qed.

Lemma quiet_trans this skip w1 w2 w3 :
  quiet this skip w1 w2 → quiet this skip w2 w3 → quiet this skip w1 w3.
Proof.
  intros Q12 Q23 P1 HP1.
  destruct (Q12 P1 HP1) as (P2 & HP2 & O12 & K12).
  destruct (Q23 P2 HP2) as (P3 & HP3 & O23 & K23).
  exists P3. split_and!; [done | by eapply occ_same_trans |].
  intros q p Hq Hskip Hp.
  destruct (K12 q p Hq Hskip Hp) as (p2 & Hp2 & S2 & V2).
  destruct (K23 q p2) as (p3 & Hp3 & S3 & V3); [|done|done|].
  - destruct O12 as [-> _]. done.
  - exists p3. split_and!; congruence.
Qed.

Lemma quiet_skip_more this skip w w' : quiet this [] w w' → quiet this skip w w'.
Proof.
  intros Q P HP. destruct (Q P HP) as (P' & HP' & O & K).
  exists P'. split_and!; [done..|]. intros q p Hq _ Hp. apply (K q p Hq); [|done].
  apply not_elem_of_nil.
Qed.

(** A quiet step keeps the bookkeeping consistent, provided the
    polymerases it skips are not on the polymer. *)
Lemma quiet_Consistent this skip w w' :
  quiet this skip w w' →
  (∀ P, World.polymers w !! this = Some P →
        ∀ q, q ∈ skip → q ∉ Polymer.polymerases_ P) →
  Consistent w this → Consistent w' this.
Proof.
  intros Q Hskip (P & HP & Hnd & Hall)%Consistent_alt.
  destruct (Q P HP) as (P' & HP' & (O1 & O2 & O3 & O4 & O5 & O6) & K).
  apply Consistent_alt. exists P'. rewrite O1, O2. split_and!; [done..|].
  eapply Forall2_impl_elem; [exact Hall|].
  intros q prop Hq (p & weight & Hp & Hw & ->).
  destruct (K q p Hq) as (p' & Hp' & S' & V'); [|done|].
  - intros Hin. by apply (Hskip P HP q Hin).
  - exists p', weight. rewrite O4, O5, S', V'. done.
Qed.

(** A quiet step updates nothing. *)
Lemma quiet_Bookkeeping this skip w w' :
  quiet this skip w w' →
  (∀ P, World.polymers w !! this = Some P →
        ∀ q, q ∈ skip → q ∉ Polymer.polymerases_ P) →
  Consistent w this → Bookkeeping this w w'.
Proof.
  intros Q Hskip HC. split; [by eapply quiet_Consistent|].
  destruct HC as (P & HP & _). destruct (Q P HP) as (P' & HP' & O & _).
  exists P, P', Kept. split_and!; [done | done |]. by apply occ_same_updated.
Qed.

(** Quiet steps before and after an update. *)
Lemma quiet_before this skip w0 w1 w2 :
  quiet this skip w0 w1 →
  is_Some (World.polymers w0 !! this) →
  Bookkeeping this w1 w2 → Bookkeeping this w0 w2.
Proof.
  intros Q [P0 HP0] [HC (P1 & P2 & u & HP1 & HP2 & Hu)]. split; [done|].
  destruct (Q P0 HP0) as (P1' & HP1' & O & _).
  assert (P1' = P1) as -> by congruence.
  exists P0, P2, u. split_and!; [done | done |]. by eapply updated_occ_same_l.
Qed.

Lemma quiet_after this skip w0 w1 w2 :
  Bookkeeping this w0 w1 →
  quiet this skip w1 w2 →
  (∀ P, World.polymers w1 !! this = Some P →
        ∀ q, q ∈ skip → q ∉ Polymer.polymerases_ P) →
  Bookkeeping this w0 w2.
Proof.
  intros [HC (P0 & P1 & u & HP0 & HP1 & Hu)] Q Hskip.
  split; [by eapply quiet_Consistent|].
  destruct (Q P1 HP1) as (P2 & HP2 & O & _).
  exists P0, P2, u. split_and!; [done | done |]. by eapply updated_occ_same_r.
Qed.

Lemma quiet_fresh this skip w w' pol :
  quiet this skip w w' →
  is_Some (World.polymers w !! this) →
  (∀ P, World.polymers w !! this = Some P → pol ∉ Polymer.polymerases_ P) →
  (∀ P, World.polymers w' !! this = Some P → pol ∉ Polymer.polymerases_ P).
Proof.
  intros Q [P HP] Hfresh P' HP'.
  destruct (Q P HP) as (P2 & HP2 & (O1 & _) & _).
  assert (P2 = P') as -> by congruence. rewrite O1. by apply Hfresh.
Qed.

Lemma quiet_is_Some this skip w w' :
  quiet this skip w w' →
  is_Some (World.polymers w !! this) → is_Some (World.polymers w' !! this).
Proof. intros Q [P HP]. destruct (Q P HP) as (P' & HP' & _). eauto. Qed.

(** ** Member functions of a polymer that keep its occupancy *)

Lemma local_quiet_ret {A} (a : A) : local_quiet (ret a).
Proof. intros P b P' [= _ <-]. apply occ_same_refl. Qed.

Lemma local_quiet_get : local_quiet get.
Proof. intros P b P' [= _ <-]. apply occ_same_refl. Qed.

Lemma local_quiet_throw {A} e : local_quiet (throw (A := A) e).
Proof. intros P b P'. discriminate. Qed.

Lemma local_quiet_undefined {A} : local_quiet (undefined (A := A)).
Proof. intros P b P'. discriminate. Qed.

Lemma local_quiet_deref {A} (o : option A) : local_quiet (deref o).
Proof. intros P b P' [_ ->]%deref_Ok. apply occ_same_refl. Qed.

Lemma local_quiet_bind {A B} (m : M Polymer.t A) (k : A → M Polymer.t B) :
  local_quiet m → (∀ a, local_quiet (k a)) → local_quiet (bind m k).
Proof.
  intros Hm Hk P b P' (a & P1 & H1 & H2)%bind_Ok.
  eapply occ_same_trans; [by eapply Hm | by eapply Hk].
Qed.

Lemma local_quiet_if {A} (b : bool) (m1 m2 : M Polymer.t A) :
  local_quiet m1 → local_quiet m2 → local_quiet (if b then m1 else m2).
Proof. by destruct b. Qed.

Lemma local_quiet_sumbool {A} {P Q : Prop} (b : {P} + {Q}) (m1 m2 : M Polymer.t A) :
  local_quiet m1 → local_quiet m2 → local_quiet (if b then m1 else m2).
Proof. by destruct b. Qed.

Lemma local_quiet_modify (f : Polymer.t → Polymer.t) :
  (∀ P, occ_same P (f P)) → local_quiet (modify f).
Proof. intros Hf P b P' [= _ <-]. apply Hf. Qed.

Lemma local_quiet_for_each {A} (xs : list A) (body : A → M Polymer.t unit) :
  (∀ x, local_quiet (body x)) → local_quiet (for_each xs body).
Proof.
  intros Hbody. induction xs as [|x xs IH]; simpl.
  - apply local_quiet_ret.
  - apply local_quiet_bind; [apply Hbody | intros _; apply IH].
Qed.

Lemma local_quiet_fold_each {A B} (xs : list A) (acc : B)
    (body : B → A → M Polymer.t B) :
  (∀ acc x, local_quiet (body acc x)) → local_quiet (fold_each xs acc body).
Proof.
  intros Hbody. revert acc. induction xs as [|x xs IH]; intros acc; simpl.
  - apply local_quiet_ret.
  - apply local_quiet_bind; [apply Hbody | intros acc'; apply IH].
Qed.

Lemma local_quiet_get_promoter site : local_quiet (get_promoter site).
Proof.
  intros P a P' Hrun. unfold get_promoter in Hrun.
  apply deref_Ok in Hrun as [_ ->]. apply occ_same_refl.
Qed.

Lemma local_quiet_update_promoter site f : local_quiet (update_promoter site f).
Proof.
  apply local_quiet_bind; [apply local_quiet_get_promoter|].
  intros s. apply local_quiet_modify. intros P. by repeat split.
Qed.

Lemma local_quiet_get_genome : local_quiet get_genome.
Proof.
  intros P g P' Hrun. unfold get_genome in Hrun.
  destruct (Polymer.derived P); try discriminate.
  injection Hrun as _ <-. apply occ_same_refl.
Qed.

Lemma local_quiet_update_genome f : local_quiet (update_genome f).
Proof.
  apply local_quiet_bind; [apply local_quiet_get_genome|].
  intros g. apply local_quiet_modify. intros P. by repeat split.
Qed.

Lemma local_quiet_CoverBindingSite n : local_quiet (Polymer_CoverBindingSite n).
Proof.
  unfold Polymer_CoverBindingSite.
  apply local_quiet_bind.
  { apply local_quiet_modify. intros P. destruct (_ !! _); by repeat split. }
  intros _. apply local_quiet_bind; [apply local_quiet_get|].
  intros P. apply local_quiet_bind.
  { apply local_quiet_if; [apply local_quiet_throw | apply local_quiet_ret]. }
  intros _. apply local_quiet_modify. intros Q. destruct (_ !! _); by repeat split.
Qed.

Lemma local_quiet_UncoverBindingSite n : local_quiet (Polymer_UncoverBindingSite n).
Proof.
  unfold Polymer_UncoverBindingSite.
  apply local_quiet_bind.
  { apply local_quiet_modify. intros P. destruct (_ !! _); by repeat split. }
  intros _. apply local_quiet_modify. intros Q. destruct (_ !! _); by repeat split.
Qed.

Lemma local_quiet_ShiftMask : local_quiet Polymer_ShiftMask.
Proof. intros P u P' Hrun. by apply mask_step_occ, (ShiftMask_step P u). Qed.

Lemma local_quiet_Initialize : local_quiet Polymer_Initialize.
Proof.
  unfold Polymer_Initialize.
  apply local_quiet_bind; [apply local_quiet_modify; intros P; by repeat split|].
  intros _.
  apply local_quiet_bind; [apply local_quiet_modify; intros P; by repeat split|].
  intros _. apply local_quiet_bind; [apply local_quiet_get|]. intros P.
  apply local_quiet_bind.
  { apply local_quiet_for_each. intros interval.
    apply local_quiet_bind; [apply local_quiet_get_promoter|]. intros site.
    apply local_quiet_bind; [apply local_quiet_CoverBindingSite|]. intros _.
    apply local_quiet_bind; apply local_quiet_update_promoter || intros _.
    apply local_quiet_update_promoter. }
  intros _. apply local_quiet_bind; [apply local_quiet_get|]. intros P2.
  apply local_quiet_for_each. intros interval.
  apply local_quiet_bind; [apply local_quiet_get_promoter|]. intros site.
  apply local_quiet_bind; [apply local_quiet_UncoverBindingSite|]. intros _.
  apply local_quiet_bind; apply local_quiet_update_promoter || intros _.
  apply local_quiet_update_promoter.
Qed.

Lemma local_quiet_Genome_Initialize : local_quiet Genome_Initialize.
Proof.
  unfold Genome_Initialize.
  apply local_quiet_bind; [apply local_quiet_Initialize|]. intros _.
  apply local_quiet_bind; apply local_quiet_update_genome || intros _.
  apply local_quiet_update_genome.
Qed.

(** ** Steps of the world that are quiet *)

Lemma quiet_on_polymer {A} this skip t (m : M Polymer.t A) w a w' :
  local_quiet m → on_polymer t m w = Ok a w' → quiet this skip w w'.
Proof.
  intros Hm (T & T' & HT & Hrun & ->)%on_polymer_Ok P HP. simpl.
  destruct (decide (t = this)) as [->|Hne].
  - assert (T = P) as -> by congruence.
    exists T'. split_and!; [|by eapply Hm|eauto].
    apply list_lookup_insert_eq. eapply lookup_lt_Some; eauto.
  - exists P. rewrite list_lookup_insert_ne by done.
    split_and!; [done | apply occ_same_refl | eauto].
Qed.

Lemma quiet_same_objects this skip w w' :
  World.polymers w' = World.polymers w →
  World.polymerases w' = World.polymerases w →
  quiet this skip w w'.
Proof.
  intros Ep Eh P HP. exists P. rewrite Ep, Eh.
  split_and!; [done | apply occ_same_refl | eauto].
Qed.

Lemma quiet_update_polymerase this skip pol f w u w' :
  pol ∈ skip ∨ (∀ p, Polymerase.stop (f p) = Polymerase.stop p
                     ∧ Polymerase.speed (f p) = Polymerase.speed p) →
  update_polymerase pol f w = Ok u w' → quiet this skip w w'.
Proof.
  intros Hok (p0 & Hp0 & ->)%update_polymerase_Ok P HP. simpl.
  exists P. split_and!; [done | apply occ_same_refl |].
  intros q p Hq Hskip Hp. destruct (decide (q = pol)) as [->|Hne].
  - destruct Hok as [Hin|Hf]; [done|].
    assert (p0 = p) as -> by congruence.
    exists (f p). split; [|apply Hf].
    apply list_lookup_insert_eq. eapply lookup_lt_Some; eauto.
  - exists p. by rewrite list_lookup_insert_ne.
Qed.

Lemma quiet_make_shared_polymer this skip T w t w' :
  make_shared_polymer T w = Ok t w' → quiet this skip w w'.
Proof.
  intros [= <- <-] P HP. simpl. exists P.
  split_and!; [by apply lookup_app_l_Some | apply occ_same_refl | eauto].
Qed.

End Quiet.

(** * The entry points keep the bookkeeping *)

Section Calls.
Context `{Platform}.

Ltac local_quiet_solve :=
  repeat first
    [ apply local_quiet_ret | apply local_quiet_get | apply local_quiet_throw
    | apply local_quiet_undefined | apply local_quiet_deref
    | apply local_quiet_get_promoter | apply local_quiet_update_promoter
    | apply local_quiet_get_genome | apply local_quiet_update_genome
    | apply local_quiet_CoverBindingSite | apply local_quiet_UncoverBindingSite
    | apply local_quiet_ShiftMask | apply local_quiet_Initialize
    | apply local_quiet_if | apply local_quiet_sumbool
    | apply local_quiet_fold_each | apply local_quiet_for_each
    | apply local_quiet_modify; intros ?; by repeat split
    | apply local_quiet_bind
    | intros ? ].

Lemma world_quiet_ret {A} this skip (a : A) : world_quiet this skip (ret a).
Proof. intros w b w' [= _ <-]. apply quiet_refl. Qed.

Lemma world_quiet_throw {A} this skip e : world_quiet this skip (throw (A := A) e).
Proof. intros w b w'. discriminate. Qed.

Lemma world_quiet_deref {A} this skip (o : option A) : world_quiet this skip (deref o).
Proof. intros w b w' [_ ->]%deref_Ok. apply quiet_refl. Qed.

Lemma world_quiet_bind {A B} this skip (m : M World.t A) (k : A → M World.t B) :
  world_quiet this skip m → (∀ a, world_quiet this skip (k a)) →
  world_quiet this skip (bind m k).
Proof.
  intros Hm Hk w b w' (a & w1 & H1 & H2)%bind_Ok.
  eapply quiet_trans; [by eapply Hm | by eapply Hk].
Qed.

Lemma world_quiet_if {A} this skip (b : bool) (m1 m2 : M World.t A) :
  world_quiet this skip m1 → world_quiet this skip m2 →
  world_quiet this skip (if b then m1 else m2).
Proof. by destruct b. Qed.

Lemma world_quiet_sumbool {A} {P Q : Prop} this skip (b : {P} + {Q})
    (m1 m2 : M World.t A) :
  world_quiet this skip m1 → world_quiet this skip m2 →
  world_quiet this skip (if b then m1 else m2).
Proof. by destruct b. Qed.

Lemma world_quiet_fold_each {A B} this skip (xs : list A) (acc : B)
    (body : B → A → M World.t B) :
  (∀ acc x, world_quiet this skip (body acc x)) →
  world_quiet this skip (fold_each xs acc body).
Proof.
  intros Hbody. revert acc. induction xs as [|x xs IH]; intros acc; simpl.
  - apply world_quiet_ret.
  - apply world_quiet_bind; [apply Hbody | intros acc'; apply IH].
Qed.

Lemma world_quiet_on_polymer {A} this skip t (m : M Polymer.t A) :
  local_quiet m → world_quiet this skip (on_polymer t m).
Proof. intros Hm w a w' Hrun. by eapply quiet_on_polymer. Qed.

Lemma world_quiet_get_polymer this skip t : world_quiet this skip (get_polymer t).
Proof. intros w a w' [_ ->]%get_polymer_Ok. apply quiet_refl. Qed.

Lemma world_quiet_get_polymerase this skip pol :
  world_quiet this skip (get_polymerase pol).
Proof. intros w a w' [_ ->]%get_polymerase_Ok. apply quiet_refl. Qed.

Lemma world_quiet_update_polymerase this skip pol f :
  pol ∈ skip ∨ (∀ p, Polymerase.stop (f p) = Polymerase.stop p
                     ∧ Polymerase.speed (f p) = Polymerase.speed p) →
  world_quiet this skip (update_polymerase pol f).
Proof. intros Hok w a w' Hrun. by eapply quiet_update_polymerase. Qed.

Lemma world_quiet_log this skip ev : world_quiet this skip (log ev).
Proof. intros w a w' ->%log_Ok. by apply quiet_same_objects. Qed.

Lemma world_quiet_WeightedChoice {A} this skip (items : list A) :
  world_quiet this skip (Random_WeightedChoice items).
Proof.
  intros w a w' [_ ->]%Random_WeightedChoice_Ok. by apply quiet_same_objects.
Qed.

Lemma world_quiet_WeightedChoiceIndex {A} this skip (items : list A) weights :
  world_quiet this skip (Random_WeightedChoiceIndex items weights).
Proof.
  intros w a w' Hrun. unfold Random_WeightedChoiceIndex in Hrun.
  destruct (decide _); [discriminate|]. injection Hrun as _ <-.
  by apply quiet_same_objects.
Qed.

Lemma world_quiet_make_shared_polymer this skip T :
  world_quiet this skip (make_shared_polymer T).
Proof. intros w a w' Hrun. by eapply quiet_make_shared_polymer. Qed.

Ltac world_quiet_solve :=
  repeat first
    [ apply world_quiet_ret | apply world_quiet_throw | apply world_quiet_deref
    | apply world_quiet_get_polymer | apply world_quiet_get_polymerase
    | apply world_quiet_log | apply world_quiet_WeightedChoice
    | apply world_quiet_WeightedChoiceIndex
    | apply world_quiet_make_shared_polymer
    | apply world_quiet_on_polymer; local_quiet_solve
    | apply world_quiet_update_polymerase;
        first [ left; apply list_elem_of_here
              | right; intros ?; split; reflexivity ]
    | apply world_quiet_if | apply world_quiet_sumbool
    | apply world_quiet_fold_each
    | apply world_quiet_bind
    | intros ? ].

Lemma world_quiet_Choose this skip : world_quiet this skip (Polymer_Choose this).
Proof. unfold Polymer_Choose. world_quiet_solve. Qed.

Lemma world_quiet_Polymer_new this skip name start stop :
  world_quiet this skip (Polymer_new name start stop).
Proof. unfold Polymer_new. world_quiet_solve. Qed.

Lemma world_quiet_BuildTranscript this skip t start stop :
  world_quiet this skip (Genome_BuildTranscript t start stop).
Proof.
  unfold Genome_BuildTranscript.
  apply world_quiet_bind; [world_quiet_solve|]. intros G.
  apply world_quiet_bind; [world_quiet_solve|]. intros g.
  apply world_quiet_bind.
  { apply world_quiet_fold_each. intros [objs ivs] x. world_quiet_solve. }
  intros [rbs rbs_intervals].
  apply world_quiet_bind.
  { apply world_quiet_fold_each. intros [objs ivs] x. world_quiet_solve. }
  intros [stop_sites stop_site_intervals].
  apply world_quiet_bind; [|world_quiet_solve].
  apply world_quiet_bind; [apply world_quiet_Polymer_new | world_quiet_solve].
Qed.

(** Splitting the run of a sequence whose head is quiet. *)
Lemma quiet_head {A B} this skip (m : M World.t A) (k : A → M World.t B) w0 w b w' :
  world_quiet this skip m →
  quiet this skip w0 w →
  bind m k w = Ok b w' →
  ∃ a w1, quiet this skip w0 w1 ∧ k a w1 = Ok b w'.
Proof.
  intros Hm Q (a & w1 & H1 & H2)%bind_Ok. exists a, w1. split; [|done].
  eapply quiet_trans; [exact Q | by eapply Hm].
Qed.

Ltac quiet_next :=
  match goal with
  | Q : quiet ?this ?skip ?w0 ?w, Hrun : bind ?m ?k ?w = Ok ?b ?w' |- _ =>
      let Hm := fresh "Hm" in
      assert (world_quiet this skip m) as Hm by (world_quiet_solve; fail);
      let a := fresh "a" in
      let w1 := fresh "w" in
      let Q' := fresh "Q" in
      let Hrun' := fresh "Hrun" in
      destruct (quiet_head this skip m k w0 w b w' Hm Q Hrun) as (a & w1 & Q' & Hrun');
      clear Hm Q Hrun; rename Q' into Q; rename Hrun' into Hrun;
      cbv beta zeta in Hrun
  end.

Lemma no_skip (P : Polymer.t) (q : nat) : q ∈ @nil nat → q ∉ Polymer.polymerases_ P.
Proof. intros Hq. by apply elem_of_nil in Hq. Qed.

Lemma only_skip (P : Polymer.t) (pol q : nat) :
  pol ∉ Polymer.polymerases_ P → q ∈ [pol] → q ∉ Polymer.polymerases_ P.
Proof. intros Hpol ->%list_elem_of_singleton. done. Qed.

Lemma Consistent_is_Some this w :
  Consistent w this → is_Some (World.polymers w !! this).
Proof. intros (P & HP & _). eauto. Qed.

(** [Bind] moves the polymerase and covers the promoter, which does not
    touch the occupants, and then inserts the polymerase. *)
Lemma Bind_Bookkeeping w this pol promoter_name w' :
  Consistent w this →
  (∀ P, World.polymers w !! this = Some P → pol ∉ Polymer.polymerases_ P) →
  Polymer_Bind this pol promoter_name w = Ok tt w' →
  Bookkeeping this w w'.
Proof.
  intros HC Hfresh Hrun. unfold Polymer_Bind in Hrun.
  pose proof (quiet_refl this [pol] w) as Q.
  repeat quiet_next.
  apply bind_Ok in Hrun as ([] & wi & Hins & Hrun).
  assert (Bookkeeping this w wi) as HB2.
  { eapply quiet_before; [exact Q | by apply Consistent_is_Some |].
    eapply Insert_preserves; [| |exact Hins].
    - eapply quiet_Consistent; [exact Q| |done].
      intros P HP q. apply only_skip. by apply Hfresh.
    - eapply quiet_fresh; [exact Q | by apply Consistent_is_Some | done]. }
  eapply quiet_after; [exact HB2| |intros P _ q; apply no_skip].
  apply bind_Ok in Hrun as (site & ws & Hsite & Hrun).
  eapply quiet_trans.
  - eapply world_quiet_on_polymer; [apply local_quiet_get_promoter | exact Hsite].
  - destruct (_ && _).
    + by eapply world_quiet_log.
    + by eapply world_quiet_ret.
Qed.

(** [Transcript::Bind] then sets the reading frame of the polymerase, which
    the propensities do not depend on. *)
Lemma Transcript_Bind_Bookkeeping w this pol promoter_name w' :
  Consistent w this →
  (∀ P, World.polymers w !! this = Some P → pol ∉ Polymer.polymerases_ P) →
  Transcript_Bind this pol promoter_name w = Ok tt w' →
  Bookkeeping this w w'.
Proof.
  intros HC Hfresh Hrun. unfold Transcript_Bind in Hrun.
  apply bind_Ok in Hrun as ([] & wb & Hbind & Hrun).
  pose proof (Bind_Bookkeeping w this pol promoter_name wb HC Hfresh Hbind) as HB'.
  eapply quiet_after; [exact HB'| |intros P _ q; apply no_skip].
  eapply world_quiet_update_polymerase; [|exact Hrun].
  right. intros p. split; reflexivity.
Qed.

(** [Genome::Bind] then builds a transcript, which is a new object, and
    connects it to the move signal of the polymerase. *)
Lemma Genome_Bind_Bookkeeping w this pol promoter_name w' :
  Consistent w this →
  (∀ P, World.polymers w !! this = Some P → pol ∉ Polymer.polymerases_ P) →
  Genome_Bind this pol promoter_name w = Ok tt w' →
  Bookkeeping this w w'.
Proof.
  intros HC Hfresh Hrun. unfold Genome_Bind in Hrun.
  apply bind_Ok in Hrun as ([] & wb & Hbind & Hrun).
  pose proof (Bind_Bookkeeping w this pol promoter_name wb HC Hfresh Hbind) as HB'.
  eapply quiet_after; [exact HB'| |intros P _ q; apply no_skip].
  revert Hrun. generalize wb tt w'.
  change (world_quiet this []
    (let* p := get_polymerase pol in
     let* G := get_polymer this in
     let* transcript :=
       Genome_BuildTranscript this (Polymerase.stop p) (Polymer.stop_ G) in
     update_polymerase pol (fun p =>
       Polymerase.set_move_signal
         (Signal.connect_member (Call_ShiftMask transcript)
            (Polymerase.move_signal_ p)).2 p) ;;
     log (Ev_transcript_signal transcript))).
  apply world_quiet_bind; [apply world_quiet_get_polymerase|]. intros p.
  apply world_quiet_bind; [apply world_quiet_get_polymer|]. intros G.
  apply world_quiet_bind; [apply world_quiet_BuildTranscript|]. intros transcript.
  apply world_quiet_bind; [|intros _; apply world_quiet_log].
  apply world_quiet_update_polymerase. right. intros q. split; reflexivity.
Qed.

(** [Execute] chooses an occupant and moves it. *)
Lemma Execute_Bookkeeping w this w' :
  Consistent w this →
  Polymer_Execute this w = Ok tt w' →
  Bookkeeping this w w'.
Proof.
  intros HC Hrun. unfold Polymer_Execute in Hrun.
  pose proof (quiet_refl this [] w) as Q.
  repeat quiet_next.
  eapply quiet_before; [exact Q | by apply Consistent_is_Some |].
  eapply Move_preserves; [|exact Hrun].
  by eapply quiet_Consistent; [exact Q|intros P _ q; apply no_skip|].
Qed.

End Calls.

Section BookkeepingClaim.
Context `{Platform}.

Lemma call_preserves w this c w' :
  Consistent w this →
  call_fresh w this c →
  run_call this c w = Ok tt w' →
  Bookkeeping this w w'.
Proof.
  intros HC Hfresh Hrun. destruct c; simpl in Hrun, Hfresh.
  - by eapply Insert_preserves.
  - by eapply Move_preserves.
  - by eapply Terminate_preserves.
  - by eapply Bind_Bookkeeping.
  - by eapply Transcript_Bind_Bookkeeping.
  - by eapply Genome_Bind_Bookkeeping.
  - by eapply Execute_Bookkeeping.
  - eapply quiet_Bookkeeping; [| |exact HC].
    + eapply (quiet_on_polymer this []); [apply local_quiet_ShiftMask | exact Hrun].
    + intros P _ q Hq. by apply elem_of_nil in Hq.
  - eapply quiet_Bookkeeping; [| |exact HC].
    + eapply (quiet_on_polymer this []); [apply local_quiet_Initialize | exact Hrun].
    + intros P _ q Hq. by apply elem_of_nil in Hq.
  - eapply quiet_Bookkeeping; [| |exact HC].
    + eapply (quiet_on_polymer this []);
        [apply local_quiet_Genome_Initialize | exact Hrun].
    + intros P _ q Hq. by apply elem_of_nil in Hq.
Qed.

(** C1, as the code has it.  If the bookkeeping of a polymer is consistent
    (distinct occupants, [polymerases_] and [prop_list_] of equal length,
    and [prop_list_[i] = weights_[polymerases_[i].stop - start_ - 1] *
    polymerases_[i].speed] for every occupant), it is consistent again after
    every call of [Insert] (of a polymerase that is not yet an occupant),
    [Move] or [Terminate] that returns normally, and after every such call
    of [Bind], [Transcript::Bind], [Genome::Bind] (of such a polymerase),
    [Execute], [ShiftMask], [Initialize] or [Genome::Initialize]; and so it
    is in every state reached through such calls from a polymer without
    occupants.  [prop_sum_] is not recomputed from [prop_list_]: the call
    leaves both as they are, or inserts one propensity and adds it to
    [prop_sum_], or erases one and subtracts it, or replaces one and adds
    the difference of the new and the old one, all in the arithmetic of the
    platform.  Hence, for the numbers [val] that the values of the platform
    stand for: if [prop_sum_] stood for the sum of the propensities before
    the call and the additions and subtractions of the update are exact,
    it does so after the call. *)
Theorem occupancy_bookkeeping (val : num → option Z) (w : World.t) (this : nat)
    (c : polymer_call) (w' : World.t) :
  Consistent w this →
  call_fresh w this c →
  run_call this c w = Ok tt w' →
  (Consistent w' this ∧
   ∃ P P' u,
     World.polymers w !! this = Some P ∧
     World.polymers w' !! this = Some P' ∧
     updated u P P' ∧
     (exact_update val (Polymer.prop_sum_ P) u = true →
      SumExact val P → SumExact val P'))
  ∧ (∀ w0, reachable this w0 → Consistent w0 this).
Proof.
  intros HC Hfresh Hrun. split.
  - destruct (call_preserves _ _ _ _ HC Hfresh Hrun)
      as [HC' (P & P' & u & HP & HP' & Hu)].
    split; [exact HC'|]. exists P, P', u. split_and!; [done..|].
    by apply exact_update_keeps_sum.
  - clear. intros w0 Hreach.
    induction Hreach as [w P HP E1 E2 E3|w c w' _ IH Hfresh Hrun].
    + exists P. rewrite E1, E2. split_and!; [done | constructor | done |].
      intros i pol Hl. by rewrite lookup_nil in Hl.
    + by destruct (call_preserves _ _ _ _ IH Hfresh Hrun) as [HC' _].
Qed.

End BookkeepingClaim.

(** * The claims on concrete simulations *)

Section Runs.
#[local] Existing Instance ieee.

(** C2.  A promoter at 30..39 on a genome that is masked from 20 on is under
    the mask.  After [Initialize] it is nevertheless uncovered and counted in
    [uncovered_]: the second loop of [Initialize] queries [start_ ..
    mask_stop], which is the whole polymer, where its comment announces the
    unmasked sites, and it uncovers every hit without asking whether it is
    covered.  With a tree that pushes onto [results] the hits of the first
    loop are visited once more and the count is 2, otherwise 1. *)
Theorem Initialize_uncovers_masked_promoter (append : bool) :
  let w := world_of (H := ieee_platform append)
             (masked_genome (H := ieee_platform append) 20 30 39
                (empty_world (H := ieee_platform append) (λ _, 0%float))) in
  let G := polymer_at (H := ieee_platform append) w 0 in
  Mask.start (Polymer.mask_ G) = 20 ∧
  (Promoter.covered <$> Polymer.promoters G) = [false] ∧
  Polymer.uncovered_ G !! "P" = Some (if append then 2 else 1).
Proof. destruct append; vm_compute; done. Qed.


(** Scenario: the polymerase bound at 10..19 terminates; [prop_sum_] goes
    from 1 to 0 and no occupant is left.  A slot of the termination signal
    that throws is run while the polymerase is still an occupant. *)
Lemma Terminate_removes_occupant_witness :
  World.polymers w_bound !! 0%nat = Some (polymer_at w_bound 0) ∧
  World.polymerases w_bound !! 0%nat = Some (polymerase_at w_bound 0) ∧
  0%nat ∈ Polymer.polymerases_ (polymer_at w_bound 0) ∧
  length (Polymer.polymerases_ (polymer_at w_bound 0))
    = length (Polymer.prop_list_ (polymer_at w_bound 0)) ∧
  (∃ w', Polymer_Terminate 0 0 "g" w_bound = Ok tt w' ∧
         World.trace w' = World.trace w_bound ++ [Ev_termination_signal 0 "rnapol" "g"] ∧
         Polymer.polymerases_ (polymer_at w' 0) = []) ∧
  (∃ w1, Polymer_Terminate_with (λ _ _ _, throw NoPropensity) 0 0 "g" w_bound
         = Throw NoPropensity w1 ∧
         Polymer.polymerases_ (polymer_at w1 0) = [0%nat] ∧
         Polymer.prop_sum_ (polymer_at w1 0) = 0%float).
Proof.
  assert (World.polymers w_bound !! 0%nat = Some (polymer_at w_bound 0)) as HP
    by (vm_compute; reflexivity).
  assert (World.polymerases w_bound !! 0%nat = Some (polymerase_at w_bound 0)) as Hp
    by (vm_compute; reflexivity).
  assert (0%nat ∈ Polymer.polymerases_ (polymer_at w_bound 0)) as Hin
    by (vm_compute; left).
  assert (length (Polymer.polymerases_ (polymer_at w_bound 0))
          = length (Polymer.prop_list_ (polymer_at w_bound 0))) as Hlen
    by (vm_compute; reflexivity).
  split; [exact HP|]. split; [exact Hp|]. split; [exact Hin|]. split; [exact Hlen|].
  destruct (Terminate_removes_occupant w_bound 0 0 "g" _ _ HP Hp Hin Hlen)
    as (index & prop & Hidx & Hprop & _ & _ & Hthrow & _ & Hrun & _).
  assert (Polymer.polymerases_ (polymer_at w_bound 0) = [0%nat]) as Ep
    by (vm_compute; reflexivity).
  assert (Polymer.prop_list_ (polymer_at w_bound 0) = [1%float]) as El
    by (vm_compute; reflexivity).
  rewrite Ep in Hidx. rewrite El in Hprop.
  destruct index as [|index]; [|destruct index; discriminate Hidx].
  injection Hprop as <-.
  split.
  - eexists. split; [exact Hrun|]. split; vm_compute; reflexivity.
  - eexists. split; [apply (Hthrow (λ _ _ _, throw NoPropensity)); reflexivity|].
    split; vm_compute; reflexivity.
Defined.



(** Scenario 4 of the specification: polymerases at 10..19 and 20..29; the
    step of the first one is rolled back. *)
Lemma Move_collision_rolls_back_witness :
  let w := w_neighbours in
  let w' := world_of (Polymer_Move 0 0 w) in
  World.polymers w !! 0%nat = Some (polymer_at w 0) ∧
  is_int (0 + 1) ∧
  vector_at (Polymer.polymerases_ (polymer_at w 0)) 0 = Some 0%nat ∧
  vector_at (Polymer.polymerases_ (polymer_at w 0)) (0 + 1) = Some 1%nat ∧
  0%nat ≠ 1%nat ∧
  World.polymerases w !! 0%nat = Some (polymerase_at w 0) ∧
  World.polymerases w !! 1%nat = Some (polymerase_at w 1) ∧
  slots_avoid 0 (Polymerase.move_signal_ (polymerase_at w 0)) ∧
  Polymerase.stop (polymerase_at w 0) + 1 = Polymerase.start (polymerase_at w 1) ∧
  Polymerase.start (polymerase_at w 0) + 1 ≤ Polymerase.stop (polymerase_at w 1) ∧
  Polymer_Move 0 0 w = Ok tt w' ∧
  World.polymerases w' = World.polymerases w ∧
  World.polymers w' !! 0%nat = Some (polymer_at w 0).
Proof.
  cbv zeta.
  assert (World.polymers w_neighbours !! 0%nat = Some (polymer_at w_neighbours 0))
    as H1 by (vm_compute; reflexivity).
  assert (is_int (0 + 1)) as H2 by (unfold is_int; lia).
  assert (vector_at (Polymer.polymerases_ (polymer_at w_neighbours 0)) 0 = Some 0%nat)
    as H3 by (vm_compute; reflexivity).
  assert (vector_at (Polymer.polymerases_ (polymer_at w_neighbours 0)) (0 + 1)
          = Some 1%nat) as H4 by (vm_compute; reflexivity).
  assert (0%nat ≠ 1%nat) as H5 by lia.
  assert (World.polymerases w_neighbours !! 0%nat = Some (polymerase_at w_neighbours 0))
    as H6 by (vm_compute; reflexivity).
  assert (World.polymerases w_neighbours !! 1%nat = Some (polymerase_at w_neighbours 1))
    as H7 by (vm_compute; reflexivity).
  assert (slots_avoid 0 (Polymerase.move_signal_ (polymerase_at w_neighbours 0))) as H8.
  { unfold slots_avoid. vm_compute. constructor; [discriminate | constructor]. }
  assert (Polymerase.stop (polymerase_at w_neighbours 0) + 1
          = Polymerase.start (polymerase_at w_neighbours 1)) as H9
    by (vm_compute; reflexivity).
  assert (Polymerase.start (polymerase_at w_neighbours 0) + 1
          ≤ Polymerase.stop (polymerase_at w_neighbours 1)) as H10
    by (vm_compute; discriminate).
  assert (Polymer_Move 0 0 w_neighbours
          = Ok tt (world_of (Polymer_Move 0 0 w_neighbours))) as H11
    by (vm_compute; reflexivity).
  repeat (split; [assumption|]).
  exact (Move_collision_rolls_back _ _ _ _ _ _ _ _ _ H1 H2 H3 H4 H5 H6 H7 H8 H9 H10 H11).
Defined.

(** Scenario 4 again: the rolled-back step has emitted once, and the mask of
    the transcript of the first polymerase (object 1) has receded from 19 to
    20 although the polymerase is back at 10..19. *)
Lemma Move_rollback_keeps_emission_witness :
  let w := w_neighbours in
  let w1 := w_neighbours_stepped in
  World.polymers w !! 0%nat = Some (polymer_at w 0) ∧
  to_size_t 0 < Z.of_nat (length (Polymer.prop_list_ (polymer_at w 0))) ∧
  vector_at (Polymer.polymerases_ (polymer_at w 0)) 0 = Some 0%nat ∧
  World.polymerases w !! 0%nat = Some (polymerase_at w 0) ∧
  Polymerase_Move 0 w = Ok tt w1 ∧
  Polymer_CheckPolCollisions 0 0 w1 = Ok true w1 ∧
  ∃ w', Polymer_Move 0 0 w = Ok tt w' ∧
        World.trace w' = World.trace w ++ [Ev_move_signal 0] ∧
        World.polymerases w' = World.polymerases w ∧
        ∃ T', World.polymers w' !! 1%nat = Some T' ∧
              Mask.start (Polymer.mask_ T')
              = Mask.start (Polymer.mask_ (polymer_at w 1)) + 1.
Proof.
  cbv zeta.
  assert (World.polymers w_neighbours !! 0%nat = Some (polymer_at w_neighbours 0))
    as H1 by (vm_compute; reflexivity).
  assert (to_size_t 0 < Z.of_nat (length (Polymer.prop_list_ (polymer_at w_neighbours 0))))
    as H2 by (vm_compute; reflexivity).
  assert (vector_at (Polymer.polymerases_ (polymer_at w_neighbours 0)) 0 = Some 0%nat)
    as H3 by (vm_compute; reflexivity).
  assert (World.polymerases w_neighbours !! 0%nat = Some (polymerase_at w_neighbours 0))
    as H4 by (vm_compute; reflexivity).
  assert (Polymerase_Move 0 w_neighbours = Ok tt w_neighbours_stepped)
    as H5 by (vm_compute; reflexivity).
  assert (Polymer_CheckPolCollisions 0 0 w_neighbours_stepped
          = Ok true w_neighbours_stepped) as H6 by (vm_compute; reflexivity).
  repeat (split; [assumption|]).
  destruct (Move_rollback_keeps_emission _ _ _ _ _ _ _ H1 H2 H3 H4 H5 (or_introl H6))
    as (w' & Hrun & Htrace & Hpols & _ & _ & Hslot).
  exists w'. repeat (split; [assumption|]).
  apply (Hslot 1 1%nat (polymer_at w_neighbours 1)).
  - vm_compute. reflexivity.
  - vm_compute. reflexivity.
  - vm_compute. discriminate.
Defined.



(** The same position with a draw that makes the attempt fail: the
    terminator is in readthrough afterwards. *)
Lemma readthrough_set_never_cleared_witness :
  let w := w_at_terminator_high in
  let w' := world_of (Polymer_CheckTermination 0 0 w) in
  World.polymers w !! 0%nat = Some (polymer_at w 0) ∧
  World.polymerases w !! 0%nat = Some (polymerase_at w 0) ∧
  Polymer_CheckTermination 0 0 w = Ok false w' ∧
  ∃ P' site,
    Polymer.terminators (polymer_at w 0) !! 0%nat = Some site ∧
    World.polymers w' !! 0%nat = Some P' ∧
    Polymer.terminators P' !! 0%nat = Some (Terminator.set_readthrough true site).
Proof.
  cbv zeta.
  assert (World.polymers w_at_terminator_high !! 0%nat
          = Some (polymer_at w_at_terminator_high 0)) as H1 by (vm_compute; reflexivity).
  assert (World.polymerases w_at_terminator_high !! 0%nat
          = Some (polymerase_at w_at_terminator_high 0)) as H2
    by (vm_compute; reflexivity).
  assert (Polymer_CheckTermination 0 0 w_at_terminator_high
          = Ok false (world_of (Polymer_CheckTermination 0 0 w_at_terminator_high)))
    as H3 by (vm_compute; reflexivity).
  repeat (split; [assumption|]).
  destruct (readthrough_set_never_cleared _ _ _ _ _ H1 H2) as (_ & Hraised & _).
  destruct (Hraised _ (Interval.mk 21 22 0)
              (Terminator.mk "T" 21 22 {[ "rnapol" := 0%float ]} (-1) "" false false false)
              H3) as (P' & HP' & Hsite').
  - vm_compute. left.
  - vm_compute. reflexivity.
  - vm_compute. reflexivity.
  - exists P', (Terminator.mk "T" 21 22 {[ "rnapol" := 0%float ]} (-1) "" false false false).
    split; [vm_compute; reflexivity|]. split; [exact HP' | exact Hsite'].
Defined.

(** After thirteen steps the polymerase is at 23..32, past the terminator
    at 21..22 whose attempt failed on the way: [CheckBehind] has run with
    [site.stop < new_start], and the terminator is still in readthrough. *)
Lemma readthrough_not_cleared_counterexample :
  times 13 (Polymer_Move 0 0) w_readthrough = Ok tt w_past_terminator ∧
  ∃ site p,
    Polymer.terminators (polymer_at w_past_terminator 0) !! 0%nat = Some site ∧
    World.polymerases w_past_terminator !! 0%nat = Some p ∧
    Terminator.stop site < Polymerase.start p ∧
    Terminator.readthrough site = true.
Proof.
  split; [vm_compute; reflexivity|].
  eexists _, _. split; [vm_compute; reflexivity|].
  split; [vm_compute; reflexivity|].
  split; vm_compute; reflexivity.
Qed.

(** A promoter at 10..19 under a mask that starts at 15: [Bind] throws
    [MaskOverlap], no polymer has changed, and the polymerase has been
    moved. *)
Lemma Bind_error_state_witness :
  let w := w_masked_promoter in
  let w' := world_of (Polymer_Bind 0 0 "P" w) in
  Polymer_Bind 0 0 "P" w = Throw MaskOverlap w' ∧
  (MaskOverlap = NoFreePromoter ∨ MaskOverlap = NoInteraction
   ∨ MaskOverlap = MaskOverlap) ∧
  World.polymers w' = World.polymers w ∧
  World.trace w' = World.trace w.
Proof.
  cbv zeta.
  assert (Polymer_Bind 0 0 "P" w_masked_promoter
          = Throw MaskOverlap (world_of (Polymer_Bind 0 0 "P" w_masked_promoter)))
    as H1 by (vm_compute; reflexivity).
  assert (MaskOverlap = NoFreePromoter ∨ MaskOverlap = NoInteraction
          ∨ MaskOverlap = MaskOverlap) as H2 by (right; right; reflexivity).
  repeat (split; [assumption|]).
  destruct (Bind_error_state _ _ _ _ _ _ H1 H2) as (Hpolymers & Htrace & _).
  split; assumption.
Defined.

(** In that run the polymerase, created at 0..9, is at 10..19 when
    [MaskOverlap] is thrown. *)
Lemma Bind_MaskOverlap_moves_polymerase_counterexample :
  ∃ w',
    Polymer_Bind 0 0 "P" w_masked_promoter = Throw MaskOverlap w' ∧
    Polymerase.start (polymerase_at w_masked_promoter 0) = 0 ∧
    Polymerase.stop (polymerase_at w_masked_promoter 0) = 9 ∧
    Polymerase.start (polymerase_at w' 0) = 10 ∧
    Polymerase.stop (polymerase_at w' 0) = 19.
Proof.
  eexists. split; [vm_compute; reflexivity|].
  repeat split; vm_compute; reflexivity.
Qed.

(** Scenario 6 of the specification: binding the polymerase at the promoter
    spawns the transcript. *)
Lemma Genome_Bind_spawns_transcript_witness :
  Genome_Bind 0 0 "P" w_unbound = Ok tt w_bound ∧
  ∃ w1 p G T,
    World.polymers w_bound = World.polymers w1 ++ [T] ∧
    Polymer.start_ T = Polymer.start_ G ∧
    Polymer.stop_ T = Polymer.stop_ G ∧
    Polymer.mask_ T = Mask.mk "mask" (Polymerase.stop p) (Polymer.stop_ G) ∅ ∧
    World.trace w_bound
      = World.trace w1 ++ [Ev_transcript_signal (length (World.polymers w1))].
Proof.
  assert (Genome_Bind 0 0 "P" w_unbound = Ok tt w_bound) as H1
    by (vm_compute; reflexivity).
  split; [assumption|].
  destruct (Genome_Bind_spawns_transcript _ _ _ _ _ H1)
    as (w1 & p & G & g & T & _ & _ & _ & _ & Hrest).
  cbv zeta in Hrest.
  destruct Hrest as (E1 & _ & E3 & E4 & E5 & _ & _ & _ & _ & _ & _ & _ & _ & E14 & _).
  exists w1, p, G, T. repeat (split; [assumption|]). exact E14.
Defined.

End Runs.

Section IeeeSum.
#[local] Existing Instance ieee.

(** C1 as stated does not hold in the arithmetic of the program.  Occupants
    with propensities 1e16 and 1 are inserted, and the first terminates:
    every call returns normally, the remaining propensity is 1, and
    [prop_sum_] is [(0 + 1e16 + 1) - 1e16 = 0].  The update that rounds is
    the insertion of the second propensity: [1e16 + 1] is not a binary64
    value. *)
Lemma prop_sum_rounding_counterexample :
  reachable 0 w_one_left ∧
  Polymer.prop_list_ (polymer_at w_one_left 0) = [1%float] ∧
  Polymer.prop_sum_ (polymer_at w_one_left 0) = 0%float ∧
  ¬ SumCached w_one_left 0 ∧
  ¬ SumExact double_value (polymer_at w_one_left 0) ∧
  updated (Inserted 1 1%float) (polymer_at w_huge 0) (polymer_at w_huge_and_one 0) ∧
  exact_update double_value (Polymer.prop_sum_ (polymer_at w_huge 0))
    (Inserted 1 1%float) = false.
Proof.
  split_and!.
  - apply (reachable_call 0 w_huge_and_one (Call_Terminate 0 "")); [|exact I|].
    2:{ vm_compute. reflexivity. }
    apply (reachable_call 0 w_huge (Call_Insert 1)).
    2:{ intros P HP. vm_compute in HP. injection HP as <-. vm_compute.
        intros Hin. apply list_elem_of_singleton in Hin. discriminate. }
    2:{ vm_compute. reflexivity. }
    apply (reachable_call 0 w_two_unbound (Call_Insert 0)).
    2:{ intros P HP. vm_compute in HP. injection HP as <-. vm_compute.
        intros Hin. by apply elem_of_nil in Hin. }
    2:{ vm_compute. reflexivity. }
    apply (reachable_new 0 w_two_unbound (polymer_at w_two_unbound 0));
      vm_compute; reflexivity.
  - vm_compute. reflexivity.
  - vm_compute. reflexivity.
  - intros (P & HP & Hsum). vm_compute in HP. injection HP as <-.
    vm_compute in Hsum.
    apply (f_equal (PrimFloat.eqb 0%float)) in Hsum. vm_compute in Hsum.
    discriminate.
  - intros (s & Hsum & Hlist). vm_compute in Hsum. vm_compute in Hlist.
    apply Some_eq_inv in Hsum. subst s. discriminate Hlist.
  - vm_compute. split; reflexivity.
  - vm_compute. reflexivity.
Qed.

(** A step of the polymerase bound in [w_bound], in binary64: the
    bookkeeping is consistent before and after; the propensity 1 is replaced
    by 1, the operations [1 - 1] and [1 + 0] are exact, and [prop_sum_]
    stands for the sum of the propensities before and after. *)
Lemma occupancy_bookkeeping_witness :
  let w := w_bound in
  let w' := world_of (Polymer_Move 0 0 w) in
  Consistent w 0 ∧
  call_fresh w 0 (Call_Move 0) ∧
  run_call 0 (Call_Move 0) w = Ok tt w' ∧
  Consistent w' 0 ∧
  exact_between double_value (polymer_at w 0) (polymer_at w' 0) = true ∧
  SumExact double_value (polymer_at w 0) ∧
  SumExact double_value (polymer_at w' 0).
Proof.
  cbv zeta.
  assert (World.polymers w_bound !! 0%nat = Some (polymer_at w_bound 0)) as E
    by (vm_compute; reflexivity).
  assert (World.polymers (world_of (Polymer_Move 0 0 w_bound)) !! 0%nat
          = Some (polymer_at (world_of (Polymer_Move 0 0 w_bound)) 0)) as E'
    by (vm_compute; reflexivity).
  assert (Consistent w_bound 0) as H1.
  { exists (polymer_at w_bound 0). split; [exact E|].
    assert (Polymer.polymerases_ (polymer_at w_bound 0) = [0%nat]) as ->
      by (vm_compute; reflexivity).
    split; [apply NoDup_singleton|]. split; [vm_compute; reflexivity|].
    intros i pol Hl. destruct i as [|i]; [|destruct i; discriminate].
    injection Hl as <-.
    exists (polymerase_at w_bound 0), 1%float.
    split_and!; vm_compute; reflexivity. }
  assert (call_fresh w_bound 0 (Call_Move 0)) as H2 by exact I.
  assert (run_call 0 (Call_Move 0) w_bound
          = Ok tt (world_of (Polymer_Move 0 0 w_bound))) as H3
    by (vm_compute; reflexivity).
  assert (exact_between double_value (polymer_at w_bound 0)
            (polymer_at (world_of (Polymer_Move 0 0 w_bound)) 0) = true) as H4
    by (vm_compute; reflexivity).
  assert (SumExact double_value (polymer_at w_bound 0)) as H5.
  { exists (2 ^ 1074). split; vm_compute; reflexivity. }
  split; [exact H1|]. split; [exact H2|]. split; [exact H3|].
  destruct (occupancy_bookkeeping (H := ieee) double_value _ _ _ _ H1 H2 H3)
    as [(HC & P & P' & u & HP & HP' & Hu & Hsum) _].
  split; [exact HC|]. split; [exact H4|]. split; [exact H5|].
  rewrite E in HP. apply Some_eq_inv in HP. subst P.
  rewrite E' in HP'. apply Some_eq_inv in HP'. subst P'.
  apply Hsum; [|exact H5].
  exact (updated_exact_between (H := ieee) double_value u _ _ Hu H4).
Defined.

End IeeeSum.

(** * event_signal.hpp: connecting, disconnecting and emitting *)

Section SignalProperties.
Context `{Platform}.

Lemma map_insert_above {S} (k : Z) (v : S) (m : list (Z * S)) :
  Forall (λ it, it.1 < k) m → Signal.map_insert k v m = m ++ [(k, v)].
Proof.
  induction m as [|[k' v'] m IH]; intros Hlt; simpl; [done|].
  apply Forall_cons in Hlt as [Hk Hlt]. simpl in Hk.
  replace (k <? k') with false by (symmetry; apply Z.ltb_ge; lia).
  replace (k =? k') with false by (symmetry; apply Z.eqb_neq; lia).
  by rewrite IH.
Qed.

Lemma signal_wf_below (s : Signal.t Slot) :
  signal_wf s → Forall (λ it, it.1 < Signal.current_id_ s + 1) (Signal.slots_ s).
Proof.
  intros Hwf. eapply Forall_impl; [exact Hwf|]. intros it Hle. simpl in *. lia.
Qed.

Lemma filter_drop_last (k : Z) (v : Slot) (m : list (Z * Slot)) :
  Forall (λ it, it.1 < k) m →
  filter (λ kv, kv.1 ≠ k) (m ++ [(k, v)]) = m.
Proof.
  induction m as [|it m IH]; intros Hlt; simpl.
  - rewrite filter_cons_False; [done|]. simpl. by intros [].
  - apply Forall_cons in Hlt as [Hk Hlt].
    rewrite filter_cons_True by lia. by rewrite IH.
Qed.

Lemma bind_ret_tt {W} (m : M W unit) (w : W) : (m ;; ret tt) w = m w.
Proof. unfold bind, ret. destruct (m w) as [[] w'| |]; reflexivity. Qed.

(** X1. [connect] on a signal whose keys were all handed out by [connect]
    returns [current_id_ + 1], a key larger than every key in use; the new
    slot becomes the last entry of [slots_], the signal is again of that
    kind, and an [emit] calls the new slot after all slots connected
    before. *)
Theorem connect_is_called_last (slot : Slot) (s : Signal.t Slot) :
  signal_wf s →
  let id := (Signal.connect slot s).1 in
  let s' := (Signal.connect slot s).2 in
  id = Signal.current_id_ s + 1 ∧
  Forall (λ it, it.1 < id) (Signal.slots_ s) ∧
  Signal.slots_ s' = Signal.slots_ s ++ [(id, slot)] ∧
  signal_wf s' ∧
  ∀ w, Signal.emit call_slot s' w
       = (Signal.emit call_slot s ;; call_slot slot) w.
Proof.
  intros Hwf. cbv zeta. pose proof (signal_wf_below s Hwf) as Hlt.
  unfold Signal.connect. simpl.
  rewrite (map_insert_above _ _ _ Hlt).
  split_and!; [done | done | done | |].
  - unfold signal_wf. simpl. apply Forall_app. split.
    + eapply Forall_impl; [exact Hlt|]. intros it Hit. simpl in *. lia.
    + apply Forall_singleton. simpl. lia.
  - intros w. unfold Signal.emit. simpl. rewrite for_each_app. simpl.
    unfold bind at 1 3. destruct (for_each _ _ w) as [u w1| |]; try reflexivity.
    apply bind_ret_tt.
Qed.

(** X2. Disconnecting the key that [connect] just returned restores the
    slots of the signal, but not its counter: the key is not handed out
    again by the next [connect]. *)
Theorem connect_disconnect_round_trip (slot other : Slot) (s : Signal.t Slot) :
  signal_wf s →
  let id := (Signal.connect slot s).1 in
  let s' := Signal.disconnect id (Signal.connect slot s).2 in
  Signal.slots_ s' = Signal.slots_ s ∧
  Signal.current_id_ s' = Signal.current_id_ s + 1 ∧
  signal_wf s' ∧
  (Signal.connect other s').1 = id + 1.
Proof.
  intros Hwf. cbv zeta. pose proof (signal_wf_below s Hwf) as Hlt.
  unfold Signal.connect, Signal.disconnect. simpl.
  rewrite (map_insert_above _ _ _ Hlt), (filter_drop_last _ _ _ Hlt).
  split_and!; [done | done | | done].
  unfold signal_wf. simpl. eapply Forall_impl; [exact Hwf|]. intros it Hit.
  simpl in *. lia.
Qed.

(** X3. An emission of the [move_signal_] of a polymerase never throws:
    its slots call [ShiftMask], which has no [throw] on any of its paths. *)
Theorem emit_move_signal_never_throws (pol : nat) (w : World.t) (e : exn)
    (w' : World.t) :
  emit_move_signal pol w ≠ Throw e w'.
Proof.
  unfold emit_move_signal. rewrite bind_Throw.
  intros [Hlog | (u & w1 & _ & Hrun)]; [discriminate|].
  apply bind_Throw in Hrun as [Hp | (p & w2 & _ & Hrun)];
    [by apply get_polymerase_not_Throw in Hp|].
  revert Hrun. unfold Signal.emit. apply for_each_not_Throw.
  intros [k [t]] w3 e3 w4 Hslot. simpl in Hslot.
  apply on_polymer_Throw in Hslot as (T & T' & _ & Hshift & _).
  by apply ShiftMask_not_Throw in Hshift.
Qed.

End SignalProperties.

(** * The cache of uncovered sites *)

Section UncoveredCache.
Context `{Platform}.

(** X4. [CoverBindingSite] decrements before it checks.  For a species the
    cache has not seen it stores 0 and returns; for a count of at least 1 it
    stores the count less one and returns; for a count of 0 or less it
    throws, and the state at the [throw] holds the decremented, negative
    count while [species_log_] is as before. *)
Theorem CoverBindingSite_outcomes (species_name : string) (P : Polymer.t) :
  match Polymer.uncovered_ P !! species_name with
  | None =>
      ∃ P', Polymer_CoverBindingSite species_name P = Ok tt P' ∧
            Polymer.uncovered_ P' !! species_name = Some 0
  | Some c =>
      if 1 <=? c then
        ∃ P', Polymer_CoverBindingSite species_name P = Ok tt P' ∧
              Polymer.uncovered_ P' !! species_name = Some (c - 1)
      else
        ∃ P', Polymer_CoverBindingSite species_name P = Throw NegativeUncovered P' ∧
              Polymer.uncovered_ P' !! species_name = Some (c - 1) ∧
              c - 1 < 0 ∧
              Polymer.species_log_ P' = Polymer.species_log_ P
  end.
Proof.
  unfold Polymer_CoverBindingSite, bind, modify, get.
  destruct (Polymer.uncovered_ P !! species_name) as [c|] eqn:E; simpl.
  - rewrite lookup_insert_eq. simpl.
    destruct (1 <=? c) eqn:Ec.
    + apply Z.leb_le in Ec.
      replace (c - 1 <? 0) with false by (symmetry; apply Z.ltb_ge; lia).
      simpl. eexists. split; [reflexivity|].
      destruct (Polymer.species_log_ P !! species_name); simpl;
        by rewrite lookup_insert_eq.
    + apply Z.leb_gt in Ec.
      replace (c - 1 <? 0) with true by (symmetry; apply Z.ltb_lt; lia).
      simpl. eexists. split; [reflexivity|]. simpl.
      rewrite lookup_insert_eq. split_and!; [done | lia | done].
  - rewrite lookup_insert_eq. simpl. eexists. split; [reflexivity|].
    destruct (Polymer.species_log_ P !! species_name); simpl;
      by rewrite lookup_insert_eq.
Qed.

Lemma UncoverBindingSite_run (species_name : string) (P : Polymer.t) :
  Polymer_UncoverBindingSite species_name P
  = Ok tt (Polymer.set_species_log_
             (<[species_name := default 0 (Polymer.species_log_ P !! species_name) + 1]>
                (Polymer.species_log_ P))
             (Polymer.set_uncovered_
                (<[species_name := default 0 (Polymer.uncovered_ P !! species_name) + 1]>
                   (Polymer.uncovered_ P)) P)).
Proof.
  unfold Polymer_UncoverBindingSite, bind, modify.
  destruct (Polymer.uncovered_ P !! species_name) as [c|];
    destruct (Polymer.species_log_ P !! species_name) as [l|] eqn:El;
    simpl; rewrite El; reflexivity.
Qed.

Lemma CoverBindingSite_run (species_name : string) (P : Polymer.t) (c : Z) :
  Polymer.uncovered_ P !! species_name = Some c →
  1 ≤ c →
  Polymer_CoverBindingSite species_name P
  = Ok tt (Polymer.set_species_log_
             (<[species_name := default 0 (Polymer.species_log_ P !! species_name) - 1]>
                (Polymer.species_log_ P))
             (Polymer.set_uncovered_
                (<[species_name := c - 1]> (Polymer.uncovered_ P)) P)).
Proof.
  intros Ec Hc. unfold Polymer_CoverBindingSite, bind, modify, get. rewrite Ec.
  simpl. rewrite lookup_insert_eq. simpl.
  replace (c - 1 <? 0) with false by (symmetry; apply Z.ltb_ge; lia).
  simpl. destruct (Polymer.species_log_ P !! species_name); reflexivity.
Qed.

(** X5. [UncoverBindingSite] followed by [CoverBindingSite] for the same
    species returns normally when the count was not negative, and leaves
    the count and the log entry of that species at their old values (an
    absent entry counting as 0), every other entry of the two maps as it
    was, and the rest of the polymer untouched. *)
Theorem Uncover_then_Cover_round_trip (species_name : string) (P : Polymer.t) :
  0 ≤ default 0 (Polymer.uncovered_ P !! species_name) →
  ∃ P',
    (Polymer_UncoverBindingSite species_name ;;
     Polymer_CoverBindingSite species_name) P = Ok tt P' ∧
    default 0 (Polymer.uncovered_ P' !! species_name)
      = default 0 (Polymer.uncovered_ P !! species_name) ∧
    default 0 (Polymer.species_log_ P' !! species_name)
      = default 0 (Polymer.species_log_ P !! species_name) ∧
    (∀ other, other ≠ species_name →
       Polymer.uncovered_ P' !! other = Polymer.uncovered_ P !! other ∧
       Polymer.species_log_ P' !! other = Polymer.species_log_ P !! other) ∧
    P' = Polymer.set_species_log_ (Polymer.species_log_ P')
           (Polymer.set_uncovered_ (Polymer.uncovered_ P') P).
Proof.
  intros Hnonneg. unfold bind at 1. rewrite UncoverBindingSite_run.
  set (c := default 0 (Polymer.uncovered_ P !! species_name)) in *.
  set (l := default 0 (Polymer.species_log_ P !! species_name)).
  erewrite (CoverBindingSite_run _ _ (c + 1));
    [|simpl; apply lookup_insert_eq|lia].
  eexists. split; [reflexivity|]. simpl. rewrite !lookup_insert_eq. simpl.
  split_and!; [lia | lia | | by rewrite !insert_insert_eq].
  intros other Hother. by rewrite !lookup_insert_ne by done.
Qed.

End UncoveredCache.

(** * Covering and uncovering promoters *)

Section Covering.
Context `{Platform}.

Lemma set_promoters_twice (ps ps' : list Promoter.t) (P : Polymer.t) :
  Polymer.set_promoters ps' (Polymer.set_promoters ps P) = Polymer.set_promoters ps' P.
Proof. reflexivity. Qed.

(** A range-for that applies [f] to the promoters among its hits that meet
    [cond], where [f] neither changes [cond] nor acts twice. *)
Lemma conditional_update_loop (f : Promoter.t → Promoter.t)
    (cond : Promoter.t → bool) (hits : list Interval.t) :
  (∀ s, cond (f s) = cond s) → (∀ s, f (f s) = f s) →
  ∀ P, Forall (λ iv, is_Some (Polymer.promoters P !! Interval.value iv)) hits →
  ∃ ps,
    for_each hits (λ interval,
      let* site := get_promoter (Interval.value interval) in
      if cond site then update_promoter (Interval.value interval) f else ret tt) P
    = Ok tt (Polymer.set_promoters ps P) ∧
    length ps = length (Polymer.promoters P) ∧
    ∀ i s, Polymer.promoters P !! i = Some s →
           ps !! i = Some (if registered hits i && cond s then f s else s).
Proof.
  intros Hcond Hidem. induction hits as [|iv hits IH]; intros P Hvalid.
  - exists (Polymer.promoters P). simpl. split_and!; [|done|done].
    unfold ret. f_equal. by destruct P.
  - apply Forall_cons in Hvalid as [[s0 Hs0] Hvalid]. simpl.
    unfold bind at 1. unfold bind at 1. unfold get_promoter at 1. rewrite Hs0. simpl.
    destruct (cond s0) eqn:Ec.
    + unfold update_promoter, bind, get_promoter, modify. rewrite Hs0. simpl.
      set (P1 := Polymer.set_promoters _ P).
      destruct (IH P1) as (ps & Hrun & Hlen & Hps).
      { simpl. eapply Forall_impl; [exact Hvalid|]. intros iv' [s' Hs'].
        apply lookup_lt_is_Some. rewrite length_insert.
        eapply lookup_lt_Some; eauto. }
      exists ps. split_and!.
      * exact Hrun.
      * rewrite Hlen. simpl. apply length_insert.
      * intros i s Hs. unfold registered. simpl.
        destruct (decide (Interval.value iv = i)) as [E|Hne].
        -- rewrite bool_decide_eq_true_2 by done. simpl.
           assert (s = s0) as -> by (rewrite E in Hs0; congruence). rewrite Ec.
           rewrite (Hps i (f s0)).
           2:{ simpl. rewrite E. apply list_lookup_insert_eq.
               eapply lookup_lt_Some; eauto. }
           rewrite Hcond, Ec, Hidem. by destruct (registered hits i).
        -- rewrite bool_decide_eq_false_2 by done. simpl.
           apply Hps. simpl. by rewrite list_lookup_insert_ne.
    + unfold ret at 1.
      destruct (IH P Hvalid) as (ps & Hrun & Hlen & Hps).
      exists ps. split_and!; [done | done |].
      intros i s Hs. unfold registered. simpl.
      destruct (decide (Interval.value iv = i)) as [E|Hne].
      * rewrite bool_decide_eq_true_2 by done. simpl.
        assert (s = s0) as -> by (rewrite E in Hs0; congruence). rewrite Ec.
        rewrite (Hps i s0 Hs), Ec. by rewrite andb_false_r.
      * rewrite bool_decide_eq_false_2 by done. simpl. by apply Hps.
Qed.

Lemma registered_filter (tree : IntervalTree.t) (keep : Interval.t → bool) (i : nat) :
  registered (filter (λ iv, keep iv = true) tree) i
  = existsb (λ iv, bool_decide (Interval.value iv = i) && keep iv) tree.
Proof.
  unfold registered. induction tree as [|iv tree IH]; [done|].
  unfold IntervalTree.t in *. rewrite filter_cons. cbn [existsb]. rewrite <- IH.
  destruct (decide (keep iv = true)) as [E|E].
  - cbn [existsb]. by rewrite E, andb_true_r.
  - apply not_true_is_false in E. by rewrite E, andb_false_r.
Qed.

Lemma sites_aligned_valid (P : Polymer.t) :
  sites_aligned P →
  Forall (λ iv, is_Some (Polymer.promoters P !! Interval.value iv))
         (Polymer.binding_sites_ P).
Proof.
  intros Hal. eapply Forall_impl; [exact Hal|]. intros iv (s & Hs & _). eauto.
Qed.

Lemma valid_filter (P : Polymer.t) (keep : Interval.t → bool) :
  Forall (λ iv, is_Some (Polymer.promoters P !! Interval.value iv))
         (Polymer.binding_sites_ P) →
  Forall (λ iv, is_Some (Polymer.promoters P !! Interval.value iv))
         (filter (λ iv, keep iv = true) (Polymer.binding_sites_ P)).
Proof.
  intros Hv. apply Forall_forall. intros iv [_ Hin]%list_elem_of_filter.
  rewrite Forall_forall in Hv. by apply Hv.
Qed.

(** [CheckBehind] in terms of the hits of its query. *)
Lemma CheckBehind_hits (old_start new_start : Z) (P : Polymer.t) :
  Forall (λ iv, is_Some (Polymer.promoters P !! Interval.value iv))
         (Polymer.binding_sites_ P) →
  ∃ ps,
    Polymer_CheckBehind old_start new_start P = Ok tt (Polymer.set_promoters ps P) ∧
    length ps = length (Polymer.promoters P) ∧
    ∀ i s, Polymer.promoters P !! i = Some s →
      ps !! i = Some (if registered
                           (filter (λ iv, IntervalTree.overlaps old_start new_start iv = true)
                                   (Polymer.binding_sites_ P)) i
                         && (Promoter.stop s <? new_start)
                      then Promoter.Uncover s else s).
Proof.
  intros Hv. unfold Polymer_CheckBehind, bind at 1, get.
  rewrite findOverlapping_nil.
  apply (conditional_update_loop Promoter.Uncover
           (λ s, Promoter.stop s <? new_start)); [done | done |].
  by apply valid_filter.
Qed.

(** [ShiftMask] in terms of the hits of its query. *)
Lemma ShiftMask_hits (P : Polymer.t) :
  Forall (λ iv, is_Some (Polymer.promoters P !! Interval.value iv))
         (Polymer.binding_sites_ P) →
  let old_start := Mask.start (Polymer.mask_ P) in
  if old_start <=? Mask.stop (Polymer.mask_ P) then
    ∃ ps,
      Polymer_ShiftMask P
      = Ok tt (Polymer.set_promoters ps
                 (Polymer.set_mask_ (Mask.Recede (Polymer.mask_ P)) P)) ∧
      length ps = length (Polymer.promoters P) ∧
      ∀ i s, Polymer.promoters P !! i = Some s →
        ps !! i = Some (if registered
                             (filter (λ iv, IntervalTree.overlaps old_start
                                              (old_start + 1) iv = true)
                                     (Polymer.binding_sites_ P)) i
                           && (Promoter.stop s <? old_start + 1)
                        then Promoter.Uncover s else s)
  else Polymer_ShiftMask P = Ok tt P.
Proof.
  intros Hv. cbv zeta. unfold Polymer_ShiftMask.
  rewrite (bind_run get _ P P P eq_refl).
  destruct (Mask.start (Polymer.mask_ P) <=? Mask.stop (Polymer.mask_ P)); [|done].
  set (P1 := Polymer.set_mask_ (Mask.Recede (Polymer.mask_ P)) P).
  rewrite (bind_run
             (modify (λ Q, Polymer.set_mask_ (Mask.Recede (Polymer.mask_ Q)) Q))
             _ P tt P1 eq_refl).
  rewrite (bind_run get _ P1 P1 P1 eq_refl).
  apply (CheckBehind_hits _ _ P1 Hv).
Qed.

Lemma registered_aligned (P : Polymer.t) (i : nat) (s : Promoter.t) :
  sites_aligned P →
  Polymer.promoters P !! i = Some s →
  registered (Polymer.binding_sites_ P) i = true →
  Promoter.start s ≤ Promoter.stop s.
Proof.
  intros Hal Hs Hreg. unfold registered in Hreg.
  apply existsb_exists in Hreg as (iv & Hin & Hiv).
  apply bool_decide_eq_true in Hiv as <-.
  unfold sites_aligned in Hal. rewrite Forall_forall in Hal.
  destruct (Hal iv) as (s' & Hs' & _ & _ & Hle); [by apply list_elem_of_In|].
  congruence.
Qed.

(** Under aligned sites a query of the tree hits the promoter [i] exactly
    when [i] is registered and its own bounds overlap the query. *)
Lemma touched_aligned (P : Polymer.t) (i : nat) (s : Promoter.t)
    (q_start q_stop : Z) :
  sites_aligned P →
  Polymer.promoters P !! i = Some s →
  registered (filter (λ iv, IntervalTree.overlaps q_start q_stop iv = true)
                     (Polymer.binding_sites_ P)) i
  = registered (Polymer.binding_sites_ P) i
    && ((Promoter.start s <=? q_stop) && (q_start <=? Promoter.stop s)).
Proof.
  intros Hal Hs. rewrite registered_filter. unfold registered, sites_aligned in *.
  induction (Polymer.binding_sites_ P) as [|iv tree IH]; simpl; [done|].
  apply Forall_cons in Hal as [(s' & Hs' & Ha & Hb & _) Hal].
  rewrite (IH Hal). destruct (decide (Interval.value iv = i)) as [E|E].
  - rewrite bool_decide_eq_true_2 by done. rewrite E in Hs'.
    assert (s' = s) as -> by congruence.
    unfold IntervalTree.overlaps. rewrite <- Ha, <- Hb. simpl.
    clear IH.
    destruct (Promoter.start s <=? q_stop), (q_start <=? Promoter.stop s); simpl;
      rewrite ?andb_false_r; reflexivity.
  - by rewrite bool_decide_eq_false_2 by done.
Qed.

(** X6. [CheckBehind(old_start, new_start)] on a polymer whose binding
    intervals carry the bounds of their promoters returns normally and
    uncovers exactly the promoters of the binding tree whose last position
    lies in [old_start, new_start); every other promoter, and everything
    else in the polymer, is as before. *)
Theorem CheckBehind_effect (old_start new_start : Z) (P : Polymer.t) :
  sites_aligned P →
  ∃ ps,
    Polymer_CheckBehind old_start new_start P = Ok tt (Polymer.set_promoters ps P) ∧
    length ps = length (Polymer.promoters P) ∧
    ∀ i s, Polymer.promoters P !! i = Some s →
      ps !! i = Some (if registered (Polymer.binding_sites_ P) i
                         && ((old_start <=? Promoter.stop s)
                             && (Promoter.stop s <? new_start))
                      then Promoter.Uncover s else s).
Proof.
  intros Hal.
  destruct (CheckBehind_hits old_start new_start P (sites_aligned_valid P Hal))
    as (ps & Hrun & Hlen & Hps).
  exists ps. split_and!; [exact Hrun | exact Hlen |].
  intros i s Hs. rewrite (Hps i s Hs), (touched_aligned P i s _ _ Hal Hs).
  destruct (registered (Polymer.binding_sites_ P) i) eqn:Hreg; [|done].
  pose proof (registered_aligned P i s Hal Hs Hreg) as Hle. simpl.
  destruct (Promoter.stop s <? new_start) eqn:E1; [|by rewrite !andb_false_r].
  apply Z.ltb_lt in E1.
  replace (Promoter.start s <=? new_start) with true
    by (symmetry; apply Z.leb_le; lia).
  by rewrite !andb_true_r.
Qed.

(** X7. [CheckAhead(old_stop, new_stop)] on a polymer whose binding
    intervals carry the bounds of their promoters returns normally and
    covers exactly the promoters of the binding tree that start before
    [new_stop] and end at [old_stop] or later: a promoter that starts at
    [new_stop] itself is left as it is. *)
Theorem CheckAhead_effect (old_stop new_stop : Z) (P : Polymer.t) :
  sites_aligned P →
  ∃ ps,
    Polymer_CheckAhead old_stop new_stop P = Ok tt (Polymer.set_promoters ps P) ∧
    length ps = length (Polymer.promoters P) ∧
    ∀ i s, Polymer.promoters P !! i = Some s →
      ps !! i = Some (if registered (Polymer.binding_sites_ P) i
                         && ((Promoter.start s <? new_stop)
                             && (old_stop <=? Promoter.stop s))
                      then Promoter.Cover s else s).
Proof.
  intros Hal. unfold Polymer_CheckAhead, bind at 1, get.
  rewrite findOverlapping_nil.
  destruct (conditional_update_loop Promoter.Cover
              (λ s, Promoter.start s <? new_stop)
              (filter (λ iv, IntervalTree.overlaps old_stop new_stop iv = true)
                      (Polymer.binding_sites_ P)))
    with (P := P) as (ps & Hrun & Hlen & Hps); [done | done | |].
  { by apply valid_filter, sites_aligned_valid. }
  exists ps. split_and!; [exact Hrun | exact Hlen |].
  intros i s Hs. rewrite (Hps i s Hs), (touched_aligned P i s _ _ Hal Hs).
  destruct (registered (Polymer.binding_sites_ P) i) eqn:Hreg; [|done]. simpl.
  destruct (Promoter.start s <? new_stop) eqn:E1; [|by rewrite !andb_false_r].
  apply Z.ltb_lt in E1.
  replace (Promoter.start s <=? new_stop) with true
    by (symmetry; apply Z.leb_le; lia).
  simpl. by rewrite andb_true_r.
Qed.


(** X8. [ShiftMask] on a polymer whose binding intervals carry the bounds
    of their promoters.  While the mask is not exhausted ([start <= stop])
    the start of the mask goes up by one and exactly the promoters of the
    binding tree that end on the position given up are uncovered; on an
    exhausted mask nothing changes. *)
Theorem ShiftMask_effect (P : Polymer.t) :
  sites_aligned P →
  let old_start := Mask.start (Polymer.mask_ P) in
  if old_start <=? Mask.stop (Polymer.mask_ P) then
    ∃ ps,
      Polymer_ShiftMask P
      = Ok tt (Polymer.set_promoters ps
                 (Polymer.set_mask_ (Mask.Recede (Polymer.mask_ P)) P)) ∧
      Mask.start (Mask.Recede (Polymer.mask_ P)) = old_start + 1 ∧
      length ps = length (Polymer.promoters P) ∧
      ∀ i s, Polymer.promoters P !! i = Some s →
        ps !! i = Some (if registered (Polymer.binding_sites_ P) i
                           && (Promoter.stop s =? old_start)
                        then Promoter.Uncover s else s)
  else Polymer_ShiftMask P = Ok tt P.
Proof.
  intros Hal. pose proof (ShiftMask_hits P (sites_aligned_valid P Hal)) as Hhits.
  cbv zeta in *.
  destruct (Mask.start (Polymer.mask_ P) <=? Mask.stop (Polymer.mask_ P)); [|done].
  destruct Hhits as (ps & Hrun & Hlen & Hps).
  exists ps. split_and!; [exact Hrun | done | exact Hlen |].
  intros i s Hs. rewrite (Hps i s Hs), (touched_aligned P i s _ _ Hal Hs).
  destruct (registered (Polymer.binding_sites_ P) i) eqn:Hreg; [|done].
  pose proof (registered_aligned P i s Hal Hs Hreg) as Hle. simpl.
  replace ((Promoter.start s <=? Mask.start (Polymer.mask_ P) + 1)
           && (Mask.start (Polymer.mask_ P) <=? Promoter.stop s)
           && (Promoter.stop s <? Mask.start (Polymer.mask_ P) + 1))
    with (Promoter.stop s =? Mask.start (Polymer.mask_ P)); [done|].
  destruct (Promoter.stop s =? _) eqn:E1, (_ <=? Promoter.stop s) eqn:E2,
           (Promoter.stop s <? _) eqn:E3, (Promoter.start s <=? _) eqn:E4;
    try reflexivity; exfalso;
    rewrite ?Z.eqb_eq, ?Z.eqb_neq, ?Z.leb_le, ?Z.leb_gt, ?Z.ltb_lt, ?Z.ltb_ge in *;
    lia.
Qed.


End Covering.
(** * Move: the mask *)

Section MaskResolution.
Context `{Platform}.

(** C6. The mask check for a polymerase that has reached a mask that is
    still on the polymer.  An overlap by more than one position is the fatal
    [InvalidOverlap].  Otherwise, if the mask admits the polymerase,
    [ShiftMask] is called: the check returns [false] in the state in which
    the mask of the polymer has receded by one position (if it was not
    exhausted) and no polymerase has changed, and [Move] goes on in that
    state with the termination check and the update of the propensity,
    without moving the polymerase back.  Otherwise a collision is reported,
    upon which [Move] moves the polymerase back and returns.  A polymerase
    whose stop is not past the start of the mask never meets the fatal
    branch. *)
Theorem CheckMaskCollisions_resolution (w : World.t) (this pol : nat)
    (P : Polymer.t) (p : Polymerase.t) :
  World.polymers w !! this = Some P →
  World.polymerases w !! pol = Some p →
  Mask.start (Polymer.mask_ P) ≤ Polymer.stop_ P →
  Mask.start (Polymer.mask_ P) ≤ Polymerase.stop p →
  (0 < Polymerase.stop p - Mask.start (Polymer.mask_ P) →
     Polymer_CheckMaskCollisions this pol w = Throw InvalidOverlap w)
  ∧ (Polymerase.stop p - Mask.start (Polymer.mask_ P) ≤ 0 →
     Mask.CheckInteraction (Polymerase.name p) (Polymer.mask_ P) = true →
     Forall (λ iv, is_Some (Polymer.promoters P !! Interval.value iv))
            (Polymer.binding_sites_ P) →
     ∃ P2,
       Polymer_ShiftMask P = Ok tt P2 ∧
       Mask.start (Polymer.mask_ P2)
         = (if Mask.start (Polymer.mask_ P) <=? Mask.stop (Polymer.mask_ P)
            then Mask.start (Polymer.mask_ P) + 1
            else Mask.start (Polymer.mask_ P)) ∧
       let w2 := World.set_polymers (<[this := P2]> (World.polymers w)) w in
       Polymer_CheckMaskCollisions this pol w = Ok false w2 ∧
       World.polymerases w2 = World.polymerases w ∧
       ∀ w0 pol_index P0 p0,
         World.polymers w0 !! this = Some P0 →
         to_size_t pol_index < Z.of_nat (length (Polymer.prop_list_ P0)) →
         vector_at (Polymer.polymerases_ P0) pol_index = Some pol →
         World.polymerases w0 !! pol = Some p0 →
         Polymerase_Move pol w0 = Ok tt w →
         Polymer_CheckPolCollisions this pol_index w = Ok false w →
         Polymer_Move this pol_index w0 =
           (let* terminating := Polymer_CheckTermination this pol in
            if terminating then ret tt
            else
              let* p' := get_polymerase pol in
              on_polymer this
                (Polymer_CheckBehind (Polymerase.start p0) (Polymerase.start p')) ;;
              let* p' := get_polymerase pol in
              on_polymer this
                (Polymer_CheckAhead (Polymerase.stop p0) (Polymerase.stop p')) ;;
              let* p' := get_polymerase pol in
              let* P' := get_polymer this in
              (if Z.of_nat (length (Polymer.weights_ P'))
                    <=? to_size_t (Polymerase.stop p' - Polymer.start_ P' - 1)
               then throw MissingWeight else ret tt) ;;
              let* weight :=
                deref (vector_at (Polymer.weights_ P')
                         (Polymerase.stop p' - Polymer.start_ P' - 1)) in
              let new_speed := num_mul weight (Polymerase.speed p') in
              let* old_speed := deref (vector_at (Polymer.prop_list_ P') pol_index) in
              let diff := num_sub new_speed old_speed in
              on_polymer this (modify (fun P =>
                Polymer.set_prop_sum_ (num_add (Polymer.prop_sum_ P) diff) P)) ;;
              on_polymer this (modify (fun P =>
                Polymer.set_prop_list_
                  (<[Z.to_nat pol_index := new_speed]> (Polymer.prop_list_ P)) P))) w2)
  ∧ (Polymerase.stop p - Mask.start (Polymer.mask_ P) ≤ 0 →
     Mask.CheckInteraction (Polymerase.name p) (Polymer.mask_ P) = false →
     Polymer_CheckMaskCollisions this pol w = Ok true w ∧
     ∀ w0 pol_index P0 p0,
       World.polymers w0 !! this = Some P0 →
       to_size_t pol_index < Z.of_nat (length (Polymer.prop_list_ P0)) →
       vector_at (Polymer.polymerases_ P0) pol_index = Some pol →
       World.polymerases w0 !! pol = Some p0 →
       Polymerase_Move pol w0 = Ok tt w →
       Polymer_CheckPolCollisions this pol_index w = Ok false w →
       Polymer_Move this pol_index w0 = Polymerase_MoveBack pol w)
  ∧ (Polymerase.stop p - Mask.start (Polymer.mask_ P) ≤ 0 →
     ∀ e w', Polymer_CheckMaskCollisions this pol w ≠ Throw e w').
Proof.
  intros HP Hp Hmask Hreach.
  pose proof (CheckMaskCollisions_run _ _ _ _ _ HP Hp) as Hrun.
  replace (Mask.start (Polymer.mask_ P) <=? Polymer.stop_ P) with true in Hrun
    by (symmetry; apply Z.leb_le; lia).
  replace (Mask.start (Polymer.mask_ P) <=? Polymerase.stop p) with true in Hrun
    by (symmetry; apply Z.leb_le; lia).
  simpl in Hrun. split_and!.
  - intros Hover. rewrite Hrun.
    replace (0 <? _) with true by (symmetry; apply Z.ltb_lt; lia). done.
  - intros Hone Hadmit Hvalid.
    pose proof (ShiftMask_hits P Hvalid) as Hhits. cbv zeta in Hhits.
    assert (∃ P2, Polymer_ShiftMask P = Ok tt P2 ∧
              Mask.start (Polymer.mask_ P2)
              = (if Mask.start (Polymer.mask_ P) <=? Mask.stop (Polymer.mask_ P)
                 then Mask.start (Polymer.mask_ P) + 1
                 else Mask.start (Polymer.mask_ P))) as (P2 & Hshift & Hstart).
    { destruct (Mask.start (Polymer.mask_ P) <=? Mask.stop (Polymer.mask_ P)).
      - destruct Hhits as (ps & Hshift & _). eexists. split; [exact Hshift|]. done.
      - exists P. done. }
    exists P2. split; [exact Hshift|]. split; [exact Hstart|]. cbv zeta.
    assert (Polymer_CheckMaskCollisions this pol w
            = Ok false (World.set_polymers (<[this := P2]> (World.polymers w)) w))
      as Hc.
    { rewrite Hrun, Hadmit.
      replace (0 <? _) with false by (symmetry; apply Z.ltb_ge; lia).
      erewrite bind_run by (eapply on_polymer_run; [exact HP | exact Hshift]).
      reflexivity. }
    split; [exact Hc|]. split; [reflexivity|].
    intros w0 pol_index P0 p0 HP0 Hidx Hpol Hp0 Hmove Hcheck.
    rewrite (Move_run _ _ _ _ _ _ HP0 Hidx Hpol Hp0).
    rewrite (bind_run _ _ _ _ _ Hmove).
    rewrite (bind_run _ _ _ _ _ Hcheck).
    rewrite (bind_run _ _ _ _ _ Hc). reflexivity.
  - intros Hone Hreject.
    assert (Polymer_CheckMaskCollisions this pol w = Ok true w) as Hc.
    { rewrite Hrun, Hreject.
      replace (0 <? _) with false by (symmetry; apply Z.ltb_ge; lia). done. }
    split; [exact Hc|].
    intros w0 pol_index P0 p0 HP0 Hidx Hpol Hp0 Hmove Hcheck.
    rewrite (Move_run _ _ _ _ _ _ HP0 Hidx Hpol Hp0).
    rewrite (bind_run _ _ _ _ _ Hmove).
    rewrite (bind_run _ _ _ _ _ Hcheck).
    rewrite (bind_run _ _ _ _ _ Hc). reflexivity.
  - intros Hone e w2. rewrite Hrun.
    replace (0 <? _) with false by (symmetry; apply Z.ltb_ge; lia).
    destruct (Mask.CheckInteraction _ _); [|discriminate].
    rewrite bind_Throw. intros [Hs | (u & w3 & _ & Hr)]; [|discriminate].
    apply on_polymer_Throw in Hs as (Q & Q' & _ & Hs & _).
    by apply ShiftMask_not_Throw in Hs.
Qed.

End MaskResolution.

(** * Insert and Terminate: order and edge cases *)

Section InsertTerminate.
Context `{Platform}.

Lemma pairwise_app {A} (R : A → A → Prop) (l1 l2 : list A) :
  pairwise R (l1 ++ l2) ↔
  pairwise R l1 ∧ pairwise R l2 ∧ Forall (λ x, Forall (R x) l2) l1.
Proof.
  induction l1 as [|x l1 IH]; simpl.
  - split; [intros ?; split_and!; done | tauto].
  - rewrite Forall_app, IH, Forall_cons. tauto.
Qed.

Lemma pairwise_delete {A} (R : A → A → Prop) (l : list A) (i : nat) :
  pairwise R l → pairwise R (delete i l).
Proof.
  revert i. induction l as [|x l IH]; intros i Hp; [done|].
  destruct Hp as [Hx Hp]. destruct i; simpl; [done|]. split; [|by apply IH].
  by apply Forall_delete.
Qed.

(** The elements before the insertion point do not exceed [x]; on an
    ordered range the elements from there on do. *)
Lemma upper_bound_before (x : Z) (starts : list Z) :
  Forall (λ s, s ≤ x) (take (upper_bound x starts) starts).
Proof.
  induction starts as [|s starts IH]; simpl; [done|].
  destruct (x <? s) eqn:E; simpl; [done|].
  apply Z.ltb_ge in E. by constructor.
Qed.

Lemma upper_bound_after (x : Z) (starts : list Z) :
  pairwise Z.le starts →
  Forall (λ s, x < s) (drop (upper_bound x starts) starts).
Proof.
  induction starts as [|s starts IH]; simpl; [done|]. intros [Hs Hp].
  destruct (x <? s) eqn:E; simpl; [|by apply IH].
  apply Z.ltb_lt in E. constructor; [done|].
  eapply Forall_impl; [exact Hs|]. intros y Hy. simpl in Hy. lia.
Qed.

Lemma pairwise_fmap {A B} (f : A → B) (R : B → B → Prop) (l : list A) :
  pairwise R (f <$> l) ↔ pairwise (λ a b, R (f a) (f b)) l.
Proof.
  induction l as [|x l IH]; simpl; [done|]. by rewrite Forall_fmap, IH.
Qed.

(** The starts that [Insert] reads for its comparison. *)
Lemma occupant_starts w (l : list nat) starts w' :
  map_each l (λ q, let* o := get_polymerase q in ret (Polymerase.start o)) w
  = Ok starts w' →
  w' = w ∧
  ∀ ps, Forall2 (λ q p, World.polymerases w !! q = Some p) l ps →
        starts = Polymerase.start <$> ps.
Proof.
  revert starts w'. induction l as [|q l IH]; intros starts w' Hrun; simpl in Hrun.
  - unfold ret in Hrun. injection Hrun as <- <-. split; [done|].
    intros ps Hps. by apply Forall2_nil_inv_l in Hps as ->.
  - apply bind_Ok in Hrun as (s & w1 & Hs & Hrun).
    apply bind_Ok in Hs as (o & w2 & Ho & Hs).
    apply get_polymerase_Ok in Ho as [Ho ->].
    unfold ret in Hs. injection Hs as <- <-.
    apply bind_Ok in Hrun as (ss & w3 & Hss & Hrun).
    apply IH in Hss as [-> Hss].
    unfold ret in Hrun. injection Hrun as <- <-. split; [done|].
    intros ps Hps. apply Forall2_cons_inv_l in Hps as (p & ps' & Hp & Hps & ->).
    simpl. rewrite (Hss ps' Hps). f_equal. congruence.
Qed.

(** What [Insert] does when it returns, with the position it chose. *)
Lemma Insert_Ok_position w this pol u w' P ps :
  World.polymers w !! this = Some P →
  occupants_are w P ps →
  Polymer_Insert this pol w = Ok u w' →
  ∃ p P',
    let it := upper_bound (Polymerase.start p) (Polymerase.start <$> ps) in
    World.polymerases w !! pol = Some p ∧
    World.polymerases w' = World.polymerases w ∧
    World.polymers w' !! this = Some P' ∧
    Polymer.polymerases_ P' = vector_insert it pol (Polymer.polymerases_ P).
Proof.
  intros HP Hps Hrun. unfold Polymer_Insert in Hrun.
  apply bind_Ok in Hrun as (P0 & w0 & HP0 & Hrun).
  apply get_polymer_Ok in HP0 as [HP0 ->]. assert (P0 = P) as -> by congruence.
  apply bind_Ok in Hrun as (p & w0 & Hp & Hrun).
  apply get_polymerase_Ok in Hp as [Hp ->].
  apply bind_Ok in Hrun as (starts & w0 & Hstarts & Hrun).
  apply occupant_starts in Hstarts as [-> Hstarts].
  rewrite (Hstarts ps Hps) in Hrun. clear Hstarts.
  set (it := upper_bound (Polymerase.start p) (Polymerase.start <$> ps)) in *.
  assert (this < length (World.polymers w))%nat as Hthis
    by (eapply lookup_lt_Some; eauto).
  erewrite bind_run in Hrun by (eapply on_polymer_run; [exact HP | reflexivity]).
  apply bind_Ok in Hrun as (weight & w0 & Hweight & Hrun).
  apply deref_Ok in Hweight as [Hweight ->].
  erewrite bind_run in Hrun.
  2:{ eapply on_polymer_run; [|reflexivity]. simpl. by apply list_lookup_insert_eq. }
  apply bind_Ok in Hrun as (v & w0 & Hguard & Hrun).
  destruct (decide (it ≤ length (Polymer.prop_list_ P))%nat) as [Hle|]; [|discriminate].
  unfold ret in Hguard. injection Hguard as _ <-.
  erewrite bind_run in Hrun.
  2:{ eapply on_polymer_run; [|reflexivity]. simpl.
      apply list_lookup_insert_eq. by rewrite length_insert. }
  apply bind_Ok in Hrun as (P' & w0 & HP' & Hrun).
  apply get_polymer_Ok in HP' as [HP' ->].
  destruct (decide _); [discriminate|].
  unfold ret in Hrun. injection Hrun as _ <-.
  exists p, P'. cbv zeta. fold it. split_and!; [done | done | exact HP' |].
  simpl in HP'. rewrite !list_insert_insert_eq in HP'.
  rewrite list_lookup_insert_eq in HP' by done. by injection HP' as <-.
Qed.

(** X10. [Insert] keeps the occupants in the order of their start
    positions.  On a polymer whose occupants are in that order the new
    polymerase is placed behind every occupant that starts at its own start
    or before and in front of every occupant that starts later; no
    polymerase is moved. *)
Theorem Insert_keeps_order (w : World.t) (this pol : nat) (w' : World.t) :
  Ordered w this →
  Polymer_Insert this pol w = Ok tt w' →
  Ordered w' this ∧
  ∃ P P' p ps it,
    World.polymers w !! this = Some P ∧
    World.polymers w' !! this = Some P' ∧
    World.polymerases w !! pol = Some p ∧
    World.polymerases w' = World.polymerases w ∧
    occupants_are w P ps ∧
    Polymer.polymerases_ P'
      = take it (Polymer.polymerases_ P) ++ pol :: drop it (Polymer.polymerases_ P) ∧
    Forall (λ a, Polymerase.start a ≤ Polymerase.start p) (take it ps) ∧
    Forall (λ b, Polymerase.start p < Polymerase.start b) (drop it ps).
Proof.
  intros (P & ps & HP & Hps & Hord) Hrun.
  destruct (Insert_Ok_position _ _ _ _ _ _ _ HP Hps Hrun) as (p & P' & Hp & Eh & HP' & El).
  cbv zeta in El.
  set (it := upper_bound (Polymerase.start p) (Polymerase.start <$> ps)) in *.
  assert (Forall (λ a, Polymerase.start a ≤ Polymerase.start p) (take it ps)) as Hbefore.
  { pose proof (upper_bound_before (Polymerase.start p) (Polymerase.start <$> ps)) as Hb.
    fold it in Hb. rewrite <- fmap_take, Forall_fmap in Hb. exact Hb. }
  assert (Forall (λ b, Polymerase.start p < Polymerase.start b) (drop it ps)) as Hafter.
  { pose proof (upper_bound_after (Polymerase.start p) (Polymerase.start <$> ps)) as Ha.
    fold it in Ha. rewrite <- fmap_drop, Forall_fmap in Ha. apply Ha.
    by apply pairwise_fmap. }
  split.
  - exists P', (take it ps ++ p :: drop it ps). split_and!; [exact HP' | |].
    + unfold occupants_are. rewrite El, Eh. unfold vector_insert.
      apply Forall2_app; [by apply Forall2_take|].
      constructor; [done | by apply Forall2_drop].
    + rewrite <- (take_drop it ps) in Hord.
      apply pairwise_app in Hord as (H1 & H2 & H12).
      apply pairwise_app. split_and!; [done | |].
      * simpl. split; [|done]. eapply Forall_impl; [exact Hafter|].
        intros b Hb. simpl in Hb. lia.
      * apply Forall_forall. intros a Ha. constructor.
        -- rewrite Forall_forall in Hbefore. by apply Hbefore.
        -- rewrite Forall_forall in H12. by apply H12.
  - exists P, P', p, ps, it. split_and!; done.
Qed.



(** X12. [Terminate] for a polymerase that is not an occupant reads
    [prop_list_] one past its end: the behaviour is undefined. *)
Theorem Terminate_non_occupant_undefined (w : World.t) (this pol : nat)
    (last_gene : string) (P : Polymer.t) :
  World.polymers w !! this = Some P →
  length (Polymer.prop_list_ P) = length (Polymer.polymerases_ P) →
  pol ∉ Polymer.polymerases_ P →
  Polymer_Terminate this pol last_gene w = Undefined.
Proof.
  intros HP Hlen Hnot. unfold Polymer_Terminate, Polymer_Terminate_with.
  rewrite (bind_run _ _ _ _ _ (get_polymer_run _ _ _ HP)).
  rewrite (find_index_notin _ _ Hnot), <- Hlen.
  rewrite (lookup_ge_None_2 (Polymer.prop_list_ P)) by lia.
  reflexivity.
Qed.

(** X13. [Move] with an index that is negative, or not below the length
    of [prop_list_], throws "Prop list vector index is invalid" and leaves
    the world as it was: a negative [int] is compared as a [size_t]. *)
Theorem Move_invalid_index (w : World.t) (this : nat) (pol_index : Z)
    (P : Polymer.t) :
  World.polymers w !! this = Some P →
  is_int pol_index →
  Z.of_nat (length (Polymer.prop_list_ P)) < 2 ^ 63 →
  pol_index < 0 ∨ Z.of_nat (length (Polymer.prop_list_ P)) ≤ pol_index →
  Polymer_Move this pol_index w = Throw InvalidIndex w.
Proof.
  intros HP Hint Hsize Hbad. unfold Polymer_Move.
  rewrite (bind_run _ _ _ _ _ (get_polymer_run _ _ _ HP)).
  replace (Z.of_nat (length (Polymer.prop_list_ P)) <=? to_size_t pol_index)
    with true; [reflexivity|].
  symmetry. apply Z.leb_le. unfold to_size_t, is_int in *.
  destruct Hbad as [Hneg|Hbig].
  - rewrite <- (Z.mod_add _ 1) by lia. rewrite Z.mod_small by lia. lia.
  - rewrite Z.mod_small by lia. lia.
Qed.

End InsertTerminate.

(** * Move: one step of one polymerase *)

Section MoveShape.
Context `{Platform}.

(** The ways in which [Move] returns: the step was taken back, the
    polymerase left the polymer at a terminator, or the step stands and the
    check against the next occupant found no overlap. *)
Lemma Move_Ok_shape w this pol_index w' P :
  World.polymers w !! this = Some P →
  length (Polymer.polymerases_ P) = length (Polymer.prop_list_ P) →
  is_int (pol_index + 1) →
  Polymer_Move this pol_index w = Ok tt w' →
  ∃ pol p P',
    vector_at (Polymer.polymerases_ P) pol_index = Some pol ∧
    World.polymerases w !! pol = Some p ∧
    World.polymers w' !! this = Some P' ∧
    ((World.polymerases w' = World.polymerases w ∧
      Polymer.polymerases_ P' = Polymer.polymerases_ P)
     ∨ (World.polymerases w' = <[pol := advanced p]> (World.polymerases w) ∧
        Polymer.polymerases_ P'
        = delete (find_index pol (Polymer.polymerases_ P)) (Polymer.polymerases_ P))
     ∨ (World.polymerases w' = <[pol := advanced p]> (World.polymerases w) ∧
        Polymer.polymerases_ P' = Polymer.polymerases_ P ∧
        ∀ next b,
          vector_at (Polymer.polymerases_ P) (pol_index + 1) = Some next →
          <[pol := advanced p]> (World.polymerases w) !! next = Some b →
          ¬ (Polymerase.start b ≤ Polymerase.stop (advanced p) ∧
             Polymerase.start (advanced p) ≤ Polymerase.stop b))).
Proof.
  intros HP Hlen Hint Hrun. unfold Polymer_Move in Hrun.
  rewrite (bind_run _ _ _ _ _ (get_polymer_run _ _ _ HP)) in Hrun.
  apply bind_Ok in Hrun as (v0 & w0 & Hguard & Hrun).
  apply guard_Ok in Hguard as [_ ->].
  apply bind_Ok in Hrun as (pol & w0 & Hpol & Hrun).
  apply deref_Ok in Hpol as [Hpol ->].
  apply bind_Ok in Hrun as (p & w0 & Hp & Hrun).
  apply get_polymerase_Ok in Hp as [Hp ->].
  apply bind_Ok in Hrun as (v1 & w1 & Hmove & Hrun).
  destruct (Polymerase_Move_effect _ _ _ _ _ Hp Hmove) as (E1 & _ & Hemit).
  assert (occ_frame this
            (World.set_trace (World.trace w ++ [Ev_move_signal pol])
               (World.set_polymerases (<[pol := advanced p]> (World.polymerases w)) w))
            w1) as F1.
  { eapply slots_step_occ; [exact HP|]. by eapply Signal_emit_step. }
  destruct F1 as (_ & P0 & P1 & HP0 & HP1 & O1). simpl in HP0.
  assert (P0 = P) as -> by congruence.
  exists pol, p.
  apply bind_Ok in Hrun as (b1 & w2 & Hcheck & Hrun).
  pose proof (CheckPolCollisions_Ok _ _ _ _ _ Hcheck) as ->.
  destruct b1.
  { destruct (MoveBack_Ok_inv _ _ _ _ _ _ Hp E1 Hrun) as [Eh Ep].
    exists P1. split_and!; [done | done | by rewrite Ep |].
    left. split; [done|]. by destruct O1 as [-> _]. }
  assert (∀ next b,
            vector_at (Polymer.polymerases_ P) (pol_index + 1) = Some next →
            <[pol := advanced p]> (World.polymerases w) !! next = Some b →
            ¬ (Polymerase.start b ≤ Polymerase.stop (advanced p) ∧
               Polymerase.start (advanced p) ≤ Polymerase.stop b)) as Hfree.
  { intros next b Hnext Hb [Hc1 Hc2].
    assert (World.polymerases w1 !! pol = Some (advanced p)) as Hp1.
    { rewrite E1. apply list_lookup_insert_eq. eapply lookup_lt_Some; eauto. }
    destruct O1 as [O1 _].
    rewrite (CheckPolCollisions_run this pol_index w1 P1 pol next (advanced p) b)
      in Hcheck; [|done|done|by rewrite O1|by rewrite O1|done|by rewrite E1].
    replace (Polymerase.start b <=? Polymerase.stop (advanced p)) with true in Hcheck
      by (symmetry; apply Z.leb_le; lia).
    replace (Polymerase.start (advanced p) <=? Polymerase.stop b) with true in Hcheck
      by (symmetry; apply Z.leb_le; lia).
    simpl in Hcheck. destruct (_ <? _); discriminate. }
  apply bind_Ok in Hrun as (b2 & w3 & Hmask & Hrun).
  destruct (CheckMaskCollisions_occ _ _ _ _ _ Hmask)
    as (E3 & P1' & P3 & HP1' & HP3 & O3).
  assert (P1' = P1) as -> by congruence.
  pose proof (occ_same_trans _ _ _ O1 O3) as O13.
  rewrite E1 in E3.
  destruct b2.
  { destruct (MoveBack_Ok_inv _ _ _ _ _ _ Hp E3 Hrun) as [Eh Ep].
    exists P3. split_and!; [done | done | by rewrite Ep |].
    left. split; [done|]. by destruct O13 as [-> _]. }
  assert (World.polymerases w3 !! pol = Some (advanced p)) as Hp3.
  { rewrite E3. apply list_lookup_insert_eq. eapply lookup_lt_Some; eauto. }
  apply bind_Ok in Hrun as (b3 & w4 & Hterm & Hrun).
  unfold Polymer_CheckTermination in Hterm.
  rewrite (bind_run _ _ _ _ _ (get_polymer_run _ _ _ HP3)) in Hterm.
  rewrite (bind_run _ _ _ _ _ (get_polymerase_run _ _ _ Hp3)) in Hterm.
  pose proof (CheckTermination_loop_Ok _ _ _ _ _ _ _ _ HP3 Hp3 Hterm) as Hloop.
  destruct b3.
  { unfold ret in Hrun. injection Hrun as <-.
    destruct Hloop as (wa & Pa & interval & sa & n & wb & sb & Hstep & HPa & _
                       & _ & _ & _ & Hemits & _ & Hterminate).
    apply readthrough_step_occ in Hstep as (Ea & P3' & Pa' & HP3' & HPa' & Oa).
    assert (P3' = P3) as -> by congruence. assert (Pa' = Pa) as -> by congruence.
    assert (occ_frame this (World.set_random_pos (S (World.random_pos wa)) wa) wb)
      as (Eb & Pa' & Pb & HPa'' & HPb & Ob)
      by (eapply times_emit_occ; [exact HPa | exact Hemits]).
    simpl in HPa'', Eb. assert (Pa' = Pa) as -> by congruence.
    pose proof (occ_same_trans _ _ _ O13 (occ_same_trans _ _ _ Oa Ob))
      as (Q1 & Q2 & _).
    assert (length (Polymer.polymerases_ Pb) = length (Polymer.prop_list_ Pb)) as Hlenb
      by (by rewrite Q1, Q2).
    destruct (Terminate_Ok_inv _ _ _ _ _ _ _ HPb Hlenb Hterminate)
      as (index & prop & _ & Hidx & _ & Eh & Ep).
    eexists. split_and!; [done | done | |].
    - rewrite Ep. apply list_lookup_insert_eq. eapply lookup_lt_Some; eauto.
    - right. left. split; [by rewrite Eh, Eb, Ea|].
      simpl. by rewrite Hidx, Q1. }
  destruct Hloop as [Hstep _].
  apply readthrough_step_occ in Hstep as (E4 & P3' & P4 & HP3' & HP4 & O4).
  assert (P3' = P3) as -> by congruence.
  apply bind_Ok in Hrun as (p4 & w0 & Hp4 & Hrun).
  apply get_polymerase_Ok in Hp4 as [Hp4 ->].
  apply bind_Ok in Hrun as (v5 & w5 & Hbehind & Hrun).
  assert (occ_frame this w4 w5) as (E5 & P4' & P5 & HP4' & HP5 & O5).
  { eapply on_polymer_occ; [|exact Hbehind]. intros Q v Q' HQ.
    apply CheckBehind_step in HQ as [ps ->]. by repeat split. }
  assert (P4' = P4) as -> by congruence.
  apply bind_Ok in Hrun as (p5 & w0 & Hp5 & Hrun).
  apply get_polymerase_Ok in Hp5 as [Hp5 ->].
  apply bind_Ok in Hrun as (v6 & w6 & Hahead & Hrun).
  assert (occ_frame this w5 w6) as (E6 & P5' & P6 & HP5' & HP6 & O6).
  { eapply on_polymer_occ; [|exact Hahead]. intros Q v Q' HQ.
    apply CheckAhead_step in HQ as [ps ->]. by repeat split. }
  assert (P5' = P5) as -> by congruence.
  apply bind_Ok in Hrun as (p6 & w0 & Hp6 & Hrun).
  apply get_polymerase_Ok in Hp6 as [Hp6 ->].
  assert (World.polymerases w6 = <[pol := advanced p]> (World.polymerases w)) as Eh6
    by (rewrite E6, E5, E4; exact E3).
  rewrite (bind_run _ _ _ _ _ (get_polymer_run _ _ _ HP6)) in Hrun.
  apply bind_Ok in Hrun as (v7 & w0 & Hguard & Hrun).
  apply guard_Ok in Hguard as [_ ->].
  apply bind_Ok in Hrun as (weight & w0 & Hweight & Hrun).
  apply deref_Ok in Hweight as [Hweight ->].
  apply bind_Ok in Hrun as (old' & w0 & Hold' & Hrun).
  apply deref_Ok in Hold' as [Hold' ->].
  pose proof (occ_same_trans _ _ _ O13
                (occ_same_trans _ _ _ O4 (occ_same_trans _ _ _ O5 O6)))
    as (Q1 & _).
  assert (this < length (World.polymers w6))%nat as Hthis
    by (eapply lookup_lt_Some; eauto).
  erewrite bind_run in Hrun by (eapply on_polymer_run; [exact HP6 | reflexivity]).
  erewrite on_polymer_run in Hrun.
  2:{ simpl. by apply list_lookup_insert_eq. }
  2:{ reflexivity. }
  injection Hrun as <-.
  eexists. split_and!; [done | done | |].
  - simpl. apply list_lookup_insert_eq. by rewrite length_insert.
  - right. right. simpl. split_and!; [exact Eh6 | exact Q1 | exact Hfree].
Qed.

(** X14. A [Move] that returns normally changes the position of no
    polymerase other than the chosen occupant, and that one it leaves where
    it was (the step was taken back), or one position further on the
    polymer, or one position further and off the polymer (it terminated);
    the other occupants stay in place and in order. *)
Theorem Move_moves_one_polymerase (w : World.t) (this : nat) (pol_index : Z)
    (w' : World.t) (P : Polymer.t) :
  World.polymers w !! this = Some P →
  length (Polymer.polymerases_ P) = length (Polymer.prop_list_ P) →
  is_int (pol_index + 1) →
  Polymer_Move this pol_index w = Ok tt w' →
  ∃ pol p P',
    vector_at (Polymer.polymerases_ P) pol_index = Some pol ∧
    World.polymerases w !! pol = Some p ∧
    World.polymers w' !! this = Some P' ∧
    length (World.polymerases w') = length (World.polymerases w) ∧
    (∀ q, q ≠ pol → World.polymerases w' !! q = World.polymerases w !! q) ∧
    ((World.polymerases w' !! pol = Some p ∧
      Polymer.polymerases_ P' = Polymer.polymerases_ P)
     ∨ (World.polymerases w' !! pol = Some (advanced p) ∧
        Polymer.polymerases_ P' = Polymer.polymerases_ P)
     ∨ (World.polymerases w' !! pol = Some (advanced p) ∧
        Polymer.polymerases_ P'
        = delete (find_index pol (Polymer.polymerases_ P)) (Polymer.polymerases_ P))).
Proof.
  intros HP Hlen Hint Hrun.
  destruct (Move_Ok_shape _ _ _ _ _ HP Hlen Hint Hrun)
    as (pol & p & P' & Hpol & Hp & HP' & Hcases).
  exists pol, p, P'. split_and!; [done | done | done | | |].
  - destruct Hcases as [[-> _] | [[-> _] | [-> _]]];
      [done | apply length_insert | apply length_insert].
  - intros q Hq. destruct Hcases as [[-> _] | [[-> _] | [-> _]]];
      [done | by apply list_lookup_insert_ne | by apply list_lookup_insert_ne].
  - pose proof (lookup_lt_Some _ _ _ Hp) as Hlt.
    destruct Hcases as [[-> El] | [[-> El] | (-> & El & _)]].
    + left. done.
    + right. right. split; [by apply list_lookup_insert_eq | done].
    + right. left. split; [by apply list_lookup_insert_eq | done].
Qed.

Lemma pairwise_lookup {A} (R : A → A → Prop) (l : list A) :
  pairwise R l ↔
  ∀ i j a b, (i < j)%nat → l !! i = Some a → l !! j = Some b → R a b.
Proof.
  induction l as [|x l IH]; simpl.
  - split; [|done]. intros _ i j a b _ Hi. by rewrite lookup_nil in Hi.
  - rewrite IH. split.
    + intros [Hx Hl] i j a b Hij Hi Hj. destruct j as [|j]; [lia|]. simpl in Hj.
      destruct i as [|i]; simpl in Hi.
      * injection Hi as <-. by eapply Forall_lookup_1.
      * eapply (Hl i j); [lia | done | done].
    + intros Hall. split.
      * apply Forall_lookup. intros j b Hj. by apply (Hall O (S j) x b); [lia|..].
      * intros i j a b Hij Hi Hj. apply (Hall (S i) (S j)); [lia | done | done].
Qed.

(** Occupants that lie one after the other are distinct objects. *)
Lemma separated_NoDup (heap : list Polymerase.t) (l : list nat)
    (ps : list Polymerase.t) :
  Forall2 (λ q p, heap !! q = Some p) l ps →
  Forall (λ p, Polymerase.start p ≤ Polymerase.stop p) ps →
  pairwise (λ a b, Polymerase.stop a < Polymerase.start b) ps →
  NoDup l.
Proof.
  intros Hocc. induction Hocc as [|q p l ps Hq Hocc IH]; intros Hne Hpw.
  - constructor.
  - apply Forall_cons in Hne as [Hp Hne]. destruct Hpw as [Hfirst Hpw].
    constructor; [|by apply IH].
    intros Hin. apply list_elem_of_lookup in Hin as [j Hj].
    destruct (Forall2_lookup_l _ _ _ _ _ Hocc Hj) as (p' & Hp' & Hq').
    assert (p' = p) as -> by congruence.
    pose proof (Forall_lookup_1 _ _ _ _ Hfirst Hp') as Hlt. simpl in Hlt. lia.
Qed.

(** X15. [Move] keeps the occupants of a polymer apart.  If they are not
    empty and lie one after the other without overlap, and [prop_list_] is
    as long as [polymerases_], they do so again after every [Move] that
    returns normally: the check against the next occupant takes back every
    step that would make two of them touch. *)
Theorem Move_keeps_separation (w : World.t) (this : nat) (pol_index : Z)
    (w' : World.t) :
  Separated w this →
  (∀ P, World.polymers w !! this = Some P →
        length (Polymer.polymerases_ P) = length (Polymer.prop_list_ P)) →
  is_int (pol_index + 1) →
  Polymer_Move this pol_index w = Ok tt w' →
  Separated w' this.
Proof.
  intros (P & ps & HP & Hocc & Hne & Hpw) Hlen Hint Hrun.
  destruct (Move_Ok_shape _ _ _ _ _ HP (Hlen P HP) Hint Hrun)
    as (pol & p & P' & Hpol & Hp & HP' & Hcases).
  pose proof (separated_NoDup _ _ _ Hocc Hne Hpw) as Hnd.
  apply vector_at_Some in Hpol as [Hnonneg Hpol].
  set (i := Z.to_nat pol_index) in *.
  destruct (Forall2_lookup_l _ _ _ _ _ Hocc Hpol) as (p0 & Hpsi & Hp0).
  assert (p0 = p) as -> by congruence.
  assert (∀ k q, Polymer.polymerases_ P !! k = Some q → k ≠ i → q ≠ pol) as Hother.
  { intros k q Hk Hki ->. apply Hki. by eapply NoDup_lookup. }
  destruct Hcases as [[Eh El] | [[Eh El] | (Eh & El & Hfree)]].
  - exists P', ps. split_and!; [done | | done | done].
    unfold occupants_are. by rewrite El, Eh.
  - exists P', (delete i ps).
    assert (find_index pol (Polymer.polymerases_ P) = i) as Ei
      by (by apply find_index_first).
    rewrite Ei in El.
    split_and!; [done | | by apply Forall_delete | by apply pairwise_delete].
    unfold occupants_are. rewrite El, Eh.
    eapply Forall2_impl_elem; [by apply Forall2_delete|].
    intros q a Hq Ha. simpl in *. rewrite list_lookup_insert_ne; [done|].
    intros ->. by apply (NoDup_delete_notin _ _ _ Hnd Hpol).
  - exists P', (<[i := advanced p]> ps). split_and!; [done | | |].
    + unfold occupants_are. rewrite El, Eh.
      apply Forall2_same_length_lookup_2.
      { rewrite length_insert. by eapply Forall2_length. }
      intros k q a Hk Ha. destruct (decide (k = i)) as [->|Hki].
      * assert (q = pol) as -> by congruence.
        rewrite list_lookup_insert_eq in Ha by (eapply lookup_lt_Some; eauto).
        injection Ha as <-. apply list_lookup_insert_eq. eapply lookup_lt_Some; eauto.
      * rewrite list_lookup_insert_ne in Ha by done.
        rewrite list_lookup_insert_ne by (by eapply not_eq_sym, Hother).
        exact (Forall2_lookup_lr _ _ _ _ _ _ Hocc Hk Ha).
    + apply Forall_insert; [done|].
      pose proof (Forall_lookup_1 _ _ _ _ Hne Hpsi) as Hle.
      destruct p; unfold advanced, Polymerase.set_stop, Polymerase.set_start;
        simpl in *. lia.
    + rewrite pairwise_lookup in Hpw. apply pairwise_lookup.
      pose proof (Forall_lookup_1 _ _ _ _ Hne Hpsi) as Hple. cbv beta in Hple.
      assert (Polymerase.start (advanced p) = Polymerase.start p + 1) as Es
        by (by destruct p).
      assert (Polymerase.stop (advanced p) = Polymerase.stop p + 1) as Et
        by (by destruct p).
      intros j k a b Hjk Ha Hb.
      destruct (decide (j = i)) as [->|Hji], (decide (k = i)) as [->|Hki]; [lia | | |].
      * (* the polymerase that moved, against a later one *)
        rewrite list_lookup_insert_eq in Ha by (eapply lookup_lt_Some; eauto).
        injection Ha as <-. rewrite list_lookup_insert_ne in Hb by lia.
        rewrite Et.
        destruct (ps !! S i) as [c|] eqn:Hc.
        2:{ apply lookup_ge_None in Hc. apply lookup_lt_Some in Hb. lia. }
        pose proof (Hpw i (S i) p c ltac:(lia) Hpsi Hc) as Hpc.
        pose proof (Forall_lookup_1 _ _ _ _ Hne Hc) as Hcle. cbv beta in Hcle.
        assert (Polymerase.stop p + 1 < Polymerase.start c) as Hgap.
        { destruct (Forall2_lookup_r _ _ _ _ _ Hocc Hc) as (next & Hnext & Hheap).
          assert (next ≠ pol) as Hne' by (eapply Hother; [exact Hnext | lia]).
          specialize (Hfree next c).
          rewrite Es, Et in Hfree.
          destruct (decide (Polymerase.stop p + 1 < Polymerase.start c)); [done|].
          exfalso. apply Hfree; [| |lia].
          - apply vector_at_Some. split; [lia|].
            replace (Z.to_nat (pol_index + 1)) with (S i) by lia. done.
          - by rewrite list_lookup_insert_ne. }
        destruct (decide (k = S i)) as [->|Hk]; [congruence|].
        pose proof (Hpw (S i) k c b ltac:(lia) Hc Hb). lia.
      * (* an earlier one against the polymerase that moved *)
        rewrite list_lookup_insert_ne in Ha by done.
        rewrite list_lookup_insert_eq in Hb by (eapply lookup_lt_Some; eauto).
        injection Hb as <-. rewrite Es.
        pose proof (Hpw j i a p Hjk Ha Hpsi). lia.
      * rewrite list_lookup_insert_ne in Ha by done.
        rewrite list_lookup_insert_ne in Hb by done.
        by eapply Hpw.
Qed.

End MoveShape.

(** * What every call keeps *)

Section KeepsRules.
Context {W : Type} (throws : bool) (R : W → W → Prop).
Hypothesis Rrefl : ∀ w, R w w.
Hypothesis Rtrans : ∀ w1 w2 w3, R w1 w2 → R w2 w3 → R w1 w3.

Lemma keeps_ret {A} (a : A) : keeps throws R (ret a).
Proof. intros w. apply Rrefl. Qed.

Lemma keeps_throw {A} (e : exn) : keeps throws R (throw (A := A) e).
Proof. intros w _. apply Rrefl. Qed.

Lemma keeps_undefined {A} : keeps throws R (undefined (A := A)).
Proof. intros w. exact I. Qed.

Lemma keeps_get : keeps throws R get.
Proof. intros w. apply Rrefl. Qed.

Lemma keeps_deref {A} (o : option A) : keeps throws R (deref o).
Proof. destruct o; [apply keeps_ret | apply keeps_undefined]. Qed.

Lemma keeps_modify (f : W → W) : (∀ w, R w (f w)) → keeps throws R (modify f).
Proof. intros Hf w. apply Hf. Qed.

Lemma keeps_bind {A B} (m : M W A) (k : A → M W B) :
  keeps throws R m → (∀ a, keeps throws R (k a)) → keeps throws R (bind m k).
Proof.
  intros Hm Hk w. unfold bind. specialize (Hm w).
  destruct (m w) as [a w1|e w1|]; [|done|done].
  specialize (Hk a w1). destruct (k a w1) as [b w2|e w2|]; [| |done].
  - by eapply Rtrans.
  - intros Ht. eapply Rtrans; [exact Hm | by apply Hk].
Qed.

Lemma keeps_if {A} (b : bool) (m1 m2 : M W A) :
  keeps throws R m1 → keeps throws R m2 → keeps throws R (if b then m1 else m2).
Proof. by destruct b. Qed.

Lemma keeps_sumbool {A} {P Q : Prop} (b : {P} + {Q}) (m1 m2 : M W A) :
  keeps throws R m1 → keeps throws R m2 → keeps throws R (if b then m1 else m2).
Proof. by destruct b. Qed.

Lemma keeps_for_each {A} (xs : list A) (body : A → M W unit) :
  (∀ x, keeps throws R (body x)) → keeps throws R (for_each xs body).
Proof.
  intros Hbody. induction xs as [|x xs IH]; simpl.
  - apply keeps_ret.
  - apply keeps_bind; [apply Hbody | intros _; apply IH].
Qed.

Lemma keeps_fold_each {A B} (xs : list A) (acc : B) (body : B → A → M W B) :
  (∀ acc x, keeps throws R (body acc x)) → keeps throws R (fold_each xs acc body).
Proof.
  intros Hbody. revert acc. induction xs as [|x xs IH]; intros acc; simpl.
  - apply keeps_ret.
  - apply keeps_bind; [apply Hbody | intros acc'; apply IH].
Qed.

Lemma keeps_map_each {A B} (xs : list A) (body : A → M W B) :
  (∀ x, keeps throws R (body x)) → keeps throws R (map_each xs body).
Proof.
  intros Hbody. induction xs as [|x xs IH]; simpl.
  - apply keeps_ret.
  - apply keeps_bind; [apply Hbody | intros y].
    apply keeps_bind; [apply IH | intros ys; apply keeps_ret].
Qed.

Lemma keeps_times (n : nat) (body : M W unit) :
  keeps throws R body → keeps throws R (times n body).
Proof.
  intros Hbody. induction n as [|n IH]; simpl.
  - apply keeps_ret.
  - apply keeps_bind; [apply Hbody | intros _; apply IH].
Qed.

End KeepsRules.

Section FrameRules.
Context `{Platform}.
Context (throws : bool) (L : Polymer.t → Polymer.t → Prop) (HL : LocalFrame L).

Lemma same_polymerase_refl p : same_polymerase p p.
Proof. by repeat split. Qed.

Lemma same_polymerase_trans p1 p2 p3 :
  same_polymerase p1 p2 → same_polymerase p2 p3 → same_polymerase p1 p3.
Proof. intros (A1 & A2 & A3) (B1 & B2 & B3). repeat split; congruence. Qed.

Lemma frame_refl w : frame L w w.
Proof.
  split_and!; [|done| |done|done|done|done].
  - intros t P HP. exists P. split; [done | apply (lf_refl L HL)].
  - intros q p Hp. exists p. split; [done | apply same_polymerase_refl].
Qed.

Lemma frame_trans w1 w2 w3 : frame L w1 w2 → frame L w2 w3 → frame L w1 w3.
Proof.
  intros (A1 & A2 & A3 & A4 & A5 & A6 & A7) (B1 & B2 & B3 & B4 & B5 & B6 & B7).
  split_and!; [| congruence | | by etrans | congruence | congruence | lia].
  - intros t P1 HP1. destruct (A1 t P1 HP1) as (P2 & HP2 & L12).
    destruct (B1 t P2 HP2) as (P3 & HP3 & L23).
    exists P3. split; [done | by eapply (lf_trans L HL)].
  - intros q p1 Hp1. destruct (A3 q p1 Hp1) as (p2 & Hp2 & S12).
    destruct (B3 q p2 Hp2) as (p3 & Hp3 & S23).
    exists p3. split; [done | by eapply same_polymerase_trans].
Qed.

(** A change of one polymer. *)
Lemma frame_polymer w t P P' :
  World.polymers w !! t = Some P → L P P' →
  frame L w (World.set_polymers (<[t := P']> (World.polymers w)) w).
Proof.
  intros HP HLP. split_and!; [|done| |done|done|done|done]; simpl.
  - intros t' Q HQ. destruct (decide (t' = t)) as [->|Hne].
    + assert (Q = P) as -> by congruence. exists P'. split; [|done].
      apply list_lookup_insert_eq. eapply lookup_lt_Some; eauto.
    + exists Q. rewrite list_lookup_insert_ne by done.
      split; [done | apply (lf_refl L HL)].
  - intros q p Hp. exists p. split; [done | apply same_polymerase_refl].
Qed.

(** A change of one polymerase. *)
Lemma frame_polymerase w q p p' :
  World.polymerases w !! q = Some p → same_polymerase p p' →
  frame L w (World.set_polymerases (<[q := p']> (World.polymerases w)) w).
Proof.
  intros Hp Hs. split_and!; [|apply length_insert| |done|done|done|done]; simpl.
  - intros t P HP. exists P. split; [done | apply (lf_refl L HL)].
  - intros q' p0 Hp0. destruct (decide (q' = q)) as [->|Hne].
    + assert (p0 = p) as -> by congruence. exists p'. split; [|done].
      apply list_lookup_insert_eq. eapply lookup_lt_Some; eauto.
    + exists p0. rewrite list_lookup_insert_ne by done.
      split; [done | apply same_polymerase_refl].
Qed.

Lemma keeps_on_polymer {A} (t : nat) (m : M Polymer.t A) :
  keeps throws L m → keeps throws (frame L) (on_polymer t m).
Proof.
  intros Hm w. unfold on_polymer.
  destruct (World.polymers w !! t) as [P|] eqn:HP; [|done].
  specialize (Hm P). destruct (m P) as [a P'|e P'|]; [| |done].
  - by eapply frame_polymer.
  - intros Ht. eapply frame_polymer; [exact HP | by apply Hm].
Qed.

Lemma keeps_get_polymerase (pol : nat) : keeps throws (frame L) (get_polymerase pol).
Proof.
  intros w. unfold get_polymerase. destruct (World.polymerases w !! pol); simpl;
    [apply frame_refl | done].
Qed.

Lemma keeps_update_polymerase (pol : nat) (f : Polymerase.t → Polymerase.t) :
  (∀ p, same_polymerase p (f p)) → keeps throws (frame L) (update_polymerase pol f).
Proof.
  intros Hf w. unfold update_polymerase, bind, get_polymerase.
  destruct (World.polymerases w !! pol) as [p|] eqn:Hp; simpl; [|done].
  by eapply frame_polymerase.
Qed.

Lemma keeps_log (ev : Event) : keeps throws (frame L) (log ev).
Proof.
  intros w. simpl. split_and!; [|done| |by apply prefix_app_r|done|done|done]; simpl.
  - intros t P HP. exists P. split; [done | apply (lf_refl L HL)].
  - intros q p Hp. exists p. split; [done | apply same_polymerase_refl].
Qed.

Lemma frame_draw w :
  frame L w (World.set_random_pos (S (World.random_pos w)) w).
Proof.
  split_and!; [|done| |done|done|done|simpl; lia]; simpl.
  - intros t P HP. exists P. split; [done | apply (lf_refl L HL)].
  - intros q p Hp. exists p. split; [done | apply same_polymerase_refl].
Qed.

Lemma keeps_Random_random : keeps throws (frame L) Random_random.
Proof. intros w. apply frame_draw. Qed.

Lemma keeps_WeightedChoice {A} (items : list A) :
  keeps throws (frame L) (Random_WeightedChoice items).
Proof.
  intros w. unfold Random_WeightedChoice. destruct (_ !! _); [apply frame_draw | done].
Qed.

Lemma keeps_WeightedChoiceIndex {A} (items : list A) (weights : list num) :
  keeps throws (frame L) (Random_WeightedChoiceIndex items weights).
Proof.
  intros w. unfold Random_WeightedChoiceIndex.
  destruct (decide _); [intros _; apply frame_refl | apply frame_draw].
Qed.

Lemma keeps_make_shared_polymer (T : Polymer.t) :
  keeps throws (frame L) (make_shared_polymer T).
Proof.
  intros w. simpl. split_and!; [|done| |done|done|done|done]; simpl.
  - intros t P HP. exists P. split; [by apply lookup_app_l_Some | apply (lf_refl L HL)].
  - intros q p Hp. exists p. split; [done | apply same_polymerase_refl].
Qed.

(** ** The functions on one polymer *)

Lemma keeps_get_promoter (site : nat) : keeps throws L (get_promoter site).
Proof.
  intros P. unfold get_promoter. destruct (_ !! _); simpl; [apply (lf_refl L HL) | done].
Qed.

Lemma keeps_update_promoter (site : nat) (f : Promoter.t → Promoter.t) :
  promoter_change f → keeps throws L (update_promoter site f).
Proof.
  intros Hf P. unfold update_promoter, bind, get_promoter.
  destruct (Polymer.promoters P !! site) as [s|] eqn:Hs; simpl; [|done].
  by apply (lf_promoter L HL).
Qed.

Lemma keeps_get_terminator (site : nat) : keeps throws L (get_terminator site).
Proof.
  intros P. unfold get_terminator. destruct (_ !! _); simpl; [apply (lf_refl L HL) | done].
Qed.

Lemma keeps_raise_readthrough (site : nat) :
  keeps throws L (update_terminator site (Terminator.set_readthrough true)).
Proof.
  intros P. unfold update_terminator, bind, get_terminator.
  destruct (Polymer.terminators P !! site) as [s|] eqn:Hs; simpl; [|done].
  by apply (lf_terminator L HL).
Qed.

Lemma keeps_get_genome : keeps throws L get_genome.
Proof.
  intros P. unfold get_genome. destruct (Polymer.derived P); [done | done |].
  apply (lf_refl L HL).
Qed.

Ltac rule_refl := first [ exact (lf_refl L HL) | exact frame_refl ].
Ltac rule_trans := first [ exact (lf_trans L HL) | exact frame_trans ].

Ltac keeps_local :=
  repeat first
    [ apply keeps_ret; rule_refl
    | apply keeps_throw; rule_refl
    | apply keeps_undefined
    | apply keeps_get; rule_refl
    | apply keeps_deref; rule_refl
    | apply keeps_get_promoter
    | apply keeps_get_terminator
    | apply keeps_get_genome
    | apply keeps_raise_readthrough
    | apply keeps_update_promoter; first [ by left | by right; left | by right; right ]
    | apply keeps_modify; intros ?;
        first [ apply (lf_polymerases L HL) | apply (lf_prop_list L HL)
              | apply (lf_prop_sum L HL) ]
    | apply keeps_if
    | apply keeps_sumbool
    | apply keeps_for_each; [rule_refl | rule_trans |]
    | apply keeps_fold_each; [rule_refl | rule_trans |]
    | apply keeps_map_each; [rule_refl | rule_trans |]
    | apply keeps_bind; [rule_trans | |]
    | intros ? ].

Lemma keeps_CheckBehind (old_start new_start : Z) :
  keeps throws L (Polymer_CheckBehind old_start new_start).
Proof. unfold Polymer_CheckBehind. keeps_local. Qed.

Lemma keeps_CheckAhead (old_stop new_stop : Z) :
  keeps throws L (Polymer_CheckAhead old_stop new_stop).
Proof. unfold Polymer_CheckAhead. keeps_local. Qed.

Lemma keeps_ShiftMask : keeps throws L Polymer_ShiftMask.
Proof.
  intros P. unfold Polymer_ShiftMask. rewrite (bind_run get _ P P P eq_refl).
  destruct (Mask.start (Polymer.mask_ P) <=? Mask.stop (Polymer.mask_ P)) eqn:E;
    [|apply (lf_refl L HL)].
  apply Z.leb_le in E.
  set (P1 := Polymer.set_mask_ (Mask.Recede (Polymer.mask_ P)) P).
  rewrite (bind_run
             (modify (λ Q, Polymer.set_mask_ (Mask.Recede (Polymer.mask_ Q)) Q))
             _ P tt P1 eq_refl).
  rewrite (bind_run get _ P1 P1 P1 eq_refl).
  pose proof (keeps_CheckBehind (Mask.start (Polymer.mask_ P))
                (Mask.start (Polymer.mask_ P1)) P1) as Hcb.
  pose proof (lf_recede L HL P E) as Hrec. fold P1 in Hrec.
  destruct (Polymer_CheckBehind _ _ P1) as [u P2|e P2|]; [| |done].
  - by eapply (lf_trans L HL).
  - intros Ht. eapply (lf_trans L HL); [exact Hrec | by apply Hcb].
Qed.

(** ** The functions on the world *)

Ltac keeps_world :=
  repeat first
    [ apply keeps_ret; rule_refl
    | apply keeps_throw; rule_refl
    | apply keeps_undefined
    | apply keeps_deref; rule_refl
    | apply keeps_get_polymerase
    | apply keeps_log
    | apply keeps_Random_random
    | apply keeps_WeightedChoice
    | apply keeps_WeightedChoiceIndex
    | apply keeps_make_shared_polymer
    | apply keeps_update_polymerase; intros ?; by repeat split
    | apply keeps_on_polymer; first [ apply keeps_ShiftMask
                                    | apply keeps_CheckBehind
                                    | apply keeps_CheckAhead
                                    | keeps_local; fail ]
    | apply keeps_if
    | apply keeps_sumbool
    | apply keeps_for_each; [rule_refl | rule_trans |]
    | apply keeps_fold_each; [rule_refl | rule_trans |]
    | apply keeps_map_each; [rule_refl | rule_trans |]
    | apply keeps_times; [rule_refl | rule_trans |]
    | apply keeps_bind; [rule_trans | |]
    | intros ? ].

Lemma keeps_get_polymer (t : nat) : keeps throws (frame L) (get_polymer t).
Proof. unfold get_polymer. keeps_world. Qed.

Lemma keeps_call_slot (s : Slot) : keeps throws (frame L) (call_slot s).
Proof. destruct s. simpl. keeps_world. Qed.

Lemma keeps_emit (s : Signal.t Slot) :
  keeps throws (frame L) (Signal.emit call_slot s).
Proof.
  unfold Signal.emit. apply keeps_for_each; [exact frame_refl | exact frame_trans |].
  intros it. apply keeps_call_slot.
Qed.

Lemma keeps_emit_move_signal (pol : nat) :
  keeps throws (frame L) (emit_move_signal pol).
Proof.
  unfold emit_move_signal.
  apply keeps_bind; [exact frame_trans | apply keeps_log | intros _].
  apply keeps_bind; [exact frame_trans | apply keeps_get_polymerase | intros p].
  apply keeps_emit.
Qed.

Lemma keeps_Polymerase_Move (pol : nat) : keeps throws (frame L) (Polymerase_Move pol).
Proof.
  unfold Polymerase_Move.
  apply keeps_bind; [exact frame_trans | | intros _; apply keeps_emit_move_signal].
  apply keeps_update_polymerase. intros p. by repeat split.
Qed.

Lemma keeps_Polymerase_MoveBack (pol : nat) :
  keeps throws (frame L) (Polymerase_MoveBack pol).
Proof.
  unfold Polymerase_MoveBack. apply keeps_update_polymerase. intros p. by repeat split.
Qed.

Lemma keeps_Terminate (this pol : nat) (last_gene : string) :
  keeps throws (frame L) (Polymer_Terminate this pol last_gene).
Proof.
  unfold Polymer_Terminate, Polymer_Terminate_with. keeps_world.
Qed.

Lemma keeps_Insert (this pol : nat) : keeps throws (frame L) (Polymer_Insert this pol).
Proof. unfold Polymer_Insert. keeps_world. Qed.

Lemma keeps_CheckPolCollisions (this : nat) (pol_index : Z) :
  keeps throws (frame L) (Polymer_CheckPolCollisions this pol_index).
Proof. unfold Polymer_CheckPolCollisions. keeps_world. Qed.

Lemma keeps_CheckMaskCollisions (this pol : nat) :
  keeps throws (frame L) (Polymer_CheckMaskCollisions this pol).
Proof. unfold Polymer_CheckMaskCollisions. keeps_world. Qed.

Lemma keeps_CheckTermination_loop (this pol : nat) (results : list Interval.t) :
  keeps throws (frame L) (CheckTermination_loop this pol results).
Proof.
  induction results as [|interval rest IH]; simpl.
  - apply keeps_ret. exact frame_refl.
  - apply keeps_bind; [exact frame_trans | apply keeps_get_polymerase | intros p].
    apply keeps_bind; [exact frame_trans | | intros site].
    { apply keeps_on_polymer, keeps_get_terminator. }
    apply keeps_if; [|exact IH].
    apply keeps_bind; [exact frame_trans | apply keeps_Random_random | intros r].
    apply keeps_if.
    + apply keeps_bind; [exact frame_trans | | intros _].
      { apply keeps_times; [exact frame_refl | exact frame_trans |].
        apply keeps_emit_move_signal. }
      apply keeps_bind; [exact frame_trans | | intros site'].
      { apply keeps_on_polymer, keeps_get_terminator. }
      apply keeps_bind; [exact frame_trans | apply keeps_Terminate | intros _].
      apply keeps_ret. exact frame_refl.
    + apply keeps_bind; [exact frame_trans | | intros _; exact IH].
      apply keeps_on_polymer, keeps_raise_readthrough.
Qed.

Lemma keeps_CheckTermination (this pol : nat) :
  keeps throws (frame L) (Polymer_CheckTermination this pol).
Proof.
  unfold Polymer_CheckTermination.
  apply keeps_bind; [exact frame_trans | apply keeps_get_polymer | intros P].
  apply keeps_bind; [exact frame_trans | apply keeps_get_polymerase | intros p].
  apply keeps_CheckTermination_loop.
Qed.

Lemma keeps_Move (this : nat) (pol_index : Z) :
  keeps throws (frame L) (Polymer_Move this pol_index).
Proof.
  unfold Polymer_Move.
  apply keeps_bind; [exact frame_trans | apply keeps_get_polymer | intros P].
  apply keeps_bind; [exact frame_trans | keeps_world | intros _].
  apply keeps_bind; [exact frame_trans | keeps_world | intros pol].
  apply keeps_bind; [exact frame_trans | apply keeps_get_polymerase | intros p].
  apply keeps_bind; [exact frame_trans | apply keeps_Polymerase_Move | intros _].
  apply keeps_bind; [exact frame_trans | apply keeps_CheckPolCollisions | intros b1].
  apply keeps_if; [apply keeps_Polymerase_MoveBack|].
  apply keeps_bind; [exact frame_trans | apply keeps_CheckMaskCollisions | intros b2].
  apply keeps_if; [apply keeps_Polymerase_MoveBack|].
  apply keeps_bind; [exact frame_trans | apply keeps_CheckTermination | intros b3].
  apply keeps_if; [apply keeps_ret; exact frame_refl|].
  keeps_world.
Qed.

Lemma keeps_Choose (this : nat) : keeps throws (frame L) (Polymer_Choose this).
Proof. unfold Polymer_Choose. keeps_world. Qed.

Lemma keeps_Polymer_new (name : string) (start stop : Z) :
  keeps throws (frame L) (Polymer_new name start stop).
Proof. unfold Polymer_new. keeps_world. Qed.

Lemma keeps_BuildTranscript (this : nat) (start stop : Z) :
  keeps throws (frame L) (Genome_BuildTranscript this start stop).
Proof.
  unfold Genome_BuildTranscript.
  apply keeps_bind; [exact frame_trans | apply keeps_get_polymer | intros G].
  apply keeps_bind; [exact frame_trans | | intros g].
  { apply keeps_on_polymer, keeps_get_genome. }
  apply keeps_bind; [exact frame_trans | | intros [rbs rbs_intervals]].
  { apply keeps_fold_each; [exact frame_refl | exact frame_trans |].
    intros [objs ivs] x. keeps_world. }
  apply keeps_bind; [exact frame_trans | | intros [stop_sites stop_site_intervals]].
  { apply keeps_fold_each; [exact frame_refl | exact frame_trans |].
    intros [objs ivs] x. keeps_world. }
  apply keeps_bind; [exact frame_trans | | intros T; apply keeps_make_shared_polymer].
  apply keeps_bind; [exact frame_trans | apply keeps_Polymer_new | intros T].
  apply keeps_ret. exact frame_refl.
Qed.

(** ** The functions that write the cache, the log and the trees *)

Section Cache.
Context (HC : CacheFrame throws L).

Lemma keeps_Initialize : keeps throws L Polymer_Initialize.
Proof.
  unfold Polymer_Initialize.
  apply keeps_bind; [exact (lf_trans L HL) | | intros _].
  { apply keeps_modify. intros P. apply (cf_binding_sites throws L HC). }
  apply keeps_bind; [exact (lf_trans L HL) | | intros _].
  { apply keeps_modify. intros P. apply (cf_release_sites throws L HC). }
  apply keeps_bind; [exact (lf_trans L HL) | apply keeps_get; exact (lf_refl L HL) | intros P].
  apply keeps_bind; [exact (lf_trans L HL) | | intros _].
  { apply keeps_for_each; [exact (lf_refl L HL) | exact (lf_trans L HL) |].
    intros interval.
    apply keeps_bind; [exact (lf_trans L HL) | apply keeps_get_promoter | intros site].
    apply keeps_bind; [exact (lf_trans L HL) | apply (cf_cover throws L HC) | intros _].
    keeps_local. }
  apply keeps_bind; [exact (lf_trans L HL) | apply keeps_get; exact (lf_refl L HL) | intros P2].
  apply keeps_for_each; [exact (lf_refl L HL) | exact (lf_trans L HL) |].
  intros interval.
  apply keeps_bind; [exact (lf_trans L HL) | apply keeps_get_promoter | intros site].
  apply keeps_bind; [exact (lf_trans L HL) | apply (cf_uncover throws L HC) | intros _].
  keeps_local.
Qed.

Lemma keeps_Genome_Initialize : keeps throws L Genome_Initialize.
Proof.
  unfold Genome_Initialize.
  apply keeps_bind; [exact (lf_trans L HL) | apply keeps_Initialize | intros _].
  apply keeps_bind; [exact (lf_trans L HL) | | intros _].
  - intros P. unfold update_genome, bind, get_genome.
    destruct (Polymer.derived P) as [| |g] eqn:E; [done | done |].
    by apply (cf_rbs throws L HC).
  - intros P. unfold update_genome, bind, get_genome.
    destruct (Polymer.derived P) as [| |g] eqn:E; [done | done |].
    by apply (cf_stop_sites throws L HC).
Qed.

Lemma keeps_Bind (this pol : nat) (promoter_name : string) :
  keeps throws (frame L) (Polymer_Bind this pol promoter_name).
Proof.
  unfold Polymer_Bind.
  apply keeps_bind; [exact frame_trans | apply keeps_get_polymer | intros P].
  apply keeps_bind; [exact frame_trans | keeps_world | intros choices].
  apply keeps_bind; [exact frame_trans | apply keeps_get_polymerase | intros p].
  apply keeps_bind; [exact frame_trans | keeps_world | intros _].
  apply keeps_bind; [exact frame_trans | apply keeps_WeightedChoice | intros elem].
  apply keeps_bind; [exact frame_trans | keeps_world | intros site].
  apply keeps_bind; [exact frame_trans | keeps_world | intros _].
  apply keeps_bind; [exact frame_trans | keeps_world | intros _].
  apply keeps_bind; [exact frame_trans | keeps_world | intros _].
  apply keeps_bind; [exact frame_trans | apply keeps_get_polymerase | intros p'].
  apply keeps_bind; [exact frame_trans | apply keeps_get_polymer | intros P'].
  apply keeps_bind; [exact frame_trans | keeps_world | intros _].
  apply keeps_bind; [exact frame_trans | keeps_world | intros _].
  apply keeps_bind; [exact frame_trans | keeps_world | intros _].
  apply keeps_bind; [exact frame_trans | keeps_world | intros site'].
  apply keeps_bind; [exact frame_trans | | intros _].
  { apply keeps_on_polymer, (cf_cover throws L HC). }
  apply keeps_bind; [exact frame_trans | apply keeps_Insert | intros _].
  keeps_world.
Qed.

Lemma keeps_Transcript_Bind (this pol : nat) (promoter_name : string) :
  keeps throws (frame L) (Transcript_Bind this pol promoter_name).
Proof.
  unfold Transcript_Bind.
  apply keeps_bind; [exact frame_trans | apply keeps_Bind | intros _].
  apply keeps_update_polymerase. intros p. by repeat split.
Qed.

Lemma keeps_Genome_Bind (this pol : nat) (promoter_name : string) :
  keeps throws (frame L) (Genome_Bind this pol promoter_name).
Proof.
  unfold Genome_Bind.
  apply keeps_bind; [exact frame_trans | apply keeps_Bind | intros _].
  apply keeps_bind; [exact frame_trans | apply keeps_get_polymerase | intros p].
  apply keeps_bind; [exact frame_trans | apply keeps_get_polymer | intros G].
  apply keeps_bind; [exact frame_trans | apply keeps_BuildTranscript | intros T].
  apply keeps_bind; [exact frame_trans | | intros _; apply keeps_log].
  apply keeps_update_polymerase. intros q. by repeat split.
Qed.

Lemma keeps_Execute (this : nat) : keeps throws (frame L) (Polymer_Execute this).
Proof.
  unfold Polymer_Execute.
  apply keeps_bind; [exact frame_trans | apply keeps_get_polymer | intros P].
  apply keeps_bind; [exact frame_trans | keeps_world | intros _].
  apply keeps_bind; [exact frame_trans | apply keeps_Choose | intros pol_index].
  apply keeps_bind; [exact frame_trans | | intros _; apply keeps_Move].
  apply keeps_on_polymer, keeps_modify. intros Q. apply (cf_log_clear throws L HC).
Qed.

(** Every call of a member function. *)
Lemma keeps_run_call (this : nat) (c : polymer_call) :
  keeps throws (frame L) (run_call this c).
Proof.
  destruct c; simpl.
  - apply keeps_Insert.
  - apply keeps_Move.
  - apply keeps_Terminate.
  - apply keeps_Bind.
  - apply keeps_Transcript_Bind.
  - apply keeps_Genome_Bind.
  - apply keeps_Execute.
  - apply keeps_on_polymer, keeps_ShiftMask.
  - apply keeps_on_polymer, keeps_Initialize.
  - apply keeps_on_polymer, keeps_Genome_Initialize.
Qed.

End Cache.

End FrameRules.

(** * Invariants of the whole interface *)

Section Invariants.
Context `{Platform}.

Lemma same_promoter_refl s : same_promoter s s.
Proof. by repeat split. Qed.

Lemma same_terminator_refl s : same_terminator s s.
Proof. by repeat split. Qed.

Lemma same_kind_refl d : same_kind d d.
Proof. destruct d; simpl; done. Qed.

Lemma Forall2_refl_all {A} (R : A → A → Prop) (l : list A) :
  (∀ x, R x x) → Forall2 R l l.
Proof. intros Hrefl. induction l; constructor; auto. Qed.

(** A write that leaves the layout fields alone. *)
Lemma same_layout_fields (P P' : Polymer.t) :
  Polymer.name_ P' = Polymer.name_ P →
  Polymer.index_ P' = Polymer.index_ P →
  Polymer.start_ P' = Polymer.start_ P →
  Polymer.stop_ P' = Polymer.stop_ P →
  Polymer.weights_ P' = Polymer.weights_ P →
  Polymer.binding_intervals_ P' = Polymer.binding_intervals_ P →
  Polymer.release_intervals_ P' = Polymer.release_intervals_ P →
  Polymer.promoters P' = Polymer.promoters P →
  Polymer.terminators P' = Polymer.terminators P →
  Polymer.derived P' = Polymer.derived P →
  same_layout P P'.
Proof.
  intros ? ? ? ? ? ? ? Ep Et Ed. unfold same_layout. rewrite Ep, Et, Ed.
  split_and!; try done.
  - apply Forall2_refl_all, same_promoter_refl.
  - apply Forall2_refl_all, same_terminator_refl.
  - apply same_kind_refl.
Qed.

Lemma same_layout_trans P1 P2 P3 :
  same_layout P1 P2 → same_layout P2 P3 → same_layout P1 P3.
Proof.
  intros (A1 & A2 & A3 & A4 & A5 & A6 & A7 & A8 & A9 & A10)
         (B1 & B2 & B3 & B4 & B5 & B6 & B7 & B8 & B9 & B10).
  unfold same_layout. split_and!; try congruence.
  - eapply Forall2_trans; [|exact A8|exact B8].
    intros s1 s2 s3 (? & ? & ? & ? & ? & ?) (? & ? & ? & ? & ? & ?).
    repeat split; congruence.
  - eapply Forall2_trans; [|exact A9|exact B9].
    intros s1 s2 s3 (? & ? & ? & ? & ? & ?) (? & ? & ? & ? & ? & ?).
    repeat split; congruence.
  - destruct (Polymer.derived P1), (Polymer.derived P2), (Polymer.derived P3);
      simpl in *; try done.
    destruct A10 as (? & ? & ? & ?), B10 as (? & ? & ? & ?).
    repeat split; congruence.
Qed.

Ltac untouched := apply same_layout_fields; reflexivity.

(** X16. No call of a member function changes the layout of a polymer or
    the identity of a polymerase, whether it returns or throws.  Every
    polymer that existed still exists, with its name, index, bounds,
    weights and interval vectors, the same number of sites, each with its
    name, bounds, interactions and gene, and for a genome the same
    transcript templates, weights and bindings.  Every polymerase keeps its
    name, footprint and speed; none is created or destroyed; the trace is
    only extended and the random streams are only read forward. *)
Theorem calls_keep_layout (this : nat) (c : polymer_call) :
  keeps true (frame same_layout) (run_call this c).
Proof.
  apply keeps_run_call.
  - constructor.
    + intros P. untouched.
    + apply same_layout_trans.
    + intros P i s f Hs Hf. unfold same_layout. simpl. split_and!; try done.
      * apply (Forall2_insert_related same_promoter _ i s);
          [apply same_promoter_refl | done |].
        destruct Hf as [-> | [-> | ->]]; by repeat split.
      * apply Forall2_refl_all, same_terminator_refl.
      * apply same_kind_refl.
    + intros P i s Hs. unfold same_layout. simpl. split_and!; try done.
      * apply Forall2_refl_all, same_promoter_refl.
      * apply (Forall2_insert_related same_terminator _ i s);
          [apply same_terminator_refl | done |].
        by repeat split.
      * apply same_kind_refl.
    + intros P _. untouched.
    + intros P x. untouched.
    + intros P x. untouched.
    + intros P x. untouched.
  - constructor.
    + intros n P. unfold Polymer_CoverBindingSite, bind, modify, get.
      destruct (Polymer.uncovered_ P !! n); simpl;
        destruct (_ <? 0); simpl; try intros _;
        try destruct (Polymer.species_log_ P !! n); untouched.
    + intros n P. unfold Polymer_UncoverBindingSite, bind, modify.
      destruct (Polymer.uncovered_ P !! n); simpl;
        destruct (Polymer.species_log_ P !! n); untouched.
    + intros P. untouched.
    + intros P. untouched.
    + intros P. untouched.
    + intros P g Eg. unfold same_layout. simpl. rewrite Eg. simpl.
      split_and!; try done.
      * apply Forall2_refl_all, same_promoter_refl.
      * apply Forall2_refl_all, same_terminator_refl.
    + intros P g Eg. unfold same_layout. simpl. rewrite Eg. simpl.
      split_and!; try done.
      * apply Forall2_refl_all, same_promoter_refl.
      * apply Forall2_refl_all, same_terminator_refl.
Qed.

Ltac mask_untouched :=
  unfold mask_recedes; simpl; split_and!; try reflexivity; lia.

(** X17. No call of a member function moves a mask backwards or past its
    end, whether it returns or throws: the end, the name and the
    interactions of every mask stay as they are, its start never goes
    down, and it goes up no further than one position past the end. *)
Theorem calls_only_recede_masks (this : nat) (c : polymer_call) :
  keeps true (frame mask_recedes) (run_call this c).
Proof.
  apply keeps_run_call.
  - constructor.
    + intros P. mask_untouched.
    + intros P1 P2 P3 (A1 & A2 & A3 & A4 & A5) (B1 & B2 & B3 & B4 & B5).
      unfold mask_recedes. split_and!; try congruence; lia.
    + intros P i s f _ _. mask_untouched.
    + intros P i s _. mask_untouched.
    + intros P Hle. mask_untouched.
    + intros P x. mask_untouched.
    + intros P x. mask_untouched.
    + intros P x. mask_untouched.
  - constructor.
    + intros n P. unfold Polymer_CoverBindingSite, bind, modify, get.
      destruct (Polymer.uncovered_ P !! n); simpl;
        destruct (_ <? 0); simpl; try intros _;
        try destruct (Polymer.species_log_ P !! n); mask_untouched.
    + intros n P. unfold Polymer_UncoverBindingSite, bind, modify.
      destruct (Polymer.uncovered_ P !! n); simpl;
        destruct (Polymer.species_log_ P !! n); mask_untouched.
    + intros P. mask_untouched.
    + intros P. mask_untouched.
    + intros P. mask_untouched.
    + intros P g _. mask_untouched.
    + intros P g _. mask_untouched.
Qed.

(** X18. No call of a member function that returns normally leaves a
    negative count in the cache of uncovered sites of any polymer, if
    there was none before: [CoverBindingSite] throws rather than return
    with one. *)
Theorem calls_keep_counts_nonnegative (this : nat) (c : polymer_call) :
  keeps false (frame keeps_counts_nonneg) (run_call this c).
Proof.
  apply keeps_run_call.
  - constructor; try (intros; intros Hnn; exact Hnn).
    intros P1 P2 P3 H12 H23 Hnn. by apply H23, H12.
  - constructor; try (intros; intros Hnn; exact Hnn).
    + intros n P. unfold Polymer_CoverBindingSite, bind, modify, get.
      destruct (Polymer.uncovered_ P !! n) as [c0|] eqn:E; simpl;
        rewrite lookup_insert_eq; simpl.
      * destruct (c0 - 1 <? 0) eqn:E0; simpl; [discriminate|].
        apply Z.ltb_ge in E0.
        intros Hnn m k. destruct (Polymer.species_log_ P !! n); simpl;
          (destruct (decide (m = n)) as [->|Hne];
           [rewrite lookup_insert_eq; intros [= <-]; lia
           |rewrite lookup_insert_ne by done; apply Hnn]).
      * intros Hnn m k. destruct (Polymer.species_log_ P !! n); simpl;
          (destruct (decide (m = n)) as [->|Hne];
           [rewrite lookup_insert_eq; intros [= <-]; lia
           |rewrite lookup_insert_ne by done; apply Hnn]).
    + intros n P. unfold Polymer_UncoverBindingSite, bind, modify.
      intros Hnn m k.
      destruct (Polymer.uncovered_ P !! n) as [c0|] eqn:E; simpl;
        destruct (Polymer.species_log_ P !! n); simpl;
        (destruct (decide (m = n)) as [->|Hne];
         [rewrite lookup_insert_eq; intros [= <-];
            try (pose proof (Hnn n c0 E)); lia
         |rewrite lookup_insert_ne by done; apply Hnn]).
Qed.

Lemma same_cache_local : LocalFrame same_cache.
Proof.
  constructor; try (intros; by split).
  intros P1 P2 P3 [A1 A2] [B1 B2]. split; congruence.
Qed.

(** X19. [Insert], [Move], [Terminate] and [ShiftMask] never write the
    cache of uncovered sites or the species log of any polymer, whether
    they return or throw, although [Move] and [ShiftMask] cover and
    uncover promoters: only [Initialize] and [Bind] keep the cache. *)
Theorem moves_leave_cache (this pol : nat) (pol_index : Z) (last_gene : string) :
  keeps true (frame same_cache) (Polymer_Insert this pol) ∧
  keeps true (frame same_cache) (Polymer_Move this pol_index) ∧
  keeps true (frame same_cache) (Polymer_Terminate this pol last_gene) ∧
  keeps true (frame same_cache) (on_polymer this Polymer_ShiftMask).
Proof.
  pose proof same_cache_local as HL. split_and!.
  - by apply keeps_Insert.
  - by apply keeps_Move.
  - by apply keeps_Terminate.
  - by apply keeps_on_polymer, keeps_ShiftMask.
Qed.

(** X20. After an [Execute] that returns normally the species log of the
    polymer is empty: [Execute] clears it and the [Move] that follows
    writes nothing to it.  The cache of uncovered sites is as before. *)
Theorem Execute_leaves_log_empty (this : nat) (w w' : World.t) :
  Polymer_Execute this w = Ok tt w' →
  ∃ P P',
    World.polymers w !! this = Some P ∧
    World.polymers w' !! this = Some P' ∧
    Polymer.species_log_ P' = ∅ ∧
    Polymer.uncovered_ P' = Polymer.uncovered_ P.
Proof.
  intros Hrun. unfold Polymer_Execute in Hrun.
  apply bind_Ok in Hrun as (P & w0 & HP & Hrun).
  apply get_polymer_Ok in HP as [HP ->].
  apply bind_Ok in Hrun as (u & w0 & Hguard & Hrun).
  apply guard_Ok in Hguard as [_ ->].
  apply bind_Ok in Hrun as (pol_index & w1 & Hchoose & Hrun).
  pose proof (keeps_Choose true same_cache same_cache_local this w) as K1.
  rewrite Hchoose in K1. destruct K1 as (K1 & _).
  destruct (K1 this P HP) as (P1 & HP1 & E1 & _).
  apply bind_Ok in Hrun as (u2 & w2 & Hclear & Hrun).
  apply on_polymer_Ok in Hclear as (P1' & P2 & HP1' & Hmod & ->).
  assert (P1' = P1) as -> by congruence.
  unfold modify in Hmod. injection Hmod as EP2. subst P2.
  pose proof (keeps_Move true same_cache same_cache_local this pol_index
                (World.set_polymers
                   (<[this := Polymer.set_species_log_ ∅ P1]> (World.polymers w1)) w1))
    as K2.
  rewrite Hrun in K2. destruct K2 as (K2 & _).
  destruct (K2 this (Polymer.set_species_log_ ∅ P1)) as (P' & HP' & E2 & E3).
  { simpl. apply list_lookup_insert_eq. eapply lookup_lt_Some; eauto. }
  exists P, P'. split_and!; [done | done | by rewrite E3 | by rewrite E2].
Qed.

End Invariants.

(** * Genome: building *)

Section Building.
Context `{Platform}.

(** X21. [AddPromoter] on a genome returns normally, appends one binding
    interval with the given bounds that points to a new, uncovered promoter
    of the given name, and records the interactions under the name: a
    following [bindings()] returns the old map with that entry set, so an
    earlier entry of the same name is replaced while the intervals of both
    promoters stay.  The trees and the cache of uncovered sites are not
    touched. *)
Theorem AddPromoter_registers (name : string) (start stop : Z)
    (interactions : gmap string num) (P : Polymer.t) (g : Polymer.genome_members) :
  Polymer.derived P = Polymer.Genome g →
  ∃ P',
    Genome_AddPromoter name start stop interactions P = Ok tt P' ∧
    Genome_bindings P' = Ok (<[name := interactions]> (Polymer.bindings_ g)) P' ∧
    Polymer.binding_intervals_ P'
      = Polymer.binding_intervals_ P
        ++ [Interval.mk start stop (length (Polymer.promoters P))] ∧
    Polymer.promoters P'
      = Polymer.promoters P ++ [Promoter.new name start stop interactions] ∧
    Polymer.binding_sites_ P' = Polymer.binding_sites_ P ∧
    Polymer.uncovered_ P' = Polymer.uncovered_ P.
Proof.
  intros Eg. unfold Genome_AddPromoter.
  rewrite (bind_run get _ P P P eq_refl).
  unfold bind at 1. unfold modify at 1.
  unfold bind at 1. unfold modify at 1.
  unfold update_genome, bind, get_genome, modify. simpl. rewrite Eg.
  eexists. split; [reflexivity|].
  unfold Genome_bindings, bind, get_genome, ret. simpl.
  split_and!; reflexivity.
Qed.

(** The interaction map that [AddMask] builds. *)
Lemma interaction_map_lookup (names : list string) (m : gmap string num)
    (species : string) :
  is_Some (foldl (λ m name, <[name := num_one]> m) m names !! species)
  ↔ species ∈ names ∨ is_Some (m !! species).
Proof.
  revert m. induction names as [|n names IH]; intros m; simpl.
  - rewrite elem_of_nil. tauto.
  - rewrite IH, elem_of_cons. destruct (decide (species = n)) as [->|Hne].
    + rewrite lookup_insert_eq. split; [intros _; by left; left | intros _; right; eauto].
    + rewrite lookup_insert_ne by done. tauto.
Qed.

(** X22. [AddMask(start, interactions)] puts a mask on [start .. stop_]
    that interacts with exactly the species listed: [CheckInteraction]
    holds for a species if and only if it is in the list. *)
Theorem AddMask_admits_listed (start : Z) (names : list string) (P : Polymer.t) :
  ∃ P',
    Genome_AddMask start names P = Ok tt P' ∧
    Mask.start (Polymer.mask_ P') = start ∧
    Mask.stop (Polymer.mask_ P') = Polymer.stop_ P ∧
    (∀ species,
       Mask.CheckInteraction species (Polymer.mask_ P') = true ↔ species ∈ names) ∧
    P' = Polymer.set_mask_ (Polymer.mask_ P') P.
Proof.
  eexists. split; [reflexivity|]. simpl. split_and!; [done | done | | done].
  intros species. unfold Mask.CheckInteraction. simpl.
  rewrite bool_decide_eq_true, interaction_map_lookup, lookup_empty.
  split; [intros [?|[? [=]]]; done | by left].
Qed.

(** X23. A genome constructed with length [n] accepts in [AddWeights] the
    weight vectors of length [n], which become the weights of its
    transcripts, and no others: for any other length it throws
    [std::length_error] and the genome is as before.  The weights it is
    constructed with are [n] times 1.0. *)
Theorem AddWeights_checks_length (name : string) (n : Z) (w w' : World.t)
    (G : Polymer.t) (transcript_weights : list num) :
  Genome_new name n w = Ok G w' →
  n < 2 ^ 64 →
  (∃ g, Polymer.derived G = Polymer.Genome g ∧
        Polymer.transcript_weights_ g = replicate (Z.to_nat n) num_one) ∧
  if decide (Z.of_nat (length transcript_weights) = n) then
    ∃ G' g',
      Genome_AddWeights transcript_weights G = Ok tt G' ∧
      Polymer.derived G' = Polymer.Genome g' ∧
      Polymer.transcript_weights_ g' = transcript_weights
  else
    Genome_AddWeights transcript_weights G = Throw LengthError G.
Proof.
  intros Hnew Hbound. unfold Genome_new in Hnew.
  apply bind_Ok in Hnew as (P & w1 & HP & Hret).
  unfold ret in Hret. injection Hret as <- <-.
  unfold Polymer_new in HP.
  destruct (n - 1 + 1 <? 0) eqn:E; [discriminate|]. apply Z.ltb_ge in E.
  unfold ret in HP. injection HP as <- <-.
  split; [eexists; split; reflexivity|].
  unfold Genome_AddWeights. rewrite (bind_run get _ _ _ _ eq_refl). simpl.
  assert (to_size_t (n - 1 + 1) = n) as ->.
  { unfold to_size_t. rewrite Z.mod_small by lia. lia. }
  destruct (decide (Z.of_nat (length transcript_weights) = n)) as [Hlen|Hlen].
  - destruct (decide (Z.of_nat (length transcript_weights) ≠ n)); [done|].
    eexists _, _. split_and!; reflexivity.
  - destruct (decide (Z.of_nat (length transcript_weights) ≠ n)); [|done].
    reflexivity.
Qed.

End Building.

(** * Bind: what a successful call leaves *)

Section BindSuccess.
Context `{Platform}.

(** The promoters that the first loop of [Bind] collects. *)
Lemma free_promoters_Ok (promoter_name : string) (results : list Interval.t) :
  ∀ choices0 P choices P',
    fold_each results choices0 (λ choices interval,
      let* site := get_promoter (Interval.value interval) in
      if bool_decide (Promoter.name site = promoter_name)
         && negb (Promoter.IsCovered site)
      then ret (choices ++ [Interval.value interval])
      else ret choices) P = Ok choices P' →
    P' = P ∧
    ∀ elem, elem ∈ choices →
      elem ∈ choices0 ∨
      ∃ interval site,
        interval ∈ results ∧ Interval.value interval = elem ∧
        Polymer.promoters P !! elem = Some site ∧
        Promoter.name site = promoter_name ∧
        Promoter.IsCovered site = false.
Proof.
  induction results as [|iv results IH]; intros choices0 P choices P' Hrun;
    simpl in Hrun.
  - unfold ret in Hrun. injection Hrun as <- <-. split; [done|]. by left.
  - apply bind_Ok in Hrun as (acc & P1 & Hbody & Hrun).
    apply bind_Ok in Hbody as (site & P2 & Hsite & Hbody).
    apply get_promoter_Ok in Hsite as [Hsite ->].
    destruct (bool_decide (Promoter.name site = promoter_name)
              && negb (Promoter.IsCovered site)) eqn:E;
      unfold ret in Hbody; injection Hbody as <- <-;
      apply IH in Hrun as [-> Hin]; (split; [done|]);
      intros elem Helem; destruct (Hin elem Helem) as [Hold | (i & s & Hi & ?)];
      try (right; exists i, s; split; [by right | done]).
    + apply elem_of_app in Hold as [Hold | ->%list_elem_of_singleton]; [by left|].
      right. exists iv, site. apply andb_true_iff in E as [E1 E2].
      apply bool_decide_eq_true in E1. apply negb_true_iff in E2.
      split_and!; [by left | done | done | done | done].
    + by left.
Qed.

(** What [CoverBindingSite] leaves when it returns. *)
Lemma CoverBindingSite_Ok_inv (species_name : string) (P : Polymer.t) u P' :
  Polymer_CoverBindingSite species_name P = Ok u P' →
  let count := match Polymer.uncovered_ P !! species_name with
               | Some c => c - 1
               | None => 0
               end in
  0 ≤ count ∧
  Polymer.uncovered_ P' = <[species_name := count]> (Polymer.uncovered_ P) ∧
  Polymer.promoters P' = Polymer.promoters P ∧
  Polymer.polymerases_ P' = Polymer.polymerases_ P ∧
  Polymer.prop_list_ P' = Polymer.prop_list_ P ∧
  Polymer.mask_ P' = Polymer.mask_ P.
Proof.
  unfold Polymer_CoverBindingSite, bind, modify, get. cbv zeta.
  destruct (Polymer.uncovered_ P !! species_name) as [c|]; simpl;
    rewrite lookup_insert_eq; simpl.
  - destruct (c - 1 <? 0) eqn:E; simpl; [discriminate|]. apply Z.ltb_ge in E.
    destruct (Polymer.species_log_ P !! species_name); intros [= <- <-]; simpl;
      (split_and!; [lia | done..]).
  - destruct (Polymer.species_log_ P !! species_name); intros [= <- <-]; simpl;
      (split_and!; [lia | done..]).
Qed.

(** The steps of a [Bind] that returns. *)
Lemma Bind_Ok_inv w this pol promoter_name w' :
  Polymer_Bind this pol promoter_name w = Ok tt w' →
  ∃ P p elem site interval Pc w1,
    World.polymers w !! this = Some P ∧
    World.polymerases w !! pol = Some p ∧
    interval ∈ Polymer.binding_sites_ P ∧
    IntervalTree.overlaps (Polymer.start_ P) (Mask.start (Polymer.mask_ P)) interval
      = true ∧
    Interval.value interval = elem ∧
    Polymer.promoters P !! elem = Some site ∧
    Promoter.name site = promoter_name ∧
    Promoter.IsCovered site = false ∧
    Promoter.CheckInteraction (Polymerase.name p) site = true ∧
    Promoter.start site + Polymerase.footprint p - 1 < Mask.start (Polymer.mask_ P) ∧
    World.polymerases w1
      = <[pol := Polymerase.set_stop (Promoter.start site + Polymerase.footprint p - 1)
                   (Polymerase.set_start (Promoter.start site) p)]>
          (World.polymerases w) ∧
    World.polymers w1 !! this = Some Pc ∧
    Polymer.promoters Pc
      = <[elem := Promoter.SaveState (Promoter.Cover site)]> (Polymer.promoters P) ∧
    Polymer.polymerases_ Pc = Polymer.polymerases_ P ∧
    Polymer.prop_list_ Pc = Polymer.prop_list_ P ∧
    Polymer.uncovered_ Pc
      = <[promoter_name := match Polymer.uncovered_ P !! promoter_name with
                           | Some c => c - 1
                           | None => 0
                           end]> (Polymer.uncovered_ P) ∧
    0 ≤ match Polymer.uncovered_ P !! promoter_name with
        | Some c => c - 1
        | None => 0
        end ∧
    (∃ w2, Polymer_Insert this pol w1 = Ok tt w2 ∧
           World.polymers w' = World.polymers w2 ∧
           World.polymerases w' = World.polymerases w2).
Proof.
  unfold Polymer_Bind. intros Hrun.
  apply bind_Ok in Hrun as (P & w0 & HP & Hrun).
  apply get_polymer_Ok in HP as [HP ->].
  apply bind_Ok in Hrun as (choices & w0 & Hfold & Hrun).
  apply on_polymer_Ok in Hfold as (P0 & P0' & HP0 & Hfold & ->).
  assert (P0 = P) as -> by congruence.
  rewrite findOverlapping_nil in Hfold.
  apply free_promoters_Ok in Hfold as [-> Hchoices].
  rewrite list_insert_id, World_eta_polymers in Hrun by done.
  apply bind_Ok in Hrun as (p & w0 & Hp & Hrun).
  apply get_polymerase_Ok in Hp as [Hp ->].
  apply bind_Ok in Hrun as (u0 & w0 & Hfound & Hrun).
  apply guard_Ok in Hfound as [_ ->].
  apply bind_Ok in Hrun as (elem & wr & Hchoice & Hrun).
  apply Random_WeightedChoice_Ok in Hchoice as [Helem ->].
  destruct (Hchoices elem Helem) as [Hnil | (interval & site & Hiv & Hval & Hsite & Hname & Hfree)];
    [by apply elem_of_nil in Hnil|].
  apply list_elem_of_filter in Hiv as [Hov Hiv].
  apply bind_Ok in Hrun as (site0 & w0 & Hsite0 & Hrun).
  apply on_polymer_get_promoter in Hsite0 as (-> & P0 & HP0' & Hsite0).
  simpl in HP0'. assert (P0 = P) as -> by congruence.
  assert (site0 = site) as -> by congruence.
  apply bind_Ok in Hrun as (u1 & w0 & Hinter & Hrun).
  apply guard_Ok in Hinter as [Hinter ->]. apply negb_false_iff in Hinter.
  apply bind_Ok in Hrun as (u2 & w1 & Hstart & Hrun).
  apply update_polymerase_Ok in Hstart as (p0 & Hp0 & ->).
  simpl in Hp0. assert (p0 = p) as -> by congruence.
  apply bind_Ok in Hrun as (u3 & w2 & Hstop & Hrun).
  apply update_polymerase_Ok in Hstop as (p1 & Hp1 & ->).
  simpl in Hp1. rewrite list_lookup_insert_eq in Hp1 by (eapply lookup_lt_Some; eauto).
  injection Hp1 as <-. simpl in Hrun. rewrite list_insert_insert_eq in Hrun.
  set (p2 := Polymerase.set_stop _ (Polymerase.set_start _ p)) in Hrun.
  apply bind_Ok in Hrun as (p2' & w0 & Hp2 & Hrun).
  apply get_polymerase_Ok in Hp2 as [Hp2 ->]. simpl in Hp2.
  rewrite list_lookup_insert_eq in Hp2 by (eapply lookup_lt_Some; eauto).
  injection Hp2 as <-.
  apply bind_Ok in Hrun as (P1 & w0 & HP1 & Hrun).
  apply get_polymer_Ok in HP1 as [HP1 ->]. simpl in HP1.
  assert (P1 = P) as -> by congruence.
  apply bind_Ok in Hrun as (u4 & w0 & Hmask & Hrun).
  apply guard_Ok in Hmask as [Hmask ->]. apply Z.leb_gt in Hmask.
  apply bind_Ok in Hrun as (u5 & w3 & Hcover & Hrun).
  apply on_polymer_Ok in Hcover as (Pa0 & Pa & HPa0 & Hcover & ->).
  simpl in HPa0. assert (Pa0 = P) as -> by congruence.
  apply update_promoter_Ok in Hcover as (sa & Hsa & ->).
  assert (sa = site) as -> by congruence.
  assert (this < length (World.polymers w))%nat as Hthis
    by (eapply lookup_lt_Some; eauto).
  assert (elem < length (Polymer.promoters P))%nat as Helt
    by (eapply lookup_lt_Some; eauto).
  apply bind_Ok in Hrun as (u6 & w4 & Hsave & Hrun).
  apply on_polymer_Ok in Hsave as (Pb0 & Pb & HPb0 & Hsave & ->).
  simpl in HPb0. rewrite list_lookup_insert_eq in HPb0 by done.
  injection HPb0 as <-.
  apply update_promoter_Ok in Hsave as (sb & Hsb & ->).
  simpl in Hsb. rewrite list_lookup_insert_eq in Hsb by done. injection Hsb as <-.
  simpl in Hrun. rewrite !list_insert_insert_eq in Hrun.
  apply bind_Ok in Hrun as (site' & w0 & Hsite' & Hrun).
  apply on_polymer_get_promoter in Hsite' as (-> & Pb' & HPb' & Hsite').
  simpl in HPb'. rewrite list_lookup_insert_eq in HPb' by done. injection HPb' as <-.
  simpl in Hsite'. rewrite list_lookup_insert_eq in Hsite' by done.
  injection Hsite' as <-.
  apply bind_Ok in Hrun as (u7 & w5 & Hcache & Hrun).
  apply on_polymer_Ok in Hcache as (Pc0 & Pc & HPc0 & Hcache & ->).
  simpl in HPc0. rewrite list_lookup_insert_eq in HPc0 by done. injection HPc0 as <-.
  apply CoverBindingSite_Ok_inv in Hcache as (Hcount & Eu & Eps & Eocc & Epl & _).
  simpl in Hcount, Eu, Eps, Eocc, Epl, Hrun. rewrite list_insert_insert_eq in Hrun.
  apply bind_Ok in Hrun as ([] & w6 & Hinsert & Hrun).
  exists P, p, elem, site, interval, Pc.
  match type of Hinsert with Polymer_Insert _ _ ?w1 = _ => exists w1 end.
  split_and!; try done.
  - simpl. by apply list_lookup_insert_eq.
  - by rewrite Hname in Eu.
  - by rewrite Hname in Hcount.
  - exists w6. split; [exact Hinsert|].
    apply bind_Ok in Hrun as (s6 & w0 & Hs6 & Hrun).
    apply on_polymer_get_promoter in Hs6 as (-> & _).
    destruct (_ && _).
    + apply log_Ok in Hrun as ->. done.
    + unfold ret in Hrun. by injection Hrun as <-.
Qed.

(** X24. A [Bind] that returns normally has chosen a promoter of the
    given name that the binding tree reports for [start_ .. mask start],
    that was not covered and that interacts with the polymerase.  The
    polymerase now starts where the promoter starts and spans its
    footprint, ending before the mask; it is one more occupant of the
    polymer; the promoter is covered and its state saved; the count of
    uncovered sites of that name has gone down by one and is not negative;
    no other polymerase and no other promoter has changed. *)
Theorem Bind_places_polymerase (w : World.t) (this pol : nat)
    (promoter_name : string) (w' : World.t) :
  Polymer_Bind this pol promoter_name w = Ok tt w' →
  ∃ P p elem site interval P' p',
    World.polymers w !! this = Some P ∧
    World.polymerases w !! pol = Some p ∧
    interval ∈ Polymer.binding_sites_ P ∧
    IntervalTree.overlaps (Polymer.start_ P) (Mask.start (Polymer.mask_ P)) interval
      = true ∧
    Interval.value interval = elem ∧
    Polymer.promoters P !! elem = Some site ∧
    Promoter.name site = promoter_name ∧
    Promoter.IsCovered site = false ∧
    Promoter.CheckInteraction (Polymerase.name p) site = true ∧
    World.polymerases w' = <[pol := p']> (World.polymerases w) ∧
    Polymerase.start p' = Promoter.start site ∧
    Polymerase.stop p' = Promoter.start site + Polymerase.footprint p - 1 ∧
    Polymerase.stop p' < Mask.start (Polymer.mask_ P) ∧
    same_polymerase p p' ∧
    World.polymers w' !! this = Some P' ∧
    Polymer.promoters P'
      = <[elem := Promoter.SaveState (Promoter.Cover site)]> (Polymer.promoters P) ∧
    Promoter.IsCovered (Promoter.SaveState (Promoter.Cover site)) = true ∧
    pol ∈ Polymer.polymerases_ P' ∧
    length (Polymer.polymerases_ P') = S (length (Polymer.polymerases_ P)) ∧
    (∃ count, Polymer.uncovered_ P' !! promoter_name = Some count ∧ 0 ≤ count ∧
              count = match Polymer.uncovered_ P !! promoter_name with
                      | Some c => c - 1
                      | None => 0
                      end).
Proof.
  intros Hrun.
  destruct (Bind_Ok_inv _ _ _ _ _ Hrun)
    as (P & p & elem & site & interval & Pc & w1 & HP & Hp & Hiv & Hov & Hval & Hsite
        & Hname & Hfree & Hinter & Hmask & Eh1 & HPc & Eps & Eocc & Epl & Eu
        & Hcount & w2 & Hinsert & Ep' & Eh').
  destruct (Insert_Ok_inv _ _ _ _ _ Hinsert)
    as (Pc' & p2 & it & weight & HPc' & Hp2 & Hit & _ & _ & Eh2 & Ep2).
  assert (Pc' = Pc) as -> by congruence.
  set (P' := Polymer.set_prop_list_ _ _) in Ep2.
  exists P, p, elem, site, interval, P',
    (Polymerase.set_stop (Promoter.start site + Polymerase.footprint p - 1)
       (Polymerase.set_start (Promoter.start site) p)).
  split_and!; try done.
  - by rewrite Eh', Eh2, Eh1.
  - rewrite Ep', Ep2. apply list_lookup_insert_eq. eapply lookup_lt_Some; eauto.
  - unfold P'. simpl. unfold vector_insert. rewrite elem_of_app, elem_of_cons. tauto.
  - unfold P'. simpl. unfold vector_insert. rewrite <- Eocc.
    rewrite length_app. simpl. rewrite length_take, length_drop. lia.
  - unfold P'. simpl. rewrite Eu, lookup_insert_eq. eexists. done.
Qed.

(** X25. After a [Transcript::Bind] that returns normally the reading
    frame of the polymerase is the start position of the promoter it was
    bound to, reduced by the [%] of C++: the remainder has the sign of the
    position and lies between -2 and 2. *)
Theorem Transcript_Bind_sets_frame (w : World.t) (this pol : nat)
    (promoter_name : string) (w' : World.t) :
  Transcript_Bind this pol promoter_name w = Ok tt w' →
  ∃ P elem site p',
    World.polymers w !! this = Some P ∧
    Polymer.promoters P !! elem = Some site ∧
    Promoter.name site = promoter_name ∧
    World.polymerases w' !! pol = Some p' ∧
    Polymerase.start p' = Promoter.start site ∧
    Polymerase.reading_frame p' = Z.rem (Promoter.start site) 3 ∧
    -2 ≤ Polymerase.reading_frame p' ≤ 2.
Proof.
  unfold Transcript_Bind. intros Hrun.
  apply bind_Ok in Hrun as ([] & w1 & Hbind & Hframe).
  destruct (Bind_Ok_inv _ _ _ _ _ Hbind)
    as (P & p & elem & site & interval & Pc & w0 & HP & Hp & _ & _ & _ & Hsite
        & Hname & _ & _ & _ & Eh0 & _ & _ & _ & _ & _ & _ & w2 & Hinsert & _ & Eh1).
  apply Insert_Ok_inv in Hinsert as (_ & _ & _ & _ & _ & _ & _ & _ & _ & Eh2 & _).
  apply update_polymerase_Ok in Hframe as (p1 & Hp1 & ->).
  rewrite Eh1, Eh2, Eh0 in Hp1.
  rewrite list_lookup_insert_eq in Hp1 by (eapply lookup_lt_Some; eauto).
  injection Hp1 as <-.
  pose proof (Z.rem_bound_abs (Promoter.start site) 3 ltac:(lia)) as Hrem.
  exists P, elem, site. eexists. split_and!; [done | done | done | | | | |].
  - simpl. apply list_lookup_insert_eq. rewrite Eh1, Eh2, Eh0, length_insert.
    eapply lookup_lt_Some; eauto.
  - reflexivity.
  - reflexivity.
  - simpl. lia.
  - simpl. lia.
Qed.

End BindSuccess.

(** * Initialize: counting the free promoters *)

Section InitializeCounts.
Context `{Platform}.

Lemma names_species_ext (P P' : Polymer.t) (n : string) (iv : Interval.t) :
  (∀ i s, Polymer.promoters P !! i = Some s →
          ∃ s', Polymer.promoters P' !! i = Some s' ∧ Promoter.name s' = Promoter.name s) →
  is_Some (Polymer.promoters P !! Interval.value iv) →
  names_species P' n iv = names_species P n iv.
Proof.
  intros Hps [s Hs]. unfold names_species.
  destruct (Hps _ _ Hs) as (s' & Hs' & En). rewrite Hs, Hs'. simpl. by rewrite En.
Qed.

Lemma count_species_ext (P P' : Polymer.t) (n : string) (hits : list Interval.t) :
  (∀ i s, Polymer.promoters P !! i = Some s →
          ∃ s', Polymer.promoters P' !! i = Some s' ∧ Promoter.name s' = Promoter.name s) →
  Forall (λ iv, is_Some (Polymer.promoters P !! Interval.value iv)) hits →
  filter (λ iv, names_species P' n iv = true) hits
  = filter (λ iv, names_species P n iv = true) hits.
Proof.
  intros Hps Hvalid. induction Hvalid as [|iv hits Hiv Hvalid IH]; [done|].
  rewrite !filter_cons, IH, (names_species_ext P P' n iv Hps Hiv). done.
Qed.

(** One iteration of the second loop of [Initialize]. *)
Lemma uncover_iteration (iv : Interval.t) (P : Polymer.t) (s0 : Promoter.t) :
  Polymer.promoters P !! Interval.value iv = Some s0 →
  (let* site := get_promoter (Interval.value iv) in
   Polymer_UncoverBindingSite (Promoter.name site) ;;
   update_promoter (Interval.value iv) Promoter.Uncover ;;
   update_promoter (Interval.value iv) Promoter.SaveState) P
  = Ok tt
      (Polymer.set_promoters
         (<[Interval.value iv := Promoter.SaveState (Promoter.Uncover s0)]>
            (Polymer.promoters P))
         (Polymer.set_species_log_
            (<[Promoter.name s0
               := default 0 (Polymer.species_log_ P !! Promoter.name s0) + 1]>
               (Polymer.species_log_ P))
            (Polymer.set_uncovered_
               (<[Promoter.name s0
                  := default 0 (Polymer.uncovered_ P !! Promoter.name s0) + 1]>
                  (Polymer.uncovered_ P)) P))).
Proof.
  intros Hs0.
  assert (Interval.value iv < length (Polymer.promoters P))%nat as Hlt
    by (eapply lookup_lt_Some; eauto).
  rewrite (bind_run _ _ P s0 P) by (unfold get_promoter; by rewrite Hs0).
  erewrite bind_run by apply UncoverBindingSite_run.
  unfold update_promoter, bind, get_promoter, modify. simpl. rewrite Hs0. simpl.
  rewrite list_lookup_insert_eq by done. simpl.
  by rewrite list_insert_insert_eq.
Qed.

(** The second loop of [Initialize], over hits that all point to promoters
    of the polymer. *)
Lemma uncover_loop (hits : list Interval.t) :
  ∀ P, Forall (λ iv, is_Some (Polymer.promoters P !! Interval.value iv)) hits →
  ∃ P',
    for_each hits (λ interval,
      let* site := get_promoter (Interval.value interval) in
      Polymer_UncoverBindingSite (Promoter.name site) ;;
      update_promoter (Interval.value interval) Promoter.Uncover ;;
      update_promoter (Interval.value interval) Promoter.SaveState) P = Ok tt P' ∧
    (∀ n, default 0 (Polymer.uncovered_ P' !! n)
          = default 0 (Polymer.uncovered_ P !! n)
            + Z.of_nat (length (filter (λ iv, names_species P n iv = true) hits))) ∧
    (∀ i s, Polymer.promoters P !! i = Some s →
       Polymer.promoters P' !! i
       = Some (if registered hits i
               then Promoter.SaveState (Promoter.Uncover s) else s)) ∧
    Polymer.binding_sites_ P' = Polymer.binding_sites_ P ∧
    Polymer.release_sites_ P' = Polymer.release_sites_ P ∧
    Polymer.mask_ P' = Polymer.mask_ P ∧
    Polymer.polymerases_ P' = Polymer.polymerases_ P.
Proof.
  induction hits as [|iv hits IH]; intros P Hvalid.
  - exists P. simpl. split_and!; try done. intros n. simpl. lia.
  - apply Forall_cons in Hvalid as [[s0 Hs0] Hvalid]. cbn [for_each].
    rewrite (bind_run _ _ _ _ _ (uncover_iteration iv P s0 Hs0)).
    assert (Interval.value iv < length (Polymer.promoters P))%nat as Hlt
      by (eapply lookup_lt_Some; eauto).
    set (P3 := Polymer.set_promoters _ _).
    assert (∀ i s, Polymer.promoters P !! i = Some s →
              Polymer.promoters P3 !! i
              = Some (if bool_decide (Interval.value iv = i)
                      then Promoter.SaveState (Promoter.Uncover s) else s)) as Hp3.
    { intros i s Hs. unfold P3. simpl.
      destruct (decide (Interval.value iv = i)) as [E|E].
      - rewrite bool_decide_eq_true_2 by done. rewrite <- E.
        rewrite list_lookup_insert_eq by done. rewrite <- E in Hs. congruence.
      - rewrite bool_decide_eq_false_2 by done. by rewrite list_lookup_insert_ne. }
    assert (∀ i s, Polymer.promoters P !! i = Some s →
              ∃ s', Polymer.promoters P3 !! i = Some s'
                    ∧ Promoter.name s' = Promoter.name s) as Hnames.
    { intros i s Hs. rewrite (Hp3 i s Hs). destruct (bool_decide _); eauto. }
    destruct (IH P3) as (P' & Hrun & Hcount & Hps & Et & Er & Em & Eo).
    { eapply Forall_impl; [exact Hvalid|]. intros iv' [s' Hs'].
      destruct (Hnames _ _ Hs') as (s'' & Hs'' & _). eauto. }
    exists P'. split_and!; [exact Hrun | | | done | done | done | done].
    + intros n. rewrite Hcount. rewrite (count_species_ext P P3 n hits Hnames Hvalid).
      unfold P3 at 1. simpl. rewrite filter_cons.
      destruct (decide (Promoter.name s0 = n)) as [E|E].
      * assert (names_species P n iv = true) as Hn.
        { unfold names_species. rewrite Hs0. simpl. apply bool_decide_eq_true. congruence. }
        destruct (decide (names_species P n iv = true)); [|done].
        rewrite E, lookup_insert_eq. simpl. lia.
      * assert (names_species P n iv ≠ true) as Hn.
        { unfold names_species. rewrite Hs0. simpl. rewrite bool_decide_eq_true.
          congruence. }
        destruct (decide (names_species P n iv = true)); [done|].
        rewrite lookup_insert_ne by done. lia.
    + intros i s Hs. rewrite (Hps i _ (Hp3 i s Hs)). unfold registered. simpl.
      destruct (bool_decide (Interval.value iv = i)); simpl; [|done].
      by destruct (existsb _ hits).
Qed.

Lemma filter_none (keep : Interval.t → bool) (l : list Interval.t) :
  Forall (λ iv, keep iv = false) l → filter (λ iv, keep iv = true) l = [].
Proof.
  induction 1 as [|iv l Hiv _ IH]; [done|].
  rewrite filter_cons_False by (by rewrite Hiv). exact IH.
Qed.

(** X26. [Initialize] counts the free promoters.  On a polymer none of
    whose binding intervals overlaps the mask, it builds the two trees from
    the interval vectors, leaves every promoter whose interval overlaps
    [start_ .. mask stop] uncovered with its state saved, and adds to the
    cached count of each species the number of those intervals that point
    to a promoter of that species.  It does not reset the counts: they are
    added to what the cache held. *)
Theorem Initialize_counts_free_promoters (P : Polymer.t) :
  Forall (λ iv, is_Some (Polymer.promoters P !! Interval.value iv))
         (Polymer.binding_intervals_ P) →
  Forall (λ iv, IntervalTree.overlaps (Mask.start (Polymer.mask_ P))
                  (Mask.stop (Polymer.mask_ P)) iv = false)
         (Polymer.binding_intervals_ P) →
  let visited :=
    filter (λ iv, IntervalTree.overlaps (Polymer.start_ P)
                    (Mask.stop (Polymer.mask_ P)) iv = true)
           (Polymer.binding_intervals_ P) in
  ∃ P',
    Polymer_Initialize P = Ok tt P' ∧
    Polymer.binding_sites_ P' = Polymer.binding_intervals_ P ∧
    Polymer.release_sites_ P' = Polymer.release_intervals_ P ∧
    (∀ n, default 0 (Polymer.uncovered_ P' !! n)
          = default 0 (Polymer.uncovered_ P !! n)
            + Z.of_nat (length (filter (λ iv, names_species P n iv = true) visited))) ∧
    (∀ i s, Polymer.promoters P !! i = Some s →
       Polymer.promoters P' !! i
       = Some (if registered visited i
               then Promoter.SaveState (Promoter.Uncover s) else s)).
Proof.
  intros Hvalid Hclear. cbv zeta. unfold Polymer_Initialize.
  set (P1 := Polymer.set_binding_sites_
               (IntervalTree.build (Polymer.binding_intervals_ P)) P).
  rewrite (bind_run
             (modify (λ Q, Polymer.set_binding_sites_
                             (IntervalTree.build (Polymer.binding_intervals_ Q)) Q))
             _ P tt P1 eq_refl).
  set (P2 := Polymer.set_release_sites_
               (IntervalTree.build (Polymer.release_intervals_ P1)) P1).
  rewrite (bind_run
             (modify (λ Q, Polymer.set_release_sites_
                             (IntervalTree.build (Polymer.release_intervals_ Q)) Q))
             _ P1 tt P2 eq_refl).
  cbv zeta. rewrite (bind_run get _ P2 P2 P2 eq_refl). cbv beta.
  rewrite findOverlapping_nil.
  assert (Polymer.binding_sites_ P2 = Polymer.binding_intervals_ P) as Et by done.
  assert (Polymer.mask_ P2 = Polymer.mask_ P) as Em by done.
  assert (Polymer.start_ P2 = Polymer.start_ P) as Es by done.
  rewrite Et, Em. unfold IntervalTree.t in *.
  rewrite (filter_none _ _ Hclear). cbn [for_each].
  rewrite (bind_run (ret tt) _ P2 tt P2 eq_refl).
  rewrite (bind_run get _ P2 P2 P2 eq_refl).
  rewrite findOverlapping_nil, Et, Es. unfold IntervalTree.t in *.
  destruct (uncover_loop
              (filter (λ iv, IntervalTree.overlaps (Polymer.start_ P)
                               (Mask.stop (Polymer.mask_ P)) iv = true)
                      (Polymer.binding_intervals_ P)) P2)
    as (P' & Hrun & Hcount & Hps & Et' & Er' & _).
  { apply Forall_forall. intros iv [_ Hin]%list_elem_of_filter.
    rewrite Forall_forall in Hvalid. by apply Hvalid. }
  exists P'. split_and!; [exact Hrun | by rewrite Et' | by rewrite Er' | exact Hcount | exact Hps].
Qed.

End InitializeCounts.

(** * Runs of the signal and of the covering functions *)

Section CoveringRuns.
#[local] Existing Instance ieee.

(** A signal with one slot takes a second one. *)
Lemma connect_is_called_last_witness :
  let s := (Signal.connect (Call_ShiftMask 1) Signal.new).2 in
  signal_wf s ∧
  Signal.slots_ (Signal.connect (Call_ShiftMask 2) s).2
  = [(1, Call_ShiftMask 1); (2, Call_ShiftMask 2)].
Proof.
  cbv zeta.
  assert (signal_wf (Signal.connect (Call_ShiftMask 1) Signal.new).2) as Hwf.
  { unfold signal_wf. vm_compute. constructor; [discriminate | constructor]. }
  split; [exact Hwf|].
  destruct (connect_is_called_last (Call_ShiftMask 2) _ Hwf) as (_ & _ & -> & _).
  vm_compute. reflexivity.
Defined.

(** The second slot is disconnected again. *)
Lemma connect_disconnect_round_trip_witness :
  let s := (Signal.connect (Call_ShiftMask 1) Signal.new).2 in
  signal_wf s ∧
  Signal.slots_ (Signal.disconnect 2 (Signal.connect (Call_ShiftMask 2) s).2)
  = [(1, Call_ShiftMask 1)].
Proof.
  cbv zeta.
  assert (signal_wf (Signal.connect (Call_ShiftMask 1) Signal.new).2) as Hwf.
  { unfold signal_wf. vm_compute. constructor; [discriminate | constructor]. }
  split; [exact Hwf|].
  destruct (connect_disconnect_round_trip (Call_ShiftMask 2) (Call_ShiftMask 3) _ Hwf)
    as (E & _).
  exact E.
Defined.

(** The genome of [w_masked_promoter]: the promoter [P] at 10..19 is
    registered in the binding tree and the mask spans 15..100. *)
Lemma masked_polymer_aligned : sites_aligned (polymer_at w_masked_promoter 0).
Proof.
  unfold sites_aligned.
  assert (Polymer.binding_sites_ (polymer_at w_masked_promoter 0)
          = [Interval.mk 10 19 0]) as -> by (vm_compute; reflexivity).
  constructor; [|constructor].
  exists (Promoter.mk "P" 10 19 {[ "rnapol" := num_one ]} "promoter" "" false false).
  split; [vm_compute; reflexivity|]. simpl. lia.
Qed.

Lemma Uncover_then_Cover_round_trip_witness :
  let P := polymer_at w_masked_promoter 0 in
  0 ≤ default 0 (Polymer.uncovered_ P !! "P") ∧
  ∃ P', (Polymer_UncoverBindingSite "P" ;; Polymer_CoverBindingSite "P") P = Ok tt P' ∧
        default 0 (Polymer.uncovered_ P' !! "P")
        = default 0 (Polymer.uncovered_ P !! "P").
Proof.
  cbv zeta.
  assert (0 ≤ default 0 (Polymer.uncovered_ (polymer_at w_masked_promoter 0) !! "P"))
    as Hnonneg by (vm_compute; discriminate).
  split; [exact Hnonneg|].
  destruct (Uncover_then_Cover_round_trip "P" _ Hnonneg) as (P' & Hrun & E & _).
  exists P'. split; [exact Hrun | exact E].
Defined.

Lemma CheckBehind_effect_witness :
  let P := polymer_at w_masked_promoter 0 in
  sites_aligned P ∧
  ∃ ps, Polymer_CheckBehind 19 20 P = Ok tt (Polymer.set_promoters ps P).
Proof.
  cbv zeta. split; [exact masked_polymer_aligned|].
  destruct (CheckBehind_effect 19 20 _ masked_polymer_aligned) as (ps & Hrun & _).
  exists ps. exact Hrun.
Defined.

Lemma CheckAhead_effect_witness :
  let P := polymer_at w_masked_promoter 0 in
  sites_aligned P ∧
  ∃ ps, Polymer_CheckAhead 19 20 P = Ok tt (Polymer.set_promoters ps P).
Proof.
  cbv zeta. split; [exact masked_polymer_aligned|].
  destruct (CheckAhead_effect 19 20 _ masked_polymer_aligned) as (ps & Hrun & _).
  exists ps. exact Hrun.
Defined.

Lemma ShiftMask_effect_witness :
  let P := polymer_at w_masked_promoter 0 in
  sites_aligned P ∧
  ∃ ps, Polymer_ShiftMask P
        = Ok tt (Polymer.set_promoters ps
                   (Polymer.set_mask_ (Mask.Recede (Polymer.mask_ P)) P)).
Proof.
  cbv zeta. split; [exact masked_polymer_aligned|].
  pose proof (ShiftMask_effect _ masked_polymer_aligned) as Hx. cbv zeta in Hx.
  assert ((Mask.start (Polymer.mask_ (polymer_at w_masked_promoter 0))
           <=? Mask.stop (Polymer.mask_ (polymer_at w_masked_promoter 0))) = true)
    as E by (vm_compute; reflexivity).
  rewrite E in Hx. destruct Hx as (ps & Hrun & _). exists ps. exact Hrun.
Defined.


End CoveringRuns.
(** * Runs of the member functions *)

Section MemberRuns.
#[local] Existing Instance ieee.

(** The genome of [w_huge] has one occupant, at 10..19. *)
Lemma huge_ordered : Ordered w_huge 0.
Proof.
  exists (polymer_at w_huge 0), [polymerase_at w_huge 0].
  split; [vm_compute; reflexivity|]. split.
  - unfold occupants_are.
    assert (Polymer.polymerases_ (polymer_at w_huge 0) = [0%nat]) as ->
      by (vm_compute; reflexivity).
    constructor; [vm_compute; reflexivity | constructor].
  - simpl. split; [constructor | exact I].
Qed.

Lemma huge_lookup : World.polymers w_huge !! 0%nat = Some (polymer_at w_huge 0).
Proof. vm_compute. reflexivity. Qed.

Lemma huge_lengths :
  length (Polymer.prop_list_ (polymer_at w_huge 0))
  = length (Polymer.polymerases_ (polymer_at w_huge 0)).
Proof. vm_compute. reflexivity. Qed.

(** The second polymerase, at 30..39, is inserted behind the first. *)
Lemma Insert_keeps_order_witness :
  Ordered w_huge 0 ∧
  Polymer_Insert 0 1 w_huge = Ok tt w_huge_and_one ∧
  Ordered w_huge_and_one 0.
Proof.
  assert (Polymer_Insert 0 1 w_huge = Ok tt w_huge_and_one) as Hrun
    by (vm_compute; reflexivity).
  split; [exact huge_ordered|]. split; [exact Hrun|].
  exact (proj1 (Insert_keeps_order _ _ _ _ huge_ordered Hrun)).
Defined.


(** The second polymerase of [w_huge] is not on the genome. *)
Lemma Terminate_non_occupant_undefined_witness :
  let P := polymer_at w_huge 0 in
  World.polymers w_huge !! 0%nat = Some P ∧
  length (Polymer.prop_list_ P) = length (Polymer.polymerases_ P) ∧
  (1%nat ∉ Polymer.polymerases_ P) ∧
  Polymer_Terminate 0 1 "" w_huge = Undefined.
Proof.
  cbv zeta.
  assert (1%nat ∉ Polymer.polymerases_ (polymer_at w_huge 0)) as Hout.
  { assert (Polymer.polymerases_ (polymer_at w_huge 0) = [0%nat]) as ->
      by (vm_compute; reflexivity).
    intros Hin. inversion Hin as [|? ? ? Hin']. inversion Hin'. }
  split; [exact huge_lookup|]. split; [exact huge_lengths|]. split; [exact Hout|].
  exact (Terminate_non_occupant_undefined _ 0 1 "" _ huge_lookup huge_lengths Hout).
Defined.

Lemma Move_invalid_index_witness :
  let P := polymer_at w_huge 0 in
  World.polymers w_huge !! 0%nat = Some P ∧
  is_int (-1) ∧
  Z.of_nat (length (Polymer.prop_list_ P)) < 2 ^ 63 ∧
  (-1 < 0 ∨ Z.of_nat (length (Polymer.prop_list_ P)) ≤ -1) ∧
  Polymer_Move 0 (-1) w_huge = Throw InvalidIndex w_huge.
Proof.
  cbv zeta.
  assert (is_int (-1)) as Hint by (unfold is_int; lia).
  assert (Z.of_nat (length (Polymer.prop_list_ (polymer_at w_huge 0))) < 2 ^ 63)
    as Hlen by (vm_compute; reflexivity).
  assert (-1 < 0 ∨ Z.of_nat (length (Polymer.prop_list_ (polymer_at w_huge 0))) ≤ -1)
    as Hneg by (left; lia).
  split; [exact huge_lookup|]. split; [exact Hint|]. split; [exact Hlen|].
  split; [exact Hneg|].
  exact (Move_invalid_index _ 0 (-1) _ huge_lookup Hint Hlen Hneg).
Defined.

(** The polymerase bound in [w_bound] takes a step. *)
Lemma Move_moves_one_polymerase_witness :
  let P := polymer_at w_bound 0 in
  let w' := world_of (Polymer_Move 0 0 w_bound) in
  World.polymers w_bound !! 0%nat = Some P ∧
  length (Polymer.polymerases_ P) = length (Polymer.prop_list_ P) ∧
  is_int (0 + 1) ∧
  Polymer_Move 0 0 w_bound = Ok tt w' ∧
  length (World.polymerases w') = length (World.polymerases w_bound).
Proof.
  cbv zeta.
  assert (World.polymers w_bound !! 0%nat = Some (polymer_at w_bound 0)) as HP
    by (vm_compute; reflexivity).
  assert (length (Polymer.polymerases_ (polymer_at w_bound 0))
          = length (Polymer.prop_list_ (polymer_at w_bound 0))) as Hlen
    by (vm_compute; reflexivity).
  assert (is_int (0 + 1)) as Hint by (unfold is_int; lia).
  assert (Polymer_Move 0 0 w_bound = Ok tt (world_of (Polymer_Move 0 0 w_bound)))
    as Hrun by (vm_compute; reflexivity).
  split; [exact HP|]. split; [exact Hlen|]. split; [exact Hint|].
  split; [exact Hrun|].
  destruct (Move_moves_one_polymerase _ _ _ _ _ HP Hlen Hint Hrun)
    as (pol & p & P' & _ & _ & _ & E & _).
  exact E.
Defined.

(** The two polymerases of [w_neighbours] stand at 10..19 and 20..29; a
    step of the first is taken back. *)
Lemma Move_keeps_separation_witness :
  let w' := world_of (Polymer_Move 0 0 w_neighbours) in
  Separated w_neighbours 0 ∧
  (∀ P, World.polymers w_neighbours !! 0%nat = Some P →
        length (Polymer.polymerases_ P) = length (Polymer.prop_list_ P)) ∧
  is_int (0 + 1) ∧
  Polymer_Move 0 0 w_neighbours = Ok tt w' ∧
  Separated w' 0.
Proof.
  cbv zeta.
  assert (World.polymers w_neighbours !! 0%nat = Some (polymer_at w_neighbours 0))
    as HP by (vm_compute; reflexivity).
  assert (Separated w_neighbours 0) as Hsep.
  { exists (polymer_at w_neighbours 0),
           [polymerase_at w_neighbours 0; polymerase_at w_neighbours 1].
    split; [exact HP|]. split.
    - unfold occupants_are.
      assert (Polymer.polymerases_ (polymer_at w_neighbours 0) = [0%nat; 1%nat]) as ->
        by (vm_compute; reflexivity).
      constructor; [vm_compute; reflexivity|].
      constructor; [vm_compute; reflexivity | constructor].
    - split.
      + constructor; [vm_compute; discriminate|].
        constructor; [vm_compute; discriminate | constructor].
      + simpl. split; [|split; [constructor | exact I]].
        constructor; [vm_compute; reflexivity | constructor]. }
  assert (∀ P, World.polymers w_neighbours !! 0%nat = Some P →
               length (Polymer.polymerases_ P) = length (Polymer.prop_list_ P))
    as Hlen.
  { assert (length (Polymer.polymerases_ (polymer_at w_neighbours 0))
            = length (Polymer.prop_list_ (polymer_at w_neighbours 0))) as H0
      by (vm_compute; reflexivity).
    intros P HP'. rewrite HP in HP'. revert HP' H0.
    generalize (polymer_at w_neighbours 0). intros Q [= <-] H0. exact H0. }
  assert (is_int (0 + 1)) as Hint by (unfold is_int; lia).
  assert (Polymer_Move 0 0 w_neighbours
          = Ok tt (world_of (Polymer_Move 0 0 w_neighbours)))
    as Hrun by (vm_compute; reflexivity).
  split; [exact Hsep|]. split; [exact Hlen|]. split; [exact Hint|].
  split; [exact Hrun|].
  exact (Move_keeps_separation _ _ _ _ Hsep Hlen Hint Hrun).
Defined.

Lemma Execute_leaves_log_empty_witness :
  let w' := world_of (Polymer_Execute 0 w_bound) in
  Polymer_Execute 0 w_bound = Ok tt w' ∧
  ∃ P', World.polymers w' !! 0%nat = Some P' ∧ Polymer.species_log_ P' = ∅.
Proof.
  cbv zeta.
  assert (Polymer_Execute 0 w_bound = Ok tt (world_of (Polymer_Execute 0 w_bound)))
    as Hrun by (vm_compute; reflexivity).
  split; [exact Hrun|].
  destruct (Execute_leaves_log_empty _ _ _ Hrun) as (P & P' & _ & HP' & Hlog & _).
  exists P'. split; [exact HP' | exact Hlog].
Defined.

(** A second promoter is added to the genome of [w_unbound]. *)
Lemma AddPromoter_registers_witness :
  let P := polymer_at w_unbound 0 in
  ∃ g, Polymer.derived P = Polymer.Genome g ∧
       ∃ P', Genome_AddPromoter "Q" 50 59 ∅ P = Ok tt P' ∧
             Genome_bindings P' = Ok (<["Q" := ∅]> (Polymer.bindings_ g)) P'.
Proof.
  cbv zeta.
  destruct (Polymer.derived (polymer_at w_unbound 0)) as [| |g] eqn:Hg;
    [vm_compute in Hg; discriminate.. |].
  exists g. split; [reflexivity|].
  destruct (AddPromoter_registers "Q" 50 59 ∅ _ g Hg) as (P' & Hrun & Hb & _).
  exists P'. split; [exact Hrun | exact Hb].
Defined.

(** A genome of length 3 refuses two weights. *)
Lemma AddWeights_checks_length_witness :
  ∃ G w', Genome_new "genome" 3 draws_low = Ok G w' ∧
          3 < 2 ^ 64 ∧
          Genome_AddWeights [num_one; num_one] G = Throw LengthError G.
Proof.
  destruct (Genome_new "genome" 3 draws_low) as [G w'|e w'|] eqn:Hnew;
    [| vm_compute in Hnew; discriminate..].
  assert (3 < 2 ^ 64) as Hn by lia.
  exists G, w'. split; [reflexivity|]. split; [exact Hn|].
  exact (proj2 (AddWeights_checks_length "genome" 3 _ _ G [num_one; num_one] Hnew Hn)).
Defined.

(** The polymerase of [w_unbound] binds to the promoter [P]. *)
Lemma Bind_places_polymerase_witness :
  let w' := world_of (Polymer_Bind 0 0 "P" w_unbound) in
  Polymer_Bind 0 0 "P" w_unbound = Ok tt w' ∧
  ∃ P', World.polymers w' !! 0%nat = Some P' ∧ 0%nat ∈ Polymer.polymerases_ P'.
Proof.
  cbv zeta.
  assert (Polymer_Bind 0 0 "P" w_unbound
          = Ok tt (world_of (Polymer_Bind 0 0 "P" w_unbound)))
    as Hrun by (vm_compute; reflexivity).
  split; [exact Hrun|].
  destruct (Bind_places_polymerase _ _ _ _ _ Hrun)
    as (P & p & elem & site & interval & P' & p' & _ & _ & _ & _ & _ & _ & _ & _
        & _ & _ & _ & _ & _ & _ & HP' & _ & _ & Hin & _).
  exists P'. split; [exact HP' | exact Hin].
Defined.

(** The ribosome of [w_translating] binds to the site at 25..29 of the
    transcript: its reading frame is 1. *)
Lemma Transcript_Bind_sets_frame_witness :
  let w' := world_of (Transcript_Bind 1 1 "g_rbs" w_translating) in
  Transcript_Bind 1 1 "g_rbs" w_translating = Ok tt w' ∧
  ∃ p', World.polymerases w' !! 1%nat = Some p' ∧
        -2 ≤ Polymerase.reading_frame p' ≤ 2.
Proof.
  cbv zeta.
  assert (Transcript_Bind 1 1 "g_rbs" w_translating
          = Ok tt (world_of (Transcript_Bind 1 1 "g_rbs" w_translating)))
    as Hrun by (vm_compute; reflexivity).
  split; [exact Hrun|].
  destruct (Transcript_Bind_sets_frame _ _ _ _ _ Hrun)
    as (P & elem & site & p' & _ & _ & _ & Hp' & _ & _ & Hrange).
  exists p'. split; [exact Hp' | exact Hrange].
Defined.

(** The genome of [w_two_promoters] has two promoters named [P] and no
    mask: [Initialize] counts both. *)
Lemma Initialize_counts_free_promoters_witness :
  let P := polymer_at w_two_promoters 0 in
  Forall (λ iv, is_Some (Polymer.promoters P !! Interval.value iv))
         (Polymer.binding_intervals_ P) ∧
  Forall (λ iv, IntervalTree.overlaps (Mask.start (Polymer.mask_ P))
                  (Mask.stop (Polymer.mask_ P)) iv = false)
         (Polymer.binding_intervals_ P) ∧
  ∃ P', Polymer_Initialize P = Ok tt P' ∧
        default 0 (Polymer.uncovered_ P' !! "P") = 2.
Proof.
  cbv zeta.
  assert (Polymer.binding_intervals_ (polymer_at w_two_promoters 0)
          = [Interval.mk 10 19 0; Interval.mk 40 49 1]) as Hiv
    by (vm_compute; reflexivity).
  assert (Forall (λ iv, is_Some (Polymer.promoters (polymer_at w_two_promoters 0)
                                   !! Interval.value iv))
                 (Polymer.binding_intervals_ (polymer_at w_two_promoters 0))) as Hvalid.
  { rewrite Hiv.
    constructor; [apply not_eq_None_Some; vm_compute; discriminate|].
    constructor; [apply not_eq_None_Some; vm_compute; discriminate | constructor]. }
  assert (Forall (λ iv, IntervalTree.overlaps
                          (Mask.start (Polymer.mask_ (polymer_at w_two_promoters 0)))
                          (Mask.stop (Polymer.mask_ (polymer_at w_two_promoters 0))) iv
                        = false)
                 (Polymer.binding_intervals_ (polymer_at w_two_promoters 0))) as Hclear.
  { rewrite Hiv.
    constructor; [vm_compute; reflexivity|].
    constructor; [vm_compute; reflexivity | constructor]. }
  split; [exact Hvalid|]. split; [exact Hclear|].
  destruct (Initialize_counts_free_promoters _ Hvalid Hclear)
    as (P' & Hrun & _ & _ & Hcount & _).
  exists P'. split; [exact Hrun|].
  rewrite (Hcount "P"). vm_compute. reflexivity.
Defined.

(** The mask check for a polymerase at 11..20 in front of a mask that
    starts at 20.  A mask that admits nobody: a collision, and no fatal
    error.  A mask that admits the polymerase: no collision, and the mask
    starts at 21 afterwards. *)
Lemma CheckMaskCollisions_resolution_witness :
  (let w := w_at_mask in
   World.polymers w !! 0%nat = Some (polymer_at w 0) ∧
   World.polymerases w !! 0%nat = Some (polymerase_at w 0) ∧
   Mask.start (Polymer.mask_ (polymer_at w 0)) ≤ Polymer.stop_ (polymer_at w 0) ∧
   Mask.start (Polymer.mask_ (polymer_at w 0)) ≤ Polymerase.stop (polymerase_at w 0) ∧
   Polymer_CheckMaskCollisions 0 0 w = Ok true w ∧
   ∀ e w', Polymer_CheckMaskCollisions 0 0 w ≠ Throw e w') ∧
  (let w := w_at_open_mask in
   World.polymers w !! 0%nat = Some (polymer_at w 0) ∧
   World.polymerases w !! 0%nat = Some (polymerase_at w 0) ∧
   Mask.start (Polymer.mask_ (polymer_at w 0)) ≤ Polymer.stop_ (polymer_at w 0) ∧
   Mask.start (Polymer.mask_ (polymer_at w 0)) ≤ Polymerase.stop (polymerase_at w 0) ∧
   ∃ P2,
     Polymer_CheckMaskCollisions 0 0 w
     = Ok false (World.set_polymers (<[0%nat := P2]> (World.polymers w)) w) ∧
     Mask.start (Polymer.mask_ (polymer_at w 0)) = 20 ∧
     Mask.start (Polymer.mask_ P2) = 21).
Proof.
  cbv zeta. split.
  - assert (World.polymers w_at_mask !! 0%nat = Some (polymer_at w_at_mask 0))
      as H1 by (vm_compute; reflexivity).
    assert (World.polymerases w_at_mask !! 0%nat = Some (polymerase_at w_at_mask 0))
      as H2 by (vm_compute; reflexivity).
    assert (Mask.start (Polymer.mask_ (polymer_at w_at_mask 0))
            ≤ Polymer.stop_ (polymer_at w_at_mask 0)) as H3
      by (vm_compute; discriminate).
    assert (Mask.start (Polymer.mask_ (polymer_at w_at_mask 0))
            ≤ Polymerase.stop (polymerase_at w_at_mask 0)) as H4
      by (vm_compute; discriminate).
    split; [exact H1|]. split; [exact H2|]. split; [exact H3|]. split; [exact H4|].
    destruct (CheckMaskCollisions_resolution _ _ _ _ _ H1 H2 H3 H4)
      as (_ & _ & Hreject & Hsafe).
    split.
    + apply Hreject; [vm_compute; discriminate | vm_compute; reflexivity].
    + apply Hsafe. vm_compute; discriminate.
  - assert (World.polymers w_at_open_mask !! 0%nat = Some (polymer_at w_at_open_mask 0))
      as H1 by (vm_compute; reflexivity).
    assert (World.polymerases w_at_open_mask !! 0%nat
            = Some (polymerase_at w_at_open_mask 0))
      as H2 by (vm_compute; reflexivity).
    assert (Mask.start (Polymer.mask_ (polymer_at w_at_open_mask 0))
            ≤ Polymer.stop_ (polymer_at w_at_open_mask 0)) as H3
      by (vm_compute; discriminate).
    assert (Mask.start (Polymer.mask_ (polymer_at w_at_open_mask 0))
            ≤ Polymerase.stop (polymerase_at w_at_open_mask 0)) as H4
      by (vm_compute; discriminate).
    assert (Polymerase.stop (polymerase_at w_at_open_mask 0)
            - Mask.start (Polymer.mask_ (polymer_at w_at_open_mask 0)) ≤ 0) as H5
      by (vm_compute; discriminate).
    assert (Mask.CheckInteraction (Polymerase.name (polymerase_at w_at_open_mask 0))
              (Polymer.mask_ (polymer_at w_at_open_mask 0)) = true) as H6
      by (vm_compute; reflexivity).
    assert (Forall (λ iv, is_Some (Polymer.promoters (polymer_at w_at_open_mask 0)
                                     !! Interval.value iv))
                   (Polymer.binding_sites_ (polymer_at w_at_open_mask 0))) as H7.
    { assert (Polymer.binding_sites_ (polymer_at w_at_open_mask 0)
              = [Interval.mk 10 19 0]) as -> by (vm_compute; reflexivity).
      constructor; [apply not_eq_None_Some; vm_compute; discriminate | constructor]. }
    assert (Mask.start (Polymer.mask_ (polymer_at w_at_open_mask 0)) = 20) as H8
      by (vm_compute; reflexivity).
    split; [exact H1|]. split; [exact H2|]. split; [exact H3|]. split; [exact H4|].
    destruct (CheckMaskCollisions_resolution _ _ _ _ _ H1 H2 H3 H4)
      as (_ & Hadmit & _ & _).
    destruct (Hadmit H5 H6 H7) as (P2 & _ & Hstart & Hcheck & _).
    exists P2. split; [exact Hcheck|]. split; [exact H8|].
    rewrite Hstart. vm_compute. reflexivity.
Defined.

End MemberRuns.
